(** * DND-DB-BUILDER: the sync engine of [server.js]

    A shallow embedding of the synchroniser that mirrors the D&D 5e REST API
    into a MySQL database: the JavaScript values the detail documents are made
    of, the record mappers, the SQL statements the code sends and the tables
    of the schema they act on, the per-item transaction of the enriched
    resources and the two orchestration loops ([syncResource] and the seven
    [sync<Resource>] functions), with the process that runs them where a
    rejected promise has no handler; and the script of the control panel
    ([public/index.html]) that requests the syncs. *)

From stdpp Require Import gmap strings list.
From Stdlib Require Import ZArith Ascii DecimalString.

Open Scope string_scope.
Set Warnings "-register-all".

(** ** JavaScript values

    A detail document is what [response.json()] returns; the mappers add
    [undefined] (a property that is not there).  Numbers are the integer
    fragment of JavaScript numbers: the code never computes with them, it
    copies them into records and prints counts into messages. *)

Inductive jsval : Type :=
| JUndefined
| JNull
| JBool (b : bool)
| JNum (n : Z)
| JStr (s : string)
| JArr (xs : list jsval)
| JObj (fields : list (string * jsval)).

Definition squote : string := String (ascii_of_nat 39) EmptyString.
Definition dquote : string := String (ascii_of_nat 34) EmptyString.
Definition backslash : string := String (ascii_of_nat 92) EmptyString.
(** The separator of [desc.join('\n\n')]: two line feeds. *)
Definition nl : string := String (ascii_of_nat 10) EmptyString.
Definition blank_line : string := nl ++ nl.

Definition dec (n : Z) : string := NilZero.string_of_int (Z.to_int n).

(** What a thrown or rejected error is; [error_message] is its [.message].
    The texts that come from the engine and from the libraries are kept
    short: the engine names the whole expression before [is not a function],
    node-fetch adds the reason to a request that failed, and MySQL spells
    out the entry of a duplicate key. *)
Inductive error : Type :=
| CannotRead (of_null : bool) (prop : string)
| NotAFunction (prop : string)
| NotIterable (what : string)
| FetchFailed (url : string)
| SqlError (code : string) (detail : string)
| FailedOn (resourceName : string) (recordName : string) (cause : error).

Fixpoint error_message (e : error) : string :=
  match e with
  | CannotRead of_null prop =>
      "Cannot read properties of " ++ (if of_null then "null" else "undefined")
        ++ " (reading " ++ squote ++ prop ++ squote ++ ")"
  | NotAFunction prop => prop ++ " is not a function"
  | NotIterable what => what ++ " is not iterable"
  | FetchFailed url => "request to " ++ url ++ " failed"
  | SqlError code detail => code ++ ": " ++ detail
  | FailedOn r n cause => "Failed on " ++ r ++ " " ++ n ++ ": " ++ error_message cause
  end.

Inductive result (A : Type) : Type :=
| Ok (a : A)
| Err (e : error).
Arguments Ok {A} a.
Arguments Err {A} e.

#[global] Instance result_ret : MRet result := fun _ a => Ok a.
#[global] Instance result_bind : MBind result := fun _ _ k r =>
  match r with
  | Ok a => k a
  | Err e => Err e
  end.
#[global] Instance result_fmap : FMap result := fun _ _ f r =>
  match r with
  | Ok a => Ok (f a)
  | Err e => Err e
  end.

Fixpoint rmap {A B} (f : A -> result B) (l : list A) : result (list B) :=
  match l with
  | [] => Ok []
  | x :: rest => y ← f x; ys ← rmap f rest; Ok (y :: ys)
  end.

Definition is_ok {A} (r : result A) : bool :=
  match r with Ok _ => true | Err _ => false end.

(** [o.k]: reading a property of [undefined] or [null] throws; a property
    that is not there reads as [undefined]; arrays and strings have [length]. *)
Fixpoint assoc {A} (k : string) (l : list (string * A)) : option A :=
  match l with
  | [] => None
  | (k', v) :: rest => if String.eqb k k' then Some v else assoc k rest
  end.

Definition get (o : jsval) (k : string) : result jsval :=
  match o with
  | JUndefined => Err (CannotRead false k)
  | JNull => Err (CannotRead true k)
  | JObj fields => Ok (default JUndefined (assoc k fields))
  | JArr xs => Ok (if String.eqb k "length" then JNum (Z.of_nat (length xs)) else JUndefined)
  | JStr s => Ok (if String.eqb k "length" then JNum (Z.of_nat (String.length s)) else JUndefined)
  | _ => Ok JUndefined
  end.

(** Truthiness, as [?:], [||], [if] and [filter(Boolean)] use it. *)
Definition truthy (v : jsval) : bool :=
  match v with
  | JUndefined | JNull => false
  | JBool b => b
  | JNum n => negb (n =? 0)%Z
  | JStr s => negb (String.eqb s EmptyString)
  | JArr _ | JObj _ => true
  end.

(** [a || b] on values. *)
Definition js_or (a b : jsval) : jsval := if truthy a then a else b.

(** [String(v)], which template literals apply; an array prints its elements
    separated by commas, with [null] and [undefined] elements as empty text. *)
Fixpoint js_String (v : jsval) : string :=
  match v with
  | JUndefined => "undefined"
  | JNull => "null"
  | JBool b => if b then "true" else "false"
  | JNum n => dec n
  | JStr s => s
  | JArr xs =>
      String.concat ","
        (map (fun x => match x with
                       | JUndefined | JNull => EmptyString
                       | _ => js_String x
                       end) xs)
  | JObj _ => "[object Object]"
  end.

Definition join_elem (x : jsval) : string :=
  match x with
  | JUndefined | JNull => EmptyString
  | _ => js_String x
  end.

(** A method of [Array.prototype] called on [v.k]: anything but an array has
    no such method. *)
Definition as_array (method : string) (v : jsval) : result (list jsval) :=
  match v with
  | JArr xs => Ok xs
  | JUndefined => Err (CannotRead false method)
  | JNull => Err (CannotRead true method)
  | _ => Err (NotAFunction method)
  end.

(** [v.join(sep)]. *)
Definition js_join (v : jsval) (sep : string) : result jsval :=
  xs ← as_array "join" v; Ok (JStr (String.concat sep (map join_elem xs))).

(** [v.map(f)]. *)
Definition js_map (v : jsval) (f : jsval -> result jsval) : result jsval :=
  xs ← as_array "map" v; ys ← rmap f xs; Ok (JArr ys).

(** [v.filter(Boolean)]. *)
Definition js_filter_Boolean (v : jsval) : result jsval :=
  xs ← as_array "filter" v; Ok (JArr (filter (fun x => truthy x = true) xs)).

(** What [for (const x of v)] iterates: the elements of an array, the
    characters of a string; nothing else a document holds is iterable. *)
Definition chars (s : string) : list jsval :=
  map (fun c => JStr (String c EmptyString)) (String.list_ascii_of_string s).

Definition iterate (what : string) (v : jsval) : result (list jsval) :=
  match v with
  | JArr xs => Ok xs
  | JStr s => Ok (chars s)
  | _ => Err (NotIterable what)
  end.

(** [JSON.stringify]: the text of a value, and [undefined] for [undefined].
    Inside an array [undefined] prints as null, inside an object the property
    is left out. *)
Definition hex_digit (n : nat) : string :=
  String (ascii_of_nat (if (n <? 10)%nat then 48 + n else 87 + n)) EmptyString.

Definition escape_char (c : ascii) : string :=
  let n := nat_of_ascii c in
  if (n =? 34)%nat then backslash ++ dquote
  else if (n =? 92)%nat then backslash ++ backslash
  else if (n =? 8)%nat then backslash ++ "b"
  else if (n =? 9)%nat then backslash ++ "t"
  else if (n =? 10)%nat then backslash ++ "n"
  else if (n =? 12)%nat then backslash ++ "f"
  else if (n =? 13)%nat then backslash ++ "r"
  else if (n <? 32)%nat then backslash ++ "u00" ++ hex_digit (n / 16) ++ hex_digit (n mod 16)
  else String c EmptyString.

Definition json_quote (s : string) : string :=
  dquote ++ String.concat EmptyString (map escape_char (String.list_ascii_of_string s)) ++ dquote.

Definition is_undefined (v : jsval) : bool :=
  match v with JUndefined => true | _ => false end.

Fixpoint json_text (v : jsval) : string :=
  match v with
  | JUndefined | JNull => "null"
  | JBool b => if b then "true" else "false"
  | JNum n => dec n
  | JStr s => json_quote s
  | JArr xs => "[" ++ String.concat "," (map json_text xs) ++ "]"
  | JObj fields =>
      "{" ++ String.concat ","
               (flat_map (fun kv => if is_undefined (snd kv) then []
                                    else [json_quote (fst kv) ++ ":" ++ json_text (snd kv)])
                         fields) ++ "}"
  end.

Definition JSON_stringify (v : jsval) : jsval :=
  match v with
  | JUndefined => JUndefined
  | _ => JStr (json_text v)
  end.

(** A [Set] of values, as [processedConditions] and [processedSpells] are:
    primitives are compared by value, an object or array only equals itself,
    and each element of a parsed document is an object of its own. *)
Definition same_value (a b : jsval) : bool :=
  match a, b with
  | JUndefined, JUndefined => true
  | JNull, JNull => true
  | JBool x, JBool y => Bool.eqb x y
  | JNum x, JNum y => (x =? y)%Z
  | JStr x, JStr y => String.eqb x y
  | _, _ => false
  end.

Definition set_has (s : list jsval) (v : jsval) : bool :=
  existsb (same_value v) s.

Definition set_add (s : list jsval) (v : jsval) : list jsval :=
  if set_has s v then s else s ++ [v].

(** ** The database

    A stored value is a scalar.  The driver writes each parameter into the
    statement text ([SqlString.escape]): [undefined] and [null] become NULL; an
    array becomes the list of its elements, so an array of one element stands
    for that element (an object inside it is written as its [toString()], an
    array inside it as a list in parentheses), while an empty array or an
    array of several elements leaves a statement the server refuses; an
    object becomes a list of assignments, which the server refuses where a
    value is expected.  Values are compared as they were bound: column types,
    lengths and collations are not part of the model, nor are the columns the
    server fills by itself ([id], [last_updated]). *)

Inductive sqlval : Type :=
| SNull
| SBool (b : bool)
| SNum (n : Z)
| SText (s : string).

#[global] Instance sqlval_eq_dec : EqDecision sqlval.
Proof. solve_decision. Defined.

Definition is_null (v : sqlval) : bool :=
  match v with SNull => true | _ => false end.

Fixpoint bind (v : jsval) : result sqlval :=
  match v with
  | JUndefined | JNull => Ok SNull
  | JBool b => Ok (SBool b)
  | JNum n => Ok (SNum n)
  | JStr s => Ok (SText s)
  | JArr [JObj _] => Ok (SText "[object Object]")
  | JArr [x] => bind x
  | JArr _ | JObj _ => Err (SqlError "ER_PARSE_ERROR" "a parameter that is not a scalar")
  end.

(** Inside the object of [INSERT ... SET ?] the driver stringifies a nested
    object. *)
Definition bind_set (v : jsval) : result sqlval :=
  match v with
  | JObj _ => Ok (SText "[object Object]")
  | _ => bind v
  end.

(** A table of the schema: its columns in the order of the [CREATE TABLE],
    those declared [NOT NULL], and the columns of its [UNIQUE KEY] (none for
    the three class tables that have no such key). *)
Record table_schema : Type := {
  columns : list string;
  not_null : list string;
  unique_key : list string
}.

Definition row : Type := list (string * sqlval).

Definition row_get (r : row) (c : string) : sqlval := default SNull (assoc c r).

Definition key_of (sch : table_schema) (r : row) : option (list sqlval) :=
  match unique_key sch with
  | [] => None
  | ks => let k := map (row_get r) ks in
          if existsb is_null k then None else Some k
  end.

(** Two rows collide on the unique key; NULL never collides. *)
Definition conflicts (sch : table_schema) (r r' : row) : bool :=
  match key_of sch r, key_of sch r' with
  | Some k, Some k' => bool_decide (k = k')
  | _, _ => false
  end.

(** The row a statement writes: the listed columns take the bound
    parameters, the others NULL; a NOT NULL column refuses NULL. *)
Definition make_row (sch : table_schema) (cols : list string) (vals : list sqlval)
  : result row :=
  if negb (length cols =? length vals)%nat then
    Err (SqlError "ER_WRONG_VALUE_COUNT_ON_ROW" "Column count does not match value count")
  else
    match List.find (fun c => negb (bool_decide (c ∈ columns sch))) cols with
    | Some c => Err (SqlError "ER_BAD_FIELD_ERROR" ("Unknown column " ++ squote ++ c ++ squote))
    | None =>
        let given := zip cols vals in
        let r := map (fun c => (c, default SNull (assoc c given))) (columns sch) in
        match List.find (fun c => is_null (row_get r c)) (not_null sch) with
        | Some c => Err (SqlError "ER_BAD_NULL_ERROR"
                           ("Column " ++ squote ++ c ++ squote ++ " cannot be null"))
        | None => Ok r
        end
    end.

(** [ON DUPLICATE KEY UPDATE c = VALUES(c), ...] on the row that collides. *)
Definition update_row (upd : list string) (new old : row) : row :=
  map (fun cv => if bool_decide (fst cv ∈ upd) then (fst cv, row_get new (fst cv)) else cv) old.

Fixpoint upsert_row (sch : table_schema) (upd : list string) (new : row) (tbl : list row)
  : list row :=
  match tbl with
  | [] => [new]
  | old :: rest =>
      if conflicts sch new old then update_row upd new old :: rest
      else old :: upsert_row sch upd new rest
  end.

Definition insert_row (sch : table_schema) (new : row) (tbl : list row)
  : result (list row) :=
  if existsb (conflicts sch new) tbl then
    Err (SqlError "ER_DUP_ENTRY" "Duplicate entry for the unique key")
  else Ok (tbl ++ [new])%list.

(** [DELETE FROM t WHERE col = v]: [col = NULL] holds of no row. *)
Definition delete_rows (col : string) (v : sqlval) (tbl : list row) : list row :=
  if is_null v then tbl
  else filter (fun r => row_get r col ≠ v) tbl.

(** The statements [server.js] sends, with their parameters still unbound. *)
Inductive stmt : Type :=
| InsertOnDup (table : string) (cols upd : list string) (params : list jsval)
| InsertValues (table : string) (cols : list string) (params : list jsval)
| InsertSet (table : string) (record : list (string * jsval))
| DeleteWhere (table col : string) (param : jsval).

(** The tables [server.js] writes, from the schema script. *)
Definition parent (cols : list string) (nn : list string) : table_schema :=
  {| columns := "index" :: "name" :: cols; not_null := "index" :: nn; unique_key := ["index"] |}.

Definition link (nn : bool) (pcol ccol : string) (extra : list string) : table_schema :=
  {| columns := pcol :: ccol :: extra;
     not_null := if nn then [pcol; ccol] else [];
     unique_key := [pcol; ccol] |}.

Definition plain (cols : list string) : table_schema :=
  {| columns := cols; not_null := []; unique_key := [] |}.

Definition schema : list (string * table_schema) :=
  [ ("ability_scores", parent ["description"] ["name"]);
    ("skills", parent ["description"; "ability_score"] ["name"]);
    ("languages", parent ["type"; "typical_speakers"; "script"] ["name"]);
    ("alignments", parent ["abbreviation"; "description"] ["name"; "abbreviation"]);
    ("rule_sections", parent ["description"] ["name"]);
    ("rules", parent ["description"; "rule_section_index"] ["name"]);
    ("backgrounds",
      parent ["starting_proficiencies"; "language_options"; "starting_equipment";
              "feature_name"; "feature_desc"; "personality_traits"; "ideals"; "bonds";
              "flaws"] ["name"]);
    ("feats", parent ["prerequisites"; "description"] ["name"]);
    ("races",
      parent ["speed"; "ability_bonuses"; "alignment"; "age"; "size"; "size_description";
              "language_desc"] ["name"]);
    ("race_proficiencies", link true "race_index" "proficiency_index" []);
    ("race_languages", link true "race_index" "language_index" []);
    ("race_traits", link true "race_index" "trait_index" []);
    ("subraces", parent ["race_index"; "description"; "ability_bonuses"] ["name"]);
    ("classes", parent ["hit_die"; "saving_throws"; "multi_classing"; "spellcasting"] ["name"]);
    ("class_levels",
      link false "class_index" "level"
        ["ability_score_bonuses"; "prof_bonus"; "features"; "class_specific"]);
    ("class_spells", link false "class_index" "spell_index" ["level_acquired"]);
    ("class_proficiency_choices",
      plain ["class_index"; "choice_index"; "description"; "choose"; "type"; "options"]);
    ("class_starting_equipment", plain ["class_index"; "equipment_index"; "quantity"]);
    ("class_starting_equipment_options",
      plain ["class_index"; "choice_index"; "description"; "choose"; "options"]);
    ("subclasses", parent ["class_index"; "subclass_flavor"; "description"] ["name"]);
    ("subclass_levels", link false "subclass_index" "level" ["features"]);
    ("subclass_spells", link false "subclass_index" "spell_index" ["prerequisites"]);
    ("features", parent ["class"; "subclass"; "level"; "description"] ["name"]);
    ("traits", parent ["description"] ["name"]);
    ("trait_races", link true "trait_index" "race_index" []);
    ("trait_subraces", link true "trait_index" "subrace_index" []);
    ("trait_proficiencies", link true "trait_index" "proficiency_index" []);
    ("proficiencies", parent ["type"; "reference_index"] []);
    ("proficiency_classes", link true "proficiency_index" "class_index" []);
    ("proficiency_races", link true "proficiency_index" "race_index" []);
    ("spells",
      parent ["description"; "higher_level"; "spell_range"; "components"; "material";
              "ritual"; "duration"; "concentration"; "casting_time"; "spell_level";
              "school_index"; "damage"] ["name"]);
    ("spell_classes", link true "spell_index" "class_index" []);
    ("spell_subclasses", link true "spell_index" "subclass_index" []);
    ("magic_schools", parent ["description"] []);
    ("damage_types", parent ["description"] ["name"]);
    ("conditions", parent ["description"] ["name"]);
    ("weapon_properties", parent ["description"] ["name"]);
    ("equipment",
      parent ["equipment_category_index"; "gear_category"; "cost"; "weight"; "description";
              "weapon_category"; "weapon_range"; "category_range"; "damage";
              "two_handed_damage"; "range_info"; "properties"; "armor_category";
              "armor_class"; "str_minimum"; "stealth_disadvantage"; "contents";
              "speed_info"; "capacity"] ["name"]);
    ("equipment_categories", parent [] ["name"]);
    ("magic_items", parent ["equipment_category_index"; "rarity_name"; "description"] ["name"]);
    ("monsters",
      parent ["size"; "type"; "subtype"; "alignment"; "armor_class"; "hit_points";
              "hit_dice"; "speed"; "strength"; "dexterity"; "constitution"; "intelligence";
              "wisdom"; "charisma"; "damage_vulnerabilities"; "damage_resistances";
              "damage_immunities"; "senses"; "languages"; "challenge_rating"; "xp";
              "special_abilities"; "actions"; "legendary_actions"] ["name"]);
    ("monster_proficiencies", link true "monster_index" "proficiency_index" ["value"]);
    ("monster_condition_immunities", link true "monster_index" "condition_index" []) ].

Definition schema_of (t : string) : option table_schema := assoc t schema.

(** The store maps a table name to its rows, in insertion order. *)
Definition rows_of (d : gmap string (list row)) (t : string) : list row :=
  default [] (d !! t).

Definition with_table (t : string) (k : table_schema -> result (gmap string (list row)))
  : result (gmap string (list row)) :=
  match schema_of t with
  | Some sch => k sch
  | None => Err (SqlError "ER_NO_SUCH_TABLE" ("Table " ++ squote ++ t ++ squote ++ " does not exist"))
  end.

Definition exec (s : stmt) (d : gmap string (list row)) : result (gmap string (list row)) :=
  match s with
  | InsertOnDup t cols upd params =>
      with_table t (fun sch =>
        vals ← rmap bind params;
        r ← make_row sch cols vals;
        Ok (<[t := upsert_row sch upd r (rows_of d t)]> d))
  | InsertValues t cols params =>
      with_table t (fun sch =>
        vals ← rmap bind params;
        r ← make_row sch cols vals;
        tbl ← insert_row sch r (rows_of d t);
        Ok (<[t := tbl]> d))
  | InsertSet t record =>
      with_table t (fun sch =>
        vals ← rmap bind_set (map snd record);
        r ← make_row sch (map fst record) vals;
        tbl ← insert_row sch r (rows_of d t);
        Ok (<[t := tbl]> d))
  | DeleteWhere t col param =>
      with_table t (fun sch =>
        v ← bind param;
        if bool_decide (col ∈ columns sch) then
          Ok (<[t := delete_rows col v (rows_of d t)]> d)
        else Err (SqlError "ER_BAD_FIELD_ERROR" ("Unknown column " ++ squote ++ col ++ squote)))
  end.

(** ** The body of a transaction

    [queryAsync] sends one statement and the code never reads what it
    resolves to, so the body of a transaction is the sequence of statements it
    sends, ended by its normal completion or by an error thrown while it maps
    the document.  The connection runs the statements in order and rejects at
    the first one the server refuses, which throws at that [await]. *)

Record W (A : Type) : Type := mkW { issued : list stmt; outcome : result A }.
Arguments mkW {A} issued outcome.
Arguments issued {A} w.
Arguments outcome {A} w.

#[global] Instance W_ret : MRet W := fun _ a => mkW [] (Ok a).
#[global] Instance W_bind : MBind W := fun _ _ k w =>
  match outcome w with
  | Ok a => mkW (issued w ++ issued (k a))%list (outcome (k a))
  | Err e => mkW (issued w) (Err e)
  end.

Definition queryAsync (s : stmt) : W unit := mkW [s] (Ok tt).

(** A computation that sends nothing. *)
Definition pure {A} (r : result A) : W A := mkW [] r.

(** [for (const x of xs) body], and the same loop threading the [Set] it
    fills. *)
Fixpoint for_of {A} (xs : list A) (body : A -> W unit) : W unit :=
  match xs with
  | [] => mret tt
  | x :: rest => body x ;; for_of rest body
  end.

Fixpoint for_of_with {A S} (xs : list A) (s : S) (body : S -> A -> W S) : W S :=
  match xs with
  | [] => mret s
  | x :: rest => s' ← body s x; for_of_with rest s' body
  end.

(** An object literal: its properties are evaluated in order. *)
Fixpoint object (fields : list (string * result jsval)) : result (list (string * jsval)) :=
  match fields with
  | [] => Ok []
  | (k, r) :: rest => v ← r; vs ← object rest; Ok ((k, v) :: vs)
  end.

Definition Object_values (record : list (string * jsval)) : list jsval := map snd record.

(** [arr.entries()]: the elements with their positions. *)
Definition entries (xs : list jsval) : list (Z * jsval) :=
  imap (fun i x => (Z.of_nat i, x)) xs.

Fixpoint exec_all (ss : list stmt) (d : gmap string (list row))
  : result unit * gmap string (list row) :=
  match ss with
  | [] => (Ok tt, d)
  | s :: rest =>
      match exec s d with
      | Ok d' => exec_all rest d'
      | Err e => (Err e, d)
      end
  end.

Definition run (w : W unit) (d : gmap string (list row))
  : result unit * gmap string (list row) :=
  match exec_all (issued w) d with
  | (Ok _, d') => (outcome w, d')
  | (Err e, d') => (Err e, d')
  end.

(** [beginTransaction], the body, then [commit]; the [catch] rolls back to
    the state the transaction began in and rejects with the error. *)
Definition transaction (w : W unit) (d : gmap string (list row))
  : result unit * gmap string (list row) :=
  match run w d with
  | (Ok _, d') => (Ok tt, d')
  | (Err e, _) => (Err e, d)
  end.

(** ** The enriched resources: one transaction per item *)

Definition stringify_of (r : result jsval) : result jsval := JSON_stringify <$> r.

(** [v.map(x => x.key)]. *)
Definition pluck (key : string) (v : jsval) : result jsval :=
  js_map v (fun x => get x key).

(** Every upsert of [server.js] has the same text: it lists the columns of
    the record and, on a duplicate key, updates every column it lists after
    the first one, [index]. *)
Definition upsert_sql (table : string) (cols : list string) (params : list jsval) : stmt :=
  InsertOnDup table cols (tail cols) params.

(** The loop that fills a link table:
    [for (const x of detailData.field)
       INSERT INTO table (pcol, ccol) VALUES (detailData.index, x.index)]. *)
Definition link_loop (detailData : jsval) (field table pcol ccol : string) : W unit :=
  xs ← pure (get detailData field ≫= iterate ("detailData." ++ field));
  for_of xs (fun x =>
    index ← pure (get detailData "index");
    c ← pure (get x "index");
    queryAsync (InsertValues table [pcol; ccol] [index; c])).

Definition delete_for (detailData : jsval) (table pcol : string) : W unit :=
  index ← pure (get detailData "index");
  queryAsync (DeleteWhere table pcol index).

(** *** Classes *)

Definition classRecord (detailData : jsval) : result (list (string * jsval)) :=
  object
    [ ("index", get detailData "index"); ("name", get detailData "name");
      ("hit_die", get detailData "hit_die");
      ("saving_throws", stringify_of (get detailData "saving_throws" ≫= pluck "name"));
      ("multi_classing", stringify_of (get detailData "multi_classing"));
      ("spellcasting", stringify_of (get detailData "spellcasting")) ].

Definition classQuery : list jsval -> stmt :=
  upsert_sql "classes"
    ["index"; "name"; "hit_die"; "saving_throws"; "multi_classing"; "spellcasting"].

(** [choice.from.options.map(o => o.item ? o.item.index : null).filter(Boolean)]. *)
Definition proficiency_options (choice : jsval) : result jsval :=
  from ← get choice "from";
  options ← get from "options";
  mapped ← js_map options (fun o =>
    item ← get o "item";
    if truthy item then get item "index" else Ok JNull);
  js_filter_Boolean mapped.

(** The body of the loop over [detailData.proficiency_choices.entries()]. *)
Definition proficiency_choice (detailData : jsval) (ic : Z * jsval) : W unit :=
  choiceRecord ← pure (object
    [ ("class_index", get detailData "index");
      ("choice_index", Ok (JNum (fst ic)));
      ("description", get (snd ic) "desc");
      ("choose", get (snd ic) "choose");
      ("type", get (snd ic) "type");
      ("options", stringify_of (proficiency_options (snd ic))) ]);
  queryAsync (InsertSet "class_proficiency_choices" choiceRecord).

(** The body of the loop over [detailData.starting_equipment]:
    [if (item.equipment && item.equipment.index) INSERT ...]. *)
Definition starting_equipment_item (detailData item : jsval) : W unit :=
  equipment ← pure (get item "equipment");
  wanted ← pure (if truthy equipment then truthy <$> get equipment "index" else Ok false);
  if wanted : bool then
    index ← pure (get detailData "index");
    equipment_index ← pure (get item "equipment" ≫= fun e => get e "index");
    quantity ← pure (get item "quantity");
    queryAsync (InsertValues "class_starting_equipment"
                  ["class_index"; "equipment_index"; "quantity"]
                  [index; equipment_index; quantity])
  else mret tt.

Definition class_body (detailData levelsData spellsData : jsval) : W unit :=
  record ← pure (classRecord detailData);
  queryAsync (classQuery (Object_values record));;
  delete_for detailData "class_levels" "class_index";;
  delete_for detailData "class_spells" "class_index";;
  delete_for detailData "class_proficiency_choices" "class_index";;
  delete_for detailData "class_starting_equipment" "class_index";;
  delete_for detailData "class_starting_equipment_options" "class_index";;
  levels ← pure (iterate "levelsData" levelsData);
  for_of levels (fun level =>
    levelRecord ← pure (object
      [ ("class_index", get detailData "index");
        ("level", get level "level");
        ("ability_score_bonuses", get level "ability_score_bonuses");
        ("prof_bonus", get level "prof_bonus");
        ("features", stringify_of (get level "features" ≫= pluck "name"));
        ("class_specific", stringify_of (get level "class_specific")) ]);
    queryAsync (InsertSet "class_levels" levelRecord));;
  match spellsData with
  | JArr spells =>
      for_of spells (fun spell =>
        index ← pure (get detailData "index");
        spell_index ← pure (get spell "index");
        level ← pure (get spell "level");
        queryAsync (InsertValues "class_spells"
                      ["class_index"; "spell_index"; "level_acquired"]
                      [index; spell_index; level]))
  | _ => mret tt
  end;;
  choices ← pure (get detailData "proficiency_choices" ≫= as_array "entries");
  for_of (entries choices) (proficiency_choice detailData);;
  starting_equipment ←
    pure (get detailData "starting_equipment" ≫= iterate "detailData.starting_equipment");
  for_of starting_equipment (starting_equipment_item detailData);;
  options ← pure (get detailData "starting_equipment_options" ≫= as_array "entries");
  for_of (entries options) (fun ic =>
    choiceRecord ← pure (object
      [ ("class_index", get detailData "index");
        ("choice_index", Ok (JNum (fst ic)));
        ("description", get (snd ic) "desc");
        ("choose", get (snd ic) "choose");
        ("options", stringify_of (get (snd ic) "from" ≫= fun f => get f "options")) ]);
    queryAsync (InsertSet "class_starting_equipment_options" choiceRecord)).

(** *** Monsters *)

Definition monsterRecord (detailData : jsval) : result (list (string * jsval)) :=
  object
    [ ("index", get detailData "index"); ("name", get detailData "name");
      ("size", get detailData "size"); ("type", get detailData "type");
      ("subtype", v ← get detailData "subtype"; Ok (js_or v JNull));
      ("alignment", get detailData "alignment");
      ("armor_class", stringify_of (get detailData "armor_class"));
      ("hit_points", get detailData "hit_points"); ("hit_dice", get detailData "hit_dice");
      ("speed", stringify_of (get detailData "speed"));
      ("strength", get detailData "strength"); ("dexterity", get detailData "dexterity");
      ("constitution", get detailData "constitution");
      ("intelligence", get detailData "intelligence");
      ("wisdom", get detailData "wisdom"); ("charisma", get detailData "charisma");
      ("damage_vulnerabilities", stringify_of (get detailData "damage_vulnerabilities"));
      ("damage_resistances", stringify_of (get detailData "damage_resistances"));
      ("damage_immunities", stringify_of (get detailData "damage_immunities"));
      ("senses", stringify_of (get detailData "senses"));
      ("languages", get detailData "languages");
      ("challenge_rating", get detailData "challenge_rating"); ("xp", get detailData "xp");
      ("special_abilities", stringify_of (get detailData "special_abilities"));
      ("actions", stringify_of (get detailData "actions"));
      ("legendary_actions", stringify_of (get detailData "legendary_actions")) ].

Definition monsterQuery : list jsval -> stmt :=
  upsert_sql "monsters"
    ["index"; "name"; "size"; "type"; "subtype"; "alignment"; "armor_class"; "hit_points";
     "hit_dice"; "speed"; "strength"; "dexterity"; "constitution"; "intelligence"; "wisdom";
     "charisma"; "damage_vulnerabilities"; "damage_resistances"; "damage_immunities";
     "senses"; "languages"; "challenge_rating"; "xp"; "special_abilities"; "actions";
     "legendary_actions"].

(** The body of the loop over [detailData.proficiencies]. *)
Definition monster_proficiency (detailData prof : jsval) : W unit :=
  profRecord ← pure (object
    [ ("monster_index", get detailData "index");
      ("proficiency_index", get prof "proficiency" ≫= fun p => get p "index");
      ("value", get prof "value") ]);
  queryAsync (InsertSet "monster_proficiencies" profRecord).

(** The body of the loop over [detailData.condition_immunities], with the
    [Set] of the indexes already inserted. *)
Definition condition_immunity (detailData : jsval) (processedConditions : list jsval)
  (cond : jsval) : W (list jsval) :=
  c ← pure (get cond "index");
  if set_has processedConditions c then mret processedConditions
  else
    index ← pure (get detailData "index");
    condition_index ← pure (get cond "index");
    queryAsync (InsertValues "monster_condition_immunities"
                  ["monster_index"; "condition_index"] [index; condition_index]);;
    added ← pure (get cond "index");
    mret (set_add processedConditions added).

Definition monster_body (detailData : jsval) : W unit :=
  record ← pure (monsterRecord detailData);
  queryAsync (monsterQuery (Object_values record));;
  delete_for detailData "monster_proficiencies" "monster_index";;
  delete_for detailData "monster_condition_immunities" "monster_index";;
  proficiencies ← pure (get detailData "proficiencies" ≫= iterate "detailData.proficiencies");
  for_of proficiencies (monster_proficiency detailData);;
  condition_immunities ←
    pure (get detailData "condition_immunities" ≫= iterate "detailData.condition_immunities");
  for_of_with condition_immunities [] (condition_immunity detailData);;
  mret tt.

(** *** Proficiencies *)

Definition profRecord (detailData : jsval) : result (list (string * jsval)) :=
  object
    [ ("index", get detailData "index"); ("name", get detailData "name");
      ("type", get detailData "type");
      ("reference_index",
        reference ← get detailData "reference";
        if truthy reference then get reference "index" else Ok JNull) ].

Definition profQuery : list jsval -> stmt :=
  upsert_sql "proficiencies" ["index"; "name"; "type"; "reference_index"].

Definition proficiency_body (detailData : jsval) : W unit :=
  record ← pure (profRecord detailData);
  queryAsync (profQuery (Object_values record));;
  delete_for detailData "proficiency_classes" "proficiency_index";;
  delete_for detailData "proficiency_races" "proficiency_index";;
  link_loop detailData "classes" "proficiency_classes" "proficiency_index" "class_index";;
  link_loop detailData "races" "proficiency_races" "proficiency_index" "race_index".

(** *** Races *)

Definition raceRecord (detailData : jsval) : result (list (string * jsval)) :=
  object
    [ ("index", get detailData "index"); ("name", get detailData "name");
      ("speed", get detailData "speed");
      ("ability_bonuses", stringify_of (get detailData "ability_bonuses"));
      ("alignment", get detailData "alignment"); ("age", get detailData "age");
      ("size", get detailData "size");
      ("size_description", get detailData "size_description");
      ("language_desc", get detailData "language_desc") ].

Definition raceQuery : list jsval -> stmt :=
  upsert_sql "races"
    ["index"; "name"; "speed"; "ability_bonuses"; "alignment"; "age"; "size";
     "size_description"; "language_desc"].

Definition race_body (detailData : jsval) : W unit :=
  record ← pure (raceRecord detailData);
  queryAsync (raceQuery (Object_values record));;
  delete_for detailData "race_proficiencies" "race_index";;
  delete_for detailData "race_languages" "race_index";;
  delete_for detailData "race_traits" "race_index";;
  link_loop detailData "starting_proficiencies" "race_proficiencies"
    "race_index" "proficiency_index";;
  link_loop detailData "languages" "race_languages" "race_index" "language_index";;
  link_loop detailData "traits" "race_traits" "race_index" "trait_index".

(** *** Spells *)

Definition spellRecord (detailData : jsval) : result (list (string * jsval)) :=
  object
    [ ("index", get detailData "index"); ("name", get detailData "name");
      ("description", desc ← get detailData "desc"; js_join desc blank_line);
      ("higher_level",
        higher_level ← get detailData "higher_level";
        if truthy higher_level then
          higher_level ← get detailData "higher_level"; js_join higher_level blank_line
        else Ok JNull);
      ("spell_range", get detailData "range");
      ("components", stringify_of (get detailData "components"));
      ("material", material ← get detailData "material"; Ok (js_or material JNull));
      ("ritual", get detailData "ritual");
      ("duration", get detailData "duration");
      ("concentration", get detailData "concentration");
      ("casting_time", get detailData "casting_time");
      ("spell_level", get detailData "level");
      ("school_index", school ← get detailData "school"; get school "index");
      ("damage", stringify_of (get detailData "damage")) ].

Definition spellQuery : list jsval -> stmt :=
  upsert_sql "spells"
    ["index"; "name"; "description"; "higher_level"; "spell_range"; "components";
     "material"; "ritual"; "duration"; "concentration"; "casting_time"; "spell_level";
     "school_index"; "damage"].

Definition spell_body (detailData : jsval) : W unit :=
  record ← pure (spellRecord detailData);
  queryAsync (spellQuery (Object_values record));;
  delete_for detailData "spell_classes" "spell_index";;
  delete_for detailData "spell_subclasses" "spell_index";;
  link_loop detailData "classes" "spell_classes" "spell_index" "class_index";;
  link_loop detailData "subclasses" "spell_subclasses" "spell_index" "subclass_index".

(** *** Subclasses *)

Definition subRecord (detailData : jsval) : result (list (string * jsval)) :=
  object
    [ ("index", get detailData "index"); ("name", get detailData "name");
      ("class_index", class ← get detailData "class"; get class "index");
      ("subclass_flavor", get detailData "subclass_flavor");
      ("description", desc ← get detailData "desc"; js_join desc blank_line) ].

Definition subQuery : list jsval -> stmt :=
  upsert_sql "subclasses" ["index"; "name"; "class_index"; "subclass_flavor"; "description"].

(** The body of the loop over [detailData.spells], with the [Set] of the
    spell indexes already inserted. *)
Definition subclass_spell (detailData : jsval) (processedSpells : list jsval)
  (spell : jsval) : W (list jsval) :=
  s ← pure (get spell "spell" ≫= fun sp => get sp "index");
  if set_has processedSpells s then mret processedSpells
  else
    spellRecord ← pure (object
      [ ("subclass_index", get detailData "index");
        ("spell_index", get spell "spell" ≫= fun sp => get sp "index");
        ("prerequisites", stringify_of (get spell "prerequisites" ≫= pluck "index")) ]);
    queryAsync (InsertSet "subclass_spells" spellRecord);;
    added ← pure (get spell "spell" ≫= fun sp => get sp "index");
    mret (set_add processedSpells added).

Definition subclass_body (detailData levelsData : jsval) : W unit :=
  record ← pure (subRecord detailData);
  queryAsync (subQuery (Object_values record));;
  delete_for detailData "subclass_levels" "subclass_index";;
  delete_for detailData "subclass_spells" "subclass_index";;
  levels ← pure (iterate "levelsData" levelsData);
  for_of levels (fun level =>
    levelRecord ← pure (object
      [ ("subclass_index", get detailData "index");
        ("level", get level "level");
        ("features", stringify_of (get level "features" ≫= pluck "index")) ]);
    queryAsync (InsertSet "subclass_levels" levelRecord));;
  spells ← pure (get detailData "spells");
  if truthy spells then
    spells ← pure (get detailData "spells" ≫= iterate "detailData.spells");
    for_of_with spells [] (subclass_spell detailData);;
    mret tt
  else mret tt.

(** *** Traits *)

Definition traitRecord (detailData : jsval) : result (list (string * jsval)) :=
  object
    [ ("index", get detailData "index"); ("name", get detailData "name");
      ("description", desc ← get detailData "desc"; js_join desc blank_line) ].

Definition traitQuery : list jsval -> stmt :=
  upsert_sql "traits" ["index"; "name"; "description"].

Definition trait_body (detailData : jsval) : W unit :=
  record ← pure (traitRecord detailData);
  queryAsync (traitQuery (Object_values record));;
  delete_for detailData "trait_races" "trait_index";;
  delete_for detailData "trait_subraces" "trait_index";;
  delete_for detailData "trait_proficiencies" "trait_index";;
  link_loop detailData "races" "trait_races" "trait_index" "race_index";;
  link_loop detailData "subraces" "trait_subraces" "trait_index" "subrace_index";;
  link_loop detailData "proficiencies" "trait_proficiencies" "trait_index" "proficiency_index".

(** ** The generic resources: one record builder each

    A builder returns [{ newRecord, sqlQuery }]. *)

Definition builder : Type := jsval -> result (list (string * jsval) * (list jsval -> stmt)).

Definition build (fields : list (string * result jsval)) (sqlQuery : list jsval -> stmt)
  : result (list (string * jsval) * (list jsval -> stmt)) :=
  newRecord ← object fields; Ok (newRecord, sqlQuery).

(** [v.desc.join('\n\n')]. *)
Definition desc_joined (v : jsval) : result jsval :=
  desc ← get v "desc"; js_join desc blank_line.

(** [v.field ? v.field.key : null]. *)
Definition opt_sub (v : jsval) (field key : string) : result jsval :=
  sub ← get v field;
  if truthy sub then sub ← get v field; get sub key else Ok JNull.

(** [v.field || null]. *)
Definition or_null (v : jsval) (field : string) : result jsval :=
  x ← get v field; Ok (js_or x JNull).

(** [v.field === undefined ? null : v.field]. *)
Definition undefined_to_null (v : jsval) (field : string) : result jsval :=
  x ← get v field; if is_undefined x then Ok JNull else get v field.

Definition ability_scores_builder : builder := fun detailData =>
  build
    [ ("index", get detailData "index"); ("name", get detailData "name");
      ("description", desc_joined detailData) ]
    (upsert_sql "ability_scores" ["index"; "name"; "description"]).

Definition rules_builder : builder := fun detailData =>
  build
    [ ("index", get detailData "index"); ("name", get detailData "name");
      ("description", get detailData "desc");
      ("rule_section_index", opt_sub detailData "rule_section" "index") ]
    (upsert_sql "rules" ["index"; "name"; "description"; "rule_section_index"]).

Definition rule_sections_builder : builder := fun detailData =>
  build
    [ ("index", get detailData "index"); ("name", get detailData "name");
      ("description", get detailData "desc") ]
    (upsert_sql "rule_sections" ["index"; "name"; "description"]).

Definition skills_builder : builder := fun detailData =>
  build
    [ ("index", get detailData "index"); ("name", get detailData "name");
      ("description", desc_joined detailData);
      ("ability_score", a ← get detailData "ability_score"; get a "name") ]
    (upsert_sql "skills" ["index"; "name"; "description"; "ability_score"]).

Definition subraces_builder : builder := fun detailData =>
  build
    [ ("index", get detailData "index"); ("name", get detailData "name");
      ("race_index", race ← get detailData "race"; get race "index");
      ("description", or_null detailData "desc");
      ("ability_bonuses", stringify_of (get detailData "ability_bonuses")) ]
    (upsert_sql "subraces" ["index"; "name"; "race_index"; "description"; "ability_bonuses"]).

Definition magic_schools_builder : builder := fun detailData =>
  build
    [ ("index", get detailData "index"); ("name", get detailData "name");
      ("description", get detailData "desc") ]
    (upsert_sql "magic_schools" ["index"; "name"; "description"]).

Definition languages_builder : builder := fun detailData =>
  build
    [ ("index", get detailData "index"); ("name", get detailData "name");
      ("type", get detailData "type");
      ("typical_speakers", stringify_of (get detailData "typical_speakers"));
      ("script", get detailData "script") ]
    (upsert_sql "languages" ["index"; "name"; "type"; "typical_speakers"; "script"]).

Definition features_builder : builder := fun detailData =>
  build
    [ ("index", get detailData "index"); ("name", get detailData "name");
      ("class", class ← get detailData "class"; get class "name");
      ("subclass", opt_sub detailData "subclass" "name");
      ("level", get detailData "level");
      ("description", desc_joined detailData) ]
    (upsert_sql "features" ["index"; "name"; "class"; "subclass"; "level"; "description"]).

Definition equipment_categories_builder : builder := fun detailData =>
  build
    [ ("index", get detailData "index"); ("name", get detailData "name") ]
    (upsert_sql "equipment_categories" ["index"; "name"]).

Definition damage_types_builder : builder := fun detailData =>
  build
    [ ("index", get detailData "index"); ("name", get detailData "name");
      ("description", desc_joined detailData) ]
    (upsert_sql "damage_types" ["index"; "name"; "description"]).

Definition conditions_builder : builder := fun detailData =>
  build
    [ ("index", get detailData "index"); ("name", get detailData "name");
      ("description", desc_joined detailData) ]
    (upsert_sql "conditions" ["index"; "name"; "description"]).

Definition equipment_builder : builder := fun detailData =>
  build
    [ ("index", get detailData "index"); ("name", get detailData "name");
      ("equipment_category_index", opt_sub detailData "equipment_category" "index");
      ("gear_category", opt_sub detailData "gear_category" "name");
      ("cost",
        cost ← get detailData "cost";
        if truthy cost then
          quantity ← get detailData "cost" ≫= (fun c => get c "quantity");
          unit ← get detailData "cost" ≫= (fun c => get c "unit");
          Ok (JStr (js_String quantity ++ " " ++ js_String unit))
        else Ok JNull);
      ("weight", or_null detailData "weight");
      ("description",
        desc ← get detailData "desc";
        if truthy desc then desc_joined detailData else Ok JNull);
      ("weapon_category", or_null detailData "weapon_category");
      ("weapon_range", or_null detailData "weapon_range");
      ("category_range", or_null detailData "category_range");
      ("damage", stringify_of (get detailData "damage"));
      ("two_handed_damage", stringify_of (get detailData "two_handed_damage"));
      ("range_info", stringify_of (get detailData "range"));
      ("properties",
        stringify_of (properties ← get detailData "properties";
                      if truthy properties then get detailData "properties" ≫= pluck "name"
                      else Ok (JArr [])));
      ("armor_category", or_null detailData "armor_category");
      ("armor_class", stringify_of (get detailData "armor_class"));
      ("str_minimum", undefined_to_null detailData "str_minimum");
      ("stealth_disadvantage", undefined_to_null detailData "stealth_disadvantage");
      ("contents", stringify_of (get detailData "contents"));
      ("speed_info", stringify_of (get detailData "speed"));
      ("capacity", or_null detailData "capacity") ]
    (upsert_sql "equipment"
       ["index"; "name"; "equipment_category_index"; "gear_category"; "cost"; "weight";
        "description"; "weapon_category"; "weapon_range"; "category_range"; "damage";
        "two_handed_damage"; "range_info"; "properties"; "armor_category"; "armor_class";
        "str_minimum"; "stealth_disadvantage"; "contents"; "speed_info"; "capacity"]).

Definition magic_items_builder : builder := fun detailData =>
  build
    [ ("index", get detailData "index"); ("name", get detailData "name");
      ("equipment_category_index", opt_sub detailData "equipment_category" "index");
      ("rarity_name", rarity ← get detailData "rarity"; get rarity "name");
      ("description", desc_joined detailData) ]
    (upsert_sql "magic_items"
       ["index"; "name"; "equipment_category_index"; "rarity_name"; "description"]).

Definition alignments_builder : builder := fun detailData =>
  build
    [ ("index", get detailData "index"); ("name", get detailData "name");
      ("abbreviation", get detailData "abbreviation");
      ("description", get detailData "desc") ]
    (upsert_sql "alignments" ["index"; "name"; "abbreviation"; "description"]).

(** [detailData.field.from.options.map(o => o.string)], stringified. *)
Definition option_strings (detailData : jsval) (field : string) : result jsval :=
  stringify_of (x ← get detailData field; from ← get x "from";
                options ← get from "options"; pluck "string" options).

Definition backgrounds_builder : builder := fun detailData =>
  build
    [ ("index", get detailData "index"); ("name", get detailData "name");
      ("starting_proficiencies",
        stringify_of (get detailData "starting_proficiencies" ≫= pluck "name"));
      ("language_options", stringify_of (get detailData "language_options"));
      ("starting_equipment",
        stringify_of (se ← get detailData "starting_equipment";
                      js_map se (fun e =>
                        JObj <$> object
                          [ ("name", get e "equipment" ≫= (fun q => get q "name"));
                            ("quantity", get e "quantity") ])));
      ("feature_name", feature ← get detailData "feature"; get feature "name");
      ("feature_desc", feature ← get detailData "feature"; desc_joined feature);
      ("personality_traits", option_strings detailData "personality_traits");
      ("ideals", option_strings detailData "ideals");
      ("bonds", option_strings detailData "bonds");
      ("flaws", option_strings detailData "flaws") ]
    (upsert_sql "backgrounds"
       ["index"; "name"; "starting_proficiencies"; "language_options"; "starting_equipment";
        "feature_name"; "feature_desc"; "personality_traits"; "ideals"; "bonds"; "flaws"]).

Definition feats_builder : builder := fun detailData =>
  build
    [ ("index", get detailData "index"); ("name", get detailData "name");
      ("prerequisites", stringify_of (get detailData "prerequisites"));
      ("description", desc_joined detailData) ]
    (upsert_sql "feats" ["index"; "name"; "prerequisites"; "description"]).

Definition weapon_properties_builder : builder := fun detailData =>
  build
    [ ("index", get detailData "index"); ("name", get detailData "name");
      ("description", desc_joined detailData) ]
    (upsert_sql "weapon_properties" ["index"; "name"; "description"]).

(** ** The remote API and the HTTP response *)

(** What [fetch(url)] followed by [.json()] yields: the parsed body, or
    nothing when the request or the parsing fails. *)
Definition remote : Type := string -> option jsval.

Definition fetch (net : remote) (url : string) : result jsval :=
  match net url with
  | Some body => Ok body
  | None => Err (FetchFailed url)
  end.

Definition api : string := "https://www.dnd5eapi.co".

Record response : Type := { status : Z; success : bool; message : string }.

Definition res_200 (msg : string) : response :=
  {| status := 200; success := true; message := msg |}.

(** [res.status(500).json({ success: false,
      message: error.message || 'An error occurred on the server.' })]. *)
Definition res_500 (e : error) : response :=
  {| status := 500; success := false;
     message := if String.eqb (error_message e) EmptyString
                then "An error occurred on the server."
                else error_message e |}.

Definition synced (label : string) (count : jsval) : string :=
  label ++ " synced successfully! " ++ js_String count ++ " records processed.".

(** ** The enriched path

    The seven [sync<Resource>] functions are one loop: for each entry of the
    list, in order, fetch the detail document (and what it refers to), then
    run one transaction; the first error leaves the loop for the [catch]. *)

(** What the loop does with one entry before the transaction: it logs the
    name, fetches the detail document and what the document refers to. *)
Definition entry_body (item : remote -> jsval -> result (W unit)) (net : remote)
  (entry : jsval) : result (W unit) :=
  _ ← get entry "name";
  url ← get entry "url";
  detailData ← fetch net (api ++ js_String url);
  item net detailData.

(** The variable that holds [listData.results] in [sync<Resource>]:
    [classEndpoints], [monsterEndpoints], ... *)
Definition endpoints_name (resource : string) : string :=
  default "endpoints"
    (assoc resource
       [ ("classes", "classEndpoints"); ("monsters", "monsterEndpoints");
         ("proficiencies", "proficiencyEndpoints"); ("races", "raceEndpoints");
         ("spells", "spellEndpoints"); ("subclasses", "subclassEndpoints");
         ("traits", "traitEndpoints") ]).

(** The list request: [listData.results] and the entries [for ... of]
    iterates. *)
Definition listing (net : remote) (resource : string) : result (jsval * list jsval) :=
  listData ← fetch net (api ++ "/api/" ++ resource);
  endpoints ← get listData "results";
  items ← iterate (endpoints_name resource) endpoints;
  Ok (endpoints, items).

Fixpoint enriched_loop (item : remote -> jsval -> result (W unit)) (net : remote)
  (endpoints : list jsval) (d : gmap string (list row))
  : result unit * gmap string (list row) :=
  match endpoints with
  | [] => (Ok tt, d)
  | entry :: rest =>
      match entry_body item net entry with
      | Err e => (Err e, d)
      | Ok body =>
          match transaction body d with
          | (Ok _, d') => enriched_loop item net rest d'
          | (Err e, d') => (Err e, d')
          end
      end
  end.

Definition enriched_sync (label resource : string)
  (item : remote -> jsval -> result (W unit)) (net : remote) (d : gmap string (list row))
  : response * gmap string (list row) :=
  match listing net resource with
  | Err e => (res_500 e, d)
  | Ok (endpoints, items) =>
      match enriched_loop item net items d with
      | (Err e, d') => (res_500 e, d')
      | (Ok _, d') =>
          match get endpoints "length" with
          | Ok n => (res_200 (synced label n), d')
          | Err e => (res_500 e, d')
          end
      end
  end.

Definition class_item (net : remote) (detailData : jsval) : result (W unit) :=
  class_levels ← get detailData "class_levels";
  levelsData ← fetch net (api ++ js_String class_levels);
  spells ← get detailData "spells";
  spellsData ←
    (if truthy spells then
       spells ← get detailData "spells";
       spellsJson ← fetch net (api ++ js_String spells);
       results ← get spellsJson "results";
       if truthy results then get spellsJson "results" else Ok (JArr [])
     else Ok (JArr []));
  Ok (class_body detailData levelsData spellsData).

Definition subclass_item (net : remote) (detailData : jsval) : result (W unit) :=
  subclass_levels ← get detailData "subclass_levels";
  levelsData ← fetch net (api ++ js_String subclass_levels);
  Ok (subclass_body detailData levelsData).

Definition monster_item (_ : remote) (detailData : jsval) : result (W unit) :=
  Ok (monster_body detailData).
Definition proficiency_item (_ : remote) (detailData : jsval) : result (W unit) :=
  Ok (proficiency_body detailData).
Definition race_item (_ : remote) (detailData : jsval) : result (W unit) :=
  Ok (race_body detailData).
Definition spell_item (_ : remote) (detailData : jsval) : result (W unit) :=
  Ok (spell_body detailData).
Definition trait_item (_ : remote) (detailData : jsval) : result (W unit) :=
  Ok (trait_body detailData).

Definition syncClasses := enriched_sync "Classes" "classes" class_item.
Definition syncMonsters := enriched_sync "Monsters" "monsters" monster_item.
Definition syncProficiencies := enriched_sync "Proficiencies" "proficiencies" proficiency_item.
Definition syncRaces := enriched_sync "Races" "races" race_item.
Definition syncSpells := enriched_sync "Spells" "spells" spell_item.
Definition syncSubclasses := enriched_sync "Subclasses" "subclasses" subclass_item.
Definition syncTraits := enriched_sync "Traits" "traits" trait_item.

(** ** The generic path: [syncResource]

    The loop awaits each detail fetch, builds the record and hands the query
    to the connection without awaiting it; the promises are awaited together
    after the loop.  The connection runs the queries in the order they were
    handed over, whatever happens to the loop.  [log] is what the function
    does in program order: a fetch it starts and resumes from, a query it
    hands over, the point where it resumes from [Promise.all].  Here a
    promise keeps its rejection until [Promise.all] reads it: this is the run
    of the function as long as no rejection ends the process before, because
    no upsert is rejected, or the runtime only warns, or the callback of a
    rejected query runs after the loop.  What the runtime does with a
    rejection that has no handler is told by [syncResource_process], after
    [syncResource]. *)

Inductive event : Type :=
| FetchStarted (url : string)
| FetchSettled (url : string)
| QueryIssued (i : nat)
| AllAwaited (n : nat).

Record gstate : Type := {
  conn : gmap string (list row);
  queryPromises : list (result unit);
  log : list event
}.

Definition logged (evs : list event) (st : gstate) : gstate :=
  {| conn := conn st; queryPromises := queryPromises st; log := (log st ++ evs)%list |}.

(** [new Promise(... connection.query(sqlQuery, Object.values(newRecord), ...))],
    pushed on [queryPromises]. *)
Definition issue (resourceName : string) (newRecord : list (string * jsval))
  (sqlQuery : list jsval -> stmt) (st : gstate) : gstate :=
  let i := length (queryPromises st) in
  match exec (sqlQuery (Object_values newRecord)) (conn st) with
  | Ok d' =>
      {| conn := d'; queryPromises := (queryPromises st ++ [Ok tt])%list;
         log := (log st ++ [QueryIssued i])%list |}
  | Err e =>
      let name := default JUndefined (assoc "name" newRecord) in
      {| conn := conn st;
         queryPromises :=
           (queryPromises st ++ [Err (FailedOn resourceName (js_String name) e)])%list;
         log := (log st ++ [QueryIssued i])%list |}
  end.

Fixpoint generic_loop (resourceName : string) (recordBuilder : builder) (net : remote)
  (endpoints : list jsval) (st : gstate) : result unit * gstate :=
  match endpoints with
  | [] => (Ok tt, st)
  | item :: rest =>
      match get item "url" with
      | Err e => (Err e, st)
      | Ok url =>
          let u := api ++ js_String url in
          let st1 := logged [FetchStarted u; FetchSettled u] st in
          match (detailData ← fetch net u;
                 built ← recordBuilder detailData;
                 Ok (issue resourceName (fst built) (snd built) st1)) with
          | Err e => (Err e, st1)
          | Ok st2 => generic_loop resourceName recordBuilder net rest st2
          end
      end
  end.

(** [await Promise.all(queryPromises)] rejects with the first rejection. *)
Fixpoint Promise_all (ps : list (result unit)) : result unit :=
  match ps with
  | [] => Ok tt
  | Ok _ :: rest => Promise_all rest
  | Err e :: _ => Err e
  end.

(** The list request of [syncResource] and the entries it iterates; the
    progress line reads [endpoints.length] before the loop. *)
Definition generic_listing (net : remote) (resourceName : string) : result (list jsval) :=
  listData ← fetch net (api ++ "/api/" ++ resourceName);
  endpoints ← get listData "results";
  _ ← get endpoints "length";
  iterate "endpoints" endpoints.

Definition syncResource (resourceName tableName : string) (recordBuilder : builder)
  (net : remote) (d : gmap string (list row)) : response * gstate :=
  let listUrl := api ++ "/api/" ++ resourceName in
  let st0 := {| conn := d; queryPromises := [];
                log := [FetchStarted listUrl; FetchSettled listUrl] |} in
  match generic_listing net resourceName with
  | Err e => (res_500 e, st0)
  | Ok items =>
      match generic_loop resourceName recordBuilder net items st0 with
      | (Err e, st) => (res_500 e, st)
      | (Ok _, st) =>
          let st' := logged [AllAwaited (length (queryPromises st))] st in
          match Promise_all (queryPromises st) with
          | Err e => (res_500 e, st')
          | Ok _ =>
              (res_200 (synced resourceName (JNum (Z.of_nat (length (queryPromises st))))),
               st')
          end
      end
  end.

(** ** The process around [syncResource]: a rejection without a handler

    A query promise gets no handler where it is made; the only handlers are
    those [Promise.all] attaches, after the loop, and a run that leaves the
    loop through the [catch] attaches none.  [server.js] registers no
    listener for [unhandledRejection], so a promise that is rejected while it
    has no handler is left to the [--unhandled-rejections] mode of the
    runtime: under [throw], the default since Node 15, the process ends with
    the error; under [warn], the default before, a warning is printed and the
    process goes on.  When the callback of a query runs is the database's
    timing: [early i] says that the callback of the [i]-th query runs while
    the function awaits the detail document of the next item, before it hands
    over another query; otherwise the callback runs once the function has
    left the loop.  (A callback that runs during a later turn of the loop
    ends the process in the same way, one or more fetches later; these
    timings are not told apart.) *)

Inductive unhandled_rejections : Type := throw | warn.

(** The rejection the runtime finds without a handler while the function
    awaits the next detail document: that of the query handed over last,
    when its callback has run by then. *)
Definition unhandled (mode : unhandled_rejections) (early : nat -> bool) (st : gstate)
  : option error :=
  match mode, last (queryPromises st) with
  | throw, Some (Err e) => if early (pred (length (queryPromises st))) then Some e else None
  | _, _ => None
  end.

(** How the loop is left: through its end, through the [catch], or with the
    process. *)
Inductive loop_end : Type :=
| Completed
| Threw (e : error)
| Ended (e : error).

Fixpoint process_loop (mode : unhandled_rejections) (early : nat -> bool)
  (resourceName : string) (recordBuilder : builder) (net : remote)
  (endpoints : list jsval) (st : gstate) : loop_end * gstate :=
  match endpoints with
  | [] => (Completed, st)
  | item :: rest =>
      match get item "url" with
      | Err e => (Threw e, st)
      | Ok url =>
          let u := api ++ js_String url in
          match unhandled mode early st with
          | Some e => (Ended e, logged [FetchStarted u] st)
          | None =>
              let st1 := logged [FetchStarted u; FetchSettled u] st in
              match (detailData ← fetch net u;
                     built ← recordBuilder detailData;
                     Ok (issue resourceName (fst built) (snd built) st1)) with
              | Err e => (Threw e, st1)
              | Ok st2 => process_loop mode early resourceName recordBuilder net rest st2
              end
          end
      end
  end.

(** What the request gets: the answer of the function, or nothing, the
    process having ended with the error before the function answered.
    [lives] tells whether the process is still there for the next request: a
    run that left the loop through the [catch] has answered, but the
    rejections among its promises never get a handler, and under [throw] the
    first of them to arrive ends the process. *)
Inductive ending : Type :=
| Answered (r : response) (lives : bool)
| NoAnswer (e : error).

Definition syncResource_process (mode : unhandled_rejections) (early : nat -> bool)
  (resourceName tableName : string) (recordBuilder : builder)
  (net : remote) (d : gmap string (list row)) : ending * gstate :=
  let listUrl := api ++ "/api/" ++ resourceName in
  let st0 := {| conn := d; queryPromises := [];
                log := [FetchStarted listUrl; FetchSettled listUrl] |} in
  match generic_listing net resourceName with
  | Err e => (Answered (res_500 e) true, st0)
  | Ok items =>
      match process_loop mode early resourceName recordBuilder net items st0 with
      | (Ended e, st) => (NoAnswer e, st)
      | (Threw e, st) =>
          (Answered (res_500 e)
             match mode with
             | throw => forallb is_ok (queryPromises st)
             | warn => true
             end, st)
      | (Completed, st) =>
          let st' := logged [AllAwaited (length (queryPromises st))] st in
          match Promise_all (queryPromises st) with
          | Err e => (Answered (res_500 e) true, st')
          | Ok _ =>
              (Answered
                 (res_200 (synced resourceName (JNum (Z.of_nat (length (queryPromises st))))))
                 true,
               st')
          end
      end
  end.

(** ** The endpoints of the generic path

    [app.get('/sync-<resource>', (req, res) => syncResource(resource, table,
    builder, res))]: the resource name in the API, the table, the builder. *)
Definition generic_endpoints : list (string * (string * builder)) :=
  [ ("ability-scores", ("ability_scores", ability_scores_builder));
    ("rules", ("rules", rules_builder));
    ("rule-sections", ("rule_sections", rule_sections_builder));
    ("skills", ("skills", skills_builder));
    ("subraces", ("subraces", subraces_builder));
    ("magic-schools", ("magic_schools", magic_schools_builder));
    ("languages", ("languages", languages_builder));
    ("features", ("features", features_builder));
    ("equipment-categories", ("equipment_categories", equipment_categories_builder));
    ("damage-types", ("damage_types", damage_types_builder));
    ("conditions", ("conditions", conditions_builder));
    ("equipment", ("equipment", equipment_builder));
    ("magic-items", ("magic_items", magic_items_builder));
    ("alignments", ("alignments", alignments_builder));
    ("backgrounds", ("backgrounds", backgrounds_builder));
    ("feats", ("feats", feats_builder));
    ("weapon-properties", ("weapon_properties", weapon_properties_builder)) ].

(** ** Well-formed stores

    What the server guarantees of every table: each row has the columns of
    its table, no NOT NULL column holds NULL, and no two rows collide on the
    unique key. *)

Definition wf_row (sch : table_schema) (r : row) : bool :=
  bool_decide (map fst r = columns sch)
  && forallb (fun c => negb (is_null (row_get r c))) (not_null sch).

Fixpoint unique_rows (sch : table_schema) (tbl : list row) : bool :=
  match tbl with
  | [] => true
  | r :: rest => negb (existsb (conflicts sch r) rest) && unique_rows sch rest
  end.

Definition wf_table (sch : table_schema) (tbl : list row) : bool :=
  forallb (wf_row sch) tbl && unique_rows sch tbl.

Definition wf_db (d : gmap string (list row)) : Prop :=
  map_Forall (fun t tbl => match schema_of t with
                           | Some sch => wf_table sch tbl = true
                           | None => False
                           end) d.

(** What the schema script guarantees of every table: distinct column
    names, and a key and NOT NULL columns that are columns of the table. *)
Definition schema_ok (sch : table_schema) : bool :=
  bool_decide (NoDup (columns sch))
  && forallb (fun c => bool_decide (c ∈ columns sch)) (unique_key sch)
  && forallb (fun c => bool_decide (c ∈ columns sch)) (not_null sch).

(** * The control panel: [public/index.html]

    The script of the page keeps its state in the document: the sync
    buttons, the two master buttons, the status panel and the progress bar.
    A handler is modelled from the click to the end of the handler; what the
    page does when a second handler starts while the first one waits for the
    server is outside the model. *)

(** [syncEndpoints]: name, path and icon, in the order of the page. *)
Definition syncEndpoints : list (string * (string * string)) :=
  [ ("Ability Scores", ("ability-scores", "fas fa-star"));
    ("Alignments", ("alignments", "fas fa-balance-scale"));
    ("Conditions", ("conditions", "fas fa-virus"));
    ("Damage Types", ("damage-types", "fas fa-gavel"));
    ("Equipment Categories", ("equipment-categories", "fas fa-tags"));
    ("Languages", ("languages", "fas fa-language"));
    ("Magic Schools", ("magic-schools", "fas fa-hat-wizard"));
    ("Weapon Properties", ("weapon-properties", "fas fa-tools"));
    ("Skills", ("skills", "fas fa-running"));
    ("Rule Sections", ("rule-sections", "fas fa-bookmark"));
    ("Rules", ("rules", "fas fa-book"));
    ("Proficiencies", ("proficiencies", "fas fa-award"));
    ("Traits", ("traits", "fas fa-id-card"));
    ("Feats", ("feats", "fas fa-trophy"));
    ("Equipment", ("equipment", "fas fa-shield-halved"));
    ("Magic Items", ("magic-items", "fas fa-wand-sparkles"));
    ("Backgrounds", ("backgrounds", "fas fa-scroll"));
    ("Races", ("races", "fas fa-users"));
    ("Subraces", ("subraces", "fas fa-user-friends"));
    ("Features", ("features", "fas fa-star-of-life"));
    ("Spells", ("spells", "fas fa-hand-sparkles"));
    ("Subclasses", ("subclasses", "fas fa-sitemap"));
    ("Classes", ("classes", "fas fa-user-shield"));
    ("Monsters", ("monsters", "fas fa-dragon")) ].

(** A sync button: [dataset.path], [disabled], and [style.display] of its
    [.button-content] and of its [.spinner-container].  A button is told
    from the others by its path. *)
Record button : Type := {
  dataset_path : string;
  disabled : bool;
  buttonContent : string;
  spinner : string
}.

(** A paragraph of the status panel. *)
Record paragraph : Type := { color : string; textContent : string }.

(** The document: [allButtons], [disabled] of [syncAllBtn] and of
    [clearDbBtn], the paragraphs of [statusPanel], [style.display] of
    [progressBarContainer] (empty until the script sets it: the style sheet
    hides the bar), and [style.width] and [textContent] of [progressBar]. *)
Record page : Type := {
  allButtons : list button;
  syncAllBtn : bool;
  clearDbBtn : bool;
  statusPanel : list paragraph;
  progressBarContainer : string;
  progressBar : string * string
}.

(** [syncEndpoints.forEach(endpoint => ...)]: the button of an endpoint. *)
Definition new_button (endpoint : string * (string * string)) : button :=
  {| dataset_path := fst (snd endpoint); disabled := false;
     buttonContent := "flex"; spinner := "none" |}.

(** The document when [DOMContentLoaded] has run. *)
Definition loaded : page :=
  {| allButtons := map new_button syncEndpoints;
     syncAllBtn := false; clearDbBtn := false;
     statusPanel := [ {| color := "var(--text-muted)";
                         textContent := "Awaiting your command..." |} ];
     progressBarContainer := EmptyString;
     progressBar := ("0%", "0%") |}.

(** What [fetch] comes to: it rejects, or it resolves to a response with a
    status and a body that [response.json()] parses or rejects. *)
Inductive response_body : Type :=
| Json (v : jsval)
| NotJson (why : string).

Inductive reply : Type :=
| Rejected (why : string)
| Responded (code : Z) (b : response_body).

(** The [type] of a line of the status panel. *)
Inductive log_type : Type := TInfo | TSuccess | TError | TStart.

Definition colorMap (type : log_type) : string :=
  match type with
  | TInfo => "var(--text-muted)"
  | TSuccess => "#22c55e"
  | TError => "#ef4444"
  | TStart => "#f59e0b"
  end.

(** What a [try] block comes to. *)
Inductive tried (A : Type) : Type :=
| Returned (a : A)
| Thrown (why : string).
Arguments Returned {A} a.
Arguments Thrown {A} why.

(** [response.ok]. *)
Definition response_ok (code : Z) : bool := (200 <=? code)%Z && (code <=? 299)%Z.

(** [(await response.json()).message]. *)
Definition json_message (b : response_body) : tried jsval :=
  match b with
  | NotJson why => Thrown why
  | Json v =>
      match get v "message" with
      | Ok m => Returned m
      | Err e => Thrown (error_message e)
      end
  end.

(** The [try] block of [performSync], from the response on: the message it
    logs as a success, or the message of the error it throws. *)
Definition try_sync (r : reply) : tried string :=
  match r with
  | Rejected why => Thrown why
  | Responded code b =>
      if negb (response_ok code) then
        match json_message b with
        | Thrown why => Thrown why
        | Returned m =>
            Thrown (js_String
                      (js_or m (JStr ("Server responded with status: " ++ dec code))))
        end
      else
        match json_message b with
        | Thrown why => Thrown why
        | Returned m => Returned (js_String m)
        end
  end.

(** The page and what is around it: the state of the server, the number of
    times the clock was read, and the requests sent so far, each with the
    document as it was when the request left and the reply it got. *)
Record world (B : Type) : Type := {
  document : page;
  backend : B;
  clock : nat;
  requested : list (string * (page * reply))
}.
Arguments document {B} w.
Arguments backend {B} w.
Arguments clock {B} w.
Arguments requested {B} w.

Definition on_page {B} (f : page -> page) (w : world B) : world B :=
  {| document := f (document w); backend := backend w; clock := clock w; requested := requested w |}.

(** Assignments to the properties of the documents. *)
Definition on_button (path : string) (f : button -> button) (pg : page) : page :=
  {| allButtons := map (fun b => if String.eqb (dataset_path b) path then f b else b)
                     (allButtons pg);
     syncAllBtn := syncAllBtn pg; clearDbBtn := clearDbBtn pg;
     statusPanel := statusPanel pg;
     progressBarContainer := progressBarContainer pg; progressBar := progressBar pg |}.

Definition set_waiting (waiting : bool) (b : button) : button :=
  {| dataset_path := dataset_path b; disabled := waiting;
     buttonContent := if waiting then "none" else "flex";
     spinner := if waiting then "inline" else "none" |}.

Definition set_disabled (v : bool) (b : button) : button :=
  {| dataset_path := dataset_path b; disabled := v;
     buttonContent := buttonContent b; spinner := spinner b |}.

Definition set_masters (v : bool) (pg : page) : page :=
  {| allButtons := allButtons pg; syncAllBtn := v; clearDbBtn := v;
     statusPanel := statusPanel pg;
     progressBarContainer := progressBarContainer pg; progressBar := progressBar pg |}.

(** [[...allButtons, syncAllBtn, clearDbBtn].forEach(btn => btn.disabled = v)]. *)
Definition set_all (v : bool) (pg : page) : page :=
  {| allButtons := map (set_disabled v) (allButtons pg); syncAllBtn := v; clearDbBtn := v;
     statusPanel := statusPanel pg;
     progressBarContainer := progressBarContainer pg; progressBar := progressBar pg |}.

Definition show_progress (display : string) (pg : page) : page :=
  {| allButtons := allButtons pg; syncAllBtn := syncAllBtn pg; clearDbBtn := clearDbBtn pg;
     statusPanel := statusPanel pg;
     progressBarContainer := display; progressBar := progressBar pg |}.

Definition set_progress (progress : string) (pg : page) : page :=
  {| allButtons := allButtons pg; syncAllBtn := syncAllBtn pg; clearDbBtn := clearDbBtn pg;
     statusPanel := statusPanel pg;
     progressBarContainer := progressBarContainer pg; progressBar := (progress, progress) |}.

Definition appendChild (p : paragraph) (pg : page) : page :=
  {| allButtons := allButtons pg; syncAllBtn := syncAllBtn pg; clearDbBtn := clearDbBtn pg;
     statusPanel := (statusPanel pg ++ [p])%list;
     progressBarContainer := progressBarContainer pg; progressBar := progressBar pg |}.

(** The URL [performSync] requests for a path. *)
Definition sync_url (path : string) : string := "http://localhost:3000/sync-" ++ path.

Section Page.

Context {B : Type}.
(** [fetch(url)] against the server in state [B]. *)
Variable serve : string -> B -> reply * B.
(** [new Date().toLocaleTimeString()], by the number of earlier readings. *)
Variable toLocaleTimeString : nat -> string.
(** [Math.round((successCount / allButtons.length) * 100)]. *)
Variable round_percent : nat -> nat -> Z.

Definition logStatus (message : string) (type : log_type) (w : world B) : world B :=
  let time := toLocaleTimeString (clock w) in
  let p := {| color := colorMap type; textContent := "[" ++ time ++ "] " ++ message |} in
  {| document := appendChild p (document w); backend := backend w; clock := S (clock w);
     requested := requested w |}.

(** [await fetch(url)]. *)
Definition request (url : string) (w : world B) : reply * world B :=
  let '(r, s) := serve url (backend w) in
  (r, {| document := document w; backend := s; clock := clock w;
         requested := (requested w ++ [(url, (document w, r))])%list |}).

Definition performSync (path : string) (w : world B) : bool * world B :=
  let w := on_page (on_button path (set_waiting true)) w in
  let w := logStatus ("Initiating sync for " ++ path ++ "...") TStart w in
  let '(r, w) := request (sync_url path) w in
  let '(success, w) :=
    match try_sync r with
    | Returned message => (true, logStatus message TSuccess w)
    | Thrown why => (false, logStatus ("Error syncing " ++ path ++ ": " ++ why) TError w)
    end in
  (success, on_page (on_button path (set_waiting false)) w).

Definition handleSync (path : string) (w : world B) : world B :=
  let w := on_page (set_masters true) w in
  let '(_, w) := performSync path w in
  on_page (set_masters false) w.

(** The loop of [handleSyncAll] over the buttons that are left; [n] is
    [allButtons.length]. *)
Fixpoint sync_all_loop (n : nat) (buttons : list string) (successCount : nat)
  (w : world B) : nat * world B :=
  match buttons with
  | [] => (successCount, w)
  | path :: rest =>
      let '(success, w) := performSync path w in
      if success then
        let successCount := S successCount in
        let progress := dec (round_percent successCount n) ++ "%" in
        sync_all_loop n rest successCount (on_page (set_progress progress) w)
      else (successCount, logStatus "Sync All aborted due to an error." TError w)
  end.

Definition handleSyncAll (w : world B) : world B :=
  let w := on_page (set_all true) w in
  let w := on_page (show_progress "block") w in
  let w := on_page (set_progress "0%") w in
  let n := length (allButtons (document w)) in
  let '(successCount, w) :=
    sync_all_loop n (map dataset_path (allButtons (document w))) 0 w in
  let w := if (successCount =? n)%nat
           then logStatus "Sync All completed successfully!" TSuccess w else w in
  on_page (set_all false) w.

Definition handleClearDatabase (w : world B) : world B :=
  logStatus "Clear Database functionality requires server-side implementation." TInfo w.

End Page.

(** * The vocabulary of the statements

    What the theorems are stated with: lists of records with a key, the
    tables a resource owns, the shape of the statements one item sends, the
    registry of the endpoints, traces, and the documents and remote sources
    of the scenarios. *)

(** ** Lists of records with a key *)

(** Insert-or-replace on the key: the record with the key of [x] gives its
    place to [x], a new key goes to the end. *)

Fixpoint put {A K : Type} `{EqDecision K} (key : A -> K) (x : A) (l : list A) : list A :=
  match l with
  | [] => [x]
  | y :: rest => if decide (key x = key y) then x :: rest else y :: put key x rest
  end.

(** One [put] after the other, from the left. *)
Definition puts {A K : Type} `{EqDecision K} (key : A -> K) (xs : list A) (l : list A)
  : list A :=
  foldl (fun l x => put key x l) l xs.

(** Delete the records of parent [p], then append the records [n]. *)
Definition repl {A P : Type} `{EqDecision P} (par : A -> P) (p : P) (n : list A)
  (l : list A) : list A :=
  (filter (fun x => par x <> p) l ++ n)%list.

(** One [repl] after the other, from the left. *)
Definition repls {A P : Type} `{EqDecision P} (par : A -> P) (es : list (P * list A))
  (l : list A) : list A :=
  foldl (fun l e => repl par (fst e) (snd e) l) l es.

(** Every replacement brings records of its own parent only. *)
Definition owned {A P : Type} (par : A -> P) (es : list (P * list A)) : Prop :=
  Forall (fun e => Forall (fun x => par x = fst e) (snd e)) es.

(** [x] belongs to none of the parents replaced. *)
Definition outside {A P : Type} (par : A -> P) (es : list (P * list A)) (x : A) : Prop :=
  par x ∉ map fst es.

(** The natural key of a parent row. *)
Definition pkey (k : string) (r : row) : sqlval := row_get r k.

(** ** The tables of a resource

    The parent table of a resource and its child tables, each with the
    column that holds the parent's natural key. *)
Record descriptor : Type := { parent_table : string; child_tables : list (string * string) }.

Definition tables (D : descriptor) : list string := parent_table D :: map fst (child_tables D).

(** The schema has the child table, the parent-key column is one of its
    columns and, when the table has a unique key, part of that key. *)
Definition child_ok (cp : string * string) : bool :=
  match schema_of (fst cp) with
  | Some sch =>
      bool_decide (snd cp ∈ columns sch)
      && (bool_decide (unique_key sch = []) || bool_decide (snd cp ∈ unique_key sch))
  | None => false
  end.

(** The parent table is keyed by [index], NOT NULL and UNIQUE, and the
    tables of the resource are distinct. *)
Definition descriptor_ok (D : descriptor) : bool :=
  match schema_of (parent_table D) with
  | Some sch =>
      bool_decide (head (columns sch) = Some "index")
      && bool_decide (unique_key sch = ["index"])
      && bool_decide ("index" ∈ not_null sch)
  | None => false
  end
  && forallb child_ok (child_tables D)
  && bool_decide (NoDup (tables D)).

(** What one committed item leaves in a table, given what the same
    transaction writes into an empty store ([fresh]) and what the table held
    ([old]): the parent table takes the new row in place of the row with its
    key, a child table loses the rows of parent [p] and gains the new ones. *)
Definition combine (D : descriptor) (p : sqlval) (t : string) (fresh old : list row) : list row :=
  if bool_decide (t = parent_table D) then puts (pkey "index") fresh old
  else match assoc t (child_tables D) with
       | Some pcol => repl (fun r => row_get r pcol) p fresh old
       | None => fresh
       end.

(** The store [d] after an item whose transaction writes [e] into an empty
    store. *)
Definition overlay (D : descriptor) (p : sqlval) (e d : gmap string (list row))
  : gmap string (list row) :=
  map_imap (fun t fresh => Some (combine D p t fresh (rows_of d t))) e ∪ d.

(** ** The statements of one item *)

Definition stmt_table (s : stmt) : string :=
  match s with
  | InsertOnDup t _ _ _ | InsertValues t _ _ | InsertSet t _ | DeleteWhere t _ _ => t
  end.

(** The row an insert carries; it does not depend on the store. *)
Definition stmt_row (s : stmt) : result (table_schema * row) :=
  match s with
  | InsertOnDup t cols _ params | InsertValues t cols params =>
      match schema_of t with
      | Some sch => vals ← rmap bind params; r ← make_row sch cols vals; Ok (sch, r)
      | None => Err (SqlError "ER_NO_SUCH_TABLE" ("Table " ++ squote ++ t ++ squote ++ " does not exist"))
      end
  | InsertSet t record =>
      match schema_of t with
      | Some sch => vals ← rmap bind_set (map snd record);
                    r ← make_row sch (map fst record) vals; Ok (sch, r)
      | None => Err (SqlError "ER_NO_SUCH_TABLE" ("Table " ++ squote ++ t ++ squote ++ " does not exist"))
      end
  | DeleteWhere t _ _ => Err (SqlError "ER_PARSE_ERROR" "not an insert")
  end.

(** An insert into a child table of [D] whose first value, the parent key,
    is [idx]. *)
Definition child_insert (D : descriptor) (idx : jsval) (s : stmt) : Prop :=
  match s with
  | InsertValues c (pcol :: _) (v :: _) => (c, pcol) ∈ child_tables D /\ v = idx
  | InsertSet c ((pcol, v) :: _) => (c, pcol) ∈ child_tables D /\ v = idx
  | _ => False
  end.

(** One delete per child table, under the key [idx]. *)
Definition deletes (D : descriptor) (idx : jsval) : list stmt :=
  map (fun cp => DeleteWhere (fst cp) (snd cp) idx) (child_tables D).

(** The statements of one item: the upsert of the parent row, one delete per
    child table, then the inserts of the child rows, all under the key
    [idx]. *)
Definition snapshot_script (D : descriptor) (idx : jsval) (ss : list stmt) : Prop :=
  exists sch params inserts,
    schema_of (parent_table D) = Some sch
    /\ ss = (upsert_sql (parent_table D) (columns sch) (idx :: params)
             :: deletes D idx ++ inserts)%list
    /\ Forall (child_insert D idx) inserts.

(** The key as the database sees it. *)
Definition key_val (idx : jsval) : sqlval :=
  match bind idx with Ok p => p | Err _ => SNull end.

(** The rows a fresh store holds for the child tables all belong to [p]. *)
Definition owned_by (D : descriptor) (p : sqlval) (e : gmap string (list row)) : Prop :=
  forall c pcol tbl, (c, pcol) ∈ child_tables D -> e !! c = Some tbl ->
    Forall (fun r => row_get r pcol = p) tbl.

(** Running [ss] after the overlay is the overlay of running [ss]. *)
Definition commutes (D : descriptor) (p : sqlval) (d0 : gmap string (list row))
  (ss : list stmt) (e : gmap string (list row)) : Prop :=
  exec_all ss (overlay D p e d0)
  = (fst (exec_all ss e), overlay D p (snd (exec_all ss e)) d0).

(** What the empty store holds after the script: one row in the parent
    table, under the key [p], the rows of [p] in every child table, and
    nothing else. *)
Definition fresh_ok (D : descriptor) (p : sqlval) (e : gmap string (list row)) : Prop :=
  owned_by D p e
  /\ (forall c pcol, (c, pcol) ∈ child_tables D -> is_Some (e !! c))
  /\ (exists psch new, schema_of (parent_table D) = Some psch
         /\ e !! parent_table D = Some [new] /\ wf_row psch new = true
         /\ row_get new "index" = p)
  /\ (forall t, t ∉ tables D -> e !! t = None).

Definition commutes_ok (D : descriptor) (p : sqlval) (d0 : gmap string (list row))
  (ss : list stmt) (e : gmap string (list row)) : Prop :=
  commutes D p d0 ss e /\ (forall e', exec_all ss e = (Ok tt, e') -> fresh_ok D p e').

(** The upserts of [server.js] are all of this form. *)
Definition safe (s : stmt) : Prop :=
  match s with
  | InsertOnDup t cols upd _ =>
      exists sch rest, schema_of t = Some sch /\ columns sch = "index" :: rest
        /\ cols = columns sch /\ upd = rest
        /\ unique_key sch = ["index"] /\ "index" ∈ not_null sch
  | _ => True
  end.

(** The natural key of the one parent row of a fresh store. *)
Definition snapshot_key (D : descriptor) (e : gmap string (list row)) : sqlval :=
  match e !! parent_table D with
  | Some [new] => row_get new "index"
  | _ => SNull
  end.

(** The store after a sequence of items. *)
Definition applys (D : descriptor) (es : list (gmap string (list row)))
  (d : gmap string (list row)) : gmap string (list row) :=
  foldl (fun d e => overlay D (snapshot_key D e) e d) d es.

Definition fresh (D : descriptor) (e : gmap string (list row)) : Prop :=
  fresh_ok D (snapshot_key D e) e.

(** What a sequence of items makes of one table. *)
Definition table_after (D : descriptor) (t : string) (es : list (gmap string (list row)))
  (old : list row) : list row :=
  foldl (fun acc e => match e !! t with
                      | Some fresh => combine D (snapshot_key D e) t fresh acc
                      | None => acc
                      end) old es.

(** ** The seven enriched resources and their tables *)

Definition classes_desc : descriptor :=
  {| parent_table := "classes";
     child_tables := [ ("class_levels", "class_index"); ("class_spells", "class_index");
                       ("class_proficiency_choices", "class_index");
                       ("class_starting_equipment", "class_index");
                       ("class_starting_equipment_options", "class_index") ] |}.
Definition monsters_desc : descriptor :=
  {| parent_table := "monsters";
     child_tables := [ ("monster_proficiencies", "monster_index");
                       ("monster_condition_immunities", "monster_index") ] |}.
Definition proficiencies_desc : descriptor :=
  {| parent_table := "proficiencies";
     child_tables := [ ("proficiency_classes", "proficiency_index");
                       ("proficiency_races", "proficiency_index") ] |}.
Definition races_desc : descriptor :=
  {| parent_table := "races";
     child_tables := [ ("race_proficiencies", "race_index"); ("race_languages", "race_index");
                       ("race_traits", "race_index") ] |}.
Definition spells_desc : descriptor :=
  {| parent_table := "spells";
     child_tables := [ ("spell_classes", "spell_index"); ("spell_subclasses", "spell_index") ] |}.
Definition subclasses_desc : descriptor :=
  {| parent_table := "subclasses";
     child_tables := [ ("subclass_levels", "subclass_index");
                       ("subclass_spells", "subclass_index") ] |}.
Definition traits_desc : descriptor :=
  {| parent_table := "traits";
     child_tables := [ ("trait_races", "trait_index"); ("trait_subraces", "trait_index");
                       ("trait_proficiencies", "trait_index") ] |}.

(** ** Plans: what a sync writes, item by item *)

(** The body built for a document is a snapshot script of [D] under the
    document's [index]. *)
Definition shaped (D : descriptor) (detailData : jsval) (body : W unit) : Prop :=
  outcome body = Ok tt ->
  exists idx, get detailData "index" = Ok idx /\ snapshot_script D idx (issued body).

Definition shaped_item (D : descriptor) (item : remote -> jsval -> result (W unit)) : Prop :=
  forall net detailData body, item net detailData = Ok body -> shaped D detailData body.

(** What the loop of a sync would leave in an empty store, item by item. *)
Fixpoint loop_plan (item : remote -> jsval -> result (W unit)) (net : remote)
  (endpoints : list jsval) : list (gmap string (list row)) :=
  match endpoints with
  | [] => []
  | entry :: rest =>
      match entry_body item net entry with
      | Err _ => []
      | Ok body =>
          match transaction body ∅ with
          | (Ok _, e) => e :: loop_plan item net rest
          | (Err _, _) => []
          end
      end
  end.

Definition sync_plan (resource : string) (item : remote -> jsval -> result (W unit))
  (net : remote) : list (gmap string (list row)) :=
  match listing net resource with
  | Ok (_, items) => loop_plan item net items
  | Err _ => []
  end.

(** A resource of the generic path owns one table. *)
Definition generic_desc (t : string) : descriptor := {| parent_table := t; child_tables := [] |}.

(** A builder whose query is the upsert of table [t] and whose record starts
    with [index]. *)
Definition upsert_builder (t : string) (b : builder) : Prop :=
  forall detailData rec q, b detailData = Ok (rec, q) ->
    exists sch idx vs, schema_of t = Some sch /\ q = upsert_sql t (columns sch)
                       /\ rec = ("index", idx) :: vs.

(** What the upserts the store accepts would leave in an empty store, one
    by one. *)
Fixpoint generic_plan (recordBuilder : builder) (net : remote) (endpoints : list jsval)
  : list (gmap string (list row)) :=
  match endpoints with
  | [] => []
  | item :: rest =>
      match get item "url" with
      | Err _ => []
      | Ok url =>
          match (detailData ← fetch net (api ++ js_String url); recordBuilder detailData) with
          | Err _ => []
          | Ok built =>
              match exec (snd built (Object_values (fst built))) ∅ with
              | Ok e => e :: generic_plan recordBuilder net rest
              | Err _ => generic_plan recordBuilder net rest
              end
          end
      end
  end.

Definition generic_sync_plan (resourceName : string) (recordBuilder : builder) (net : remote)
  : list (gmap string (list row)) :=
  match generic_listing net resourceName with
  | Ok items => generic_plan recordBuilder net items
  | Err _ => []
  end.

(** ** The endpoints *)

(** [syncResource] as a function from store to store. *)
Definition generic_run (resourceName tableName : string) (recordBuilder : builder)
  (net : remote) (d : gmap string (list row)) : response * gmap string (list row) :=
  (fst (syncResource resourceName tableName recordBuilder net d),
   conn (snd (syncResource resourceName tableName recordBuilder net d))).

(** [app.get(path, ...)]: the path, the tables the resource owns, and what a
    request does to the store. *)
Definition endpoints
  : list (string * (descriptor
                    * (remote -> gmap string (list row) -> response * gmap string (list row)))) :=
  [ ("/sync-ability-scores",
      (generic_desc "ability_scores",
       generic_run "ability-scores" "ability_scores" ability_scores_builder));
    ("/sync-classes", (classes_desc, syncClasses));
    ("/sync-monsters", (monsters_desc, syncMonsters));
    ("/sync-proficiencies", (proficiencies_desc, syncProficiencies));
    ("/sync-races", (races_desc, syncRaces));
    ("/sync-rules", (generic_desc "rules", generic_run "rules" "rules" rules_builder));
    ("/sync-rule-sections",
      (generic_desc "rule_sections",
       generic_run "rule-sections" "rule_sections" rule_sections_builder));
    ("/sync-spells", (spells_desc, syncSpells));
    ("/sync-subclasses", (subclasses_desc, syncSubclasses));
    ("/sync-traits", (traits_desc, syncTraits));
    ("/sync-skills", (generic_desc "skills", generic_run "skills" "skills" skills_builder));
    ("/sync-subraces",
      (generic_desc "subraces", generic_run "subraces" "subraces" subraces_builder));
    ("/sync-magic-schools",
      (generic_desc "magic_schools",
       generic_run "magic-schools" "magic_schools" magic_schools_builder));
    ("/sync-languages",
      (generic_desc "languages", generic_run "languages" "languages" languages_builder));
    ("/sync-features",
      (generic_desc "features", generic_run "features" "features" features_builder));
    ("/sync-equipment-categories",
      (generic_desc "equipment_categories",
       generic_run "equipment-categories" "equipment_categories" equipment_categories_builder));
    ("/sync-damage-types",
      (generic_desc "damage_types",
       generic_run "damage-types" "damage_types" damage_types_builder));
    ("/sync-conditions",
      (generic_desc "conditions", generic_run "conditions" "conditions" conditions_builder));
    ("/sync-equipment",
      (generic_desc "equipment", generic_run "equipment" "equipment" equipment_builder));
    ("/sync-magic-items",
      (generic_desc "magic_items", generic_run "magic-items" "magic_items" magic_items_builder));
    ("/sync-alignments",
      (generic_desc "alignments", generic_run "alignments" "alignments" alignments_builder));
    ("/sync-backgrounds",
      (generic_desc "backgrounds", generic_run "backgrounds" "backgrounds" backgrounds_builder));
    ("/sync-feats", (generic_desc "feats", generic_run "feats" "feats" feats_builder));
    ("/sync-weapon-properties",
      (generic_desc "weapon_properties",
       generic_run "weapon-properties" "weapon_properties" weapon_properties_builder)) ].

(** Syncing again against the same remote source changes nothing. *)
Definition sync_stable
  (sync : remote -> gmap string (list row) -> response * gmap string (list row)) : Prop :=
  forall net d, wf_db d ->
    snd (sync net (snd (sync net d))) = snd (sync net d) /\ wf_db (snd (sync net d)).

(** The enriched resources: the tables they own and how an item's
    transaction is built from its detail document. *)
Definition enriched_resources : list (descriptor * (remote -> jsval -> result (W unit))) :=
  [ (classes_desc, class_item);
    (monsters_desc, monster_item);
    (proficiencies_desc, proficiency_item);
    (races_desc, race_item);
    (spells_desc, spell_item);
    (subclasses_desc, subclass_item);
    (traits_desc, trait_item) ].

(** ** The generic loop, promise by promise *)

(** What the loop needs of one entry before it hands the query over. *)
Definition prepared (recordBuilder : builder) (net : remote) (item : jsval)
  : result (list (string * jsval) * (list jsval -> stmt)) :=
  url ← get item "url";
  detailData ← fetch net (api ++ js_String url);
  recordBuilder detailData.

(** The store after one upsert was handed over: a rejected one changes
    nothing. *)
Definition attempt (d : gmap string (list row))
  (built : list (string * jsval) * (list jsval -> stmt)) : gmap string (list row) :=
  match exec (snd built (Object_values (fst built))) d with
  | Ok d' => d'
  | Err _ => d
  end.

(** How the promise of one upsert settles. *)
Definition settles (resourceName : string) (d : gmap string (list row))
  (built : list (string * jsval) * (list jsval -> stmt)) : result unit :=
  match exec (snd built (Object_values (fst built))) d with
  | Ok _ => Ok tt
  | Err e => Err (FailedOn resourceName
                    (js_String (default JUndefined (assoc "name" (fst built)))) e)
  end.

(** The promises of the loop, in the order of the items. *)
Fixpoint promises (resourceName : string) (d : gmap string (list row))
  (builts : list (list (string * jsval) * (list jsval -> stmt))) : list (result unit) :=
  match builts with
  | [] => []
  | built :: rest => settles resourceName d built :: promises resourceName (attempt d built) rest
  end.

(** The events of the loop over [items], the first of which is the [i]-th
    query. *)
Fixpoint loop_events (i : nat) (items : list jsval) : list event :=
  match items with
  | [] => []
  | item :: rest =>
      let u := api ++ js_String (default JUndefined (match get item "url" with
                                                     | Ok url => Some url
                                                     | Err _ => None
                                                     end)) in
      FetchStarted u :: FetchSettled u :: QueryIssued i :: loop_events (S i) rest
  end.

(** ** Traces *)





(** ** Duplicates *)

(** The distinct elements of [names] in the order they are first seen;
    [seen] is what was seen before. *)
Fixpoint first_seen (seen names : list string) : list string :=
  match names with
  | [] => []
  | s :: rest =>
      if bool_decide (s ∈ seen) then first_seen seen rest
      else s :: first_seen (seen ++ [s]) rest
  end.

(** [s] is an insert into table [t]. *)
Definition inserts (t : string) (s : stmt) : bool :=
  match s with
  | InsertValues t' _ _ | InsertSet t' _ => String.eqb t' t
  | _ => false
  end.

(** The inserts into table [t] among the statements [ss]. *)
Definition inserts_into (t : string) (ss : list stmt) : list stmt :=
  filter (fun s => inserts t s = true) ss.

(** ** Mappers and descriptions *)

Definition mapper : Type := jsval -> result (list (string * jsval)).

(** The record a builder of the generic path makes. *)
Definition record_of (b : builder) : mapper := fun detailData => fst <$> b detailData.

(** ** Options and entries of a class *)

(** An option that refers to an item directly, with a non-empty index. *)
Definition has_item (o : jsval) (s : string) : Prop :=
  exists item, get o "item" = Ok item /\ truthy item = true
    /\ get item "index" = Ok (JStr s) /\ s <> EmptyString.

(** An option without an item. *)
Definition no_item (o : jsval) : Prop :=
  exists item, get o "item" = Ok item /\ truthy item = false.

(** A starting-equipment entry without an equipment sub-object that has an
    index. *)
Definition no_equipment_index (item : jsval) : Prop :=
  exists equipment, get item "equipment" = Ok equipment
    /\ (truthy equipment = false
        \/ exists index, get equipment "index" = Ok index /\ truthy index = false).

(** ** The plan of a sync *)

(** What a sync does to the store is a sequence of items, each with the
    tables it writes; the sequence depends on the remote source only. *)
Definition planned (D : descriptor)
  (sync : remote -> gmap string (list row) -> response * gmap string (list row)) : Prop :=
  forall net, exists es, Forall (fresh D) es
    /\ forall d, wf_db d -> snd (sync net d) = applys D es d.

(** The tables of two resources are apart. *)
Definition apart (ts1 ts2 : list string) : bool :=
  forallb (fun t => negb (bool_decide (t ∈ ts2))) ts1.

(** ** First-seen entries *)

(** The elements of [xs] whose key is seen for the first time, in order;
    [seen] holds the keys seen before. *)
Fixpoint first_seen_on {A} (key : A -> string) (seen : list string) (xs : list A) : list A :=
  match xs with
  | [] => []
  | x :: rest =>
      if bool_decide (key x ∈ seen) then first_seen_on key seen rest
      else x :: first_seen_on key (seen ++ [key x]) rest
  end.

(** The insert of one spell of a subclass: the spell's index and the JSON
    text of the indexes of its prerequisites. *)
Definition subclass_spell_insert (idx : jsval) (sp : string * jsval) : stmt :=
  InsertSet "subclass_spells"
    [("subclass_index", idx); ("spell_index", JStr (fst sp));
     ("prerequisites", JSON_stringify (snd sp))].

(** An entry of [detailData.spells]: its spell index and the indexes of its
    prerequisites. *)
Definition spell_entry (spell : jsval) (sp : string * jsval) : Prop :=
  (get spell "spell" ≫= fun x => get x "index") = Ok (JStr (fst sp))
  /\ (get spell "prerequisites" ≫= pluck "index") = Ok (snd sp).

(** ** Stringified columns *)

(** The columns filled with [JSON.stringify(detailData.field)]: the mapper,
    the field of the document, the column of the record. *)
Definition stringified : list (mapper * (string * string)) :=
  [ (monsterRecord, ("armor_class", "armor_class"));
    (monsterRecord, ("speed", "speed"));
    (monsterRecord, ("damage_vulnerabilities", "damage_vulnerabilities"));
    (monsterRecord, ("damage_resistances", "damage_resistances"));
    (monsterRecord, ("damage_immunities", "damage_immunities"));
    (monsterRecord, ("senses", "senses"));
    (monsterRecord, ("special_abilities", "special_abilities"));
    (monsterRecord, ("actions", "actions"));
    (monsterRecord, ("legendary_actions", "legendary_actions"));
    (classRecord, ("multi_classing", "multi_classing"));
    (classRecord, ("spellcasting", "spellcasting"));
    (raceRecord, ("ability_bonuses", "ability_bonuses"));
    (spellRecord, ("components", "components"));
    (spellRecord, ("damage", "damage"));
    (record_of subraces_builder, ("ability_bonuses", "ability_bonuses"));
    (record_of languages_builder, ("typical_speakers", "typical_speakers"));
    (record_of equipment_builder, ("damage", "damage"));
    (record_of equipment_builder, ("two_handed_damage", "two_handed_damage"));
    (record_of equipment_builder, ("range", "range_info"));
    (record_of equipment_builder, ("armor_class", "armor_class"));
    (record_of equipment_builder, ("contents", "contents"));
    (record_of equipment_builder, ("speed", "speed_info"));
    (record_of backgrounds_builder, ("language_options", "language_options"));
    (record_of feats_builder, ("prerequisites", "prerequisites")) ].

(** What the database stores for a stringified field. *)
Definition stored_text (v : jsval) : sqlval :=
  match v with
  | JUndefined => SNull
  | _ => SText (json_text v)
  end.

(** ** The link loops *)

(** The link loops of the enriched resources: the resource, its transaction
    body, the field of the document the loop iterates, the table it fills
    and the two columns. *)
Definition link_loops
  : list (descriptor * ((jsval -> W unit) * (string * (string * (string * string))))) :=
  [ (proficiencies_desc, (proficiency_body,
       ("classes", ("proficiency_classes", ("proficiency_index", "class_index")))));
    (proficiencies_desc, (proficiency_body,
       ("races", ("proficiency_races", ("proficiency_index", "race_index")))));
    (races_desc, (race_body,
       ("starting_proficiencies", ("race_proficiencies", ("race_index", "proficiency_index")))));
    (races_desc, (race_body,
       ("languages", ("race_languages", ("race_index", "language_index")))));
    (races_desc, (race_body,
       ("traits", ("race_traits", ("race_index", "trait_index")))));
    (spells_desc, (spell_body,
       ("classes", ("spell_classes", ("spell_index", "class_index")))));
    (spells_desc, (spell_body,
       ("subclasses", ("spell_subclasses", ("spell_index", "subclass_index")))));
    (traits_desc, (trait_body,
       ("races", ("trait_races", ("trait_index", "race_index")))));
    (traits_desc, (trait_body,
       ("subraces", ("trait_subraces", ("trait_index", "subrace_index")))));
    (traits_desc, (trait_body,
       ("proficiencies", ("trait_proficiencies", ("trait_index", "proficiency_index"))))) ].

(** The rows the inserts among [ss] carry. *)
Definition inserted (ss : list stmt) : list row :=
  omap (fun s => match stmt_row s with Ok (_, r) => Some r | Err _ => None end) ss.

Definition is_insert (s : stmt) : bool :=
  match s with InsertValues _ _ _ | InsertSet _ _ => true | _ => false end.

(** ** Answers *)

(** The answer of a sync is the same on two stores when it reports success,
    and it reports success on both or on neither. *)
Definition same_answer (r1 r2 : response) : Prop :=
  success r1 = success r2 /\ status r1 = status r2 /\ (success r1 = true -> r1 = r2).

Definition answer_of_remote
  (sync : remote -> gmap string (list row) -> response * gmap string (list row)) : Prop :=
  forall net d1 d2, wf_db d1 -> wf_db d2 -> same_answer (fst (sync net d1)) (fst (sync net d2)).

(** ** Stored entries *)

(** The entry of a list is stored in table [t]: the store holds a row whose
    [index] is the index of the entry's detail document. *)
Definition stored (net : remote) (t : string) (d : gmap string (list row)) (entry : jsval)
  : Prop :=
  exists url doc idx,
    get entry "url" = Ok url /\ fetch net (api ++ js_String url) = Ok doc
    /\ get doc "index" = Ok idx /\ key_val idx <> SNull
    /\ key_val idx ∈ map (fun r => row_get r "index") (rows_of d t).

(** A record builder maps [index] first. *)
Definition index_first (b : builder) : Prop :=
  forall doc rec q, b doc = Ok (rec, q) ->
    exists idx vs, get doc "index" = Ok idx /\ rec = ("index", idx) :: vs.

(** ** The server behind the page

    [app.get(path, handler)]: a request for the URL of a registered path runs
    its sync and answers with [res.json({ success, message })] under the
    status of the response; [other] is what the server answers to any other
    URL. *)
Definition res_json (r : response) : reply :=
  Responded (status r)
    (Json (JObj [("success", JBool (success r)); ("message", JStr (message r))])).

Definition express (other : reply) (net : remote) (url : string) (d : gmap string (list row))
  : reply * gmap string (list row) :=
  match List.find (fun e => String.eqb ("http://localhost:3000" ++ fst e) url) endpoints with
  | Some e => let '(r, d') := snd (snd e) net d in (res_json r, d')
  | None => (other, d)
  end.

(** ** The requests of the page *)

(** [performSync] returns [true]. *)
Definition accepted (r : reply) : bool :=
  match try_sync r with Returned _ => true | Thrown _ => false end.

(** The line [performSync] logs when the request has settled. *)
Definition result_line (path : string) (r : reply) : log_type * string :=
  match try_sync r with
  | Returned message => (TSuccess, message)
  | Thrown why => (TError, "Error syncing " ++ path ++ ": " ++ why)
  end.

(** A line of the status panel, with the time it shows. *)
Definition line (time_at : string) (l : log_type * string) : paragraph :=
  {| color := colorMap (fst l); textContent := "[" ++ time_at ++ "] " ++ snd l |}.

(** The requests [urls] sent one after the other: the replies and the state
    of the server after the last one. *)
Fixpoint served {B} (serve : string -> B -> reply * B) (urls : list string) (s : B)
  : list reply * B :=
  match urls with
  | [] => ([], s)
  | url :: rest =>
      let '(r, s1) := serve url s in
      let '(rs, s2) := served serve rest s1 in (r :: rs, s2)
  end.

(** The document while [performSync] waits for the reply. *)
Definition waiting_page (time_at : string) (path : string) (pg : page) : page :=
  appendChild (line time_at (TStart, "Initiating sync for " ++ path ++ "..."))
    (on_button path (set_waiting true) pg).

(** The last lines of [handleSyncAll]. *)
Definition aborted_line (time_at : string) : paragraph :=
  line time_at (TError, "Sync All aborted due to an error.").
Definition completed_line (time_at : string) : paragraph :=
  line time_at (TSuccess, "Sync All completed successfully!").

Definition all_accepted (tr : list (string * (page * reply))) : bool :=
  forallb (fun x => accepted (snd (snd x))) tr.

(** The buttons while [Sync All] runs, when the resources in [done] have been
    synced. *)
Definition during (done : list string) (b : button) : button :=
  if bool_decide (dataset_path b ∈ done) then set_waiting false b else set_disabled true b.

(** ** The page in front of the server *)

(** The paths of the page. *)
Definition page_paths : list string := map (fun e => fst (snd e)) syncEndpoints.

(** What a sync answers: 200 with success, or 500 with a message that is
    not empty. *)
Definition answer_shape (r : response) : Prop :=
  (status r = 200%Z /\ success r = true)
  \/ (status r = 500%Z /\ success r = false /\ message r <> EmptyString).

(** ** Sync All, again *)

(** The store after the request for [path]. *)
Definition after_request (other : reply) (net : remote) (d : gmap string (list row))
  (path : string) : gmap string (list row) :=
  snd (express other net (sync_url path) d).

(** Whether the page takes the answer to the request for [path] as a
    success, on the empty store. *)
Definition accepts (other : reply) (net : remote) (path : string) : bool :=
  accepted (fst (express other net (sync_url path) ∅)).

(** [Sync All] stops after [k] requests: the requests before the last one
    were taken as successes, and it stops before the end of the page only
    after a failure. *)
Definition stops_after (accepts : string -> bool) (paths : list string) (k : nat) : Prop :=
  k <= length paths
  /\ (forall i p, paths !! i = Some p -> S i < k -> accepts p = true)
  /\ (forallb accepts (take k paths) = true -> k = length paths).

(** ** The server as a process

    The server behind the page, with the process that runs it: [alive], and
    the store.  A request for a resource of the generic path gets what the
    process of [syncResource] answers; when the process ends before it
    answers, or has ended before, the [fetch] of the page fails: [lost] is
    what it then gives.  The other requests are served as [express] serves
    them. *)
Definition express_process (mode : unhandled_rejections) (early : nat -> bool)
  (other lost : reply) (net : remote) (url : string) (s : bool * gmap string (list row))
  : reply * (bool * gmap string (list row)) :=
  if fst s then
    match List.find (fun g => String.eqb (sync_url (fst g)) url) generic_endpoints with
    | Some g =>
        match syncResource_process mode early (fst g) (fst (snd g)) (snd (snd g)) net (snd s)
        with
        | (Answered r lives, st) => (res_json r, (lives, conn st))
        | (NoAnswer _, st) => (lost, (false, conn st))
        end
    | None => let '(r, d) := express other net url (snd s) in (r, (true, d))
    end
  else (lost, s).

(** The query promises of the request for the resource [path]; the
    resources of the enriched path have none: their functions await every
    query where they send it, inside the [try]. *)
Definition route_promises (net : remote) (path : string) (d : gmap string (list row))
  : list (result unit) :=
  match List.find (fun g => String.eqb (fst g) path) generic_endpoints with
  | Some g => queryPromises (snd (syncResource (fst g) (fst (snd g)) (snd (snd g)) net d))
  | None => []
  end.

(** No upsert of the request is rejected; no upsert of any request is. *)
Definition no_rejection (net : remote) (path : string) (d : gmap string (list row)) : Prop :=
  Forall (fun p => is_ok p = true) (route_promises net path d).

Definition quiet (net : remote) : Prop := forall path d, no_rejection net path d.

(** The world of the page in front of a process that lives. *)
Definition alive (w : world (gmap string (list row))) : world (bool * gmap string (list row)) :=
  {| document := document w; backend := (true, backend w); clock := clock w;
     requested := requested w |}.

(** ** The spells of a class *)

(** An entry of the spell list of a class: its index and its level. *)
Definition listed_spell (spell : jsval) (sl : string * Z) : Prop :=
  get spell "index" = Ok (JStr (fst sl)) /\ get spell "level" = Ok (JNum (snd sl)).

Definition class_spell_insert (idx : jsval) (sl : string * Z) : stmt :=
  InsertValues "class_spells" ["class_index"; "spell_index"; "level_acquired"]
    [idx; JStr (fst sl); JNum (snd sl)].

Definition class_spell_row (p : sqlval) (sl : string * Z) : row :=
  [("class_index", p); ("spell_index", SText (fst sl)); ("level_acquired", SNum (snd sl))].

(** ** The nested collections

    What the specification calls the extraction of a child table: the
    entries of the item's documents that the table mirrors, each as the
    record of a row, the parent key first.  The code has no such function; it
    has one insert loop per child table, and the theorems compare what the
    loops send and store with the collections as they are told here. *)

(** One record per entry: the parent key, then the columns read from the
    entry. *)
Definition child_records {A} (pcol : string) (idx : jsval)
  (cols : list (string * (A -> result jsval))) (xs : list A)
  : result (list (list (string * jsval))) :=
  rmap (fun x => object ((pcol, Ok idx) :: map (fun c => (fst c, snd c x)) cols)) xs.

(** The entries whose key is met for the first time, in order; [seen] holds
    the keys met before, as a [Set] does. *)
Fixpoint first_by (key : jsval -> result jsval) (seen : list jsval) (xs : list jsval)
  : result (list jsval) :=
  match xs with
  | [] => Ok []
  | x :: rest =>
      k ← key x;
      if set_has seen k then first_by key seen rest
      else ys ← first_by key (set_add seen k) rest; Ok (x :: ys)
  end.

(** The entries that pass a test. *)
Fixpoint those (test : jsval -> result bool) (xs : list jsval) : result (list jsval) :=
  match xs with
  | [] => Ok []
  | x :: rest =>
      keep ← test x; ys ← those test rest;
      Ok (if keep : bool then x :: ys else ys)
  end.

(** The entries of the array [detailData.field]. *)
Definition array_of (doc : jsval) (field : string) : result (list jsval) :=
  get doc field ≫= iterate ("detailData." ++ field).

(** The levels of a class or subclass: the document behind the link
    [detailData.<link>]. *)
Definition levels_of (net : remote) (doc : jsval) (link : string) : result (list jsval) :=
  url ← get doc link;
  levelsData ← fetch net (api ++ js_String url);
  iterate "levelsData" levelsData.

(** The spell list of a class: the [results] of the document behind
    [detailData.spells], when there is such a link and the results are an
    array. *)
Definition spells_of (net : remote) (doc : jsval) : result (list jsval) :=
  spells ← get doc "spells";
  if truthy spells then
    spellsJson ← fetch net (api ++ js_String spells);
    results ← get spellsJson "results";
    Ok (match results with JArr xs => xs | _ => [] end)
  else Ok [].

(** A link table: one record per entry of [detailData.field], holding the
    index of the entry. *)
Definition links (pcol ccol field : string)
  : remote -> jsval -> result (list (list (string * jsval))) :=
  fun _ doc =>
    idx ← get doc "index";
    xs ← array_of doc field;
    child_records pcol idx [(ccol, fun x => get x "index")] xs.

(** The nested collection of each child table. *)
Definition nested_collections
  : list (string * (remote -> jsval -> result (list (list (string * jsval))))) :=
  [ ("class_levels", fun net doc =>
       idx ← get doc "index";
       levels ← levels_of net doc "class_levels";
       child_records "class_index" idx
         [ ("level", fun x => get x "level");
           ("ability_score_bonuses", fun x => get x "ability_score_bonuses");
           ("prof_bonus", fun x => get x "prof_bonus");
           ("features", fun x => stringify_of (get x "features" ≫= pluck "name"));
           ("class_specific", fun x => stringify_of (get x "class_specific")) ] levels);
    ("class_spells", fun net doc =>
       idx ← get doc "index";
       spells ← spells_of net doc;
       child_records "class_index" idx
         [ ("spell_index", fun x => get x "index");
           ("level_acquired", fun x => get x "level") ] spells);
    ("class_proficiency_choices", fun _ doc =>
       idx ← get doc "index";
       choices ← get doc "proficiency_choices" ≫= as_array "entries";
       child_records "class_index" idx
         [ ("choice_index", fun ix => Ok (JNum (fst ix)));
           ("description", fun ix => get (snd ix) "desc");
           ("choose", fun ix => get (snd ix) "choose");
           ("type", fun ix => get (snd ix) "type");
           ("options", fun ix => stringify_of (proficiency_options (snd ix))) ]
         (entries choices));
    ("class_starting_equipment", fun _ doc =>
       idx ← get doc "index";
       xs ← array_of doc "starting_equipment";
       kept ← those (fun x => equipment ← get x "equipment";
                              if truthy equipment then truthy <$> get equipment "index"
                              else Ok false) xs;
       child_records "class_index" idx
         [ ("equipment_index", fun x => get x "equipment" ≫= fun e => get e "index");
           ("quantity", fun x => get x "quantity") ] kept);
    ("class_starting_equipment_options", fun _ doc =>
       idx ← get doc "index";
       options ← get doc "starting_equipment_options" ≫= as_array "entries";
       child_records "class_index" idx
         [ ("choice_index", fun ix => Ok (JNum (fst ix)));
           ("description", fun ix => get (snd ix) "desc");
           ("choose", fun ix => get (snd ix) "choose");
           ("options", fun ix => stringify_of (get (snd ix) "from" ≫= fun f => get f "options")) ]
         (entries options));
    ("monster_proficiencies", fun _ doc =>
       idx ← get doc "index";
       xs ← array_of doc "proficiencies";
       child_records "monster_index" idx
         [ ("proficiency_index", fun x => get x "proficiency" ≫= fun p => get p "index");
           ("value", fun x => get x "value") ] xs);
    ("monster_condition_immunities", fun _ doc =>
       idx ← get doc "index";
       xs ← array_of doc "condition_immunities";
       kept ← first_by (fun x => get x "index") [] xs;
       child_records "monster_index" idx [("condition_index", fun x => get x "index")] kept);
    ("proficiency_classes", links "proficiency_index" "class_index" "classes");
    ("proficiency_races", links "proficiency_index" "race_index" "races");
    ("race_proficiencies", links "race_index" "proficiency_index" "starting_proficiencies");
    ("race_languages", links "race_index" "language_index" "languages");
    ("race_traits", links "race_index" "trait_index" "traits");
    ("spell_classes", links "spell_index" "class_index" "classes");
    ("spell_subclasses", links "spell_index" "subclass_index" "subclasses");
    ("subclass_levels", fun net doc =>
       idx ← get doc "index";
       levels ← levels_of net doc "subclass_levels";
       child_records "subclass_index" idx
         [ ("level", fun x => get x "level");
           ("features", fun x => stringify_of (get x "features" ≫= pluck "index")) ] levels);
    ("subclass_spells", fun _ doc =>
       idx ← get doc "index";
       spells ← get doc "spells";
       xs ← (if truthy spells then array_of doc "spells" else Ok []);
       kept ← first_by (fun x => get x "spell" ≫= fun sp => get sp "index") [] xs;
       child_records "subclass_index" idx
         [ ("spell_index", fun x => get x "spell" ≫= fun sp => get sp "index");
           ("prerequisites", fun x => stringify_of (get x "prerequisites" ≫= pluck "index")) ]
         kept);
    ("trait_races", links "trait_index" "race_index" "races");
    ("trait_subraces", links "trait_index" "subrace_index" "subraces");
    ("trait_proficiencies", links "trait_index" "proficiency_index" "proficiencies") ].

Definition nested (c : string) (net : remote) (doc : jsval)
  : result (list (list (string * jsval))) :=
  match assoc c nested_collections with
  | Some collection => collection net doc
  | None => Ok []
  end.

(** The loops that keep a [Set] of the keys they have inserted
    ([processedConditions], [processedSpells]): the child table, its key
    column, the field of the document the loop iterates and the key of an
    entry. *)
Definition set_loops : list (string * (string * (string * (jsval -> result jsval)))) :=
  [ ("monster_condition_immunities",
      ("condition_index", ("condition_immunities", fun x => get x "index")));
    ("subclass_spells",
      ("spell_index", ("spells", fun x => get x "spell" ≫= fun sp => get sp "index"))) ].

(** The child tables the schema gives no unique key. *)
Definition keyless : list string :=
  [ "class_proficiency_choices"; "class_starting_equipment";
    "class_starting_equipment_options" ].

(** The value the database holds for a value of a record, and the row it
    holds for a record: the columns of the table, NULL where the record has
    none. *)
Definition stored_value (v : jsval) : sqlval :=
  match bind_set v with
  | Ok s => s
  | Err _ => SNull
  end.

Definition row_of (sch : table_schema) (rec : list (string * jsval)) : row :=
  map (fun c => (c, stored_value (default JUndefined (assoc c rec)))) (columns sch).

(** [s] inserts the record [rec] into table [c]. *)
Definition insert_carries (c : string) (s : stmt) (rec : list (string * jsval)) : Prop :=
  s = InsertSet c rec \/ s = InsertValues c (map fst rec) (map snd rec).

(** ** The resources and their record mappers *)

(** The resources of the server: the name in the API, the record mapper,
    the tables, and what a request of the route [/sync-<name>] does. *)
Definition resources
  : list (string * (mapper * (descriptor
       * (remote -> gmap string (list row) -> response * gmap string (list row))))) :=
  (map (fun g => (fst g, (record_of (snd (snd g)),
                          (generic_desc (fst (snd g)),
                           generic_run (fst g) (fst (snd g)) (snd (snd g))))))
     generic_endpoints
   ++ [ ("classes", (classRecord, (classes_desc, syncClasses)));
        ("monsters", (monsterRecord, (monsters_desc, syncMonsters)));
        ("proficiencies", (profRecord, (proficiencies_desc, syncProficiencies)));
        ("races", (raceRecord, (races_desc, syncRaces)));
        ("spells", (spellRecord, (spells_desc, syncSpells)));
        ("subclasses", (subRecord, (subclasses_desc, syncSubclasses)));
        ("traits", (traitRecord, (traits_desc, syncTraits))) ])%list.

Definition mappers : list (string * mapper) :=
  map (fun r => (fst r, fst (snd r))) resources.






(** The resources whose mapper copies [desc] as it is ([description:
    detailData.desc], and [detailData.desc || null] for the subraces), and
    those whose record has no description. *)
Definition copied_descriptions : list string :=
  [ "rules"; "rule-sections"; "subraces"; "magic-schools"; "alignments" ].

Definition without_description : list string :=
  [ "languages"; "equipment-categories"; "backgrounds"; "classes"; "monsters";
    "proficiencies"; "races" ].

(** ** Parameters that may be absent *)




(** ** Documents and remote sources of the scenarios *)

(** A remote source that serves the given pages and nothing else. *)
Definition serving (pages : list (string * jsval)) : remote :=
  fun url => assoc url pages.

Definition entry (name url : string) : jsval :=
  JObj [("name", JStr name); ("url", JStr url)].

Definition skill (index name : string) (desc : list string) (ability : string) : jsval :=
  JObj [("index", JStr index); ("name", JStr name); ("desc", JArr (map JStr desc));
        ("ability_score", JObj [("name", JStr ability)])].

(** Two skills on the list. *)
Definition two_skills : remote :=
  serving
    [ (api ++ "/api/skills",
       JObj [("count", JNum 2);
             ("results", JArr [entry "Acrobatics" "/api/skills/acrobatics";
                               entry "Stealth" "/api/skills/stealth"])]);
      (api ++ "/api/skills/acrobatics",
       skill "acrobatics" "Acrobatics" ["para1"; "para2"] "DEX");
      (api ++ "/api/skills/stealth", skill "stealth" "Stealth" ["hide"] "DEX") ].

Definition acrobatics : jsval := skill "acrobatics" "Acrobatics" ["para1"; "para2"] "DEX".

(** The list has the one entry Acrobatics. *)
Definition one_skill : remote :=
  serving
    [ (api ++ "/api/skills",
       JObj [("count", JNum 1);
             ("results", JArr [entry "Acrobatics" "/api/skills/acrobatics"])]);
      (api ++ "/api/skills/acrobatics", acrobatics) ].

Definition acrobatics_row : row :=
  [ ("index", SText "acrobatics"); ("name", SText "Acrobatics");
    ("description", SText ("para1" ++ blank_line ++ "para2"));
    ("ability_score", SText "DEX") ].

Definition indexed (s : string) : jsval := JObj [("index", JStr s)].

Definition proficiency (s : string) (value : Z) : jsval :=
  JObj [("value", JNum value); ("proficiency", indexed s)].

Definition monster (index name : string) (fields : list (string * jsval))
  (proficiencies condition_immunities : list jsval) : jsval :=
  JObj (("index", JStr index) :: ("name", JStr name)
        :: ("proficiencies", JArr proficiencies)
        :: ("condition_immunities", JArr condition_immunities) :: fields).

(** The list of monsters has the one entry Aboleth, whose detail document is
    [doc]. *)
Definition one_monster (doc : jsval) : remote :=
  serving
    [ (api ++ "/api/monsters",
       JObj [("count", JNum 1);
             ("results", JArr [entry "Aboleth" "/api/monsters/aboleth"])]);
      (api ++ "/api/monsters/aboleth", doc) ].



(** A monster with no [subtype]. *)
Definition aboleth : jsval :=
  monster "aboleth" "Aboleth" [("size", JStr "Large"); ("type", JStr "aberration")]
    [proficiency "skill-history" 12] [indexed "charmed"].

(** A class with three starting-equipment entries, of which one has an
    equipment index, and a proficiency choice with two options, of which one
    is an item. *)
Definition bard : jsval :=
  JObj [("index", JStr "bard"); ("name", JStr "Bard"); ("hit_die", JNum 8);
        ("saving_throws", JArr [JObj [("name", JStr "DEX")]]);
        ("class_levels", JStr "/api/classes/bard/levels");
        ("proficiency_choices",
          JArr [JObj [("desc", JStr "Choose any three"); ("choose", JNum 3);
                      ("type", JStr "proficiencies");
                      ("from", JObj [("options",
                         JArr [JObj [("option_type", JStr "reference");
                                     ("item", indexed "skill-acrobatics")];
                               JObj [("option_type", JStr "choice");
                                     ("choice", JObj [("desc", JStr "an instrument")])]])])]]);
        ("starting_equipment",
          JArr [JObj [("equipment", indexed "leather-armor"); ("quantity", JNum 1)];
                JObj [("quantity", JNum 1)];
                JObj [("equipment", JObj [("name", JStr "Dagger")]); ("quantity", JNum 1)]]);
        ("starting_equipment_options", JArr [])].

Definition one_class (doc : jsval) : remote :=
  serving
    [ (api ++ "/api/classes",
       JObj [("count", JNum 1); ("results", JArr [entry "Bard" "/api/classes/bard"])]);
      (api ++ "/api/classes/bard", doc);
      (api ++ "/api/classes/bard/levels", JArr []) ].

Definition race (index name : string) (traits : list string) : jsval :=
  JObj [("index", JStr index); ("name", JStr name); ("speed", JNum 25);
        ("starting_proficiencies", JArr []); ("languages", JArr []);
        ("traits", JArr (map indexed traits))].

Definition one_race (doc : jsval) : remote :=
  serving
    [ (api ++ "/api/races",
       JObj [("count", JNum 1); ("results", JArr [entry "Dwarf" "/api/races/dwarf"])]);
      (api ++ "/api/races/dwarf", doc) ].

(** The dwarf had the traits A, B, C at the first sync and has B, D now. *)
Definition dwarf_then : jsval := race "dwarf" "Dwarf" ["trait-a"; "trait-b"; "trait-c"].
Definition dwarf_now : jsval := race "dwarf" "Dwarf" ["trait-b"; "trait-d"].
Definition races_then : gmap string (list row) := snd (syncRaces (one_race dwarf_then) ∅).
Definition races_now : gmap string (list row) := snd (transaction (race_body dwarf_now) races_then).

Definition race_trait (race_index trait_index : string) : row :=
  [("race_index", SText race_index); ("trait_index", SText trait_index)].

(** Acrobatics was stored with one paragraph; the source now has two. *)
Definition skills_then : gmap string (list row) :=
  snd (generic_run "skills" "skills" skills_builder
         (serving
            [ (api ++ "/api/skills",
               JObj [("count", JNum 1);
                     ("results", JArr [entry "Acrobatics" "/api/skills/acrobatics"])]);
              (api ++ "/api/skills/acrobatics",
               skill "acrobatics" "Acrobatics" ["old text"] "STR") ]) ∅).

(** Three monsters on the list; the second repeats a proficiency. *)
Definition three_monsters : remote :=
  serving
    [ (api ++ "/api/monsters",
       JObj [("count", JNum 3);
             ("results", JArr [entry "Aboleth" "/api/monsters/aboleth";
                               entry "Bandit" "/api/monsters/bandit";
                               entry "Cat" "/api/monsters/cat"])]);
      (api ++ "/api/monsters/aboleth",
       monster "aboleth" "Aboleth" [] [proficiency "skill-history" 12] [indexed "charmed"]);
      (api ++ "/api/monsters/bandit",
       monster "bandit" "Bandit" []
         [proficiency "skill-stealth" 2; proficiency "skill-stealth" 2] []);
      (api ++ "/api/monsters/cat",
       monster "cat" "Cat" [] [proficiency "skill-stealth" 4] []) ].

Definition bandit : jsval :=
  monster "bandit" "Bandit" [] [proficiency "skill-stealth" 2; proficiency "skill-stealth" 2] [].

Definition after_aboleth : gmap string (list row) :=
  snd (enriched_loop monster_item three_monsters [entry "Aboleth" "/api/monsters/aboleth"] ∅).

Definition duplicate_entry : error :=
  SqlError "ER_DUP_ENTRY" "Duplicate entry for the unique key".

Definition charmed_twice : jsval :=
  monster "aboleth" "Aboleth" [] [proficiency "skill-history" 12]
    [indexed "charmed"; indexed "charmed"].

(** Two skills on the list; the first has no name, which the column does
    not accept. *)
Definition nameless_first : remote :=
  serving
    [ (api ++ "/api/skills",
       JObj [("count", JNum 2);
             ("results", JArr [entry "Acrobatics" "/api/skills/acrobatics";
                               entry "Stealth" "/api/skills/stealth"])]);
      (api ++ "/api/skills/acrobatics",
       JObj [("index", JStr "acrobatics"); ("desc", JArr [JStr "para1"]);
             ("ability_score", JObj [("name", JStr "DEX")])]);
      (api ++ "/api/skills/stealth", skill "stealth" "Stealth" ["hide"] "DEX") ].

(** A dwarf without languages. *)
Definition mute_dwarf : jsval :=
  JObj [("index", JStr "dwarf"); ("name", JStr "Dwarf"); ("speed", JNum 25);
        ("starting_proficiencies", JArr []); ("traits", JArr [indexed "trait-b"])].

(** The list of skills is empty. *)
Definition no_skills : remote :=
  serving [ (api ++ "/api/skills", JObj [("count", JNum 0); ("results", JArr [])]) ].

(** Two skills on the list; the page of the second is not served. *)
Definition stealth_unreachable : remote :=
  serving
    [ (api ++ "/api/skills",
       JObj [("count", JNum 2);
             ("results", JArr [entry "Acrobatics" "/api/skills/acrobatics";
                               entry "Stealth" "/api/skills/stealth"])]);
      (api ++ "/api/skills/acrobatics", acrobatics) ].

(** A remote source whose every list is empty. *)
Definition every_list_empty : remote :=
  fun _ => Some (JObj [("count", JNum 0); ("results", JArr [])]).

(** A subclass that lists the spell sleep twice, with different
    prerequisites. *)
Definition lore_spell (spell : string) (prerequisites : list string) : jsval :=
  JObj [("prerequisites", JArr (map indexed prerequisites)); ("spell", indexed spell)].

Definition lore : jsval :=
  JObj [("index", JStr "lore"); ("name", JStr "Lore"); ("class", indexed "bard");
        ("subclass_flavor", JStr "Bard College"); ("desc", JArr [JStr "Bards of lore."]);
        ("subclass_levels", JStr "/api/subclasses/lore/levels");
        ("spells", JArr [lore_spell "sleep" ["bard-1"]; lore_spell "charm-person" [];
                         lore_spell "sleep" ["bard-3"]])].

(** A club that weighs nothing and costs one silver piece. *)
Definition club : list (string * jsval) :=
  [ ("index", JStr "club"); ("name", JStr "Club");
    ("equipment_category", indexed "weapon");
    ("cost", JObj [("quantity", JNum 1); ("unit", JStr "sp")]);
    ("weight", JNum 0); ("desc", JArr []); ("str_minimum", JNum 0) ].

(** The page as loaded, in front of a server in state [s]. *)
Definition page_on {B} (s : B) : world B :=
  {| document := loaded; backend := s; clock := 0; requested := [] |}.

(** A clock that stands still, and a rounding of the progress. *)
Definition noon (_ : nat) : string := "12:00:00".
Definition percent (k n : nat) : Z := ((200 * Z.of_nat k + Z.of_nat n) / (2 * Z.of_nat n))%Z.

(** A server that answers the first two requests and then is gone; its state
    is the number of requests it got. *)
Definition two_then_gone (url : string) (n : nat) : reply * nat :=
  (if (n <? 2)%nat
   then Responded 200 (Json (JObj [("success", JBool true); ("message", JStr "done")]))
   else Rejected "Failed to fetch",
   S n).

(** A class with a spells link, and the remote source that serves its levels
    and its spell list. *)
Definition wizard : jsval :=
  JObj [("index", JStr "wizard"); ("name", JStr "Wizard"); ("hit_die", JNum 6);
        ("saving_throws", JArr [JObj [("name", JStr "INT")]]);
        ("class_levels", JStr "/api/classes/wizard/levels");
        ("spells", JStr "/api/classes/wizard/spells");
        ("proficiency_choices", JArr []); ("starting_equipment", JArr []);
        ("starting_equipment_options", JArr [])].

Definition listed (index : string) (level : Z) : jsval :=
  JObj [("index", JStr index); ("name", JStr index); ("level", JNum level)].

Definition wizard_pages : remote :=
  serving
    [ (api ++ "/api/classes/wizard/levels", JArr []);
      (api ++ "/api/classes/wizard/spells",
       JObj [("count", JNum 2); ("results", JArr [listed "light" 0; listed "sleep" 1])]) ].

(** A class that lists the same starting equipment twice. *)
Definition two_armors : jsval :=
  JObj [("index", JStr "bard"); ("name", JStr "Bard"); ("hit_die", JNum 8);
        ("saving_throws", JArr [JObj [("name", JStr "DEX")]]);
        ("class_levels", JStr "/api/classes/bard/levels");
        ("proficiency_choices", JArr []);
        ("starting_equipment",
          JArr [JObj [("equipment", indexed "leather-armor"); ("quantity", JNum 1)];
                JObj [("equipment", indexed "leather-armor"); ("quantity", JNum 1)]]);
        ("starting_equipment_options", JArr [])].

(** A magic school whose description comes as two paragraphs. *)
Definition evocation : jsval :=
  JObj [("index", JStr "evocation"); ("name", JStr "Evocation");
        ("desc", JArr [JStr "para1"; JStr "para2"])].

Definition one_school : remote :=
  serving
    [ (api ++ "/api/magic-schools",
       JObj [("count", JNum 1);
             ("results", JArr [entry "Evocation" "/api/magic-schools/evocation"])]);
      (api ++ "/api/magic-schools/evocation", evocation) ].


(** A remote source with one ability score and one alignment, and nothing
    else: the list of conditions is not served. *)
Definition conditions_missing : remote :=
  serving
    [ (api ++ "/api/ability-scores",
       JObj [("count", JNum 1);
             ("results", JArr [entry "CHA" "/api/ability-scores/cha"])]);
      (api ++ "/api/ability-scores/cha",
       JObj [("index", JStr "cha"); ("name", JStr "CHA");
             ("desc", JArr [JStr "Charisma measures force of personality."])]);
      (api ++ "/api/alignments",
       JObj [("count", JNum 1);
             ("results", JArr [entry "Neutral" "/api/alignments/neutral"])]);
      (api ++ "/api/alignments/neutral",
       JObj [("index", JStr "neutral"); ("name", JStr "Neutral");
             ("abbreviation", JStr "N"); ("desc", JStr "Neutral is the middle.")]) ].

(** Every callback of the database runs at once. *)
Definition at_once (_ : nat) : bool := true.

(** * Lemmas and theorems *)

#[local] Set Warnings "-clear-no-such-hyp".

(** ** Rows and tables *)

Lemma eqb_decide (a b : string) : String.eqb a b = bool_decide (a = b).
Proof.
  destruct (String.eqb_spec a b); symmetry;
    [by apply bool_decide_eq_true | by apply bool_decide_eq_false].
Qed.

Lemma schema_all_ok t sch : schema_of t = Some sch -> schema_ok sch = true.
Proof.
  assert (H : forallb (fun p => schema_ok (snd p)) schema = true) by (vm_compute; reflexivity).
  unfold schema_of. revert H. generalize schema.
  induction l as [|[k v] l IH]; simpl; [done|].
  intros [H1 H2]%andb_true_iff.
  destruct (String.eqb t k); [intros [= <-]; done | auto].
Qed.

Lemma assoc_tabulate {A} (f : string -> A) (cs : list string) (c : string) :
  assoc c (map (fun c => (c, f c)) cs) = if bool_decide (c ∈ cs) then Some (f c) else None.
Proof.
  induction cs as [|c' cs IH].
  - rewrite bool_decide_eq_false_2 by set_solver. done.
  - cbn [map assoc]. destruct (String.eqb_spec c c') as [->|Hne].
    + rewrite bool_decide_eq_true_2 by set_solver. done.
    + rewrite IH. do 2 case_bool_decide; set_solver.
Qed.

Lemma make_row_inv sch cols vals r :
  make_row sch cols vals = Ok r ->
  r = map (fun c => (c, default SNull (assoc c (zip cols vals)))) (columns sch)
  /\ length cols = length vals
  /\ Forall (fun c => c ∈ columns sch) cols
  /\ forallb (fun c => negb (is_null (row_get r c))) (not_null sch) = true.
Proof.
  unfold make_row. destruct (length cols =? length vals)%nat eqn:Hlen; simpl; [|done].
  destruct (List.find _ cols) eqn:Hf; [done|].
  set (r0 := map _ (columns sch)).
  destruct (List.find _ (not_null sch)) eqn:Hn; [done|].
  intros [= <-]. split; [done|]. split; [by apply Nat.eqb_eq|]. split.
  - apply Forall_forall. intros c Hc.
    apply list_elem_of_In in Hc.
    pose proof (find_none _ _ Hf c Hc) as Hx. simpl in Hx.
    apply negb_false_iff, bool_decide_eq_true in Hx. done.
  - apply forallb_forall. intros c Hc.
    pose proof (find_none _ _ Hn c Hc) as Hx. simpl in Hx. by rewrite Hx.
Qed.

Lemma make_row_columns sch cols vals r :
  make_row sch cols vals = Ok r -> map fst r = columns sch.
Proof.
  intros (-> & _)%make_row_inv. rewrite map_map. simpl. apply map_id.
Qed.

Lemma make_row_wf sch cols vals r :
  make_row sch cols vals = Ok r -> wf_row sch r = true.
Proof.
  intros H. pose proof (make_row_columns _ _ _ _ H) as Hc.
  apply make_row_inv in H as (_ & _ & _ & Hn).
  unfold wf_row. rewrite Hn, bool_decide_eq_true_2; done.
Qed.

Lemma make_row_get sch cols vals r c :
  make_row sch cols vals = Ok r -> c ∈ columns sch ->
  row_get r c = default SNull (assoc c (zip cols vals)).
Proof.
  intros (-> & _)%make_row_inv Hc. unfold row_get.
  rewrite assoc_tabulate, bool_decide_eq_true_2; done.
Qed.

(** ** Lists of records with a key: insert-or-replace, and replace-by-parent *)

Lemma filter_all {A} (P : A -> Prop) `{!forall x, Decision (P x)} (l : list A) :
  Forall P l -> filter P l = l.
Proof.
  induction 1 as [|x l Hx _ IH]; [done|]. rewrite filter_cons_True by done. by rewrite IH.
Qed.

Lemma filter_none {A} (P : A -> Prop) `{!forall x, Decision (P x)} (l : list A) :
  Forall (fun x => ~ P x) l -> filter P l = [].
Proof.
  induction 1 as [|x l Hx _ IH]; [done|]. by rewrite filter_cons_False.
Qed.

Section Keyed.
Context {A K : Type} `{EqDecision K} (key : A -> K).
Local Abbreviation put := (put key).
Local Abbreviation puts := (puts key).

Lemma put_keys x l :
  map key (put x l) = if decide (key x ∈ map key l) then map key l else (map key l ++ [key x])%list.
Proof.
  induction l as [|y l IH].
  - destruct (decide (key x ∈ map key [])) as [H|H]; [simpl in H; set_solver | done].
  - cbn [put map]. destruct (decide (key x = key y)) as [e|n]; cbn [map].
    + destruct (decide (key x ∈ key y :: map key l)) as [H|H]; [by rewrite e | set_solver].
    + rewrite IH.
      destruct (decide (key x ∈ map key l)), (decide (key x ∈ key y :: map key l));
        try done; set_solver.
Qed.

Lemma put_keys_incl x l k : k ∈ map key l -> k ∈ map key (put x l).
Proof. rewrite put_keys. case_decide; set_solver. Qed.

Lemma put_key_in x l : key x ∈ map key (put x l).
Proof. rewrite put_keys. case_decide; set_solver. Qed.

Lemma put_fresh x l : key x ∉ map key l -> put x l = (l ++ [x])%list.
Proof.
  induction l as [|y l IH]; simpl; [done|]. intros Hn.
  rewrite decide_False by set_solver. rewrite IH by set_solver. done.
Qed.

Lemma put_app_l x l l' : key x ∈ map key l -> put x (l ++ l') = (put x l ++ l')%list.
Proof.
  induction l as [|y l IH]; simpl; [set_solver|]. intros Hin.
  destruct (decide (key x = key y)); [done|]. rewrite IH by set_solver. done.
Qed.

Lemma put_put_same x y l : key x = key y -> put x (put y l) = put x l.
Proof.
  intros E. induction l as [|z l IH]; simpl.
  - rewrite decide_True by done. done.
  - destruct (decide (key y = key z)) as [e|n]; simpl.
    + rewrite !decide_True by congruence. done.
    + rewrite !decide_False by congruence. by rewrite IH.
Qed.

Lemma put_comm x y l :
  key x <> key y -> key y ∈ map key l -> put y (put x l) = put x (put y l).
Proof.
  intros Hne. induction l as [|z l IH]; simpl; [set_solver|]. intros Hin.
  destruct (decide (key x = key z)) as [e1|n1], (decide (key y = key z)) as [e2|n2]; simpl.
  - congruence.
  - rewrite decide_False by congruence. rewrite decide_True by done. done.
  - rewrite decide_True by done. rewrite decide_False by congruence. done.
  - rewrite decide_False by done. rewrite decide_False by done.
    rewrite IH by set_solver. done.
Qed.

Lemma puts_keys_incl xs l k : k ∈ map key l -> k ∈ map key (puts xs l).
Proof.
  revert l. induction xs as [|x xs IH]; simpl; [done|]. intros l H.
  apply IH, put_keys_incl, H.
Qed.

Lemma puts_keys_in xs l x : x ∈ xs -> key x ∈ map key (puts xs l).
Proof.
  revert l. induction xs as [|y xs IH]; simpl; [set_solver|]. intros l [->|H]%elem_of_cons.
  - apply puts_keys_incl, put_key_in.
  - by apply IH.
Qed.

Lemma puts_snoc xs x l : puts (xs ++ [x]) l = put x (puts xs l).
Proof. unfold puts. by rewrite foldl_app. Qed.

Lemma put_puts_put xs x s :
  (forall y, y ∈ xs -> key y ∈ map key s) ->
  put x (puts xs (put x s)) = put x (puts xs s).
Proof.
  revert s. induction xs as [|y ys IH]; intros s Hs; simpl.
  - by apply put_put_same.
  - destruct (decide (key y = key x)) as [e|n].
    + rewrite put_put_same by done. done.
    + rewrite put_comm by (auto; apply Hs; set_solver).
      apply IH. intros z Hz. apply put_keys_incl, Hs. set_solver.
Qed.

(** Replaying a sequence of insert-or-replace steps on its own result
    changes nothing. *)
Lemma puts_idem xs l : puts xs (puts xs l) = puts xs l.
Proof.
  revert l. induction xs as [|x xs IH] using rev_ind; intros l; [done|].
  rewrite !puts_snoc. rewrite put_puts_put.
  - by rewrite IH.
  - intros y Hy. by apply puts_keys_in.
Qed.

Lemma put_NoDup x l : NoDup (map key l) -> NoDup (map key (put x l)).
Proof.
  intros H. rewrite put_keys. case_decide; [done|].
  apply NoDup_app. split; [done|]. split; [set_solver|]. apply NoDup_singleton.
Qed.

Lemma put_lookup x l :
  NoDup (map key l) -> filter (fun y => key y = key x) (put x l) = [x].
Proof.
  induction l as [|y l IH]; simpl; intros Hnd.
  - rewrite filter_cons_True by done. done.
  - apply NoDup_cons in Hnd as [Hy Hnd].
    destruct (decide (key x = key y)) as [e|n].
    + rewrite filter_cons_True by done. f_equal.
      apply filter_none, Forall_forall. intros z Hz Hk.
      apply Hy. rewrite <- e, <- Hk. apply list_elem_of_In, in_map, list_elem_of_In, Hz.
    + rewrite filter_cons_False by congruence. by apply IH.
Qed.

Lemma put_length_in x l : key x ∈ map key l -> length (put x l) = length l.
Proof.
  induction l as [|y l IH]; simpl; [set_solver|]. intros Hin.
  destruct (decide (key x = key y)); simpl; [done|]. rewrite IH by set_solver. done.
Qed.

End Keyed.

Section Parented.
Context {A P : Type} `{EqDecision P} (par : A -> P).
Local Abbreviation repl := (repl par).
Local Abbreviation repls := (repls par).
Local Abbreviation owned := (owned par).
Local Abbreviation outside := (outside par).

Lemma repl_app p n a b : repl p n (a ++ b) = (filter (fun x => par x <> p) a ++ repl p n b)%list.
Proof. unfold repl. by rewrite filter_app, <- (assoc_L (++)). Qed.

Lemma repls_app es a b :
  repls es (a ++ b) = (filter (outside es) a ++ repls es b)%list.
Proof.
  revert a b. induction es as [|[p n] es IH]; intros a b.
  - cbn. f_equal. symmetry. apply filter_all, Forall_forall. unfold outside. set_solver.
  - cbn [repls foldl fst snd]. rewrite repl_app. fold (repls es (repl p n b)).
    change (foldl _ ?l es) with (repls es l). rewrite IH. f_equal.
    rewrite list_filter_filter. apply list_filter_iff. intros x. unfold outside. cbn [map fst].
    rewrite not_elem_of_cons. tauto.
Qed.

Lemma repls_nil_owned es x : owned es -> x ∈ repls es [] -> par x ∈ map fst es.
Proof.
  induction es as [|[p n] es IH] using rev_ind; [cbn; set_solver|].
  unfold owned. rewrite Forall_app, Forall_singleton. intros [Ho1 Ho2].
  unfold repls. rewrite foldl_app. cbn [foldl fst snd]. fold (repls es []).
  unfold repl. rewrite map_app. cbn [map fst]. cbn [fst snd] in Ho2.
  intros [H|H]%elem_of_app.
  - apply list_elem_of_filter in H as [_ H]. apply IH in H; [set_solver | done].
  - rewrite Forall_forall in Ho2. rewrite (Ho2 _ H). set_solver.
Qed.

(** Replaying a sequence of replace-by-parent steps on its own result
    changes nothing. *)
Lemma repls_idem es l : owned es -> repls es (repls es l) = repls es l.
Proof.
  intros Ho.
  assert (E : forall l, repls es l = (filter (outside es) l ++ repls es [])%list).
  { intros l0. rewrite <- (app_nil_r l0) at 1. apply repls_app. }
  rewrite (E (repls es l)), (E l). rewrite filter_app, list_filter_filter.
  rewrite <- (assoc_L (++)). f_equal.
  - apply list_filter_iff. tauto.
  - replace (filter (outside es) (repls es [])) with (@nil A); [done|].
    symmetry. apply filter_none, Forall_forall. intros x Hx Hout.
    apply Hout. by apply repls_nil_owned.
Qed.

End Parented.

(** ** Tables with a natural key *)

Lemma wf_row_inv sch r :
  wf_row sch r = true ->
  map fst r = columns sch /\ (forall c, c ∈ not_null sch -> row_get r c <> SNull).
Proof.
  unfold wf_row. intros [H1 H2]%andb_true_iff. apply bool_decide_eq_true in H1.
  split; [done|]. intros c Hc. rewrite forallb_forall in H2.
  specialize (H2 c (proj1 (list_elem_of_In _ _) Hc)).
  destruct (row_get r c); done.
Qed.

Lemma is_null_false v : v <> SNull -> is_null v = false.
Proof. by destruct v. Qed.

Lemma row_get_head c v r : row_get ((c, v) :: r) c = v.
Proof. unfold row_get. simpl. by rewrite String.eqb_refl. Qed.

Lemma row_get_tail c c' v r : c <> c' -> row_get ((c', v) :: r) c = row_get r c.
Proof. unfold row_get. simpl. intros H. by rewrite (proj2 (String.eqb_neq c c') H). Qed.

(** A row whose columns are distinct is determined by what [row_get] reads. *)
Lemma row_ext (a b : row) :
  map fst a = map fst b -> NoDup (map fst a) ->
  (forall c, c ∈ map fst a -> row_get a c = row_get b c) -> a = b.
Proof.
  revert b. induction a as [|[c v] a IH]; intros [|[c' v'] b]; simpl; try done.
  intros [= <- Hcols] [Hc Hnd]%NoDup_cons Hget. f_equal.
  - f_equal. specialize (Hget c). rewrite !row_get_head in Hget. apply Hget. set_solver.
  - apply IH; [done..|]. intros x Hx.
    specialize (Hget x). rewrite !row_get_tail in Hget by set_solver. apply Hget. set_solver.
Qed.

Lemma update_row_columns upd new old : map fst (update_row upd new old) = map fst old.
Proof.
  unfold update_row. rewrite map_map. apply map_ext. intros [c v]. simpl. by case_bool_decide.
Qed.

Lemma update_row_cons upd new c v old :
  update_row upd new ((c, v) :: old)
  = (if bool_decide (c ∈ upd) then (c, row_get new c) else (c, v)) :: update_row upd new old.
Proof. done. Qed.

Lemma update_row_get upd new old c :
  NoDup (map fst old) -> c ∈ map fst old ->
  row_get (update_row upd new old) c
  = if bool_decide (c ∈ upd) then row_get new c else row_get old c.
Proof.
  induction old as [|[c' v] old IH]; [cbn; set_solver|].
  cbn [map fst]. intros [Hc Hnd]%NoDup_cons Hin. rewrite update_row_cons.
  destruct (decide (c = c')) as [->|Hne].
  - case_bool_decide; by rewrite !row_get_head.
  - rewrite (row_get_tail c c' v) by done.
    rewrite <- IH by set_solver.
    destruct (bool_decide (c' ∈ upd)); by rewrite row_get_tail.
Qed.

Section Parent.
Context (sch : table_schema) (k : string) (rest : list string).
Hypothesis Hcols : columns sch = k :: rest.
Hypothesis Hkey : unique_key sch = [k].
Hypothesis Hnn : k ∈ not_null sch.
Hypothesis Hnd : NoDup (columns sch).
Local Abbreviation pkey := (pkey k).

Lemma key_of_parent r : wf_row sch r = true -> key_of sch r = Some [row_get r k].
Proof.
  intros [_ Hn]%wf_row_inv. unfold key_of. rewrite Hkey. simpl.
  rewrite is_null_false; [done | by apply Hn].
Qed.

Lemma conflicts_parent a b :
  wf_row sch a = true -> wf_row sch b = true ->
  conflicts sch a b = bool_decide (pkey a = pkey b).
Proof.
  intros Ha Hb. unfold conflicts. rewrite !key_of_parent by done.
  unfold pkey. apply bool_decide_ext. split; [by intros [= ->] | by intros ->].
Qed.

Lemma update_row_parent new old :
  wf_row sch new = true -> wf_row sch old = true -> pkey new = pkey old ->
  update_row rest new old = new.
Proof.
  intros [Hn _]%wf_row_inv [Ho _]%wf_row_inv Hk.
  apply row_ext.
  - rewrite update_row_columns. congruence.
  - rewrite update_row_columns, Ho. done.
  - intros c Hc. rewrite update_row_columns in Hc.
    rewrite update_row_get by (first [done | by rewrite Ho]).
    rewrite Ho, Hcols in Hc. apply elem_of_cons in Hc as [->|Hc].
    + rewrite bool_decide_eq_false_2; [by symmetry|].
      rewrite Hcols in Hnd. by apply NoDup_cons in Hnd as [? _].
    + by rewrite bool_decide_eq_true_2.
Qed.

Lemma upsert_row_put new tbl :
  wf_row sch new = true -> forallb (wf_row sch) tbl = true ->
  upsert_row sch rest new tbl = put pkey new tbl.
Proof.
  intros Hn. induction tbl as [|old tbl IH]; simpl; [done|].
  intros [Ho Ht]%andb_true_iff. rewrite conflicts_parent by done.
  destruct (decide (pkey new = pkey old)) as [e|ne].
  - rewrite bool_decide_eq_true_2 by done. by rewrite update_row_parent.
  - rewrite bool_decide_eq_false_2 by done. by rewrite IH.
Qed.

Lemma unique_rows_parent tbl :
  forallb (wf_row sch) tbl = true ->
  unique_rows sch tbl = true <-> NoDup (map pkey tbl).
Proof.
  induction tbl as [|r tbl IH]; simpl.
  - intros _. split; [constructor | done].
  - intros [Hr Ht]%andb_true_iff. rewrite andb_true_iff, negb_true_iff, NoDup_cons, IH by done.
    assert (existsb (conflicts sch r) tbl = false <-> pkey r ∉ map pkey tbl) as ->; [|done].
    rewrite <- not_true_iff_false, existsb_exists. split.
    + intros Hno Hin. apply Hno. apply list_elem_of_In, in_map_iff in Hin as (r' & E & Hr').
      exists r'. split; [done|]. rewrite forallb_forall in Ht.
      rewrite conflicts_parent by auto. by apply bool_decide_eq_true.
    + intros Hni (r' & Hr' & Hc). apply Hni. rewrite forallb_forall in Ht.
      rewrite conflicts_parent in Hc by auto. apply bool_decide_eq_true in Hc.
      rewrite Hc. apply list_elem_of_In, in_map, Hr'.
Qed.

Lemma put_wf_rows new tbl :
  wf_row sch new = true -> forallb (wf_row sch) tbl = true ->
  forallb (wf_row sch) (put pkey new tbl) = true.
Proof.
  intros Hn. induction tbl as [|old tbl IH]; simpl; [by rewrite Hn|].
  intros [Ho Ht]%andb_true_iff. destruct (decide _); simpl.
  - by rewrite Hn, Ht.
  - by rewrite Ho, IH.
Qed.

Lemma put_wf_table new tbl :
  wf_row sch new = true -> wf_table sch tbl = true -> wf_table sch (put pkey new tbl) = true.
Proof.
  unfold wf_table. intros Hn [Ht Hu]%andb_true_iff.
  rewrite put_wf_rows by done. simpl.
  apply unique_rows_parent; [by apply put_wf_rows|].
  apply put_NoDup. by apply unique_rows_parent.
Qed.

End Parent.

(** ** Statements on the store *)

Lemma lookup_overlay D p e d t :
  overlay D p e d !! t =
  match e !! t with
  | Some fresh => Some (combine D p t fresh (rows_of d t))
  | None => d !! t
  end.
Proof.
  unfold overlay. rewrite lookup_union, map_lookup_imap.
  destruct (e !! t); simpl; by destruct (d !! t).
Qed.

Lemma overlay_empty D p d : overlay D p ∅ d = d.
Proof. apply map_eq. intros t. by rewrite lookup_overlay, lookup_empty. Qed.

Lemma rows_of_insert t t' tbl (d : gmap string (list row)) :
  rows_of (<[t := tbl]> d) t' = if decide (t = t') then tbl else rows_of d t'.
Proof.
  unfold rows_of. destruct (decide (t = t')) as [->|].
  - by rewrite lookup_insert_eq.
  - by rewrite lookup_insert_ne.
Qed.

Lemma rows_of_overlay D p e d t :
  rows_of (overlay D p e d) t =
  match e !! t with
  | Some fresh => combine D p t fresh (rows_of d t)
  | None => rows_of d t
  end.
Proof. unfold rows_of at 1. rewrite lookup_overlay. by destruct (e !! t). Qed.

(** *** What a statement does, read off its text *)

Lemma bind_result_inv {A B} (r : result A) (k : A -> result B) b :
  r ≫= k = Ok b -> exists a, r = Ok a /\ k a = Ok b.
Proof. destruct r; [eauto | done]. Qed.

Lemma exec_upsert t cols upd params d :
  exec (InsertOnDup t cols upd params) d =
  '(sch, r) ← stmt_row (InsertOnDup t cols upd params);
  Ok (<[t := upsert_row sch upd r (rows_of d t)]> d).
Proof.
  unfold exec, with_table, stmt_row. destruct (schema_of t); [|done].
  destruct (rmap bind params); [|done]. simpl. by destruct (make_row _ _ _).
Qed.

Lemma exec_insert s d :
  match s with InsertValues _ _ _ | InsertSet _ _ => True | _ => False end ->
  exec s d =
  '(sch, r) ← stmt_row s;
  tbl ← insert_row sch r (rows_of d (stmt_table s));
  Ok (<[stmt_table s := tbl]> d).
Proof.
  destruct s; try done; intros _; unfold exec, with_table, stmt_row; simpl;
    destruct (schema_of table); try done.
  - destruct (rmap bind params); [|done]. simpl. by destruct (make_row _ _ _).
  - destruct (rmap bind_set _); [|done]. simpl. by destruct (make_row _ _ _).
Qed.

(** *** Uniqueness under appending and filtering *)

Lemma conflicts_sym sch a b : conflicts sch a b = conflicts sch b a.
Proof.
  unfold conflicts. destruct (key_of sch a), (key_of sch b); try done.
  apply bool_decide_ext. naive_solver.
Qed.

Lemma conflicts_agree sch a b c :
  conflicts sch a b = true -> c ∈ unique_key sch -> row_get a c = row_get b c.
Proof.
  unfold conflicts, key_of. destruct (unique_key sch) as [|k ks] eqn:E; [done|].
  destruct (existsb _ _); [done|]. destruct (existsb _ _); [done|].
  intros H%bool_decide_eq_true Hc.
  revert H Hc. generalize (k :: ks). intros l. induction l as [|x l IH]; simpl.
  - intros _ H. by apply elem_of_nil in H.
  - intros [= H1 H2] [->|H]%elem_of_cons; auto.
Qed.

Lemma conflicts_no_key sch a b : unique_key sch = [] -> conflicts sch a b = false.
Proof. unfold conflicts, key_of. by intros ->. Qed.

Lemma unique_rows_app sch a b :
  unique_rows sch (a ++ b) = true <->
  unique_rows sch a = true /\ unique_rows sch b = true
  /\ (forall x y, x ∈ a -> y ∈ b -> conflicts sch x y = false).
Proof.
  induction a as [|r a IH]; simpl.
  - split; [intros H; repeat split; [done|] | tauto]. intros x y Hx. by apply elem_of_nil in Hx.
  - rewrite !andb_true_iff, !negb_true_iff, IH, existsb_app, orb_false_iff. split.
    + intros ((H1 & H2) & H3 & H4 & H5). repeat split; try done.
      intros x y [->|Hx]%elem_of_cons Hy; [|by apply H5].
      rewrite <- not_true_iff_false in H2. rewrite <- not_true_iff_false. intros Hc. apply H2.
      apply existsb_exists. exists y. split; [by apply list_elem_of_In | done].
    + intros ((H1 & H2) & H3 & H4). repeat split; try done.
      * rewrite <- not_true_iff_false. intros (y & Hy & Hc)%existsb_exists.
        rewrite (H4 r y) in Hc; [done | set_solver | by apply list_elem_of_In].
      * intros x y Hx Hy. apply H4; set_solver.
Qed.

Lemma unique_rows_filter sch (P : row -> Prop) `{!forall r, Decision (P r)} tbl :
  unique_rows sch tbl = true -> unique_rows sch (filter P tbl) = true.
Proof.
  induction tbl as [|r tbl IH]; [done|]. simpl.
  intros [Hu1 Hu2]%andb_true_iff. rewrite filter_cons. destruct (decide (P r)); [|auto].
  simpl. rewrite IH by done. rewrite andb_true_r. apply negb_true_iff.
  apply negb_true_iff in Hu1. rewrite <- not_true_iff_false in Hu1 |- *.
  intros (y & Hy & Hc)%existsb_exists. apply Hu1, existsb_exists. exists y. split; [|done].
  apply list_elem_of_In. apply list_elem_of_In in Hy. by apply list_elem_of_filter in Hy as [_ ?].
Qed.

Lemma forallb_filter {A} (f : A -> bool) (P : A -> Prop) `{!forall r, Decision (P r)} l :
  forallb f l = true -> forallb f (filter P l) = true.
Proof.
  rewrite !forallb_forall. intros Hall x Hx. apply Hall.
  apply list_elem_of_In. apply list_elem_of_In in Hx. by apply list_elem_of_filter in Hx as [_ ?].
Qed.

Lemma insert_row_inv sch r tbl tbl' :
  insert_row sch r tbl = Ok tbl' ->
  tbl' = (tbl ++ [r])%list /\ existsb (conflicts sch r) tbl = false.
Proof. unfold insert_row. destruct (existsb _ _); [intros [=] | intros [= <-]; by split]. Qed.

Lemma insert_row_wf sch r tbl tbl' :
  wf_row sch r = true -> wf_table sch tbl = true -> insert_row sch r tbl = Ok tbl' ->
  wf_table sch tbl' = true.
Proof.
  intros Hr [H1 H2]%andb_true_iff [-> Hc]%insert_row_inv. unfold wf_table.
  rewrite forallb_app, H1. simpl. rewrite Hr. simpl.
  apply unique_rows_app. split; [done|]. split; [reflexivity|].
  intros x y Hx ->%list_elem_of_singleton. rewrite conflicts_sym.
  rewrite <- not_true_iff_false in Hc |- *. intros Hxy. apply Hc, existsb_exists.
  exists x. split; [by apply list_elem_of_In | done].
Qed.

Lemma delete_rows_wf sch col v tbl :
  wf_table sch tbl = true -> wf_table sch (delete_rows col v tbl) = true.
Proof.
  unfold delete_rows, wf_table. destruct (is_null v); [done|].
  intros [H1 H2]%andb_true_iff. rewrite forallb_filter, unique_rows_filter; done.
Qed.

(** ** A snapshot script on any store, from its run on the empty store *)

Lemma exec_all_app a b d :
  exec_all (a ++ b) d =
  match exec_all a d with
  | (Ok _, d') => exec_all b d'
  | (Err e, d') => (Err e, d')
  end.
Proof.
  revert d. induction a as [|s a IH]; intros d; simpl; [done|].
  destruct (exec s d); [apply IH | done].
Qed.

Lemma wf_db_insert t sch tbl d :
  schema_of t = Some sch -> wf_table sch tbl = true -> wf_db d -> wf_db (<[t := tbl]> d).
Proof. intros Hs Ht Hd. apply map_Forall_insert_2; [by rewrite Hs | done]. Qed.

Lemma wf_db_rows d t sch : wf_db d -> schema_of t = Some sch -> wf_table sch (rows_of d t) = true.
Proof.
  intros Hd Hs. unfold rows_of. destruct (d !! t) as [tbl|] eqn:E; [|done].
  specialize (Hd t tbl E). simpl in Hd. by rewrite Hs in Hd.
Qed.

Lemma stmt_row_wf s sch r : stmt_row s = Ok (sch, r) -> wf_row sch r = true.
Proof.
  destruct s; simpl; try done; destruct (schema_of table); try done;
    intros (vals & _ & (r' & Hr & [= <- <-])%bind_result_inv)%bind_result_inv;
    eapply make_row_wf, Hr.
Qed.

Lemma stmt_row_schema s sch r : stmt_row s = Ok (sch, r) -> schema_of (stmt_table s) = Some sch.
Proof.
  destruct s; simpl; try done; destruct (schema_of table); try done;
    by intros (vals & _ & (r' & Hr & [= <- <-])%bind_result_inv)%bind_result_inv.
Qed.

Section Snapshot.
Context (D : descriptor) (idx : jsval) (p : sqlval) (d0 : gmap string (list row)).
Hypothesis HD : descriptor_ok D = true.
Hypothesis Hp : bind idx = Ok p.
Hypothesis Hpn : p <> SNull.
Hypothesis Hd0 : wf_db d0.
Local Abbreviation owned_by := (owned_by D p).
Local Abbreviation commutes := (commutes D p d0).
Local Abbreviation fresh_ok := (fresh_ok D p).
Local Abbreviation commutes_ok := (commutes_ok D p d0).

Lemma parent_schema :
  exists psch rest, schema_of (parent_table D) = Some psch
    /\ columns psch = "index" :: rest /\ unique_key psch = ["index"]
    /\ "index" ∈ not_null psch /\ NoDup (columns psch).
Proof.
  pose proof HD as H. unfold descriptor_ok in H.
  apply andb_true_iff in H as [[H _]%andb_true_iff _].
  destruct (schema_of (parent_table D)) as [psch|] eqn:E; [|done].
  apply andb_true_iff in H as [[H1 H2]%andb_true_iff H3].
  apply bool_decide_eq_true in H1, H2, H3.
  destruct (columns psch) as [|k rest] eqn:Ec; [done|]. simpl in H1. injection H1 as ->.
  exists psch, rest. repeat split; try done.
  apply schema_all_ok in E. unfold schema_ok in E.
  apply andb_true_iff in E as [[E _]%andb_true_iff _]. apply bool_decide_eq_true in E.
  exact E.
Qed.

Lemma child_schema c pcol :
  (c, pcol) ∈ child_tables D ->
  exists csch, schema_of c = Some csch /\ pcol ∈ columns csch
    /\ (unique_key csch = [] \/ pcol ∈ unique_key csch)
    /\ c <> parent_table D /\ assoc c (child_tables D) = Some pcol.
Proof.
  intros Hin. pose proof HD as H. unfold descriptor_ok in H.
  apply andb_true_iff in H as [[_ H]%andb_true_iff Hnd].
  apply bool_decide_eq_true in Hnd. unfold tables in Hnd.
  apply NoDup_cons in Hnd as [Hpt Hnd].
  rewrite forallb_forall in H. specialize (H _ (proj1 (list_elem_of_In _ _) Hin)).
  unfold child_ok in H. simpl in H. destruct (schema_of c) as [csch|]; [|done].
  apply andb_true_iff in H as [H1 H2]. apply bool_decide_eq_true in H1.
  exists csch. split; [done|]. split; [done|]. split.
  { apply orb_true_iff in H2 as [H2|H2]; apply bool_decide_eq_true in H2; auto. }
  split.
  { intros ->. apply Hpt. apply list_elem_of_In, in_map_iff. exists (parent_table D, pcol).
    split; [done | by apply list_elem_of_In]. }
  clear H2 Hpt. induction (child_tables D) as [|[c' q] l IH]; [by apply elem_of_nil in Hin|].
  simpl in *. apply NoDup_cons in Hnd as [Hc' Hnd].
  apply elem_of_cons in Hin as [[= <- <-]|Hin]; [by rewrite String.eqb_refl|].
  destruct (String.eqb_spec c c') as [->|]; [|auto].
  exfalso. apply Hc'. apply list_elem_of_In, in_map_iff. exists (c', pcol).
  split; [done | by apply list_elem_of_In].
Qed.

Lemma commutes_step s ss e :
  (forall e', exec s e = Ok e' -> exec s (overlay D p e d0) = Ok (overlay D p e' d0)
              /\ commutes ss e') ->
  (forall x, exec s e = Err x -> exec s (overlay D p e d0) = Err x) ->
  commutes (s :: ss) e.
Proof.
  intros Hok Herr. unfold commutes. simpl. destruct (exec s e) as [e'|x] eqn:E.
  - destruct (Hok e' eq_refl) as [-> Hc]. apply Hc.
  - by rewrite (Herr x eq_refl).
Qed.

Lemma overlay_insert_fresh t fresh e :
  overlay D p (<[t := fresh]> e) d0
  = <[t := combine D p t fresh (rows_of d0 t)]> (overlay D p e d0).
Proof.
  apply map_eq. intros t'. rewrite lookup_overlay.
  destruct (decide (t = t')) as [<-|Hne].
  - by rewrite !lookup_insert_eq.
  - rewrite !lookup_insert_ne by done. by rewrite lookup_overlay.
Qed.

Lemma upsert_overlay params e :
  e !! parent_table D = None ->
  forall psch, schema_of (parent_table D) = Some psch ->
  match exec (upsert_sql (parent_table D) (columns psch) (idx :: params)) e with
  | Ok e' => exec (upsert_sql (parent_table D) (columns psch) (idx :: params)) (overlay D p e d0)
             = Ok (overlay D p e' d0)
             /\ (forall t, t <> parent_table D -> e' !! t = e !! t)
             /\ exists new, e' !! parent_table D = Some [new] /\ wf_row psch new = true
                             /\ row_get new "index" = p
  | Err x => exec (upsert_sql (parent_table D) (columns psch) (idx :: params)) (overlay D p e d0)
             = Err x
  end.
Proof.
  intros He psch Hs. destruct parent_schema as (psch' & rest & Hs' & Hc & Hk & Hn & Hnd).
  assert (psch' = psch) as -> by congruence.
  unfold upsert_sql. rewrite !exec_upsert.
  destruct (stmt_row _) as [[sch r]|x] eqn:Er; [|done]. simpl.
  pose proof (stmt_row_wf _ _ _ Er) as Hr. pose proof (stmt_row_schema _ _ _ Er) as Hsch.
  simpl in Hsch. assert (sch = psch) as -> by congruence.
  split; [|split; [intros t Ht; by rewrite lookup_insert_ne|]].
  - f_equal. rewrite overlay_insert_fresh. f_equal.
    rewrite rows_of_overlay, He. unfold rows_of at 2. rewrite He. simpl.
    unfold combine. rewrite bool_decide_eq_true_2 by done. rewrite Hc. simpl.
    apply (upsert_row_put psch "index" rest); try done.
    pose proof (wf_db_rows _ _ _ Hd0 Hs) as Hw. by apply andb_true_iff in Hw as [? _].
  - exists r. rewrite lookup_insert_eq. unfold rows_of. rewrite He. simpl.
    split; [done|]. split; [done|].
    simpl in Er. rewrite Hs, Hp in Er. simpl in Er.
    apply bind_result_inv in Er as (vals & Hv & (r' & Hr' & [= <-])%bind_result_inv).
    apply bind_result_inv in Hv as (ys & _ & [= <-]).
    rewrite (make_row_get _ _ _ _ "index" Hr') by (rewrite Hc; set_solver).
    rewrite Hc. simpl. done.
Qed.

Lemma delete_overlay c pcol e :
  (c, pcol) ∈ child_tables D -> e !! c = None ->
  exec (DeleteWhere c pcol idx) e = Ok (<[c := []]> e)
  /\ exec (DeleteWhere c pcol idx) (overlay D p e d0) = Ok (overlay D p (<[c := []]> e) d0).
Proof.
  intros Hin He. destruct (child_schema _ _ Hin) as (csch & Hs & Hcol & _ & Hne & Ha).
  unfold exec, with_table. rewrite Hs, Hp. simpl.
  rewrite bool_decide_eq_true_2 by done. split.
  - do 2 f_equal. unfold rows_of. rewrite He. simpl. unfold delete_rows.
    by destruct (is_null p).
  - f_equal. rewrite overlay_insert_fresh. f_equal.
    rewrite rows_of_overlay, He. unfold combine.
    rewrite bool_decide_eq_false_2 by done. rewrite Ha.
    unfold delete_rows, repl. rewrite is_null_false by done. by rewrite app_nil_r.
Qed.

Lemma child_insert_row s :
  child_insert D idx s ->
  exists c pcol, (c, pcol) ∈ child_tables D /\ stmt_table s = c
    /\ match s with InsertValues _ _ _ | InsertSet _ _ => True | _ => False end
    /\ forall sch r, stmt_row s = Ok (sch, r) -> row_get r pcol = p.
Proof.
  destruct s as [| c cols params | c record |]; try done; simpl.
  - destruct cols as [|pcol cols]; [done|]. destruct params as [|v params]; [done|].
    intros [Hin ->]. exists c, pcol. repeat split; try done.
    intros sch r. destruct (child_schema _ _ Hin) as (csch & Hs & Hcol & _).
    rewrite Hs. simpl. rewrite Hp. simpl.
    intros (vals & Hv & (r' & Hr & [= <- <-])%bind_result_inv)%bind_result_inv.
    apply bind_result_inv in Hv as (ys & _ & [= <-]).
    rewrite (make_row_get _ _ _ _ _ Hr Hcol). simpl. by rewrite String.eqb_refl.
  - destruct record as [|[pcol v] record]; [done|].
    intros [Hin ->]. exists c, pcol. repeat split; try done.
    intros sch r. destruct (child_schema _ _ Hin) as (csch & Hs & Hcol & _).
    rewrite Hs. simpl.
    assert (bind_set idx = Ok p) as -> by (destruct idx; done). simpl.
    intros (vals & Hv & (r' & Hr & [= <- <-])%bind_result_inv)%bind_result_inv.
    apply bind_result_inv in Hv as (ys & _ & [= <-]).
    rewrite (make_row_get _ _ _ _ _ Hr Hcol). simpl. by rewrite String.eqb_refl.
Qed.

Lemma insert_overlay s e :
  child_insert D idx s -> owned_by e -> is_Some (e !! stmt_table s) ->
  match exec s e with
  | Ok e' => exec s (overlay D p e d0) = Ok (overlay D p e' d0)
             /\ owned_by e' /\ (forall t, is_Some (e !! t) -> is_Some (e' !! t))
             /\ (forall t, t <> stmt_table s -> e' !! t = e !! t)
  | Err x => exec s (overlay D p e d0) = Err x
  end.
Proof.
  intros Hs Ho [X HX]. destruct (child_insert_row _ Hs) as (c & pcol & Hin & Ht & Hkind & Hrow).
  destruct (child_schema _ _ Hin) as (csch & Hsch & Hcol & Hkey & Hne & Ha).
  rewrite !exec_insert by done. rewrite Ht in *.
  destruct (stmt_row s) as [[sch r]|x] eqn:Er; [|done]. simpl.
  pose proof (stmt_row_schema _ _ _ Er) as Hsch'. rewrite Ht, Hsch in Hsch'.
  injection Hsch' as <-. specialize (Hrow _ _ eq_refl).
  rewrite rows_of_overlay, HX. unfold rows_of at 1. rewrite HX. simpl.
  unfold combine. rewrite bool_decide_eq_false_2 by done. rewrite Ha. unfold repl.
  assert (existsb (conflicts csch r)
            (filter (fun r0 => row_get r0 pcol <> p) (rows_of d0 c) ++ X)
          = existsb (conflicts csch r) X) as Hex.
  { rewrite existsb_app.
    replace (existsb _ (filter _ _)) with false; [done|]. symmetry.
    rewrite <- not_true_iff_false. intros (y & Hy & Hc)%existsb_exists.
    apply list_elem_of_In, list_elem_of_filter in Hy as [Hy _].
    destruct Hkey as [Hk|Hk]; [by rewrite conflicts_no_key in Hc|].
    apply Hy. rewrite <- Hrow. symmetry. by eapply conflicts_agree. }
  unfold insert_row. rewrite Hex. destruct (existsb _ X); [done|]. simpl.
  split; [|split].
  - f_equal. rewrite overlay_insert_fresh. f_equal. unfold combine.
    rewrite bool_decide_eq_false_2 by done. rewrite Ha. unfold repl.
    by rewrite (assoc_L (++)).
  - intros c' pcol' tbl Hin' He'.
    destruct (decide (c = c')) as [<-|Hcc].
    + rewrite lookup_insert_eq in He'. injection He' as <-.
      destruct (child_schema _ _ Hin') as (_ & _ & _ & _ & _ & Ha').
      assert (pcol' = pcol) as -> by congruence.
      apply Forall_app. split; [by eapply Ho | by apply Forall_singleton].
    + rewrite lookup_insert_ne in He' by done. by eapply Ho.
  - split.
    + intros t Hsome. destruct (decide (c = t)) as [<-|Hcc].
      * by rewrite lookup_insert_eq.
      * by rewrite lookup_insert_ne.
    + intros t Hne'. by rewrite lookup_insert_ne.
Qed.

Lemma commutes_ok_step s ss e :
  (forall e', exec s e = Ok e' -> exec s (overlay D p e d0) = Ok (overlay D p e' d0)
              /\ commutes_ok ss e') ->
  (forall x, exec s e = Err x -> exec s (overlay D p e d0) = Err x) ->
  commutes_ok (s :: ss) e.
Proof.
  intros Hok Herr. split.
  - apply commutes_step; [|done]. intros e' He'. destruct (Hok e' He') as [? [? _]]. done.
  - intros e'. simpl. destruct (exec s e) as [e1|x] eqn:E; [|done].
    destruct (Hok e1 eq_refl) as [_ [_ H]]. apply H.
Qed.

Lemma inserts_commute inserts e :
  Forall (child_insert D idx) inserts -> fresh_ok e -> commutes_ok inserts e.
Proof.
  intros Hall. revert e. induction Hall as [|s ss Hs _ IH]; intros e Hf.
  - split; [done|]. simpl. by intros e' [= <-].
  - destruct Hf as (Ho & Hdom & Hpar & Hout).
    destruct (child_insert_row _ Hs) as (c & pcol & Hin & Ht & _).
    destruct (child_schema _ _ Hin) as (_ & _ & _ & _ & Hne & _).
    assert (is_Some (e !! stmt_table s)) as Hsome by (rewrite Ht; eauto).
    pose proof (insert_overlay s e Hs Ho Hsome) as H.
    apply commutes_ok_step; [|intros x Hx; by rewrite Hx in H].
    intros e' He'. rewrite He' in H. destruct H as (H1 & H2 & H3 & H4). split; [done|].
    apply IH. split; [done|]. split; [intros c' pcol' Hin'; eapply H3, Hdom, Hin'|]. split.
    + destruct Hpar as (psch & new & ? & ? & ? & ?). exists psch, new.
      rewrite H4 by congruence. done.
    + intros t Ht'. rewrite H4; [by apply Hout|]. intros ->. apply Ht'. unfold tables.
      rewrite Ht. apply elem_of_cons. right.
      apply list_elem_of_In, in_map_iff. exists (c, pcol). split; [done | by apply list_elem_of_In].
Qed.

Lemma deletes_commute cps ss e :
  (forall cp, cp ∈ cps -> cp ∈ child_tables D) -> NoDup (map fst cps) ->
  (forall cp, cp ∈ cps -> e !! fst cp = None) ->
  (forall e', (forall t, t ∉ map fst cps -> e' !! t = e !! t) ->
              (forall cp, cp ∈ cps -> e' !! fst cp = Some []) -> commutes_ok ss e') ->
  commutes_ok (map (fun cp => DeleteWhere (fst cp) (snd cp) idx) cps ++ ss) e.
Proof.
  revert e. induction cps as [|[c pcol] cps IH]; intros e Hsub Hnd Hnone Hk.
  - simpl. apply Hk; [done|]. intros cp Hcp. by apply elem_of_nil in Hcp.
  - rewrite map_cons in Hnd |- *. cbn [fst snd] in Hnd |- *.
    apply NoDup_cons in Hnd as [Hc Hnd].
    assert ((c, pcol) ∈ child_tables D) as Hin by (apply Hsub; set_solver).
    assert (e !! c = None) as He by (apply (Hnone (c, pcol)); set_solver).
    destruct (delete_overlay c pcol e Hin He) as [H1 H2].
    rewrite <- app_comm_cons.
    apply commutes_ok_step; [|intros x Hx; congruence].
    intros e' He'. rewrite H1 in He'. injection He' as <-. split; [done|].
    apply IH; [set_solver | done | |].
    + intros cp Hcp. rewrite lookup_insert_ne; [apply Hnone; set_solver|].
      intros E. apply Hc. rewrite E. apply list_elem_of_In, in_map, list_elem_of_In, Hcp.
    + intros e' Hsame Hnil. apply Hk.
      * intros t Ht. rewrite map_cons in Ht. cbn [fst] in Ht.
        rewrite Hsame by set_solver. rewrite lookup_insert_ne; [done|set_solver].
      * intros cp [->|Hcp]%elem_of_cons; [|by apply Hnil].
        cbn [fst]. rewrite Hsame; [by rewrite lookup_insert_eq | done].
Qed.

(** A snapshot script runs on any well-formed store as it runs on the empty
    one, and leaves the overlay of what it left there. *)
Lemma snapshot_commutes ss :
  snapshot_script D idx ss -> commutes_ok ss ∅.
Proof.
  intros (sch & params & inserts & Hs & -> & Hins).
  pose proof HD as Hnd. unfold descriptor_ok in Hnd.
  apply andb_true_iff in Hnd as [_ Hnd%bool_decide_eq_true]. unfold tables in Hnd.
  apply NoDup_cons in Hnd as [Hpt Hnd].
  pose proof (upsert_overlay params ∅ (lookup_empty _) sch Hs) as H.
  apply commutes_ok_step; [|intros x Hx; by rewrite Hx in H].
  intros e' He'. rewrite He' in H. destruct H as (H1 & H2 & new & H3 & H4 & H5). split; [done|].
  apply deletes_commute; [done | done | |].
  { intros cp Hcp. rewrite H2; [apply lookup_empty|]. intros E. apply Hpt. rewrite <- E.
    apply list_elem_of_In, in_map, list_elem_of_In, Hcp. }
  intros e'' Hsame Hnil. apply inserts_commute; [done|].
  assert (forall c pcol, (c, pcol) ∈ child_tables D -> e'' !! c = Some []) as Hn.
  { intros c pcol Hin. apply (Hnil (c, pcol) Hin). }
  split; [|split; [|split]].
  - intros c pcol tbl Hin He''. rewrite (Hn c pcol Hin) in He''. by injection He'' as <-.
  - intros c pcol Hin. rewrite (Hn c pcol Hin). eauto.
  - exists sch, new. rewrite Hsame by done. done.
  - intros t Ht. unfold tables in Ht. apply not_elem_of_cons in Ht as [Ht1 Ht2].
    rewrite Hsame by done. rewrite H2 by done. apply lookup_empty.
Qed.

End Snapshot.

(** ** Statements keep the store well-formed *)

Lemma exec_wf s d d' : safe s -> wf_db d -> exec s d = Ok d' -> wf_db d'.
Proof.
  intros Hsafe Hd. destruct s as [t cols upd params|t cols params|t record|t col v].
  - destruct Hsafe as (sch & rest & Hs & Hc & -> & -> & Hk & Hn).
    rewrite exec_upsert. destruct (stmt_row _) as [[sch' r]|] eqn:Er; [|done]. simpl.
    intros [= <-]. pose proof (stmt_row_schema _ _ _ Er) as Hs'. simpl in Hs'.
    assert (sch' = sch) as -> by congruence.
    pose proof (stmt_row_wf _ _ _ Er) as Hr. pose proof (wf_db_rows _ _ _ Hd Hs) as Hw.
    assert (NoDup (columns sch)) as Hnd.
    { apply schema_all_ok in Hs. unfold schema_ok in Hs.
      apply andb_true_iff in Hs as [[E _]%andb_true_iff _]. by apply bool_decide_eq_true in E. }
    apply (wf_db_insert _ sch); [done | | done].
    rewrite (upsert_row_put sch "index" rest Hc Hk Hn Hnd)
      by (try done; by apply andb_true_iff in Hw as [? _]).
    by apply (put_wf_table sch "index" Hk Hn).
  - rewrite exec_insert by done. destruct (stmt_row _) as [[sch r]|] eqn:Er; [|done]. simpl.
    destruct (insert_row _ _ _) as [tbl|] eqn:Ei; [|done]. simpl. intros [= <-].
    pose proof (stmt_row_schema _ _ _ Er) as Hs. simpl in Hs.
    apply (wf_db_insert _ sch); [done | | done].
    eapply insert_row_wf; [eapply stmt_row_wf, Er | by apply wf_db_rows | done].
  - rewrite exec_insert by done. destruct (stmt_row _) as [[sch r]|] eqn:Er; [|done]. simpl.
    destruct (insert_row _ _ _) as [tbl|] eqn:Ei; [|done]. simpl. intros [= <-].
    pose proof (stmt_row_schema _ _ _ Er) as Hs. simpl in Hs.
    apply (wf_db_insert _ sch); [done | | done].
    eapply insert_row_wf; [eapply stmt_row_wf, Er | by apply wf_db_rows | done].
  - unfold exec, with_table. destruct (schema_of t) as [sch|] eqn:Hs; [|done].
    destruct (bind v) as [p|]; [|done]. simpl. case_bool_decide; [|done]. intros [= <-].
    apply (wf_db_insert _ sch); [done | | done]. by apply delete_rows_wf, wf_db_rows.
Qed.

Lemma exec_all_wf ss d : Forall safe ss -> wf_db d -> wf_db (snd (exec_all ss d)).
Proof.
  intros Hall. revert d. induction Hall as [|s ss Hs _ IH]; intros d Hd; [done|].
  simpl. destruct (exec s d) as [d'|] eqn:E; [|done]. eapply IH, exec_wf; eauto.
Qed.

Lemma wf_db_empty : wf_db ∅.
Proof. apply map_Forall_empty. Qed.

Lemma snapshot_safe D idx ss :
  descriptor_ok D = true -> snapshot_script D idx ss -> Forall safe ss.
Proof.
  intros HD (sch & params & inserts & Hs & -> & Hins).
  pose proof HD as H. unfold descriptor_ok in H.
  apply andb_true_iff in H as [[H _]%andb_true_iff _]. rewrite Hs in H.
  apply andb_true_iff in H as [[H1 H2]%andb_true_iff H3].
  apply bool_decide_eq_true in H1, H2, H3.
  destruct (columns sch) as [|k rest] eqn:Ec; [done|]. simpl in H1. injection H1 as ->.
  constructor.
  - exists sch, rest. rewrite Ec. done.
  - apply Forall_app. split.
    + unfold deletes. apply Forall_forall. intros s (cp & -> & _)%list_elem_of_fmap_1. done.
    + eapply Forall_impl; [done|]. by intros [].
Qed.

(** ** One item on any store *)

Theorem snapshot_exec D idx ss d :
  descriptor_ok D = true -> wf_db d -> snapshot_script D idx ss ->
  exec_all ss d = (fst (exec_all ss ∅), overlay D (key_val idx) (snd (exec_all ss ∅)) d)
  /\ (forall e, exec_all ss ∅ = (Ok tt, e) -> fresh_ok D (key_val idx) e).
Proof.
  intros HD Hd Hss. unfold key_val.
  destruct (bind idx) as [p|x] eqn:Hb.
  - destruct (decide (p = SNull)) as [->|Hpn].
    + destruct Hss as (sch & params & inserts & Hs & -> & Hins).
      assert (Hfail : forall d', exists x,
                exec (upsert_sql (parent_table D) (columns sch) (idx :: params)) d' = Err x
                /\ forall d'', exec (upsert_sql (parent_table D) (columns sch) (idx :: params)) d''
                               = Err x).
      { pose proof HD as H. unfold descriptor_ok in H.
        apply andb_true_iff in H as [[H _]%andb_true_iff _]. rewrite Hs in H.
        apply andb_true_iff in H as [[H1 H2]%andb_true_iff H3].
        apply bool_decide_eq_true in H1, H2, H3.
        destruct (columns sch) as [|k rest] eqn:Ec; [done|]. simpl in H1. injection H1 as ->.
        intros d'. unfold upsert_sql.
        destruct (stmt_row (InsertOnDup (parent_table D) ("index" :: rest)
                              (tail ("index" :: rest)) (idx :: params))) as [[sch' r]|x] eqn:Er.
        - exfalso. pose proof (stmt_row_wf _ _ _ Er) as Hr.
          pose proof (stmt_row_schema _ _ _ Er) as Hs'. simpl in Hs'.
          assert (sch' = sch) as -> by congruence.
          apply wf_row_inv in Hr as [_ Hr]. apply (Hr "index" H3).
          simpl in Er. rewrite Hs, Hb in Er. simpl in Er.
          apply bind_result_inv in Er as (vals & Hv & (r' & Hr' & [= <-])%bind_result_inv).
          apply bind_result_inv in Hv as (ys & _ & [= <-]).
          rewrite (make_row_get _ _ _ _ "index" Hr') by (rewrite Ec; set_solver).
          simpl. done.
        - exists x. split; [|intros d'']; rewrite exec_upsert, Er; done. }
      destruct (Hfail ∅) as (x & _ & Hx). cbn [exec_all]. rewrite !Hx. cbn [fst snd].
      split; [by rewrite overlay_empty | done].
    + destruct (snapshot_commutes D idx p d HD Hb Hpn Hd ss Hss) as [H1 H2].
      unfold commutes in H1. rewrite overlay_empty in H1. split; [done|].
      intros e He. by apply H2.
  - destruct Hss as (sch & params & inserts & Hs & -> & Hins).
    assert (Hx : forall d', exec (upsert_sql (parent_table D) (columns sch) (idx :: params)) d'
                            = Err x).
    { intros d'. unfold upsert_sql. rewrite exec_upsert. simpl. rewrite Hs, Hb. done. }
    cbn [exec_all]. rewrite !Hx. cbn [fst snd]. split; [by rewrite overlay_empty | done].
Qed.

(** ** A sequence of items *)

Lemma fresh_ok_key D p e : fresh_ok D p e -> snapshot_key D e = p.
Proof.
  intros (_ & _ & (psch & new & _ & H & _ & Hp) & _). unfold snapshot_key. by rewrite H.
Qed.

Lemma table_after_none D t es old :
  existsb (fun e => bool_decide (is_Some (e !! t))) es = false ->
  table_after D t es old = old.
Proof.
  revert old. induction es as [|e es IH]; intros old E; [done|]. simpl in *.
  apply orb_false_iff in E as [E1 E2]. apply bool_decide_eq_false in E1.
  destruct (e !! t); [exfalso; eauto | by apply IH].
Qed.

Lemma lookup_applys D es d t :
  applys D es d !! t =
  if existsb (fun e => bool_decide (is_Some (e !! t))) es
  then Some (table_after D t es (rows_of d t))
  else d !! t.
Proof.
  revert d. induction es as [|e es IH]; intros d; [done|].
  cbn [applys foldl existsb]. fold (applys D es (overlay D (snapshot_key D e) e d)).
  rewrite IH. rewrite rows_of_overlay, lookup_overlay.
  destruct (e !! t) as [fr|] eqn:E.
  - rewrite bool_decide_eq_true_2 by eauto. cbn [orb table_after foldl]. rewrite E.
    fold (table_after D t es (combine D (snapshot_key D e) t fr (rows_of d t))).
    destruct (existsb _ es) eqn:Ex; [done|]. by rewrite table_after_none.
  - rewrite bool_decide_eq_false_2 by (by intros [? ?]). cbn [orb table_after foldl].
    by rewrite E.
Qed.

Lemma rows_of_applys D es d t :
  rows_of (applys D es d) t = table_after D t es (rows_of d t).
Proof.
  unfold rows_of at 1. rewrite lookup_applys. destruct (existsb _ es) eqn:E; [done|].
  by rewrite table_after_none.
Qed.

Lemma table_after_cons D t e es old :
  table_after D t (e :: es) old
  = table_after D t es (match e !! t with
                        | Some fr => combine D (snapshot_key D e) t fr old
                        | None => old
                        end).
Proof. done. Qed.

Lemma table_after_parent_news D es :
  Forall (fresh D) es ->
  exists news, forall old,
    table_after D (parent_table D) es old = puts (pkey "index") news old.
Proof.
  induction es as [|e es IH]; intros Hall.
  - by exists [].
  - apply Forall_cons in Hall as [He Hall]. destruct (IH Hall) as [news Hn].
    destruct He as (_ & _ & (psch & new & _ & Hnew & _) & _).
    exists (new :: news). intros old. rewrite table_after_cons, Hnew, Hn.
    unfold combine. by rewrite bool_decide_eq_true_2.
Qed.

Lemma table_after_child D es c pcol :
  descriptor_ok D = true -> Forall (fresh D) es -> (c, pcol) ∈ child_tables D ->
  exists ops, owned (fun r => row_get r pcol) ops
    /\ forall old, table_after D c es old = repls (fun r => row_get r pcol) ops old.
Proof.
  intros HD Hall Hin.
  induction es as [|e es IH].
  - exists []. split; [constructor | done].
  - apply Forall_cons in Hall as [He Hall]. destruct (IH Hall) as (ops & Ho & Hops).
    pose proof He as (Hown & Hdom & _ & _).
    destruct (Hdom c pcol Hin) as [X HX].
    exists ((snapshot_key D e, X) :: ops). split.
    + constructor; [|done]. simpl. by eapply Hown.
    + intros old. rewrite table_after_cons, HX, Hops.
      unfold combine.
      destruct (child_schema D HD c pcol Hin) as (_ & _ & _ & _ & Hne & Ha).
      rewrite bool_decide_eq_false_2 by done. by rewrite Ha.
Qed.

Lemma fresh_dom D e t : fresh D e -> is_Some (e !! t) -> t ∈ tables D.
Proof.
  intros (_ & _ & _ & Hout) Hs. destruct (decide (t ∈ tables D)); [done|].
  rewrite Hout in Hs by done. by destruct Hs.
Qed.

(** Replaying the items of a sync on the store they produced changes
    nothing. *)
Theorem applys_idem D es d :
  descriptor_ok D = true -> Forall (fresh D) es ->
  applys D es (applys D es d) = applys D es d.
Proof.
  intros HD Hall. apply map_eq. intros t.
  rewrite (lookup_applys D es (applys D es d)), rows_of_applys.
  rewrite (lookup_applys D es d).
  destruct (existsb _ es) eqn:E; [|done]. f_equal.
  apply existsb_exists in E as (e & He & Hsome). apply bool_decide_eq_true in Hsome.
  rewrite Forall_forall in Hall.
  pose proof (fresh_dom D e t (Hall e (proj2 (list_elem_of_In _ _) He)) Hsome) as Ht.
  rewrite <- Forall_forall in Hall.
  unfold tables in Ht. apply elem_of_cons in Ht as [->|Ht].
  - destruct (table_after_parent_news D es Hall) as [news Hn].
    rewrite !Hn. apply puts_idem.
  - apply list_elem_of_In, in_map_iff in Ht as ([c pcol] & <- & Hin). simpl.
    apply list_elem_of_In in Hin.
    destruct (table_after_child D es c pcol HD Hall Hin) as (ops & Ho & Hops).
    rewrite !Hops. by apply repls_idem.
Qed.

(** ** The statements a transaction body sends *)

Lemma W_bind_ok {A B} (m : W A) (k : A -> W B) b :
  outcome (m ≫= k) = Ok b ->
  exists a, outcome m = Ok a /\ outcome (k a) = Ok b
            /\ issued (m ≫= k) = (issued m ++ issued (k a))%list.
Proof.
  unfold mbind, W_bind. destruct (outcome m) as [a|e]; simpl; [|done]. eauto.
Qed.

Lemma pure_ok {A} (r : result A) a : outcome (pure r) = Ok a -> r = Ok a /\ issued (pure r) = [].
Proof. done. Qed.

Lemma object_cons fields k r rec :
  object ((k, r) :: fields) = Ok rec ->
  exists v vs, r = Ok v /\ object fields = Ok vs /\ rec = (k, v) :: vs.
Proof.
  simpl. intros (v & -> & (vs & -> & [= <-])%bind_result_inv)%bind_result_inv. eauto.
Qed.

Lemma for_of_issued {A} (P : stmt -> Prop) (xs : list A) (body : A -> W unit) :
  outcome (for_of xs body) = Ok tt ->
  (forall x u, x ∈ xs -> outcome (body x) = Ok u -> Forall P (issued (body x))) ->
  Forall P (issued (for_of xs body)).
Proof.
  induction xs as [|x xs IH]; simpl; [done|]. intros H Hb.
  apply W_bind_ok in H as (u & H1 & H2 & ->). apply Forall_app. split.
  - eapply Hb; [set_solver | done].
  - apply IH; [done|]. intros y v Hy. apply Hb. set_solver.
Qed.

Lemma for_of_with_issued {A S} (P : stmt -> Prop) (xs : list A) (s : S) (body : S -> A -> W S) s' :
  outcome (for_of_with xs s body) = Ok s' ->
  (forall s0 x u, x ∈ xs -> outcome (body s0 x) = Ok u -> Forall P (issued (body s0 x))) ->
  Forall P (issued (for_of_with xs s body)).
Proof.
  revert s. induction xs as [|x xs IH]; intros s; simpl; [done|]. intros H Hb.
  apply W_bind_ok in H as (u & H1 & H2 & ->). apply Forall_app. split.
  - eapply Hb; [set_solver | done].
  - eapply IH; [done|]. intros s0 y v Hy. apply Hb. set_solver.
Qed.

(** Invert [H : outcome (m ≫= k) = Ok _], rewriting what the goal says of
    the statements sent. *)
Ltac w_step H a Ha :=
  let E := fresh "E" in
  apply W_bind_ok in H as (a & Ha & H & E); rewrite E; clear E.

Ltac w_pure H a Ha :=
  w_step H a Ha; apply pure_ok in Ha as [Ha _]; cbn [issued pure app].

Lemma delete_for_ok d t pcol u :
  outcome (delete_for d t pcol) = Ok u ->
  exists idx, get d "index" = Ok idx /\ issued (delete_for d t pcol) = [DeleteWhere t pcol idx].
Proof.
  unfold delete_for. intros H. w_pure H idx Hidx. exists idx. done.
Qed.

Lemma link_loop_ok D d field t pcol ccol idx u :
  (t, pcol) ∈ child_tables D -> get d "index" = Ok idx ->
  outcome (link_loop d field t pcol ccol) = Ok u ->
  Forall (child_insert D idx) (issued (link_loop d field t pcol ccol)).
Proof.
  intros Hin Hidx H. unfold link_loop in *. w_pure H xs Hxs. destruct u.
  apply for_of_issued; [done|]. intros x u _ Hx.
  w_pure Hx i Hi. w_pure Hx c Hc. cbn. constructor; [|done]. split; [done | congruence].
Qed.

Ltac w_delete H idx Hidx :=
  let u := fresh "u" in let Hu := fresh "Hu" in let i := fresh "i" in
  let E := fresh "E" in let Hi := fresh "Hi" in
  w_step H u Hu; apply delete_for_ok in Hu as (i & Hi & E); rewrite E; clear E;
  assert (i = idx) as -> by congruence; clear Hi.

Ltac in_list := cbn; repeat first [apply list_elem_of_here | apply list_elem_of_further].

Ltac script_of sch_cols :=
  eexists _, _, _; split; [reflexivity|]; split; [reflexivity|].

Lemma race_body_script d :
  outcome (race_body d) = Ok tt ->
  exists idx, get d "index" = Ok idx /\ snapshot_script races_desc idx (issued (race_body d)).
Proof.
  unfold race_body. intros H. w_pure H record Hrec.
  apply object_cons in Hrec as (idx & vs & Hidx & _ & ->).
  exists idx. split; [done|].
  w_step H u Hu. cbn [queryAsync issued].
  w_delete H idx Hidx. w_delete H idx Hidx. w_delete H idx Hidx.
  w_step H l1 Hl1. w_step H l2 Hl2.
  script_of tt. rewrite !Forall_app.
  repeat split; eapply link_loop_ok; try done; in_list.
Qed.

Lemma trait_body_script d :
  outcome (trait_body d) = Ok tt ->
  exists idx, get d "index" = Ok idx /\ snapshot_script traits_desc idx (issued (trait_body d)).
Proof.
  unfold trait_body. intros H. w_pure H record Hrec.
  apply object_cons in Hrec as (idx & vs & Hidx & _ & ->).
  exists idx. split; [done|].
  w_step H u Hu. cbn [queryAsync issued].
  w_delete H idx Hidx. w_delete H idx Hidx. w_delete H idx Hidx.
  w_step H l1 Hl1. w_step H l2 Hl2.
  script_of tt. rewrite !Forall_app.
  repeat split; eapply link_loop_ok; try done; in_list.
Qed.

Lemma spell_body_script d :
  outcome (spell_body d) = Ok tt ->
  exists idx, get d "index" = Ok idx /\ snapshot_script spells_desc idx (issued (spell_body d)).
Proof.
  unfold spell_body. intros H. w_pure H record Hrec.
  apply object_cons in Hrec as (idx & vs & Hidx & _ & ->).
  exists idx. split; [done|].
  w_step H u Hu. cbn [queryAsync issued].
  w_delete H idx Hidx. w_delete H idx Hidx.
  w_step H l1 Hl1.
  script_of tt. rewrite !Forall_app.
  repeat split; eapply link_loop_ok; try done; in_list.
Qed.

Lemma proficiency_body_script d :
  outcome (proficiency_body d) = Ok tt ->
  exists idx, get d "index" = Ok idx
    /\ snapshot_script proficiencies_desc idx (issued (proficiency_body d)).
Proof.
  unfold proficiency_body. intros H. w_pure H record Hrec.
  apply object_cons in Hrec as (idx & vs & Hidx & _ & ->).
  exists idx. split; [done|].
  w_step H u Hu. cbn [queryAsync issued].
  w_delete H idx Hidx. w_delete H idx Hidx.
  w_step H l1 Hl1.
  script_of tt. rewrite !Forall_app.
  repeat split; eapply link_loop_ok; try done; in_list.
Qed.

(** A loop step that builds a record whose first property is the parent key
    and inserts it with [INSERT ... SET ?]. *)
Lemma insert_set_ok D d t pcol fields idx u :
  (t, pcol) ∈ child_tables D -> get d "index" = Ok idx ->
  outcome (rec ← pure (object ((pcol, get d "index") :: fields));
           queryAsync (InsertSet t rec)) = Ok u ->
  Forall (child_insert D idx)
    (issued (rec ← pure (object ((pcol, get d "index") :: fields));
             queryAsync (InsertSet t rec))).
Proof.
  intros Hin Hidx H. w_pure H rec Hrec.
  apply object_cons in Hrec as (i & vs & Hi & _ & ->).
  cbn. constructor; [|done]. split; [done | congruence].
Qed.

Lemma monster_body_script d :
  outcome (monster_body d) = Ok tt ->
  exists idx, get d "index" = Ok idx
    /\ snapshot_script monsters_desc idx (issued (monster_body d)).
Proof.
  unfold monster_body, monster_proficiency, condition_immunity. intros H. w_pure H record Hrec.
  apply object_cons in Hrec as (idx & vs & Hidx & _ & ->).
  exists idx. split; [done|].
  w_step H u Hu. cbn [queryAsync issued].
  w_delete H idx Hidx. w_delete H idx Hidx.
  w_pure H profs Hprofs. w_step H l1 Hl1.
  w_pure H conds Hconds. w_step H l2 Hl2.
  script_of tt. rewrite !Forall_app. split; [|split; [|done]].
  - destruct l1. apply for_of_issued; [done|]. intros prof ? _ Hx.
    eapply insert_set_ok; [|done|done]. in_list.
  - eapply for_of_with_issued; [done|]. intros s0 cond ? _ Hx.
    w_pure Hx c Hc. destruct (set_has s0 c); [done|].
    w_pure Hx i Hi. w_pure Hx c' Hc'. w_step Hx z1 Hz1. w_pure Hx a Ha.
    cbn. constructor; [|done]. split; [in_list | congruence].
Qed.

Lemma subclass_body_script d levelsData :
  outcome (subclass_body d levelsData) = Ok tt ->
  exists idx, get d "index" = Ok idx
    /\ snapshot_script subclasses_desc idx (issued (subclass_body d levelsData)).
Proof.
  unfold subclass_body, subclass_spell. intros H. w_pure H record Hrec.
  apply object_cons in Hrec as (idx & vs & Hidx & _ & ->).
  exists idx. split; [done|].
  w_step H u Hu. cbn [queryAsync issued].
  w_delete H idx Hidx. w_delete H idx Hidx.
  w_pure H levels Hlevels. w_step H l1 Hl1.
  w_pure H spells Hspells.
  script_of tt. rewrite !Forall_app. split.
  - destruct l1. apply for_of_issued; [done|]. intros level ? _ Hx.
    eapply insert_set_ok; [|done|done]. in_list.
  - destruct (truthy spells); [|done].
    w_pure H sps Hsps. w_step H l2 Hl2. rewrite Forall_app. split; [|done].
    eapply for_of_with_issued; [done|]. intros s0 spell ? _ Hx.
    w_pure Hx c Hc. destruct (set_has s0 c); [done|].
    w_pure Hx rec Hrec. apply object_cons in Hrec as (i & vs' & Hi & _ & ->).
    w_step Hx z1 Hz1. w_pure Hx a Ha.
    cbn. constructor; [|done]. split; [in_list | congruence].
Qed.

Lemma class_body_script d levelsData spellsData :
  outcome (class_body d levelsData spellsData) = Ok tt ->
  exists idx, get d "index" = Ok idx
    /\ snapshot_script classes_desc idx (issued (class_body d levelsData spellsData)).
Proof.
  unfold class_body, proficiency_choice, starting_equipment_item. intros H. w_pure H record Hrec.
  apply object_cons in Hrec as (idx & vs & Hidx & _ & ->).
  exists idx. split; [done|].
  w_step H u Hu. cbn [queryAsync issued].
  w_delete H idx Hidx. w_delete H idx Hidx. w_delete H idx Hidx.
  w_delete H idx Hidx. w_delete H idx Hidx.
  w_pure H levels Hlevels. w_step H l1 Hl1.
  w_step H l2 Hl2.
  w_pure H choices Hchoices. w_step H l3 Hl3.
  w_pure H equipment Hequipment. w_step H l4 Hl4.
  w_pure H options Hoptions.
  script_of tt. rewrite !Forall_app. repeat split.
  - destruct l1. apply for_of_issued; [done|]. intros level ? _ Hx.
    eapply insert_set_ok; [|done|done]. in_list.
  - destruct spellsData; try done. destruct l2. apply for_of_issued; [done|].
    intros spell ? _ Hx. w_pure Hx i Hi. w_pure Hx si Hsi. w_pure Hx lv Hlv.
    cbn. constructor; [|done]. split; [in_list | congruence].
  - destruct l3. apply for_of_issued; [done|]. intros ic ? _ Hx.
    eapply insert_set_ok; [|done|done]. in_list.
  - destruct l4. apply for_of_issued; [done|]. intros item ? _ Hx.
    w_pure Hx eqp Heqp. w_pure Hx wanted Hwanted. destruct wanted; [|done].
    w_pure Hx i Hi. w_pure Hx ei Hei. w_pure Hx q Hq.
    cbn. constructor; [|done]. split; [in_list | congruence].
  - apply for_of_issued; [done|]. intros ic ? _ Hx.
    eapply insert_set_ok; [|done|done]. in_list.
Qed.

Lemma descriptors_ok :
  Forall (fun D => descriptor_ok D = true)
    [classes_desc; monsters_desc; proficiencies_desc; races_desc; spells_desc;
     subclasses_desc; traits_desc].
Proof. repeat constructor. Qed.

(** ** One transaction, one loop, one sync *)

Lemma transaction_snapshot D detailData body d :
  descriptor_ok D = true -> wf_db d -> shaped D detailData body ->
  match transaction body ∅ with
  | (Ok _, e) => transaction body d = (Ok tt, overlay D (snapshot_key D e) e d)
                 /\ fresh D e /\ wf_db (overlay D (snapshot_key D e) e d)
                 /\ exists idx, get detailData "index" = Ok idx
                                /\ bind idx = Ok (snapshot_key D e)
                                /\ snapshot_key D e <> SNull
  | (Err _, _) => exists x, transaction body d = (Err x, d)
  end.
Proof.
  intros HD Hd Hshape. unfold transaction, run.
  destruct (outcome body) as [[]|x] eqn:Ho.
  - destruct (Hshape Ho) as (idx & Hidx & Hss).
    destruct (snapshot_exec D idx (issued body) d HD Hd Hss) as [H1 H2].
    pose proof (exec_all_wf (issued body) d (snapshot_safe D idx _ HD Hss) Hd) as Hwf.
    rewrite H1 in Hwf |- *. destruct (exec_all (issued body) ∅) as [[[]|x] e] eqn:E; simpl in *.
    + specialize (H2 e eq_refl). pose proof (fresh_ok_key _ _ _ H2) as Hk.
      unfold fresh. rewrite Hk. split; [done|]. split; [done|]. split; [done|].
      exists idx. split; [done|].
      destruct H2 as (_ & _ & (psch & new & Hs & _ & Hw & Hp) & _).
      destruct (parent_schema D HD) as (psch' & rest & Hs' & _ & _ & Hn & _).
      assert (psch' = psch) as -> by congruence.
      apply wf_row_inv in Hw as [_ Hw]. specialize (Hw "index" Hn). rewrite Hp in Hw.
      split; [|done]. unfold key_val in *. by destruct (bind idx).
    + eauto.
  - destruct (exec_all (issued body) ∅) as [[[]|?] ?]; destruct (exec_all (issued body) d) as [[[]|?] ?];
      eauto.
Qed.

Lemma enriched_loop_plan D item net endpoints d :
  descriptor_ok D = true -> shaped_item D item -> wf_db d ->
  snd (enriched_loop item net endpoints d) = applys D (loop_plan item net endpoints) d
  /\ Forall (fresh D) (loop_plan item net endpoints)
  /\ wf_db (snd (enriched_loop item net endpoints d)).
Proof.
  intros HD Hitem. revert d. induction endpoints as [|entry rest IH]; intros d Hd.
  - simpl. done.
  - simpl. destruct (entry_body item net entry) as [body|x] eqn:Eb; [|done].
    assert (exists doc, shaped D doc body) as [doc Hb].
    { unfold entry_body in Eb.
      do 3 (apply bind_result_inv in Eb as (? & _ & Eb)). eexists. eapply Hitem, Eb. }
    pose proof (transaction_snapshot D doc body d HD Hd Hb) as H.
    destruct (transaction body ∅) as [[[]|x] e].
    + destruct H as (-> & Hf & Hwf & _). destruct (IH _ Hwf) as (IH1 & IH2 & IH3).
      split; [exact IH1|]. split; [by constructor | done].
    + destruct H as [x' ->]. done.
Qed.

Lemma enriched_sync_plan D label resource item net d :
  descriptor_ok D = true -> shaped_item D item -> wf_db d ->
  snd (enriched_sync label resource item net d) = applys D (sync_plan resource item net) d
  /\ Forall (fresh D) (sync_plan resource item net)
  /\ wf_db (snd (enriched_sync label resource item net d)).
Proof.
  intros HD Hitem Hd. unfold enriched_sync, sync_plan.
  destruct (listing net resource) as [[endpoints items]|]; [|done].
  pose proof (enriched_loop_plan D item net items d HD Hitem Hd) as H.
  destruct (enriched_loop item net items d) as [[[]|x] d']; simpl in *; [|done].
  by destruct (get endpoints "length").
Qed.

(** Running an enriched sync again on the store it produced, against the
    same remote source, leaves every table as it is. *)
Theorem enriched_sync_idem D label resource item net d :
  descriptor_ok D = true -> shaped_item D item -> wf_db d ->
  snd (enriched_sync label resource item net (snd (enriched_sync label resource item net d)))
  = snd (enriched_sync label resource item net d).
Proof.
  intros HD Hitem Hd.
  destruct (enriched_sync_plan D label resource item net d HD Hitem Hd) as (H1 & H2 & H3).
  destruct (enriched_sync_plan D label resource item net _ HD Hitem H3) as (H4 & _ & _).
  rewrite H4, H1. by apply applys_idem.
Qed.

(** *** The generic path *)

Lemma issue_snapshot t b detailData rec q name st :
  descriptor_ok (generic_desc t) = true -> upsert_builder t b -> wf_db (conn st) ->
  b detailData = Ok (rec, q) ->
  match exec (q (Object_values rec)) ∅ with
  | Ok e => conn (issue name rec q st)
            = overlay (generic_desc t) (snapshot_key (generic_desc t) e) e (conn st)
            /\ fresh (generic_desc t) e
  | Err _ => conn (issue name rec q st) = conn st
  end
  /\ wf_db (conn (issue name rec q st)).
Proof.
  intros HD Hb Hd Hq. destruct (Hb _ _ _ Hq) as (sch & idx & vs & Hs & -> & ->).
  set (s := upsert_sql t (columns sch) (Object_values (("index", idx) :: vs))).
  assert (snapshot_script (generic_desc t) idx [s]) as Hss.
  { exists sch, (Object_values vs), []. split; [done|]. split; [done | constructor]. }
  destruct (snapshot_exec _ idx [s] (conn st) HD Hd Hss) as [H1 H2].
  pose proof (exec_all_wf [s] (conn st) (snapshot_safe _ idx _ HD Hss) Hd) as Hwf.
  cbn [exec_all] in H1, H2, Hwf. unfold issue. fold s.
  destruct (exec s ∅) as [e|x] eqn:E0; destruct (exec s (conn st)) as [d'|x'] eqn:E1;
    cbn [fst snd conn] in *; try done.
  injection H1 as ->. specialize (H2 e eq_refl).
  unfold fresh. rewrite (fresh_ok_key _ _ _ H2). split; [split|]; done.
Qed.

Lemma generic_loop_plan t name b net endpoints st :
  descriptor_ok (generic_desc t) = true -> upsert_builder t b -> wf_db (conn st) ->
  conn (snd (generic_loop name b net endpoints st))
  = applys (generic_desc t) (generic_plan b net endpoints) (conn st)
  /\ Forall (fresh (generic_desc t)) (generic_plan b net endpoints)
  /\ wf_db (conn (snd (generic_loop name b net endpoints st))).
Proof.
  intros HD Hb. revert st. induction endpoints as [|item rest IH]; intros st Hd.
  - simpl. done.
  - simpl. destruct (get item "url") as [url|]; [|done].
    destruct (fetch net _) as [detailData|]; [|done]. simpl.
    destruct (b detailData) as [[rec q]|] eqn:Eb; [|done]. simpl.
    pose proof (issue_snapshot t b detailData rec q name
                  (logged [FetchStarted (api ++ js_String url);
                           FetchSettled (api ++ js_String url)] st) HD Hb Hd Eb) as [H Hwf].
    destruct (IH _ Hwf) as (IH1 & IH2 & IH3). split; [|split; [|exact IH3]].
    + rewrite IH1. destruct (exec (q (Object_values rec)) ∅) as [e|x].
      * destruct H as [-> _]. reflexivity.
      * by rewrite H.
    + destruct (exec (q (Object_values rec)) ∅) as [e|x]; [|done].
      destruct H as [_ Hf]. apply Forall_cons. by split.
Qed.

Lemma syncResource_plan t resourceName b net d :
  descriptor_ok (generic_desc t) = true -> upsert_builder t b -> wf_db d ->
  conn (snd (syncResource resourceName t b net d))
  = applys (generic_desc t) (generic_sync_plan resourceName b net) d
  /\ Forall (fresh (generic_desc t)) (generic_sync_plan resourceName b net)
  /\ wf_db (conn (snd (syncResource resourceName t b net d))).
Proof.
  intros HD Hb Hd. unfold syncResource, generic_sync_plan.
  destruct (generic_listing net resourceName) as [items|]; [|done]. cbv zeta.
  match goal with |- context [generic_loop ?n ?b ?net ?items ?st] =>
    pose proof (generic_loop_plan t n b net items st HD Hb Hd) as H;
    destruct (generic_loop n b net items st) as [[[]|x] st'] end; simpl in *; [|done].
  by destruct (Promise_all _).
Qed.

Theorem syncResource_idem t resourceName b net d :
  descriptor_ok (generic_desc t) = true -> upsert_builder t b -> wf_db d ->
  conn (snd (syncResource resourceName t b net (conn (snd (syncResource resourceName t b net d)))))
  = conn (snd (syncResource resourceName t b net d)).
Proof.
  intros HD Hb Hd.
  destruct (syncResource_plan t resourceName b net d HD Hb Hd) as (H1 & H2 & H3).
  destruct (syncResource_plan t resourceName b net _ HD Hb H3) as (H4 & _ & _).
  rewrite H4, H1. by apply applys_idem.
Qed.

(** ** The endpoints *)

Lemma build_inv fields q rec q' :
  build fields q = Ok (rec, q') -> object fields = Ok rec /\ q' = q.
Proof. unfold build. destruct (object fields); simpl; [|done]. by intros [= <- <-]. Qed.

Ltac upsert_builder_tac :=
  let d := fresh "detailData" in let r0 := fresh "r" in let q := fresh "q" in
  let H := fresh "H" in
  intros d r0 q H; apply build_inv in H as [H ->];
  apply object_cons in H as (? & ? & _ & _ & ->);
  eexists _, _, _; split; [reflexivity|]; split; reflexivity.

Lemma builders_upsert :
  Forall (fun e => upsert_builder (fst (snd e)) (snd (snd e))) generic_endpoints.
Proof. repeat constructor; upsert_builder_tac. Qed.

Lemma enriched_stable D label resource item :
  descriptor_ok D = true -> shaped_item D item -> sync_stable (enriched_sync label resource item).
Proof.
  intros HD Hi net d Hd. split; [by eapply enriched_sync_idem|].
  by destruct (enriched_sync_plan D label resource item net d HD Hi Hd) as (_ & _ & ?).
Qed.

Lemma generic_stable t resourceName b :
  descriptor_ok (generic_desc t) = true -> upsert_builder t b ->
  sync_stable (generic_run resourceName t b).
Proof.
  intros HD Hb net d Hd. unfold generic_run. cbn [snd]. split; [by apply syncResource_idem|].
  by destruct (syncResource_plan t resourceName b net d HD Hb Hd) as (_ & _ & ?).
Qed.

Lemma class_item_shaped : shaped_item classes_desc class_item.
Proof.
  intros net d body H. unfold class_item in H.
  do 4 (apply bind_result_inv in H as (? & _ & H)). injection H as <-.
  intros Ho. apply (class_body_script _ _ _ Ho).
Qed.

Lemma subclass_item_shaped : shaped_item subclasses_desc subclass_item.
Proof.
  intros net d body H. unfold subclass_item in H.
  do 2 (apply bind_result_inv in H as (? & _ & H)). injection H as <-.
  intros Ho. apply (subclass_body_script _ _ Ho).
Qed.

Lemma body_item_shaped D (body : jsval -> W unit) :
  (forall d, outcome (body d) = Ok tt ->
             exists idx, get d "index" = Ok idx /\ snapshot_script D idx (issued (body d))) ->
  shaped_item D (fun _ d => Ok (body d)).
Proof. intros H net d b [= <-] Ho. apply (H d Ho). Qed.

Ltac stable_entry D :=
  first [ by apply generic_stable
        | apply (enriched_stable D); [reflexivity|];
          first [ exact class_item_shaped | exact subclass_item_shaped
                | exact (body_item_shaped _ _ monster_body_script)
                | exact (body_item_shaped _ _ proficiency_body_script)
                | exact (body_item_shaped _ _ race_body_script)
                | exact (body_item_shaped _ _ spell_body_script)
                | exact (body_item_shaped _ _ trait_body_script) ] ].

Lemma endpoints_stable :
  Forall (fun e => descriptor_ok (fst (snd e)) = true /\ sync_stable (snd (snd e))) endpoints.
Proof.
  pose proof builders_upsert as Hb. unfold generic_endpoints in Hb.
  repeat (apply Forall_cons in Hb as [? Hb]). cbn [fst snd] in *. clear Hb.
  unfold endpoints, syncClasses, syncMonsters, syncProficiencies, syncRaces, syncSpells,
    syncSubclasses, syncTraits.
  repeat (apply Forall_cons; split;
          [cbn [fst snd];
           match goal with |- descriptor_ok ?D = true /\ _ =>
             split; [reflexivity | stable_entry D] end
          |]).
  constructor.
Qed.

(** ** Child tables are replaced by the current document (C1) *)

Lemma enriched_shaped :
  Forall (fun e => descriptor_ok (fst e) = true /\ shaped_item (fst e) (snd e))
    enriched_resources.
Proof.
  unfold enriched_resources.
  repeat (apply Forall_cons; split;
          [cbn [fst snd]; split;
           [reflexivity
           | first [ exact class_item_shaped | exact subclass_item_shaped
                   | exact (body_item_shaped _ _ monster_body_script)
                   | exact (body_item_shaped _ _ proficiency_body_script)
                   | exact (body_item_shaped _ _ race_body_script)
                   | exact (body_item_shaped _ _ spell_body_script)
                   | exact (body_item_shaped _ _ trait_body_script) ] ] |]).
  constructor.
Qed.

Lemma filter_repl_same (pcol : string) (p : sqlval) (old new : list row) :
  Forall (fun r => row_get r pcol = p) new ->
  filter (fun r => row_get r pcol = p) (repl (fun r => row_get r pcol) p new old) = new.
Proof.
  intros Hn. unfold repl. rewrite filter_app.
  rewrite (filter_none (fun r => row_get r pcol = p)), (filter_all _ new Hn); [done|].
  apply Forall_forall. intros r Hr. by apply list_elem_of_filter in Hr as [? _].
Qed.

Lemma filter_repl_other (pcol : string) (p : sqlval) (old new : list row) :
  Forall (fun r => row_get r pcol = p) new ->
  filter (fun r => row_get r pcol <> p) (repl (fun r => row_get r pcol) p new old)
  = filter (fun r => row_get r pcol <> p) old.
Proof.
  intros Hn. unfold repl. rewrite filter_app, list_filter_filter.
  rewrite (filter_none (fun r => row_get r pcol <> p) new), app_nil_r.
  - apply list_filter_iff. tauto.
  - eapply Forall_impl; [done|]. simpl. tauto.
Qed.

(** ** Upsert on the natural key, and syncing twice (C2) *)

Lemma fst_zip_same {A B} (l : list A) (k : list B) :
  length l = length k -> map fst (zip l k) = l.
Proof.
  revert k. induction l as [|x l IH]; intros [|y k]; simpl; try done.
  intros [= H]. by rewrite IH.
Qed.

Lemma make_row_zip sch vals r :
  NoDup (columns sch) -> make_row sch (columns sch) vals = Ok r -> r = zip (columns sch) vals.
Proof.
  intros Hnd H. pose proof (make_row_columns _ _ _ _ H) as Hc.
  pose proof (make_row_inv _ _ _ _ H) as (_ & Hlen & _).
  apply row_ext.
  - by rewrite Hc, fst_zip_same.
  - by rewrite Hc.
  - intros c Hin. rewrite Hc in Hin. by rewrite (make_row_get _ _ _ _ _ H Hin).
Qed.

Lemma upsert_on_key D d params sch d' :
  descriptor_ok D = true -> wf_db d ->
  schema_of (parent_table D) = Some sch ->
  exec (upsert_sql (parent_table D) (columns sch) params) d = Ok d' ->
  exists vals, rmap bind params = Ok vals
    /\ filter (fun r => row_get r "index" = row_get (zip (columns sch) vals) "index")
         (rows_of d' (parent_table D)) = [zip (columns sch) vals]
    /\ (row_get (zip (columns sch) vals) "index"
          ∈ map (fun r => row_get r "index") (rows_of d (parent_table D)) ->
        length (rows_of d' (parent_table D)) = length (rows_of d (parent_table D)))
    /\ exec (upsert_sql (parent_table D) (columns sch) params) d' = Ok d'.
Proof.
  intros HD Hd Hs He. destruct (parent_schema D HD) as (psch & rest & Hs' & Hc & Hk & Hn & Hnd).
  assert (psch = sch) as -> by congruence.
  unfold upsert_sql in *. rewrite exec_upsert in He |- *.
  destruct (stmt_row _) as [[sch' r]|] eqn:Er; [|done]. simpl in He |- *. injection He as <-.
  pose proof (stmt_row_wf _ _ _ Er) as Hr. pose proof (stmt_row_schema _ _ _ Er) as Hsch.
  simpl in Hsch. assert (sch' = sch) as -> by congruence.
  simpl in Er. rewrite Hs in Er.
  apply bind_result_inv in Er as (vals & Hv & (r' & Hr' & [= <-])%bind_result_inv).
  apply (make_row_zip _ _ _ Hnd) in Hr' as Hz. subst r'.
  pose proof (wf_db_rows _ _ _ Hd Hs) as Hw. apply andb_true_iff in Hw as [Hw1 Hw2].
  exists vals. split; [done|]. rewrite !rows_of_insert, decide_True by done.
  rewrite Hc. cbn [tail]. rewrite <- Hc.
  rewrite (upsert_row_put sch "index" rest Hc Hk Hn Hnd) by done.
  split; [|split].
  - apply (put_lookup (pkey "index")). by apply (unique_rows_parent sch "index" Hk Hn).
  - apply (put_length_in (pkey "index")).
  - f_equal. rewrite insert_insert_eq. f_equal.
    rewrite (upsert_row_put sch "index" rest Hc Hk Hn Hnd);
      [| done | by apply put_wf_rows].
    by apply put_put_same.
Qed.

(** ** Fail-fast (C3) *)

Lemma enriched_loop_app item net pre post d :
  enriched_loop item net (pre ++ post) d =
  match enriched_loop item net pre d with
  | (Ok _, d') => enriched_loop item net post d'
  | (Err e, d') => (Err e, d')
  end.
Proof.
  revert d. induction pre as [|entry pre IH]; intros d; [done|]. simpl.
  destruct (entry_body item net entry) as [body|]; [|done].
  destruct (transaction body d) as [[[]|] d']; [apply IH | done].
Qed.

Lemma error_message_nonempty e : String.eqb (error_message e) EmptyString = false.
Proof.
  destruct e as [b prop|prop|what|url|code detail|r n cause]; simpl; try done.
  - by destruct prop.
  - by destruct what.
  - by destruct code.
Qed.

(** C3. In every enriched sync: when the entries before the [k]-th commit
    (leaving the store [dk]) and the [k]-th entry's transaction fails with
    [e], whatever it had written, the sync answers 500 with [success: false]
    and the message of [e], and the store is [dk]: the earlier items stay
    committed, nothing of item [k] is kept, and the entries after it play no
    part (the result is the same for every [post]). *)
Theorem fail_fast label resource item net d endpoints pre entry post body e dk partial :
  listing net resource = Ok (endpoints, (pre ++ entry :: post)%list) ->
  enriched_loop item net pre d = (Ok tt, dk) ->
  entry_body item net entry = Ok body ->
  run body dk = (Err e, partial) ->
  enriched_sync label resource item net d = (res_500 e, dk)
  /\ status (res_500 e) = 500%Z /\ success (res_500 e) = false
  /\ message (res_500 e) = error_message e
  /\ enriched_loop item net (pre ++ [entry]) d = (Err e, dk).
Proof.
  intros Hl Hpre Hb Hrun.
  assert (enriched_loop item net (entry :: post) dk = (Err e, dk)) as Hk.
  { simpl. rewrite Hb. unfold transaction. by rewrite Hrun. }
  split; [|split; [done|split; [done|split]]].
  - unfold enriched_sync. by rewrite Hl, enriched_loop_app, Hpre, Hk.
  - unfold res_500. simpl. by rewrite error_message_nonempty.
  - rewrite enriched_loop_app, Hpre. simpl. rewrite Hb.
    unfold transaction. by rewrite Hrun.
Qed.

(** ** The generic path: what is awaited (C6) *)

Lemma generic_loop_attempts resourceName b net items builts st :
  Forall2 (fun item built => prepared b net item = Ok built) items builts ->
  exists st', generic_loop resourceName b net items st = (Ok tt, st')
    /\ conn st' = foldl attempt (conn st) builts
    /\ queryPromises st' = (queryPromises st ++ promises resourceName (conn st) builts)%list
    /\ log st' = (log st ++ loop_events (length (queryPromises st)) items)%list.
Proof.
  intros Hall. revert st. induction Hall as [|item built items builts Hp _ IH]; intros st.
  - exists st. simpl. by rewrite !app_nil_r.
  - simpl. unfold prepared in Hp. destruct (get item "url") as [url|]; [|done]. simpl in Hp.
    destruct (fetch net _) as [detailData|]; [|done]. simpl in Hp |- *. rewrite Hp. simpl.
    edestruct IH as (st' & -> & H1 & H2 & H3). exists st'. split; [done|].
    rewrite H1, H2, H3. unfold issue, attempt, settles. destruct built as [rec q]. simpl.
    destruct (exec (q (Object_values rec)) (conn st)); simpl;
      rewrite !length_app, <- !(assoc_L (++)); simpl; rewrite Nat.add_1_r; done.
Qed.

Lemma Promise_all_first ps e :
  Promise_all ps = Err e <->
  exists pre post, ps = (pre ++ Err e :: post)%list /\ Forall (fun p => is_ok p = true) pre.
Proof.
  induction ps as [|[[]|x] ps IH]; simpl.
  - split; [done|]. intros (pre & post & H & _). by destruct pre.
  - rewrite IH. split.
    + intros (pre & post & -> & Hpre). exists (Ok tt :: pre), post. split; [done|]. by constructor.
    + intros ([|p pre] & post & H & Hpre); [done|]. injection H as <- ->.
      apply Forall_cons in Hpre as [_ Hpre]. eauto.
  - split.
    + intros [= ->]. by exists [], ps.
    + intros ([|p pre] & post & H & Hpre).
      * by injection H as ->.
      * injection H as <- ->. by apply Forall_cons in Hpre as [? _].
Qed.

(** What [syncResource] does when every detail fetch and record build
    succeeds and the rejections keep until [Promise.all] reads them: a
    rejected upsert stops nothing.  Every item gets its fetch and its upsert
    (one promise per item, in order); each upsert the store accepts is
    applied, a rejected one leaves the store as it was; the promises are
    awaited once, after the loop; and when some upsert was rejected the
    answer is 500 with the message of the first rejection, which names the
    resource and the record. *)
Lemma rejections_awaited_together resourceName tableName b net d items builts :
  generic_listing net resourceName = Ok items ->
  Forall2 (fun item built => prepared b net item = Ok built) items builts ->
  let r := syncResource resourceName tableName b net d in
  queryPromises (snd r) = promises resourceName d builts
  /\ length (queryPromises (snd r)) = length items
  /\ conn (snd r) = foldl attempt d builts
  /\ log (snd r)
     = ([FetchStarted (api ++ "/api/" ++ resourceName);
         FetchSettled (api ++ "/api/" ++ resourceName)]
        ++ loop_events 0 items ++ [AllAwaited (length items)])%list
  /\ (forall pre post e,
        promises resourceName d builts = (pre ++ Err e :: post)%list ->
        Forall (fun p => is_ok p = true) pre ->
        fst r = res_500 e /\ status (fst r) = 500%Z /\ success (fst r) = false
        /\ message (fst r) = error_message e)
  /\ (Forall (fun p => is_ok p = true) (promises resourceName d builts) ->
      fst r = res_200 (synced resourceName (JNum (Z.of_nat (length items))))).
Proof.
  intros Hl Hall r.
  destruct (generic_loop_attempts resourceName b net items builts
              {| conn := d; queryPromises := [];
                 log := [FetchStarted (api ++ "/api/" ++ resourceName);
                         FetchSettled (api ++ "/api/" ++ resourceName)] |} Hall)
    as (st' & Hloop & Hc & Hq & Hlog).
  simpl in Hc, Hq, Hlog.
  assert (Hlen : length (promises resourceName d builts) = length items).
  { clear -Hall. revert d. induction Hall; intros d; simpl; [done|]. by rewrite IHHall. }
  assert (Hr : r = let st'' := logged [AllAwaited (length (queryPromises st'))] st' in
               match Promise_all (queryPromises st') with
               | Err e => (res_500 e, st'')
               | Ok _ => (res_200 (synced resourceName
                            (JNum (Z.of_nat (length (queryPromises st'))))), st'')
               end).
  { subst r. unfold syncResource. cbv zeta. rewrite Hl, Hloop. done. }
  assert (Hsnd : snd r = logged [AllAwaited (length (queryPromises st'))] st').
  { rewrite Hr. cbv zeta. by destruct (Promise_all _). }
  rewrite Hsnd. simpl. rewrite Hq, Hlen, Hc, Hlog.
  split; [done|]. split; [done|]. split; [done|]. split.
  { done. }
  split.
  - intros pre post e Hp Hpre.
    assert (He : Promise_all (queryPromises st') = Err e).
    { rewrite Hq. apply Promise_all_first. eauto. }
    rewrite Hr. cbv zeta. rewrite He. cbn. rewrite error_message_nonempty. repeat split.
  - intros Hok. rewrite Hr. cbv zeta.
    destruct (Promise_all (queryPromises st')) as [|e] eqn:He.
    + by rewrite Hq, Hlen.
    + apply Promise_all_first in He as (pre & post & Hp & _). rewrite Hq in Hp.
      rewrite Hp in Hok. apply Forall_app in Hok as [_ Hok].
      by apply Forall_cons in Hok as [? _].
Qed.

(** *** The order of fetches and awaits in [syncResource] (C6) *)



Lemma issue_log resourceName newRecord sqlQuery st :
  log (issue resourceName newRecord sqlQuery st)
  = (log st ++ [QueryIssued (length (queryPromises st))])%list.
Proof. unfold issue. by destruct (exec _ _). Qed.

Lemma issue_length resourceName newRecord sqlQuery st :
  length (queryPromises (issue resourceName newRecord sqlQuery st))
  = S (length (queryPromises st)).
Proof.
  unfold issue. destruct (exec _ _); cbn [queryPromises]; rewrite length_app; simpl; lia.
Qed.




(** ** The skills scenario (C7) *)

(** C7. On any well-formed store, syncing skills against the list with the
    one entry Acrobatics builds the record
    [{index, name, description: para1 \n\n para2, ability_score: DEX}],
    leaves exactly one skills row for the key acrobatics, holding these
    values, touches no other table, and answers 200 with [success: true] and
    the message that counts one record. *)
Theorem skills_scenario d :
  wf_db d ->
  fmap fst (skills_builder acrobatics)
    = Ok [ ("index", JStr "acrobatics"); ("name", JStr "Acrobatics");
           ("description", JStr ("para1" ++ blank_line ++ "para2"));
           ("ability_score", JStr "DEX") ]
  /\ fst (syncResource "skills" "skills" skills_builder one_skill d)
     = {| status := 200; success := true;
          message := "skills synced successfully! 1 records processed." |}
  /\ filter (fun r => row_get r "index" = SText "acrobatics")
       (rows_of (conn (snd (syncResource "skills" "skills" skills_builder one_skill d))) "skills")
     = [acrobatics_row]
  /\ (forall t, t <> "skills" ->
        rows_of (conn (snd (syncResource "skills" "skills" skills_builder one_skill d))) t
        = rows_of d t)
  /\ queryPromises (snd (syncResource "skills" "skills" skills_builder one_skill d)) = [Ok tt].
Proof.
  intros Hd. split; [by vm_compute|].
  assert (Hb : skills_builder acrobatics
               = Ok ([ ("index", JStr "acrobatics"); ("name", JStr "Acrobatics");
                       ("description", JStr ("para1" ++ blank_line ++ "para2"));
                       ("ability_score", JStr "DEX") ],
                     upsert_sql "skills" ["index"; "name"; "description"; "ability_score"]))
    by (vm_compute; reflexivity).
  set (params := [JStr "acrobatics"; JStr "Acrobatics";
                  JStr ("para1" ++ blank_line ++ "para2"); JStr "DEX"]).
  set (cols := ["index"; "name"; "description"; "ability_score"]).
  set (sch := parent ["description"; "ability_score"] ["name"]).
  assert (Hs : schema_of "skills" = Some sch) by (by vm_compute).
  assert (Hl : generic_listing one_skill "skills"
               = Ok [entry "Acrobatics" "/api/skills/acrobatics"]) by (by vm_compute).
  assert (Hp : prepared skills_builder one_skill (entry "Acrobatics" "/api/skills/acrobatics")
               = Ok ([ ("index", JStr "acrobatics"); ("name", JStr "Acrobatics");
                       ("description", JStr ("para1" ++ blank_line ++ "para2"));
                       ("ability_score", JStr "DEX") ], upsert_sql "skills" cols))
    by (vm_compute; reflexivity).
  assert (Hrow : stmt_row (upsert_sql "skills" cols params) = Ok (sch, acrobatics_row))
    by (by vm_compute).
  assert (He : exec (upsert_sql "skills" cols params) d
               = Ok (<["skills" := upsert_row sch (tail cols) acrobatics_row (rows_of d "skills")]> d)).
  { unfold upsert_sql. rewrite exec_upsert. fold (upsert_sql "skills" cols params).
    by rewrite Hrow. }
  assert (Hall : Forall2 (fun item built => prepared skills_builder one_skill item = Ok built)
                   [entry "Acrobatics" "/api/skills/acrobatics"]
                   [([ ("index", JStr "acrobatics"); ("name", JStr "Acrobatics");
                       ("description", JStr ("para1" ++ blank_line ++ "para2"));
                       ("ability_score", JStr "DEX") ], upsert_sql "skills" cols)]).
  { constructor; [exact Hp|constructor]. }
  destruct (generic_loop_attempts "skills" skills_builder one_skill _ _
              {| conn := d; queryPromises := [];
                 log := [FetchStarted (api ++ "/api/" ++ "skills");
                         FetchSettled (api ++ "/api/" ++ "skills")] |} Hall)
    as (st' & Hloop & Hc & Hq & _).
  cbn [conn queryPromises foldl promises app] in Hc, Hq.
  unfold attempt in Hc. unfold settles in Hq. cbn [fst snd Object_values map] in Hc, Hq.
  fold params in Hc, Hq. rewrite He in Hc, Hq.
  assert (Hr : syncResource "skills" "skills" skills_builder one_skill d
               = (res_200 (synced "skills" (JNum 1)),
                  logged [AllAwaited 1] st')).
  { unfold syncResource. cbv zeta. rewrite Hl, Hloop, Hq. done. }
  rewrite Hr. cbn [fst snd conn logged queryPromises]. rewrite Hc, Hq.
  split; [by vm_compute|]. split; [|split; [|done]].
  - destruct (upsert_on_key (generic_desc "skills") d params sch _ eq_refl Hd Hs He)
      as (vals & Hv & Hf & _).
    vm_compute in Hv. injection Hv as <-. exact Hf.
  - intros t Ht. by rewrite rows_of_insert, decide_False.
Qed.

(** The scenario on the empty store. *)
Lemma skills_scenario_run :
  wf_db ∅
  /\ fst (syncResource "skills" "skills" skills_builder one_skill ∅)
     = {| status := 200; success := true;
          message := "skills synced successfully! 1 records processed." |}
  /\ rows_of (conn (snd (syncResource "skills" "skills" skills_builder one_skill ∅))) "skills"
     = [acrobatics_row].
Proof.
  split; [exact wf_db_empty|].
  destruct (skills_scenario ∅ wf_db_empty) as (_ & Hres & _).
  split; [exact Hres|]. by vm_compute.
Defined.

(** ** Which child loops skip duplicates (C4) *)

Lemma first_seen_spec seen names :
  NoDup (first_seen seen names)
  /\ forall s, s ∈ first_seen seen names <-> s ∈ names /\ s ∉ seen.
Proof.
  revert seen. induction names as [|x names IH]; intros seen; simpl.
  - split; [constructor|]. intros s. set_solver.
  - case_bool_decide as Hx.
    + destruct (IH seen) as [Hnd Hin]. split; [done|]. intros s. rewrite Hin. set_solver.
    + destruct (IH (seen ++ [x])%list) as [Hnd Hin]. split.
      * constructor; [|done]. rewrite Hin. set_solver.
      * intros s. rewrite elem_of_cons, Hin.
        destruct (decide (s = x)) as [->|]; set_solver.
Qed.

Lemma set_has_strings seen s :
  set_has (map JStr seen) (JStr s) = bool_decide (s ∈ seen).
Proof.
  unfold set_has. induction seen as [|x seen IH]; cbn [map existsb same_value].
  - symmetry. apply bool_decide_eq_false_2. set_solver.
  - rewrite IH. destruct (String.eqb_spec s x) as [->|Hne]; cbn [orb].
    + symmetry. apply bool_decide_eq_true_2. set_solver.
    + apply bool_decide_ext. set_solver.
Qed.

Lemma inserts_into_app t ss1 ss2 :
  inserts_into t (ss1 ++ ss2) = (inserts_into t ss1 ++ inserts_into t ss2)%list.
Proof. apply filter_app. Qed.

Lemma inserts_into_cons t s ss :
  inserts_into t (s :: ss) = if inserts t s then s :: inserts_into t ss else inserts_into t ss.
Proof.
  unfold inserts_into. destruct (inserts t s) eqn:E.
  - by rewrite filter_cons_True.
  - rewrite filter_cons_False; [done|]. by rewrite E.
Qed.

Lemma inserts_into_other t ss :
  Forall (fun s => inserts t s = false) ss -> inserts_into t ss = [].
Proof.
  intros H. apply filter_none. eapply Forall_impl; [exact H|].
  intros s Hs. simpl in Hs. by rewrite Hs.
Qed.

Lemma condition_immunity_step d idx cond s seen :
  get d "index" = Ok idx -> get cond "index" = Ok (JStr s) ->
  condition_immunity d (map JStr seen) cond
  = if bool_decide (s ∈ seen) then mkW [] (Ok (map JStr seen))
    else mkW [InsertValues "monster_condition_immunities"
                ["monster_index"; "condition_index"] [idx; JStr s]]
             (Ok (map JStr (seen ++ [s]))).
Proof.
  intros Hidx Hc. unfold condition_immunity. rewrite Hc, Hidx.
  unfold mbind, W_bind, pure, queryAsync, mret, W_ret. cbn [outcome issued app].
  unfold set_add. rewrite set_has_strings. case_bool_decide; [done|].
  by rewrite map_app.
Qed.

Lemma condition_immunity_loop d idx conds names seen :
  get d "index" = Ok idx ->
  Forall2 (fun cond s => get cond "index" = Ok (JStr s)) conds names ->
  for_of_with conds (map JStr seen) (condition_immunity d)
  = mkW (map (fun s => InsertValues "monster_condition_immunities"
                         ["monster_index"; "condition_index"] [idx; JStr s])
           (first_seen seen names))
        (Ok (map JStr (seen ++ first_seen seen names))).
Proof.
  intros Hidx Hall. revert seen. induction Hall as [|cond s conds names Hc _ IH]; intros seen.
  - simpl. by rewrite app_nil_r.
  - cbn [for_of_with first_seen]. rewrite (condition_immunity_step d idx cond s seen Hidx Hc).
    case_bool_decide.
    + unfold mbind at 1, W_bind at 1. cbn [outcome issued app]. rewrite IH. done.
    + unfold mbind at 1, W_bind at 1. cbn [outcome issued app]. rewrite IH.
      cbn [issued outcome map]. by rewrite <- (assoc_L (++)).
Qed.

(** The loop over the spells of a subclass skips in the same way. *)
Lemma subclass_spell_skips d seen spell s :
  (get spell "spell" ≫= fun sp => get sp "index") = Ok (JStr s) ->
  s ∈ seen ->
  subclass_spell d (map JStr seen) spell = mkW [] (Ok (map JStr seen)).
Proof.
  intros Hs Hin. unfold subclass_spell. rewrite Hs.
  unfold mbind at 1, W_bind at 1. cbn [pure outcome issued app].
  rewrite set_has_strings, bool_decide_eq_true_2 by done. done.
Qed.

Lemma for_of_one_each {A} (t : string) (xs : list A) (body : A -> W unit) :
  outcome (for_of xs body) = Ok tt ->
  (forall x u, x ∈ xs -> outcome (body x) = Ok u ->
     exists s, issued (body x) = [s] /\ inserts t s = true) ->
  inserts_into t (issued (for_of xs body)) = issued (for_of xs body)
  /\ length (issued (for_of xs body)) = length xs.
Proof.
  induction xs as [|x xs IH]; simpl; [done|]. intros H Hb.
  apply W_bind_ok in H as (u & H1 & H2 & ->).
  destruct (Hb x u) as (s & Hs & Hin); [set_solver | done |].
  destruct IH as [IH1 IH2]; [done | intros y v Hy; apply Hb; set_solver |].
  rewrite inserts_into_app, IH1, length_app, IH2, Hs. split; [|done].
  unfold inserts_into. by rewrite filter_cons_True by done.
Qed.

(** C4 (as stated, refuted). The loop over a monster's proficiencies skips
    nothing: a detail document that lists the same proficiency twice sends the
    insert twice, the second is a duplicate key, the transaction is rolled
    back and the sync answers 500. *)
Lemma repeated_proficiency_rejected :
  inserts_into "monster_proficiencies"
    (issued (monster_body (monster "aboleth" "Aboleth" []
                             [proficiency "skill-history" 12; proficiency "skill-history" 12]
                             [])))
  = [ InsertSet "monster_proficiencies"
        [("monster_index", JStr "aboleth"); ("proficiency_index", JStr "skill-history");
         ("value", JNum 12)];
      InsertSet "monster_proficiencies"
        [("monster_index", JStr "aboleth"); ("proficiency_index", JStr "skill-history");
         ("value", JNum 12)] ]
  /\ syncMonsters
       (one_monster (monster "aboleth" "Aboleth" []
                       [proficiency "skill-history" 12; proficiency "skill-history" 12] [])) ∅
     = ({| status := 500; success := false;
           message := "ER_DUP_ENTRY: Duplicate entry for the unique key" |}, ∅).
Proof. split; by vm_compute. Qed.

(** The scenario of the specification: charmed twice gives one row. *)
Lemma charmed_twice_one_row :
  rows_of (snd (syncMonsters
                  (one_monster (monster "aboleth" "Aboleth" []
                                  [proficiency "skill-history" 12]
                                  [indexed "charmed"; indexed "charmed"])) ∅))
    "monster_condition_immunities"
  = [[("monster_index", SText "aboleth"); ("condition_index", SText "charmed")]]
  /\ fst (syncMonsters
            (one_monster (monster "aboleth" "Aboleth" []
                            [proficiency "skill-history" 12]
                            [indexed "charmed"; indexed "charmed"])) ∅)
     = {| status := 200; success := true;
          message := "Monsters synced successfully! 1 records processed." |}.
Proof. split; by vm_compute. Qed.

(** ** Descriptions (C5) *)

Lemma object_assoc fields rec k r :
  object fields = Ok rec -> assoc k fields = Some r ->
  exists v, r = Ok v /\ assoc k rec = Some v.
Proof.
  revert rec. induction fields as [|[k' r'] fields IH]; intros rec; [done|].
  intros H. apply object_cons in H as (v & vs & -> & Hvs & ->). simpl.
  destruct (String.eqb k k'); [intros [= <-]; eauto | by apply IH].
Qed.

Lemma record_of_build fields q rec :
  (fst <$> build fields q) = Ok rec -> object fields = Ok rec.
Proof.
  unfold build. destruct (object fields); simpl; [|done]. by intros [= ->].
Qed.

Lemma join_paragraphs ps sep :
  js_join (JArr (map JStr ps)) sep = Ok (JStr (String.concat sep ps)).
Proof.
  unfold js_join. simpl. do 3 f_equal. induction ps as [|p ps IH]; simpl; [done|].
  by rewrite IH.
Qed.

Ltac description_of H :=
  eapply object_assoc in H as (? & H & ->); [|reflexivity].

(** ** Absent optional fields (C8) *)

Lemma get_field fields k : get (JObj fields) k = Ok (default JUndefined (assoc k fields)).
Proof. done. Qed.

(** ** What the classes sync leaves out (C10) *)

Lemma options_kept opts (os : list (option string)) :
  Forall2 (fun o w => match w with Some s => has_item o s | None => no_item o end) opts os ->
  exists mapped,
    rmap (fun o => item ← get o "item";
                   if truthy item then get item "index" else Ok JNull) opts = Ok mapped
    /\ filter (fun x => truthy x = true) mapped = map JStr (omap id os).
Proof.
  induction 1 as [|o w opts os Ho _ (mapped & Hm & Hf)].
  - by exists [].
  - destruct w as [s|].
    + destruct Ho as (item & Hi & Ht & Hidx & Hs).
      exists (JStr s :: mapped). simpl. rewrite Hi. simpl. rewrite Ht, Hidx. simpl.
      rewrite Hm. simpl. split; [done|].
      rewrite filter_cons_True.
      * by rewrite Hf.
      * simpl. destruct s; [done|]. done.
    + destruct Ho as (item & Hi & Ht).
      exists (JNull :: mapped). simpl. rewrite Hi. simpl. rewrite Ht. simpl.
      rewrite Hm. simpl. split; [done|]. by rewrite filter_cons_False.
Qed.

(** C10. In the classes sync: a starting-equipment entry without an
    equipment sub-object that has an index sends nothing and raises nothing;
    the options of a proficiency choice are stored as the JSON text of the
    item indexes of the options that are items, in order, the others being
    dropped; and for the class [bard], with three starting-equipment entries
    and two options, the sync commits one starting-equipment row and one
    stored option. *)
Theorem class_children_filtered d item choice from opts os :
  no_equipment_index item ->
  get choice "from" = Ok from ->
  get from "options" = Ok (JArr opts) ->
  Forall2 (fun o w => match w with Some s => has_item o s | None => no_item o end) opts os ->
  starting_equipment_item d item = mkW [] (Ok tt)
  /\ proficiency_options choice = Ok (JArr (map JStr (omap id os)))
  /\ stringify_of (proficiency_options choice)
     = Ok (JStr (json_text (JArr (map JStr (omap id os)))))
  /\ fst (syncClasses (one_class bard) ∅)
     = res_200 "Classes synced successfully! 1 records processed."
  /\ rows_of (snd (syncClasses (one_class bard) ∅)) "class_starting_equipment"
     = [[("class_index", SText "bard"); ("equipment_index", SText "leather-armor");
         ("quantity", SNum 1)]]
  /\ map (fun r => row_get r "options")
       (rows_of (snd (syncClasses (one_class bard) ∅)) "class_proficiency_choices")
     = [SText ("[" ++ dquote ++ "skill-acrobatics" ++ dquote ++ "]")].
Proof.
  intros (equipment & He & Hno) Hfrom Hopts Hall.
  assert (Hp : proficiency_options choice = Ok (JArr (map JStr (omap id os)))).
  { unfold proficiency_options. rewrite Hfrom. simpl. rewrite Hopts. simpl.
    destruct (options_kept opts os Hall) as (mapped & Hm & Hf).
    unfold js_map. simpl. rewrite Hm. simpl. unfold js_filter_Boolean. simpl. by rewrite Hf. }
  split; [|split; [exact Hp|split; [by rewrite Hp|repeat split; by vm_compute]]].
  unfold starting_equipment_item. rewrite He.
  unfold mbind at 1, W_bind at 1. cbn [pure outcome issued app].
  destruct Hno as [Hf | (index & Hi & Hf)].
  - by rewrite Hf.
  - destruct (truthy equipment); [|done]. rewrite Hi. simpl. by rewrite Hf.
Qed.

(** ** The theorems at concrete inputs *)

(** The second of three monsters fails: the first stays, the second leaves
    nothing, the answer is 500 with its error. *)
Lemma fail_fast_witness :
  listing three_monsters "monsters"
  = Ok (JArr [entry "Aboleth" "/api/monsters/aboleth"; entry "Bandit" "/api/monsters/bandit";
              entry "Cat" "/api/monsters/cat"],
        ([entry "Aboleth" "/api/monsters/aboleth"]
         ++ entry "Bandit" "/api/monsters/bandit" :: [entry "Cat" "/api/monsters/cat"])%list)
  /\ enriched_loop monster_item three_monsters [entry "Aboleth" "/api/monsters/aboleth"] ∅
     = (Ok tt, after_aboleth)
  /\ entry_body monster_item three_monsters (entry "Bandit" "/api/monsters/bandit")
     = Ok (monster_body bandit)
  /\ run (monster_body bandit) after_aboleth
     = (Err duplicate_entry, snd (run (monster_body bandit) after_aboleth))
  /\ syncMonsters three_monsters ∅ = (res_500 duplicate_entry, after_aboleth)
  /\ map (fun r => row_get r "index") (rows_of after_aboleth "monsters") = [SText "aboleth"]
  /\ map (fun r => row_get r "index")
       (rows_of (snd (run (monster_body bandit) after_aboleth)) "monsters")
     = [SText "aboleth"; SText "bandit"].
Proof.
  assert (H1 : listing three_monsters "monsters"
    = Ok (JArr [entry "Aboleth" "/api/monsters/aboleth"; entry "Bandit" "/api/monsters/bandit";
                entry "Cat" "/api/monsters/cat"],
          ([entry "Aboleth" "/api/monsters/aboleth"]
           ++ entry "Bandit" "/api/monsters/bandit" :: [entry "Cat" "/api/monsters/cat"])%list))
    by (vm_compute; reflexivity).
  assert (H2 : enriched_loop monster_item three_monsters
                 [entry "Aboleth" "/api/monsters/aboleth"] ∅ = (Ok tt, after_aboleth))
    by (vm_compute; reflexivity).
  assert (H3 : entry_body monster_item three_monsters (entry "Bandit" "/api/monsters/bandit")
               = Ok (monster_body bandit)) by (vm_compute; reflexivity).
  assert (H4 : run (monster_body bandit) after_aboleth
               = (Err duplicate_entry, snd (run (monster_body bandit) after_aboleth)))
    by (vm_compute; reflexivity).
  split; [exact H1|]. split; [exact H2|]. split; [exact H3|]. split; [exact H4|].
  split; [|split; by vm_compute].
  exact (proj1 (fail_fast "Monsters" "monsters" monster_item three_monsters ∅ _ _ _ _ _ _ _ _
                  H1 H2 H3 H4)).
Defined.

(** The bard: an entry without equipment, a choice with one item among two
    options. *)
Lemma class_children_filtered_witness :
  no_equipment_index (JObj [("quantity", JNum 1)])
  /\ starting_equipment_item bard (JObj [("quantity", JNum 1)]) = mkW [] (Ok tt)
  /\ proficiency_options
       (JObj [("desc", JStr "Choose any three"); ("choose", JNum 3);
              ("type", JStr "proficiencies");
              ("from", JObj [("options",
                 JArr [JObj [("option_type", JStr "reference");
                             ("item", indexed "skill-acrobatics")];
                       JObj [("option_type", JStr "choice");
                             ("choice", JObj [("desc", JStr "an instrument")])]])])])
     = Ok (JArr [JStr "skill-acrobatics"]).
Proof.
  assert (Hno : no_equipment_index (JObj [("quantity", JNum 1)])).
  { exists JUndefined. split; [reflexivity | left; reflexivity]. }
  split; [exact Hno|].
  destruct (class_children_filtered bard (JObj [("quantity", JNum 1)])
              (JObj [("desc", JStr "Choose any three"); ("choose", JNum 3);
                     ("type", JStr "proficiencies");
                     ("from", JObj [("options",
                        JArr [JObj [("option_type", JStr "reference");
                                    ("item", indexed "skill-acrobatics")];
                              JObj [("option_type", JStr "choice");
                                    ("choice", JObj [("desc", JStr "an instrument")])]])])])
              (JObj [("options",
                 JArr [JObj [("option_type", JStr "reference");
                             ("item", indexed "skill-acrobatics")];
                       JObj [("option_type", JStr "choice");
                             ("choice", JObj [("desc", JStr "an instrument")])]])])
              [JObj [("option_type", JStr "reference"); ("item", indexed "skill-acrobatics")];
               JObj [("option_type", JStr "choice");
                     ("choice", JObj [("desc", JStr "an instrument")])]]
              [Some "skill-acrobatics"; None] Hno eq_refl eq_refl)
    as (H1 & H2 & _).
  { constructor; [|constructor; [|constructor]].
    - exists (indexed "skill-acrobatics"). repeat split; done.
    - exists JUndefined. split; reflexivity. }
  split; [exact H1 | exact H2].
Defined.

(** * Further properties of the code *)

(** ** What a sync leaves alone (X1 to X3) *)

Lemma enriched_planned D label resource item :
  descriptor_ok D = true -> shaped_item D item -> planned D (enriched_sync label resource item).
Proof.
  intros HD Hi net. exists (sync_plan resource item net). split.
  - by destruct (enriched_sync_plan D label resource item net ∅ HD Hi wf_db_empty) as (_ & ? & _).
  - intros d Hd. by destruct (enriched_sync_plan D label resource item net d HD Hi Hd) as (? & _).
Qed.

Lemma generic_planned t resourceName b :
  descriptor_ok (generic_desc t) = true -> upsert_builder t b ->
  planned (generic_desc t) (generic_run resourceName t b).
Proof.
  intros HD Hb net. exists (generic_sync_plan resourceName b net). split.
  - by destruct (syncResource_plan t resourceName b net ∅ HD Hb wf_db_empty) as (_ & ? & _).
  - intros d Hd. unfold generic_run. cbn [snd].
    by destruct (syncResource_plan t resourceName b net d HD Hb Hd) as (? & _).
Qed.

Ltac planned_entry D :=
  first [ by apply generic_planned
        | apply (enriched_planned D); [reflexivity|];
          first [ exact class_item_shaped | exact subclass_item_shaped
                | exact (body_item_shaped _ _ monster_body_script)
                | exact (body_item_shaped _ _ proficiency_body_script)
                | exact (body_item_shaped _ _ race_body_script)
                | exact (body_item_shaped _ _ spell_body_script)
                | exact (body_item_shaped _ _ trait_body_script) ] ].

Lemma endpoints_planned :
  Forall (fun e => descriptor_ok (fst (snd e)) = true /\ planned (fst (snd e)) (snd (snd e)))
    endpoints.
Proof.
  pose proof builders_upsert as Hb. unfold generic_endpoints in Hb.
  repeat (apply Forall_cons in Hb as [? Hb]). cbn [fst snd] in *. clear Hb.
  unfold endpoints, syncClasses, syncMonsters, syncProficiencies, syncRaces, syncSpells,
    syncSubclasses, syncTraits.
  repeat (apply Forall_cons; split;
          [cbn [fst snd];
           match goal with |- descriptor_ok ?D = true /\ _ =>
             split; [reflexivity | planned_entry D] end
          |]).
  constructor.
Qed.

Lemma endpoint_plan path D sync :
  (path, (D, sync)) ∈ endpoints -> descriptor_ok D = true /\ planned D sync /\ sync_stable sync.
Proof.
  intros Hin. pose proof endpoints_planned as H1. pose proof endpoints_stable as H2.
  rewrite Forall_forall in H1, H2. destruct (H1 _ Hin) as [? ?]. destruct (H2 _ Hin) as [_ ?].
  done.
Qed.

Lemma applys_outside D es d t :
  Forall (fresh D) es -> t ∉ tables D -> applys D es d !! t = d !! t.
Proof.
  intros Hall Ht. rewrite lookup_applys.
  destruct (existsb _ es) eqn:E; [|done].
  apply existsb_exists in E as (e & Hin & He). apply bool_decide_eq_true in He.
  rewrite Forall_forall in Hall. exfalso. apply Ht. eapply fresh_dom; [|done].
  apply Hall. by apply list_elem_of_In.
Qed.

(** X1. A sync leaves every table it does not own as it was. *)
Theorem sync_keeps_other_tables path D sync net d t :
  (path, (D, sync)) ∈ endpoints -> wf_db d -> t ∉ tables D ->
  snd (sync net d) !! t = d !! t.
Proof.
  intros Hin Hd Ht. destruct (endpoint_plan _ _ _ Hin) as (_ & Hp & _).
  destruct (Hp net) as (es & Hall & Hes). rewrite (Hes d Hd). by apply applys_outside.
Qed.

Lemma puts_keys_prefix {A K} `{EqDecision K} (key : A -> K) xs l :
  exists added, map key (puts key xs l) = (map key l ++ added)%list.
Proof.
  revert l. induction xs as [|x xs IH]; intros l.
  - exists []. by rewrite app_nil_r.
  - destruct (IH (put key x l)) as [added Ha].
    change (puts key (x :: xs) l) with (puts key xs (put key x l)).
    rewrite Ha, put_keys. case_decide.
    + by exists added.
    + exists (key x :: added). by rewrite <- (assoc_L (++)).
Qed.

(** X2. No sync removes a parent row or moves it: the keys the parent table held
    are, after the sync, still there, in the same places; keys that are new
    come after them.  (A resource that the remote source no longer lists
    keeps its row.) *)
Theorem sync_keeps_parent_keys path D sync net d :
  (path, (D, sync)) ∈ endpoints -> wf_db d ->
  exists added,
    map (fun r => row_get r "index") (rows_of (snd (sync net d)) (parent_table D))
    = (map (fun r => row_get r "index") (rows_of d (parent_table D)) ++ added)%list.
Proof.
  intros Hin Hd. destruct (endpoint_plan _ _ _ Hin) as (HD & Hp & _).
  destruct (Hp net) as (es & Hall & Hes). rewrite (Hes d Hd), rows_of_applys.
  destruct (table_after_parent_news D es Hall) as [news Hn]. rewrite Hn.
  apply (puts_keys_prefix (pkey "index")).
Qed.

Lemma applys_commute D1 D2 es1 es2 d :
  Forall (fresh D1) es1 -> Forall (fresh D2) es2 ->
  apart (tables D1) (tables D2) = true ->
  applys D1 es1 (applys D2 es2 d) = applys D2 es2 (applys D1 es1 d).
Proof.
  intros H1 H2 Hap. apply map_eq. intros t.
  assert (Hdis : t ∈ tables D1 -> t ∉ tables D2).
  { intros Ht. unfold apart in Hap. rewrite forallb_forall in Hap.
    specialize (Hap t (proj1 (list_elem_of_In _ _) Ht)).
    apply negb_true_iff, bool_decide_eq_false in Hap. done. }
  assert (Hsome : forall D es, Forall (fresh D) es ->
            existsb (fun e => bool_decide (is_Some (e !! t))) es = true -> t ∈ tables D).
  { intros D es Hall E. apply existsb_exists in E as (e & Hin & He).
    apply bool_decide_eq_true in He. rewrite Forall_forall in Hall.
    eapply fresh_dom; [|done]. apply Hall. by apply list_elem_of_In. }
  rewrite (lookup_applys D1 es1 (applys D2 es2 d)), (lookup_applys D2 es2 (applys D1 es1 d)).
  destruct (existsb _ es1) eqn:E1; destruct (existsb _ es2) eqn:E2.
  - exfalso. apply (Hdis (Hsome _ _ H1 E1)), (Hsome _ _ H2 E2).
  - rewrite lookup_applys, E1. do 2 f_equal. unfold rows_of.
    by rewrite (applys_outside D2 es2 d t H2 (Hdis (Hsome _ _ H1 E1))).
  - rewrite lookup_applys, E2. do 2 f_equal. unfold rows_of.
    rewrite (applys_outside D1 es1 d t H1); [done|].
    intros Ht. by apply (Hdis Ht), (Hsome _ _ H2 E2).
  - by rewrite !lookup_applys, E1, E2.
Qed.

Lemma endpoints_apart path1 D1 sync1 path2 D2 sync2 :
  (path1, (D1, sync1)) ∈ endpoints -> (path2, (D2, sync2)) ∈ endpoints -> path1 <> path2 ->
  apart (tables D1) (tables D2) = true.
Proof.
  intros H1 H2 Hne.
  assert (Hall : forallb (fun a => forallb (fun b =>
                    bool_decide (fst a = fst b) || apart (snd a) (snd b))
                    (map (fun e => (fst e, tables (fst (snd e)))) endpoints))
                    (map (fun e => (fst e, tables (fst (snd e)))) endpoints) = true)
    by (vm_compute; reflexivity).
  rewrite forallb_forall in Hall.
  apply (list_elem_of_fmap_2 (fun e => (fst e, tables (fst (snd e))))) in H1, H2.
  apply list_elem_of_In in H1, H2. specialize (Hall _ H1). rewrite forallb_forall in Hall.
  specialize (Hall _ H2). cbn [fst snd] in Hall.
  apply orb_true_iff in Hall as [Hall|Hall]; [|done].
  by apply bool_decide_eq_true in Hall.
Qed.

Lemma endpoint_stores_commute path1 D1 sync1 path2 D2 sync2 net1 net2 d :
  (path1, (D1, sync1)) ∈ endpoints -> (path2, (D2, sync2)) ∈ endpoints -> path1 <> path2 ->
  wf_db d ->
  snd (sync1 net1 (snd (sync2 net2 d))) = snd (sync2 net2 (snd (sync1 net1 d))).
Proof.
  intros H1 H2 Hne Hd.
  destruct (endpoint_plan _ _ _ H1) as (_ & Hp1 & Hs1).
  destruct (endpoint_plan _ _ _ H2) as (_ & Hp2 & Hs2).
  destruct (Hp1 net1) as (es1 & Hf1 & He1). destruct (Hp2 net2) as (es2 & Hf2 & He2).
  destruct (Hs1 net1 d Hd) as [_ Hw1]. destruct (Hs2 net2 d Hd) as [_ Hw2].
  rewrite (He1 _ Hw2), (He2 _ Hw1), (He1 d Hd), (He2 d Hd).
  apply applys_commute; [done..|]. by eapply endpoints_apart.
Qed.

(** X3. Syncs of two different resources commute: whichever runs first, the
    store is the same after both. *)
Theorem syncs_commute path1 D1 sync1 path2 D2 sync2 net1 net2 d :
  (path1, (D1, sync1)) ∈ endpoints -> (path2, (D2, sync2)) ∈ endpoints -> path1 <> path2 ->
  wf_db d ->
  snd (sync1 net1 (snd (sync2 net2 d))) = snd (sync2 net2 (snd (sync1 net1 d))).
Proof. apply endpoint_stores_commute. Qed.

(** ** Lists that are empty or missing, and items that fail in the generic path (X4, X5) *)

(** X4. An empty list: both paths answer 200 with the count 0 and leave the
    store as it was; the generic path has issued no query. *)
Theorem empty_list_syncs_nothing label resource tableName item b net d listData :
  fetch net (api ++ "/api/" ++ resource) = Ok listData ->
  get listData "results" = Ok (JArr []) ->
  enriched_sync label resource item net d
  = (res_200 (label ++ " synced successfully! 0 records processed."), d)
  /\ fst (syncResource resource tableName b net d)
     = res_200 (resource ++ " synced successfully! 0 records processed.")
  /\ conn (snd (syncResource resource tableName b net d)) = d
  /\ queryPromises (snd (syncResource resource tableName b net d)) = [].
Proof.
  intros Hf Hr. split.
  - unfold enriched_sync, listing. rewrite Hf. cbn [mbind result_bind]. rewrite Hr. done.
  - unfold syncResource, generic_listing. rewrite Hf. cbn [mbind result_bind]. rewrite Hr. done.
Qed.

(** X5. The list request fails, or its answer has no [results] (what the remote
    API sends for a resource it does not know): both paths answer 500 and
    leave the store as it was; the generic path has issued no query and names
    the property it could not read. *)
Theorem list_failure_changes_nothing label resource tableName item b net d :
  (net (api ++ "/api/" ++ resource) = None
   \/ exists listData, net (api ++ "/api/" ++ resource) = Some listData
        /\ get listData "results" = Ok JUndefined) ->
  status (fst (enriched_sync label resource item net d)) = 500%Z
  /\ success (fst (enriched_sync label resource item net d)) = false
  /\ snd (enriched_sync label resource item net d) = d
  /\ status (fst (syncResource resource tableName b net d)) = 500%Z
  /\ success (fst (syncResource resource tableName b net d)) = false
  /\ conn (snd (syncResource resource tableName b net d)) = d
  /\ queryPromises (snd (syncResource resource tableName b net d)) = []
  /\ (net (api ++ "/api/" ++ resource) = None ->
      message (fst (syncResource resource tableName b net d))
      = error_message (FetchFailed (api ++ "/api/" ++ resource))
      /\ message (fst (enriched_sync label resource item net d))
         = error_message (FetchFailed (api ++ "/api/" ++ resource)))
  /\ (net (api ++ "/api/" ++ resource) <> None ->
      message (fst (syncResource resource tableName b net d))
      = "Cannot read properties of undefined (reading " ++ squote ++ "length" ++ squote ++ ")").
Proof.
  intros [Hn | (listData & Hn & Hr)].
  - unfold enriched_sync, listing, syncResource, generic_listing, fetch. rewrite Hn.
    cbn [mbind result_bind fst snd conn queryPromises status success message res_500].
    rewrite error_message_nonempty. repeat split; try done.
  - unfold enriched_sync, listing, syncResource, generic_listing, fetch. rewrite Hn.
    cbn [mbind result_bind]. rewrite Hr. repeat split; try done.
    all: intros H; by rewrite Hn in H.
Qed.

Lemma issue_conn resourceName newRecord sqlQuery st :
  conn (issue resourceName newRecord sqlQuery st) = attempt (conn st) (newRecord, sqlQuery).
Proof. unfold issue, attempt. cbn [fst snd]. by destruct (exec _ _). Qed.

Lemma issue_promises resourceName newRecord sqlQuery st :
  queryPromises (issue resourceName newRecord sqlQuery st)
  = (queryPromises st ++ [settles resourceName (conn st) (newRecord, sqlQuery)])%list.
Proof. unfold issue, settles. cbn [fst snd]. by destruct (exec _ _). Qed.

Lemma generic_loop_stops resourceName b net pre item post builts st e :
  Forall2 (fun item built => prepared b net item = Ok built) pre builts ->
  prepared b net item = Err e ->
  exists st' tl, generic_loop resourceName b net (pre ++ item :: post) st = (Err e, st')
    /\ conn st' = foldl attempt (conn st) builts
    /\ queryPromises st' = (queryPromises st ++ promises resourceName (conn st) builts)%list
    /\ log st' = (log st ++ loop_events (length (queryPromises st)) pre ++ tl)%list
    /\ (tl = [] \/ exists u, tl = [FetchStarted u; FetchSettled u]).
Proof.
  intros Hall Hfail. revert st. induction Hall as [|it built pre builts Hp _ IH]; intros st.
  - cbn [app generic_loop]. unfold prepared in Hfail.
    destruct (get item "url") as [url|x] eqn:Eu.
    + cbn [mbind result_bind] in Hfail.
      assert (Hm : (detailData ← fetch net (api ++ js_String url);
                    built ← b detailData;
                    Ok (issue resourceName (fst built) (snd built)
                          (logged [FetchStarted (api ++ js_String url);
                                   FetchSettled (api ++ js_String url)] st))) = Err e).
      { destruct (fetch net (api ++ js_String url)) as [detailData|];
          cbn [mbind result_bind] in Hfail |- *; [by rewrite Hfail | congruence]. }
      cbv zeta. rewrite Hm.
      eexists _, [FetchStarted (api ++ js_String url); FetchSettled (api ++ js_String url)].
      split; [reflexivity|]. cbn [conn queryPromises log logged foldl promises loop_events app].
      rewrite app_nil_r. repeat split; eauto.
    + injection Hfail as ->. exists st, []. cbn [foldl promises loop_events app].
      rewrite !app_nil_r. repeat split; auto.
  - cbn [app generic_loop]. unfold prepared in Hp.
    destruct (get it "url") as [url|] eqn:Eu; [|done]. cbn [mbind result_bind] in Hp.
    destruct (fetch net (api ++ js_String url)) as [detailData|]; [|done].
    cbn [mbind result_bind] in Hp |- *. cbv zeta. rewrite Hp. cbn [mbind result_bind].
    edestruct IH as (st' & tl & -> & H1 & H2 & H3 & H4). exists st', tl.
    split; [done|]. rewrite H1, H2, H3, issue_log, issue_length, issue_conn, issue_promises.
    destruct built as [rec q].
    cbn [foldl promises loop_events log logged queryPromises conn fst snd]. rewrite Eu.
    cbn [default]. rewrite <- !(assoc_L (++)). cbn [app]. repeat split; auto.
Qed.

(** ** The spells of a subclass and the arrays of a monster (X7, X8) *)

Lemma first_seen_on_spec {A} (key : A -> string) seen xs :
  NoDup (map key (first_seen_on key seen xs))
  /\ (forall k, k ∈ map key (first_seen_on key seen xs) <-> k ∈ map key xs /\ k ∉ seen)
  /\ (forall x, x ∈ first_seen_on key seen xs -> x ∈ xs).
Proof.
  revert seen. induction xs as [|x xs IH]; intros seen; simpl.
  - split; [constructor|]. split; [|done]. intros k. set_solver.
  - case_bool_decide as Hx.
    + destruct (IH seen) as (Hnd & Hin & Hsub). split; [done|]. split.
      * intros k. rewrite Hin. set_solver.
      * intros y Hy. right. by apply Hsub.
    + destruct (IH (seen ++ [key x])%list) as (Hnd & Hin & Hsub). split; [|split].
      * simpl. constructor; [|done]. rewrite Hin. set_solver.
      * intros k. simpl. rewrite elem_of_cons, Hin.
        destruct (decide (k = key x)) as [->|]; set_solver.
      * intros y [->|Hy]%elem_of_cons; [left | right; by apply Hsub].
Qed.

Lemma subclass_spell_step d idx spell sp seen :
  get d "index" = Ok idx -> spell_entry spell sp ->
  subclass_spell d (map JStr seen) spell
  = if bool_decide (fst sp ∈ seen) then mkW [] (Ok (map JStr seen))
    else mkW [subclass_spell_insert idx sp] (Ok (map JStr (seen ++ [fst sp]))).
Proof.
  intros Hidx [Hs Hp]. unfold subclass_spell. rewrite Hs, Hidx, Hp.
  unfold mbind at 1, W_bind at 1. cbn [pure outcome issued app].
  rewrite set_has_strings. case_bool_decide as Hin; [done|].
  unfold mbind, W_bind, pure, queryAsync, mret, W_ret, stringify_of.
  cbn [outcome issued app object mbind result_bind fmap result_fmap].
  unfold set_add. rewrite set_has_strings, bool_decide_eq_false_2 by done.
  by rewrite map_app.
Qed.

Lemma subclass_spell_loop d idx spells sps seen :
  get d "index" = Ok idx -> Forall2 spell_entry spells sps ->
  for_of_with spells (map JStr seen) (subclass_spell d)
  = mkW (map (subclass_spell_insert idx) (first_seen_on fst seen sps))
        (Ok (map JStr (seen ++ map fst (first_seen_on fst seen sps)))).
Proof.
  intros Hidx Hall. revert seen. induction Hall as [|spell sp spells sps Hs _ IH]; intros seen.
  - simpl. by rewrite app_nil_r.
  - cbn [for_of_with first_seen_on]. rewrite (subclass_spell_step d idx spell sp seen Hidx Hs).
    case_bool_decide.
    + unfold mbind at 1, W_bind at 1. cbn [outcome issued app]. rewrite IH. done.
    + unfold mbind at 1, W_bind at 1. cbn [outcome issued app]. rewrite IH.
      cbn [issued outcome map]. by rewrite <- (assoc_L (++)).
Qed.

(** X7. In the subclasses sync, for a document whose spells carry the indexes
    and prerequisites [sps] and whose transaction body completes: the inserts
    sent to the subclass-spell table are one per distinct spell index, the
    first entry with that index, in document order; no key is sent twice. *)
Theorem subclass_spells_first_seen d levelsData idx spells sps :
  get d "index" = Ok idx ->
  get d "spells" = Ok (JArr spells) ->
  Forall2 spell_entry spells sps ->
  outcome (subclass_body d levelsData) = Ok tt ->
  inserts_into "subclass_spells" (issued (subclass_body d levelsData))
  = map (subclass_spell_insert idx) (first_seen_on fst [] sps)
  /\ NoDup (map fst (first_seen_on fst [] sps))
  /\ (forall s, s ∈ map fst (first_seen_on fst [] sps) <-> s ∈ map fst sps).
Proof.
  intros Hidx Hspells Hall H.
  destruct (first_seen_on_spec fst [] sps) as (Hnd & Hin & _).
  assert (Hloop := subclass_spell_loop d idx spells sps [] Hidx Hall). cbn [map app] in Hloop.
  unfold subclass_body in *. w_pure H record Hrec. w_step H u Hu. cbn [queryAsync issued].
  w_delete H idx Hidx. w_delete H idx Hidx.
  w_pure H levels Hlevels. w_step H l1 Hl1. w_pure H sp Hsp.
  rewrite Hspells in Hsp. injection Hsp as <-. cbn [truthy] in H |- *.
  w_pure H sps' Hsps. rewrite Hspells in Hsps. injection Hsps as <-.
  w_step H l2 Hl2.
  assert (Hother : inserts_into "subclass_spells"
                     (issued (for_of levels (fun level =>
                        levelRecord ← pure (object
                          [ ("subclass_index", get d "index");
                            ("level", get level "level");
                            ("features", stringify_of (get level "features" ≫= pluck "index")) ]);
                        queryAsync (InsertSet "subclass_levels" levelRecord)))) = []).
  { apply inserts_into_other. destruct l1. apply for_of_issued; [done|]. intros level ? _ Hx.
    w_pure Hx r Hr. by constructor. }
  rewrite !inserts_into_cons. cbn [inserts subQuery upsert_sql].
  rewrite !inserts_into_app, Hother, Hloop. cbn [issued].
  split; [|split; [done | intros s; rewrite Hin; set_solver]].
  cbn. rewrite app_nil_r. apply filter_all. apply Forall_forall.
  intros s (x & -> & _)%list_elem_of_fmap. done.
Qed.

(** X8. A monster document without a [proficiencies] array: the body sends the
    upsert and the two deletes and then raises the TypeError of the loop, so
    the transaction is rolled back and nothing of the monster is stored,
    whatever the store held.  Without a [condition_immunities] array the body
    fails as well.  (The mapper tolerates absent fields; the loops do
    not.) *)
Theorem monster_missing_array_fails fields d0 :
  (assoc "proficiencies" fields = None ->
   outcome (monster_body (JObj fields)) = Err (NotIterable "detailData.proficiencies")
   /\ length (issued (monster_body (JObj fields))) = 3)
  /\ (assoc "proficiencies" fields = None \/ assoc "condition_immunities" fields = None ->
      exists e, outcome (monster_body (JObj fields)) = Err e
        /\ exists e', transaction (monster_body (JObj fields)) d0 = (Err e', d0)
             /\ (is_ok (fst (exec_all (issued (monster_body (JObj fields))) d0)) = true ->
                 e' = e)).
Proof.
  assert (Hrec : exists record, monsterRecord (JObj fields) = Ok record).
  { unfold monsterRecord. rewrite !get_field. unfold stringify_of. eexists. reflexivity. }
  destruct Hrec as [record Hrec].
  assert (H1 : assoc "proficiencies" fields = None ->
    outcome (monster_body (JObj fields)) = Err (NotIterable "detailData.proficiencies")
    /\ length (issued (monster_body (JObj fields))) = 3).
  { intros Hp. unfold monster_body, delete_for. rewrite Hrec, !get_field, Hp. done. }
  split; [exact H1|]. intros Hmiss.
  assert (He : exists e, outcome (monster_body (JObj fields)) = Err e).
  { destruct Hmiss as [Hp | Hc]; [destruct (H1 Hp); eauto|].
    destruct (outcome (monster_body (JObj fields))) as [[]|e] eqn:Ho; [|eauto].
    exfalso. unfold monster_body in Ho.
    do 6 (apply W_bind_ok in Ho as (? & _ & Ho & _)).
    apply W_bind_ok in Ho as (cs & Hcs & _). apply pure_ok in Hcs as [Hcs _].
    rewrite get_field, Hc in Hcs. done. }
  destruct He as [e He]. exists e. split; [done|].
  unfold transaction, run. rewrite He.
  destruct (exec_all (issued (monster_body (JObj fields))) d0) as [[[]|x] d']; cbn [fst is_ok].
  - exists e. done.
  - exists x. split; [done | intros [=]].
Qed.

(** ** Stringified and optional columns (X9, X10) *)

(** X9. A column filled with [JSON.stringify] of a field holds NULL exactly when
    the field is absent; any value that is there is stored as its JSON text,
    an explicit null as the four letters of null. *)
Theorem stringified_column (m : mapper) field col d rec v :
  (m, (field, col)) ∈ stringified ->
  m d = Ok rec -> get d field = Ok v ->
  assoc col rec = Some (JSON_stringify v)
  /\ bind (JSON_stringify v) = Ok (stored_text v)
  /\ (stored_text v = SNull <-> v = JUndefined)
  /\ (v = JNull -> stored_text v = SText "null").
Proof.
  intros Hin H Hv.
  assert (Ha : assoc col rec = Some (JSON_stringify v)).
  { unfold stringified in Hin.
    repeat (apply elem_of_cons in Hin as [[= -> -> ->] | Hin]);
      try (by apply elem_of_nil in Hin);
      try apply record_of_build in H;
      unfold monsterRecord, classRecord, raceRecord, spellRecord in *;
      description_of H; unfold stringify_of in H; rewrite Hv in H;
      cbn [fmap result_fmap] in H; congruence. }
  split; [exact Ha|]. split; [by destruct v|]. split; [|by intros ->].
  destruct v; simpl; split; congruence.
Qed.

Ltac column_of H c :=
  let H' := fresh "Hc" in
  pose proof H as H'; eapply (object_assoc _ _ c) in H' as (? & H' & ->); [|reflexivity].

(** X10. The optional fields of an equipment document.  A field copied with
    [|| null] is stored as NULL whenever it is falsy, so a weight of 0 is
    lost; [str_minimum] and [stealth_disadvantage] become NULL only when they
    are absent, so 0 and false are kept; the cost is the quantity and the unit
    with a blank between them, NULL without a cost; without properties the
    column holds the text of the empty array. *)
Theorem equipment_optional_fields fields rec :
  record_of equipment_builder (JObj fields) = Ok rec ->
  (forall c, c ∈ ["weight"; "weapon_category"; "weapon_range"; "category_range";
                  "armor_category"; "capacity"] ->
     assoc c rec = Some (js_or (default JUndefined (assoc c fields)) JNull))
  /\ (forall c, c ∈ ["str_minimum"; "stealth_disadvantage"] ->
        assoc c rec = Some (match assoc c fields with
                            | None | Some JUndefined => JNull
                            | Some v => v
                            end))
  /\ (assoc "weight" fields = Some (JNum 0) -> assoc "weight" rec = Some JNull)
  /\ (assoc "str_minimum" fields = Some (JNum 0) -> assoc "str_minimum" rec = Some (JNum 0))
  /\ (forall q u, assoc "cost" fields = Some (JObj [("quantity", JNum q); ("unit", JStr u)]) ->
        assoc "cost" rec = Some (JStr (dec q ++ " " ++ u)))
  /\ (assoc "cost" fields = None -> assoc "cost" rec = Some JNull)
  /\ (assoc "properties" fields = None -> assoc "properties" rec = Some (JStr "[]")).
Proof.
  intros H. apply record_of_build in H.
  assert (H1 : forall c, c ∈ ["weight"; "weapon_category"; "weapon_range"; "category_range";
                              "armor_category"; "capacity"] ->
             assoc c rec = Some (js_or (default JUndefined (assoc c fields)) JNull)).
  { intros c Hc. repeat (apply elem_of_cons in Hc as [-> | Hc]); try (by apply elem_of_nil in Hc);
      match goal with |- assoc ?k rec = _ => column_of H k end; unfold or_null in *;
      rewrite get_field in *;
      cbn [mbind result_bind] in *; congruence. }
  assert (H2 : forall c, c ∈ ["str_minimum"; "stealth_disadvantage"] ->
             assoc c rec = Some (match assoc c fields with
                                 | None | Some JUndefined => JNull
                                 | Some v => v
                                 end)).
  { intros c Hc. repeat (apply elem_of_cons in Hc as [-> | Hc]); try (by apply elem_of_nil in Hc);
      match goal with |- assoc ?k rec = _ => column_of H k end;
      unfold undefined_to_null in *; rewrite !get_field in *;
      cbn [mbind result_bind] in *;
      match goal with |- context [assoc ?k fields] => destruct (assoc k fields) as [[]|] end;
      cbn [default is_undefined id] in *; congruence. }
  split; [exact H1|]. split; [exact H2|]. split; [|split; [|split; [|split]]].
  - intros Hw. rewrite (H1 "weight") by in_list. by rewrite Hw.
  - intros Hs. rewrite (H2 "str_minimum") by in_list. by rewrite Hs.
  - intros q u Hc. column_of H "cost". rewrite !get_field, Hc in Hc0.
    cbn in Hc0. congruence.
  - intros Hc. column_of H "cost". rewrite !get_field, Hc in Hc0. cbn in Hc0. congruence.
  - intros Hp. column_of H "properties". unfold stringify_of in Hc.
    rewrite !get_field, Hp in Hc. vm_compute in Hc. injection Hc as <-. reflexivity.
Qed.

(** ** The link tables (X11) *)

Lemma for_of_each {A} (xs : list A) (body : A -> W unit) (ss : list stmt) :
  Forall2 (fun x s => body x = mkW [s] (Ok tt)) xs ss ->
  for_of xs body = mkW ss (Ok tt).
Proof.
  induction 1 as [|x s xs ss Hx _ IH]; [done|].
  cbn [for_of]. rewrite Hx, IH. done.
Qed.

Lemma link_loop_issued d idx field t pcol ccol xs names :
  get d "index" = Ok idx -> get d field = Ok (JArr xs) ->
  Forall2 (fun x s => get x "index" = Ok (JStr s)) xs names ->
  link_loop d field t pcol ccol
  = mkW (map (fun s => InsertValues t [pcol; ccol] [idx; JStr s]) names) (Ok tt).
Proof.
  intros Hidx Hf Hall. unfold link_loop. rewrite Hf. cbn [mbind result_bind iterate].
  unfold mbind at 1, W_bind at 1. cbn [pure outcome issued app].
  erewrite for_of_each; [done|]. clear Hf.
  induction Hall as [|x s xs names Hx _ IH]; [constructor|].
  cbn [map]. constructor; [|exact IH]. by rewrite Hidx, Hx.
Qed.

Lemma link_loop_other d field t pcol ccol t' u :
  t <> t' -> outcome (link_loop d field t pcol ccol) = Ok u ->
  inserts_into t' (issued (link_loop d field t pcol ccol)) = [].
Proof.
  intros Hne H. apply inserts_into_other. unfold link_loop in *. w_pure H xs Hxs. destruct u.
  apply for_of_issued; [done|]. intros x u _ Hx.
  w_pure Hx i Hi. w_pure Hx c Hc. cbn. constructor; [|done].
  by apply String.eqb_neq.
Qed.

Lemma inserted_cons s ss :
  inserted (s :: ss)
  = match stmt_row s with Ok (_, r) => r :: inserted ss | Err _ => inserted ss end.
Proof. unfold inserted. simpl. by destruct (stmt_row s) as [[? ?]|]. Qed.

Lemma exec_inserts_rows c ss d d' :
  forallb is_insert ss = true -> exec_all ss d = (Ok tt, d') ->
  rows_of d' c = (rows_of d c ++ inserted (inserts_into c ss))%list.
Proof.
  revert d. induction ss as [|s ss IH]; intros d Hins H.
  - injection H as <-. by rewrite app_nil_r.
  - cbn [forallb] in Hins. apply andb_prop in Hins as [Hs Hins].
    cbn [exec_all] in H. destruct (exec s d) as [d1|] eqn:Es; [|done].
    rewrite (IH d1 Hins H). rewrite inserts_into_cons.
    rewrite exec_insert in Es by (by destruct s).
    destruct (stmt_row s) as [[sch r]|] eqn:Er; [|done]. cbn [mbind result_bind] in Es.
    destruct (insert_row sch r (rows_of d (stmt_table s))) as [tbl|] eqn:Ei; [|done].
    cbn [mbind result_bind] in Es. injection Es as <-.
    apply insert_row_inv in Ei as [-> _]. rewrite rows_of_insert.
    assert (Hi : inserts c s = bool_decide (stmt_table s = c)).
    { destruct s; try done; cbn; apply eqb_decide. }
    rewrite Hi. case_bool_decide as Hc.
    + rewrite decide_True by done. subst c. rewrite inserted_cons, Er.
      by rewrite <- (assoc_L (++)).
    + by rewrite decide_False.
Qed.

Lemma deletes_keep_empty c idx (cps : list (string * string)) d :
  rows_of d c = [] ->
  forall d', exec_all (map (fun cp => DeleteWhere (fst cp) (snd cp) idx) cps) d = (Ok tt, d') ->
  rows_of d' c = [].
Proof.
  revert d. induction cps as [|cp cps IH]; intros d Hd d' H.
  - by injection H as <-.
  - cbn [map exec_all] in H. destruct (exec _ d) as [d1|] eqn:E; [|done].
    apply (IH d1); [|done]. unfold exec, with_table in E.
    destruct (schema_of (fst cp)); [|done]. destruct (bind idx) as [v|]; [|done].
    cbn [mbind result_bind] in E. case_bool_decide; [|done]. injection E as <-.
    rewrite rows_of_insert. case_decide as Hc; [|done]. subst c. rewrite Hd.
    unfold delete_rows. by destruct (is_null v).
Qed.

Lemma child_inserts_are_inserts D idx ss :
  Forall (child_insert D idx) ss -> forallb is_insert ss = true.
Proof.
  induction 1 as [|s ss Hs _ IH]; [done|]. cbn [forallb]. rewrite IH, andb_true_r.
  by destruct s.
Qed.

(** What a committed item leaves in a child table of an empty store: the
    rows of its inserts, in the order they were sent. *)
Lemma snapshot_child_rows D idx ss e c pcol :
  descriptor_ok D = true -> snapshot_script D idx ss -> (c, pcol) ∈ child_tables D ->
  exec_all ss ∅ = (Ok tt, e) ->
  rows_of e c = inserted (inserts_into c ss).
Proof.
  intros HD (sch & params & ins & Hs & -> & Hins) Hc H.
  destruct (child_schema D HD c pcol Hc) as (_ & _ & _ & _ & Hne & _).
  cbn [exec_all] in H. unfold upsert_sql in H. rewrite exec_upsert in H.
  destruct (stmt_row _) as [[sch' r]|]; [|done]. cbn [mbind result_bind] in H.
  rewrite exec_all_app in H.
  destruct (exec_all (deletes D idx) _) as [[[]|] d2] eqn:Ed; [|done].
  apply (deletes_keep_empty c) in Ed.
  2:{ rewrite rows_of_insert, decide_False by done. done. }
  rewrite (exec_inserts_rows c ins d2 e (child_inserts_are_inserts _ _ _ Hins) H), Ed.
  rewrite inserts_into_cons. cbn [inserts upsert_sql]. rewrite inserts_into_app.
  rewrite (inserts_into_other c (deletes D idx)); [done|].
  unfold deletes. apply Forall_forall. intros s (cp & -> & _)%list_elem_of_fmap. done.
Qed.

Lemma link_rows_inserted t pcol ccol idx p names :
  schema_of t = Some (link true pcol ccol []) ->
  pcol <> ccol -> bind idx = Ok p -> p <> SNull ->
  inserted (map (fun s => InsertValues t [pcol; ccol] [idx; JStr s]) names)
  = map (fun s => [(pcol, p); (ccol, SText s)]) names.
Proof.
  intros Hs Hne Hb Hp. induction names as [|s names IH]; [done|].
  cbn [map]. rewrite inserted_cons, IH. cbn [stmt_row]. rewrite Hs.
  cbn [rmap mbind result_bind bind]. rewrite Hb. cbn [mbind result_bind].
  unfold make_row. cbn [length Nat.eqb negb link columns not_null List.find].
  rewrite !bool_decide_eq_true_2 by set_solver. cbn [negb zip zip_with map assoc].
  rewrite !String.eqb_refl. cbn [default].
  destruct (String.eqb_spec ccol pcol) as [->|_]; [done|]. cbn [default].
  unfold row_get. cbn [assoc]. rewrite !String.eqb_refl.
  destruct (String.eqb_spec ccol pcol) as [->|_]; [done|]. cbn [default is_null].
  destruct p; done.
Qed.

Ltac link_pre H :=
  let record := fresh "record" in let Hrec := fresh "Hrec" in
  let u := fresh "u" in let Hu := fresh "Hu" in
  w_pure H record Hrec; w_step H u Hu; cbn [queryAsync issued].

Ltac link_step H := let l := fresh "l" in let Hl := fresh "Hl" in w_step H l Hl.

Ltac link_post idx Hidx Hf Hall :=
  cbn [app]; rewrite !inserts_into_cons;
  cbn [inserts profQuery raceQuery spellQuery traitQuery upsert_sql];
  rewrite ?inserts_into_app;
  repeat match goal with
    | Ho : outcome (link_loop ?d ?f ?t0 ?p ?c) = Ok _
      |- context [inserts_into ?t (issued (link_loop ?d ?f ?t0 ?p ?c))] =>
        first [ rewrite (link_loop_other d f t0 p c t _ ltac:(done) Ho)
              | rewrite (link_loop_issued d idx f t0 p c _ _ Hidx Hf Hall) ]
    end;
  cbn [issued app]; rewrite ?app_nil_r;
  apply filter_all; apply Forall_forall;
  let s := fresh "s" in let x := fresh "x" in
  intros s (x & -> & _)%list_elem_of_fmap; reflexivity.

Lemma link_loop_inserts D body field table pcol ccol doc idx xs names :
  (D, (body, (field, (table, (pcol, ccol))))) ∈ link_loops ->
  outcome (body doc) = Ok tt ->
  get doc "index" = Ok idx -> get doc field = Ok (JArr xs) ->
  Forall2 (fun x s => get x "index" = Ok (JStr s)) xs names ->
  inserts_into table (issued (body doc))
  = map (fun s => InsertValues table [pcol; ccol] [idx; JStr s]) names.
Proof.
  intros Hin H Hidx Hf Hall. unfold link_loops in Hin.
  repeat (apply elem_of_cons in Hin as [[= -> -> -> -> -> ->] | Hin]);
    try (by apply elem_of_nil in Hin);
    unfold proficiency_body, race_body, spell_body, trait_body in *.
  - link_pre H; do 2 (w_delete H idx Hidx); do 1 (link_step H); link_post idx Hidx Hf Hall.
  - link_pre H; do 2 (w_delete H idx Hidx); do 1 (link_step H); link_post idx Hidx Hf Hall.
  - link_pre H; do 3 (w_delete H idx Hidx); do 2 (link_step H); link_post idx Hidx Hf Hall.
  - link_pre H; do 3 (w_delete H idx Hidx); do 2 (link_step H); link_post idx Hidx Hf Hall.
  - link_pre H; do 3 (w_delete H idx Hidx); do 2 (link_step H); link_post idx Hidx Hf Hall.
  - link_pre H; do 2 (w_delete H idx Hidx); do 1 (link_step H); link_post idx Hidx Hf Hall.
  - link_pre H; do 2 (w_delete H idx Hidx); do 1 (link_step H); link_post idx Hidx Hf Hall.
  - link_pre H; do 3 (w_delete H idx Hidx); do 2 (link_step H); link_post idx Hidx Hf Hall.
  - link_pre H; do 3 (w_delete H idx Hidx); do 2 (link_step H); link_post idx Hidx Hf Hall.
  - link_pre H; do 3 (w_delete H idx Hidx); do 2 (link_step H); link_post idx Hidx Hf Hall.
Qed.

Lemma link_row_key pcol ccol p s :
  pcol <> ccol -> p <> SNull ->
  key_of (link true pcol ccol []) [(pcol, p); (ccol, SText s)] = Some [p; SText s].
Proof.
  intros Hne Hp. unfold key_of, row_get. cbn [link unique_key map assoc].
  rewrite !String.eqb_refl. destruct (String.eqb_spec ccol pcol) as [->|_]; [done|].
  cbn [default existsb is_null]. by destruct p.
Qed.

Lemma link_rows_unique pcol ccol p names :
  pcol <> ccol -> p <> SNull ->
  unique_rows (link true pcol ccol []) (map (fun s => [(pcol, p); (ccol, SText s)]) names) = true ->
  NoDup names.
Proof.
  intros Hne Hp. induction names as [|s names IH]; [constructor|].
  cbn [map unique_rows]. intros [Hx Hu]%andb_true_iff. constructor; [|by apply IH].
  intros Hin. apply negb_true_iff in Hx. rewrite <- not_true_iff_false in Hx. apply Hx.
  apply existsb_exists. exists [(pcol, p); (ccol, SText s)]. split.
  - apply in_map_iff. exists s. split; [done | by apply list_elem_of_In].
  - unfold conflicts. rewrite link_row_key by done. by apply bool_decide_eq_true.
Qed.

Lemma link_loops_shaped D body field table pcol ccol :
  (D, (body, (field, (table, (pcol, ccol))))) ∈ link_loops ->
  descriptor_ok D = true /\ (forall doc, shaped D doc (body doc))
  /\ (table, pcol) ∈ child_tables D
  /\ schema_of table = Some (link true pcol ccol []) /\ pcol <> ccol.
Proof.
  intros Hin. unfold link_loops in Hin.
  repeat (apply elem_of_cons in Hin as [[= -> -> -> -> -> ->] | Hin]);
    try (by apply elem_of_nil in Hin);
    (split; [reflexivity|]; split;
     [intros doc;
      first [ exact (proficiency_body_script doc) | exact (race_body_script doc)
            | exact (spell_body_script doc) | exact (trait_body_script doc) ]
     | split; [in_list | split; [reflexivity | done]]]).
Qed.

(** X11. For the link tables of proficiencies, races, spells and traits: when the
    transaction of an item commits, the rows the table holds under the item's
    key are the entries of the document's array, one row per entry, in
    document order; and the entries were distinct. *)
Theorem link_rows_follow_document D body field table pcol ccol doc d d' idx xs names :
  (D, (body, (field, (table, (pcol, ccol))))) ∈ link_loops ->
  wf_db d ->
  transaction (body doc) d = (Ok tt, d') ->
  get doc "index" = Ok idx ->
  get doc field = Ok (JArr xs) ->
  Forall2 (fun x s => get x "index" = Ok (JStr s)) xs names ->
  filter (fun r => row_get r pcol = key_val idx) (rows_of d' table)
  = map (fun s => [(pcol, key_val idx); (ccol, SText s)]) names
  /\ NoDup names.
Proof.
  intros Hin Hd Ht Hidx Hf Hall.
  destruct (link_loops_shaped _ _ _ _ _ _ Hin) as (HD & Hsh & Hc & Hs & Hne).
  pose proof (transaction_snapshot D doc (body doc) d HD Hd (Hsh doc)) as H.
  destruct (transaction (body doc) ∅) as [[[]|x] e] eqn:Ee.
  2:{ destruct H as [x' H]. congruence. }
  destruct H as (H1 & Hf' & Hwf & idx' & Hidx' & Hb & Hn).
  assert (idx' = idx) as -> by congruence.
  assert (Hk : key_val idx = snapshot_key D e) by (unfold key_val; by rewrite Hb).
  rewrite H1 in Ht. injection Ht as <-.
  assert (Ho : outcome (body doc) = Ok tt /\ exec_all (issued (body doc)) ∅ = (Ok tt, e)).
  { unfold transaction, run in Ee.
    destruct (exec_all (issued (body doc)) ∅) as [[[]|] e0]; [|done].
    destruct (outcome (body doc)) as [[]|]; [|done]. by injection Ee as <-. }
  destruct Ho as [Ho He].
  destruct (Hsh doc Ho) as (idx' & Hidx2 & Hss). assert (idx' = idx) as -> by congruence.
  assert (Hrows : rows_of e table = map (fun s => [(pcol, key_val idx); (ccol, SText s)]) names).
  { rewrite (snapshot_child_rows D idx _ e table pcol HD Hss Hc He).
    rewrite (link_loop_inserts _ _ _ _ _ _ _ _ _ _ Hin Ho Hidx Hf Hall).
    apply (link_rows_inserted table pcol ccol idx (key_val idx) names Hs Hne);
      rewrite Hk; [exact Hb | exact Hn]. }
  assert (Hfil : filter (fun r => row_get r pcol = key_val idx)
                   (rows_of (overlay D (snapshot_key D e) e d) table) = rows_of e table).
  { destruct Hf' as (Hown & Hdom & _ & _). destruct (Hdom table pcol Hc) as [X HX].
    destruct (child_schema D HD table pcol Hc) as (_ & _ & _ & _ & Hnp & Ha).
    rewrite rows_of_overlay, HX. unfold combine.
    rewrite bool_decide_eq_false_2 by done. rewrite Ha.
    unfold rows_of at 2. rewrite HX. cbn [default]. rewrite Hk.
    apply filter_repl_same. by eapply Hown. }
  split; [by rewrite Hfil, Hrows|].
  (* the rows are in a table with a unique key *)
  pose proof (wf_db_rows _ table _ Hwf Hs) as Hw.
  apply andb_true_iff in Hw as [_ Hu].
  assert (Hu' : unique_rows (link true pcol ccol [])
                  (filter (fun r => row_get r pcol = key_val idx)
                     (rows_of (overlay D (snapshot_key D e) e d) table)) = true)
    by (by apply unique_rows_filter).
  rewrite Hfil, Hrows, Hk in Hu'. by apply (link_rows_unique pcol ccol (snapshot_key D e)).
Qed.

(** ** The statements of a body, whatever its outcome *)

Lemma W_bind_all {A B} (P : stmt -> Prop) (m : W A) (k : A -> W B) :
  Forall P (issued m) -> (forall a, outcome m = Ok a -> Forall P (issued (k a))) ->
  Forall P (issued (m ≫= k)).
Proof.
  intros Hm Hk. unfold mbind, W_bind. destruct (outcome m) as [a|e]; simpl; [|done].
  apply Forall_app. split; [done|]. by apply Hk.
Qed.

Lemma for_of_all {A} (P : stmt -> Prop) (xs : list A) (body : A -> W unit) :
  (forall x, Forall P (issued (body x))) -> Forall P (issued (for_of xs body)).
Proof.
  intros Hb. induction xs as [|x xs IH]; simpl; [constructor|].
  apply W_bind_all; [apply Hb | by intros].
Qed.

Lemma for_of_with_all {A S} (P : stmt -> Prop) (xs : list A) (s : S) (body : S -> A -> W S) :
  (forall s x, Forall P (issued (body s x))) -> Forall P (issued (for_of_with xs s body)).
Proof.
  intros Hb. revert s. induction xs as [|x xs IH]; intros s; simpl; [constructor|].
  apply W_bind_all; [apply Hb | intros; apply IH].
Qed.

Lemma object_keys fields rec : object fields = Ok rec -> map fst rec = map fst fields.
Proof.
  revert rec. induction fields as [|[k r] fields IH]; intros rec.
  - by intros [= <-].
  - intros H. apply object_cons in H as (v & vs & -> & Hvs & ->). simpl. f_equal. by apply IH.
Qed.

(** ** The answer and the store (X13) *)

(** A property of the two kinds of sync holds of every endpoint. *)
Lemma endpoints_cases
  (P : descriptor -> (remote -> gmap string (list row) -> response * gmap string (list row))
       -> Prop) :
  (forall D label resource item,
     descriptor_ok D = true -> shaped_item D item -> P D (enriched_sync label resource item)) ->
  (forall t resourceName b,
     descriptor_ok (generic_desc t) = true -> upsert_builder t b ->
     P (generic_desc t) (generic_run resourceName t b)) ->
  forall path D sync, (path, (D, sync)) ∈ endpoints -> P D sync.
Proof.
  intros He Hg.
  assert (Forall (fun e => P (fst (snd e)) (snd (snd e))) endpoints) as Hall.
  { pose proof builders_upsert as Hb. unfold generic_endpoints in Hb.
    repeat (apply Forall_cons in Hb as [? Hb]). cbn [fst snd] in *. clear Hb.
    unfold endpoints, syncClasses, syncMonsters, syncProficiencies, syncRaces, syncSpells,
      syncSubclasses, syncTraits.
    repeat (apply Forall_cons; split;
            [cbn [fst snd];
             first [ by apply Hg
                   | apply He; [reflexivity|];
                     first [ exact class_item_shaped | exact subclass_item_shaped
                           | exact (body_item_shaped _ _ monster_body_script)
                           | exact (body_item_shaped _ _ proficiency_body_script)
                           | exact (body_item_shaped _ _ race_body_script)
                           | exact (body_item_shaped _ _ spell_body_script)
                           | exact (body_item_shaped _ _ trait_body_script) ] ]
            |]).
    constructor. }
  intros path D sync Hin. rewrite Forall_forall in Hall. apply (Hall _ Hin).
Qed.

Lemma enriched_loop_same D item net eps d1 d2 :
  descriptor_ok D = true -> shaped_item D item -> wf_db d1 -> wf_db d2 ->
  is_ok (fst (enriched_loop item net eps d1))
  = is_ok (fst (enriched_loop item net eps d2)).
Proof.
  intros HD Hitem. revert d1 d2. induction eps as [|entry rest IH]; intros d1 d2 H1 H2.
  - done.
  - simpl. destruct (entry_body item net entry) as [body|x] eqn:Eb; [|done].
    assert (exists doc, shaped D doc body) as [doc Hb].
    { unfold entry_body in Eb.
      do 3 (apply bind_result_inv in Eb as (? & _ & Eb)). eexists. eapply Hitem, Eb. }
    pose proof (transaction_snapshot D doc body d1 HD H1 Hb) as T1.
    pose proof (transaction_snapshot D doc body d2 HD H2 Hb) as T2.
    destruct (transaction body ∅) as [[[]|x] e].
    + destruct T1 as (-> & _ & W1 & _). destruct T2 as (-> & _ & W2 & _). by apply IH.
    + destruct T1 as (x1 & ->). destruct T2 as (x2 & ->). done.
Qed.

Lemma enriched_answer D label resource item :
  descriptor_ok D = true -> shaped_item D item ->
  answer_of_remote (enriched_sync label resource item).
Proof.
  intros HD Hitem net d1 d2 H1 H2. unfold enriched_sync, same_answer.
  destruct (listing net resource) as [[endpoints items]|]; [|done].
  pose proof (enriched_loop_same D item net items d1 d2 HD Hitem H1 H2) as Hs.
  destruct (enriched_loop item net items d1) as [[[]|x1] d1'];
    destruct (enriched_loop item net items d2) as [[[]|x2] d2']; simpl in Hs; try done.
  simpl. by destruct (get endpoints "length").
Qed.

Lemma issue_promises_same t b name doc rec q st1 st2 :
  upsert_builder t b -> b doc = Ok (rec, q) ->
  queryPromises st1 = queryPromises st2 ->
  queryPromises (issue name rec q st1) = queryPromises (issue name rec q st2).
Proof.
  intros Hb Hq Hp. destruct (Hb _ _ _ Hq) as (sch & idx & vs & Hs & -> & ->).
  unfold issue, upsert_sql. rewrite !exec_upsert.
  destruct (stmt_row _) as [[sch' r]|x]; simpl; by rewrite Hp.
Qed.

Lemma generic_loop_same t name b net items st1 st2 :
  upsert_builder t b -> queryPromises st1 = queryPromises st2 ->
  fst (generic_loop name b net items st1) = fst (generic_loop name b net items st2)
  /\ queryPromises (snd (generic_loop name b net items st1))
     = queryPromises (snd (generic_loop name b net items st2)).
Proof.
  intros Hb. revert st1 st2. induction items as [|item rest IH]; intros st1 st2 Hp.
  - done.
  - simpl. destruct (get item "url") as [url|]; [|done].
    destruct (fetch net _) as [doc|]; [|done]. simpl.
    destruct (b doc) as [[rec q]|] eqn:Eb; [|done]. simpl.
    apply IH. by eapply issue_promises_same.
Qed.

Lemma generic_answer t resourceName b :
  upsert_builder t b -> answer_of_remote (generic_run resourceName t b).
Proof.
  intros Hb net d1 d2 _ _. unfold generic_run, syncResource. cbn [fst].
  destruct (generic_listing net resourceName) as [items|]; [|done]. cbv zeta.
  match goal with |- context [generic_loop ?n ?b ?net ?items ?st] =>
    match goal with |- context [generic_loop n b net items ?st'] =>
      lazymatch st' with st => fail | _ =>
        destruct (generic_loop_same t n b net items st st' Hb eq_refl) as [E1 E2] end end end.
  destruct (generic_loop _ _ _ _ _) as [r1 s1], (generic_loop _ _ _ _ _) as [r2 s2].
  simpl in E1, E2. subst r2. destruct r1; [|done]. simpl. rewrite E2.
  by destruct (Promise_all _).
Qed.

Lemma endpoint_answer path D sync :
  (path, (D, sync)) ∈ endpoints -> answer_of_remote sync.
Proof.
  apply (endpoints_cases (fun _ sync => answer_of_remote sync)).
  - intros. by eapply enriched_answer.
  - intros. by eapply generic_answer.
Qed.

(** X13. Whether a sync succeeds, and what it answers when it does, depends on
    the remote source only, not on what the store holds: a sync that fails
    fails again when it is retried against the same remote data, whatever
    the syncs in between have stored. *)
Theorem answer_independent_of_store path D sync net d1 d2 :
  (path, (D, sync)) ∈ endpoints -> wf_db d1 -> wf_db d2 ->
  success (fst (sync net d1)) = success (fst (sync net d2))
  /\ status (fst (sync net d1)) = status (fst (sync net d2))
  /\ (success (fst (sync net d1)) = true -> fst (sync net d1) = fst (sync net d2)).
Proof. intros Hin. by apply (endpoint_answer _ _ _ Hin). Qed.

(** ** What a success has stored (X14) *)

Lemma applys_keeps_keys D es d k :
  Forall (fresh D) es ->
  k ∈ map (fun r => row_get r "index") (rows_of d (parent_table D)) ->
  k ∈ map (fun r => row_get r "index") (rows_of (applys D es d) (parent_table D)).
Proof.
  intros Hall Hk. rewrite rows_of_applys.
  destruct (table_after_parent_news D es Hall) as [news ->].
  destruct (puts_keys_prefix (pkey "index") news (rows_of d (parent_table D))) as [added Ha].
  unfold pkey in *. rewrite Ha. set_solver.
Qed.

Lemma overlay_has_key D e d :
  fresh D e ->
  snapshot_key D e
  ∈ map (fun r => row_get r "index") (rows_of (overlay D (snapshot_key D e) e d) (parent_table D)).
Proof.
  intros (_ & _ & (psch & new & _ & Hnew & _ & Hp) & _).
  rewrite rows_of_overlay, Hnew. unfold combine. rewrite bool_decide_eq_true_2 by done.
  cbn [puts foldl]. rewrite <- Hp at 1. apply (put_key_in (pkey "index")).
Qed.

Lemma enriched_loop_stores D item net eps d d' :
  descriptor_ok D = true -> shaped_item D item -> wf_db d ->
  enriched_loop item net eps d = (Ok tt, d') ->
  Forall (stored net (parent_table D) d') eps.
Proof.
  intros HD Hitem. revert d. induction eps as [|entry rest IH]; intros d Hd; [constructor|].
  simpl. destruct (entry_body item net entry) as [body|x0] eqn:Eb; [|done].
  unfold entry_body in Eb.
  apply bind_result_inv in Eb as (nm & _ & Eb).
  apply bind_result_inv in Eb as (url & Hurl & Eb).
  apply bind_result_inv in Eb as (doc & Hdoc & Eb).
  pose proof (transaction_snapshot D doc body d HD Hd (Hitem _ _ _ Eb)) as T.
  destruct (transaction body ∅) as [[[]|x] e].
  - destruct T as (-> & Hf & Hwf & idx & Hidx & Hbind & Hnn). intros Hloop.
    constructor; [|by eapply IH].
    exists url, doc, idx. unfold key_val. rewrite Hbind. do 4 (split; [done|]).
    destruct (enriched_loop_plan D item net rest _ HD Hitem Hwf) as (Hsnd & Hall & _).
    rewrite Hloop in Hsnd. simpl in Hsnd. rewrite Hsnd.
    apply applys_keeps_keys; [done|]. by apply overlay_has_key.
  - destruct T as (x' & ->). done.
Qed.

Lemma Promise_all_app ps qs :
  Promise_all (ps ++ qs) = Ok tt -> Promise_all ps = Ok tt /\ Promise_all qs = Ok tt.
Proof.
  induction ps as [|[[]|x] ps IH]; simpl; [done| |done]. apply IH.
Qed.

Lemma generic_loop_promises name b net items st :
  exists more, queryPromises (snd (generic_loop name b net items st))
               = (queryPromises st ++ more)%list.
Proof.
  revert st. induction items as [|item rest IH]; intros st.
  - exists []. by rewrite app_nil_r.
  - simpl. destruct (get item "url") as [url|]; [|exists []; by rewrite app_nil_r].
    destruct (fetch net _) as [doc|]; [|exists []; by rewrite app_nil_r]. simpl.
    destruct (b doc) as [[rec q]|]; [|exists []; by rewrite app_nil_r]. simpl.
    match goal with |- context [generic_loop _ _ _ _ ?s] => destruct (IH s) as [more Hm] end.
    rewrite Hm, issue_promises. cbn [queryPromises logged].
    eexists. by rewrite <- (assoc_L (++)).
Qed.

Lemma builders_index :
  Forall (fun e => descriptor_ok (generic_desc (fst (snd e))) = true
                   /\ upsert_builder (fst (snd e)) (snd (snd e))
                   /\ index_first (snd (snd e))) generic_endpoints.
Proof.
  pose proof builders_upsert as Hb. unfold generic_endpoints in Hb |- *.
  repeat (apply Forall_cons in Hb as [? Hb]). cbn [fst snd] in *. clear Hb.
  repeat (apply Forall_cons; split;
          [cbn [fst snd]; split; [reflexivity|]; split; [done|];
           let H := fresh in
           intros doc rec q H; apply build_inv in H as [H ->];
           apply object_cons in H as (? & ? & ? & _ & ->); eauto |]).
  constructor.
Qed.

Lemma generic_loop_stores t name b net items st st' :
  descriptor_ok (generic_desc t) = true -> upsert_builder t b -> index_first b ->
  wf_db (conn st) ->
  generic_loop name b net items st = (Ok tt, st') ->
  (exists pre, queryPromises st' = (queryPromises st ++ pre)%list /\ Promise_all pre = Ok tt) ->
  Forall (stored net t (conn st')) items.
Proof.
  intros HD Hb Hi. revert st. induction items as [|item rest IH]; intros st Hd; [constructor|].
  simpl. destruct (get item "url") as [url|] eqn:Hurl; [|done].
  destruct (fetch net _) as [doc|] eqn:Hdoc; [|done]. simpl.
  destruct (b doc) as [[rec q]|] eqn:Eb; [|done]. simpl.
  set (st1 := logged _ st). intros Hloop (pre & Hpre & Hall).
  assert (wf_db (conn st1)) as Hd1 by done.
  pose proof (issue_snapshot t b doc rec q name st1 HD Hb Hd1 Eb) as [Hs Hwf].
  pose proof (generic_loop_promises name b net rest (issue name rec q st1)) as [more Hm].
  rewrite Hloop in Hm. cbn [snd] in Hm. rewrite issue_promises in Hm.
  change (queryPromises st1) with (queryPromises st) in Hm.
  rewrite Hpre, <- (assoc_L (++)) in Hm. apply app_inv_head in Hm. subst pre.
  apply (Promise_all_app [_] more) in Hall as [H1 H2].
  constructor.
  - destruct (Hi _ _ _ Eb) as (idx & vs & Hidx & Hrec).
    destruct (Hb _ _ _ Eb) as (sch & idx' & vs' & Hsch & Hq & Hrec').
    assert (snapshot_script (generic_desc t) idx [q (Object_values rec)]) as Hss.
    { exists sch, (Object_values vs), []. split; [done|]. rewrite Hq, Hrec.
      split; [done | constructor]. }
    destruct (snapshot_exec _ idx _ (conn st) HD Hd Hss) as [X1 X2].
    cbn [exec_all] in X1, X2.
    unfold settles in H1. cbn [fst snd Promise_all] in H1.
    change (conn st1) with (conn st) in H1.
    destruct (exec (q (Object_values rec)) (conn st)) as [d1|x] eqn:E1; [|done].
    destruct (exec (q (Object_values rec)) ∅) as [e|x] eqn:E0; [|done]. cbn [fst snd] in *.
    specialize (X2 e eq_refl). destruct Hs as [Hs Hf].
    pose proof (fresh_ok_key _ _ _ X2) as Hk.
    exists url, doc, idx. do 3 (split; [done|]). rewrite <- Hk. split.
    + rewrite Hk. destruct X2 as (_ & _ & (psch & new & Hps & _ & Hw & Hp) & _).
      destruct (parent_schema _ HD) as (psch' & rest' & Hs' & _ & _ & Hn & _).
      assert (psch' = psch) as -> by congruence.
      apply wf_row_inv in Hw as [_ Hw]. specialize (Hw "index" Hn). by rewrite Hp in Hw.
    + destruct (generic_loop_plan t name b net rest (issue name rec q st1) HD Hb Hwf)
        as (Hsnd & Hfr & _).
      rewrite Hloop in Hsnd. cbn [snd] in Hsnd. rewrite Hsnd, Hs.
      apply (applys_keeps_keys (generic_desc t)); [done|].
      by apply (overlay_has_key (generic_desc t)).
  - eapply IH; [exact Hwf | exact Hloop |].
    exists more. split; [|done]. rewrite issue_promises.
    change (queryPromises st1) with (queryPromises st).
    by rewrite <- (assoc_L (++)).
Qed.

(** X14. A sync that answers with success has stored every entry of the list: for
    each entry, the parent table holds a row whose [index] is the index of
    the entry's detail document, and that index is not NULL. *)
Theorem success_stores_every_item :
  (forall D item label resource net d d' r endpoints items,
     (D, item) ∈ enriched_resources -> wf_db d ->
     listing net resource = Ok (endpoints, items) ->
     enriched_sync label resource item net d = (r, d') -> success r = true ->
     Forall (stored net (parent_table D) d') items)
  /\ (forall name t b net d r st items,
        (name, (t, b)) ∈ generic_endpoints -> wf_db d ->
        generic_listing net name = Ok items ->
        syncResource name t b net d = (r, st) -> success r = true ->
        Forall (stored net t (conn st)) items).
Proof.
  split.
  - intros D item label resource net d d' r endpoints items Hin Hd Hl Hs Hr.
    pose proof enriched_shaped as Hall. rewrite Forall_forall in Hall.
    destruct (Hall _ Hin) as [HD Hitem]. cbn [fst snd] in *.
    unfold enriched_sync in Hs. rewrite Hl in Hs.
    destruct (enriched_loop item net items d) as [[[]|x] d1] eqn:El.
    + destruct (get endpoints "length"); injection Hs as <- <-; [|done].
      by eapply enriched_loop_stores.
    + injection Hs as <- <-. done.
  - intros name t b net d r st items Hin Hd Hl Hs Hr.
    pose proof builders_index as Hall. rewrite Forall_forall in Hall.
    destruct (Hall _ Hin) as (HD & Hb & Hi). cbn [fst snd] in *.
    unfold syncResource in Hs. rewrite Hl in Hs. cbv zeta in Hs.
    match type of Hs with context [generic_loop ?n ?b ?net ?items ?st0] =>
      destruct (generic_loop n b net items st0) as [[[]|x] st1] eqn:El end.
    + destruct (Promise_all (queryPromises st1)) as [a|] eqn:Hp; injection Hs as <- <-; [|done].
      cbn [conn logged].
      eapply (generic_loop_stores t); [exact HD | exact Hb | exact Hi | | exact El |];
        [exact Hd|].
      exists (queryPromises st1). split; [done|]. by destruct a.
    + injection Hs as <- <-. done.
Qed.

(** ** The control panel (X15, X16) *)

Section PageFacts.

Context {B : Type}.
Variable serve : string -> B -> reply * B.
Variable time_at : nat -> string.
Variable round_percent : nat -> nat -> Z.

Lemma performSync_eq path w :
  performSync serve time_at path w =
  let r := fst (serve (sync_url path) (backend w)) in
  let pg := waiting_page (time_at (clock w)) path (document w) in
  (accepted r,
   {| document := on_button path (set_waiting false)
               (appendChild (line (time_at (S (clock w))) (result_line path r)) pg);
      backend := snd (serve (sync_url path) (backend w));
      clock := S (S (clock w));
      requested := (requested w ++ [(sync_url path, (pg, r))])%list |}).
Proof.
  unfold performSync, request, accepted, result_line, waiting_page, logStatus, on_page,
    line. cbn [document backend clock requested fst snd].
  destruct (serve (sync_url path) (backend w)) as [r s]. cbn [fst snd].
  by destruct (try_sync r).
Qed.

Lemma sync_all_loop_requests n rest sc w :
  exists tr,
    requested (snd (sync_all_loop serve time_at round_percent n rest sc w))
    = (requested w ++ tr)%list
    /\ map fst tr = map sync_url (take (length tr) rest)
    /\ (map (fun x => snd (snd x)) tr,
        backend (snd (sync_all_loop serve time_at round_percent n rest sc w)))
       = served serve (map fst tr) (backend w)
    /\ (forall i x, tr !! i = Some x -> S i < length tr -> accepted (snd (snd x)) = true)
    /\ if all_accepted tr
       then length tr = length rest
            /\ fst (sync_all_loop serve time_at round_percent n rest sc w) = sc + length rest
       else fst (sync_all_loop serve time_at round_percent n rest sc w) < sc + length rest
            /\ exists t,
                 last (statusPanel
                         (document (snd (sync_all_loop serve time_at round_percent n rest sc w))))
                 = Some (aborted_line t).
Proof.
  revert sc w. induction rest as [|path rest IH]; intros sc w.
  - exists []. cbn. rewrite app_nil_r. repeat split; [done | lia].
  - cbn [sync_all_loop]. rewrite performSync_eq. cbv zeta.
    destruct (serve (sync_url path) (backend w)) as [r s] eqn:Es. cbn [fst snd].
    destruct (accepted r) eqn:Ea.
    + match goal with |- context [sync_all_loop _ _ _ _ _ _ ?w1] =>
        destruct (IH (S sc) w1) as (tr & H1 & H2 & H3 & H4 & H5) end.
      exists ((sync_url path, (waiting_page (time_at (clock w)) path (document w), r)) :: tr).
      split; [|split; [|split; [|split]]].
      * rewrite H1. cbn [requested on_page]. by rewrite <- (assoc_L (++)).
      * cbn. by rewrite H2.
      * cbn [map fst snd served]. rewrite Es. cbn [backend on_page] in H3.
        by rewrite <- H3.
      * intros [|i] x Hx Hi; cbn in Hx.
        -- by injection Hx as <-.
        -- apply (H4 i x Hx). cbn in Hi. lia.
      * unfold all_accepted in *. cbn [forallb fst snd]. rewrite Ea. cbn [andb].
        destruct (forallb _ tr).
        -- destruct H5 as [H5 H6]. cbn [length]. split; [by rewrite H5 | lia].
        -- destruct H5 as [H5 H6]. cbn [length]. split; [lia | done].
    + exists [(sync_url path, (waiting_page (time_at (clock w)) path (document w), r))].
      split; [done|]. split; [done|]. split; [by cbn; rewrite Es|].
      split; [intros i x _ Hi; cbn in Hi; lia|].
      unfold all_accepted. cbn [forallb fst snd]. rewrite Ea. cbn [andb length].
      split; [lia|]. eexists. unfold logStatus. cbn [document statusPanel appendChild].
      by rewrite last_snoc.
Qed.

Lemma handleSyncAll_requests w :
  exists tr,
    requested (handleSyncAll serve time_at round_percent w) = (requested w ++ tr)%list
    /\ map fst tr
       = map sync_url (take (length tr) (map dataset_path (allButtons (document w))))
    /\ (map (fun x => snd (snd x)) tr, backend (handleSyncAll serve time_at round_percent w))
       = served serve (map fst tr) (backend w)
    /\ (forall i x, tr !! i = Some x -> S i < length tr -> accepted (snd (snd x)) = true)
    /\ (all_accepted tr = true -> length tr = length (allButtons (document w)))
    /\ exists t,
         last (statusPanel (document (handleSyncAll serve time_at round_percent w)))
         = Some (if all_accepted tr then completed_line t else aborted_line t).
Proof.
  unfold handleSyncAll.
  set (w0 := on_page (set_progress "0%") _).
  assert (map dataset_path (allButtons (document w0)) = map dataset_path (allButtons (document w)))
    as Hp.
  { subst w0. cbn. rewrite map_map. by apply map_ext. }
  assert (length (allButtons (document w0)) = length (allButtons (document w))) as Hn.
  { by rewrite <- (length_map dataset_path), Hp, length_map. }
  destruct (sync_all_loop_requests (length (allButtons (document w0)))
              (map dataset_path (allButtons (document w0))) 0 w0)
    as (tr & H1 & H2 & H3 & H4 & H5).
  destruct (sync_all_loop _ _ _ _ _ _ _) as [sc w1]. cbn [fst snd] in *.
  exists tr. rewrite Hp in H2. rewrite length_map in H5.
  destruct (all_accepted tr).
  - destruct H5 as [H5 ->]. rewrite Nat.add_0_l, Nat.eqb_refl.
    cbn [requested on_page logStatus backend]. repeat split; try done.
    + intros _. by rewrite H5.
    + eexists. cbn [document on_page statusPanel set_all logStatus appendChild].
      by rewrite last_snoc.
  - destruct H5 as [H5 (t & H6)].
    replace (sc =? _)%nat with false by (symmetry; apply Nat.eqb_neq; lia).
    cbn [requested on_page backend]. repeat split; try done. by exists t.
Qed.

(** X15. [Sync All] asks for the resources in the order of the page, one
    request after the reply to the one before, and stops at the first one
    that fails: nothing is requested after it, and the last line of the
    panel says that the run was aborted.  The last line announces
    completion only when every resource was requested and every request
    succeeded. *)
Theorem sync_all_stops_at_first_failure w :
  exists tr,
    requested (handleSyncAll serve time_at round_percent w) = (requested w ++ tr)%list
    /\ map fst tr
       = map sync_url (take (length tr) (map dataset_path (allButtons (document w))))
    /\ (map (fun x => snd (snd x)) tr, backend (handleSyncAll serve time_at round_percent w))
       = served serve (map fst tr) (backend w)
    /\ (forall i x, tr !! i = Some x -> S i < length tr -> accepted (snd (snd x)) = true)
    /\ (all_accepted tr = true -> length tr = length (allButtons (document w)))
    /\ exists t,
         last (statusPanel (document (handleSyncAll serve time_at round_percent w)))
         = Some (if all_accepted tr then completed_line t else aborted_line t).
Proof. apply handleSyncAll_requests. Qed.

Lemma on_button_paths path f pg :
  (forall b, dataset_path (f b) = dataset_path b) ->
  map dataset_path (allButtons (on_button path f pg)) = map dataset_path (allButtons pg).
Proof.
  intros Hf. cbn [on_button allButtons]. rewrite map_map. apply map_ext. intros b.
  by destruct (String.eqb _ _).
Qed.

Lemma performSync_paths path w :
  map dataset_path (allButtons (document (snd (performSync serve time_at path w))))
  = map dataset_path (allButtons (document w)).
Proof.
  rewrite performSync_eq. cbv zeta. cbn [snd document].
  rewrite on_button_paths by done. cbn [appendChild allButtons waiting_page].
  by rewrite on_button_paths.
Qed.

Lemma sync_all_loop_paths n rest sc w :
  map dataset_path
    (allButtons (document (snd (sync_all_loop serve time_at round_percent n rest sc w))))
  = map dataset_path (allButtons (document w)).
Proof.
  revert sc w. induction rest as [|path rest IH]; intros sc w; [done|].
  cbn [sync_all_loop]. pose proof (performSync_paths path w) as Hp.
  destruct (performSync serve time_at path w) as [[] w1]; cbn [snd] in *.
  - by rewrite IH.
  - done.
Qed.

Lemma handleSyncAll_paths w :
  map dataset_path (allButtons (document (handleSyncAll serve time_at round_percent w)))
  = map dataset_path (allButtons (document w)).
Proof.
  unfold handleSyncAll.
  set (w0 := on_page (set_progress "0%") _).
  assert (map dataset_path (allButtons (document w0)) = map dataset_path (allButtons (document w)))
    as Hp.
  { subst w0. cbn. rewrite map_map. by apply map_ext. }
  pose proof (sync_all_loop_paths (length (allButtons (document w0)))
                (map dataset_path (allButtons (document w0))) 0 w0) as Hl.
  destruct (sync_all_loop _ _ _ _ _ _ _) as [sc w1]. cbn [snd] in Hl.
  rewrite <- Hp, <- Hl. destruct (sc =? _)%nat; cbn; rewrite map_map; by apply map_ext.
Qed.

Lemma during_path done b : dataset_path (during done b) = dataset_path b.
Proof. unfold during. by case_bool_decide. Qed.

Lemma sync_all_loop_buttons n orig done rest sc w :
  NoDup (done ++ rest) -> map dataset_path orig = (done ++ rest)%list ->
  allButtons (document w) = map (during done) orig ->
  syncAllBtn (document w) = true -> clearDbBtn (document w) = true ->
  exists tr,
    requested (snd (sync_all_loop serve time_at round_percent n rest sc w))
    = (requested w ++ tr)%list
    /\ forall k x, tr !! k = Some x ->
         syncAllBtn (fst (snd x)) = true /\ clearDbBtn (fst (snd x)) = true
         /\ forall i b, allButtons (fst (snd x)) !! i = Some b ->
              disabled b = bool_decide (length done + k <= i).
Proof.
  revert done sc w. induction rest as [|path rest IH]; intros done sc w Hnd Hpaths Hb Hs Hc.
  - exists []. cbn. rewrite app_nil_r. split; [done|]. intros k x Hx. done.
  - cbn [sync_all_loop]. rewrite performSync_eq. cbv zeta.
    set (pg := waiting_page (time_at (clock w)) path (document w)).
    set (r := fst (serve (sync_url path) (backend w))).
    assert (Hpg : syncAllBtn pg = true /\ clearDbBtn pg = true
                  /\ forall i b, allButtons pg !! i = Some b ->
                       disabled b = bool_decide (length done + 0 <= i)).
    { split; [done|]. split; [done|]. intros i b Hi.
      subst pg. unfold waiting_page, appendChild, on_button in Hi. cbn [allButtons] in Hi.
      rewrite Hb, map_map in Hi.
      apply list_lookup_fmap_Some in Hi as (b0 & -> & Hb0).
      assert (Hpi : (done ++ path :: rest)%list !! i = Some (dataset_path b0)).
      { rewrite <- Hpaths. apply list_lookup_fmap_Some. eauto. }
      rewrite during_path. rewrite Nat.add_0_r.
      destruct (String.eqb_spec (dataset_path b0) path) as [Heq|Hne].
      - cbn. symmetry. apply bool_decide_eq_true_2.
        destruct (decide (length done <= i)) as [|Hlt]; [done|]. exfalso.
        rewrite lookup_app_l in Hpi by lia.
        apply NoDup_app in Hnd as (_ & Hnd & _). apply (Hnd path); [|left].
        rewrite <- Heq. by eapply list_elem_of_lookup_2.
      - unfold during. case_bool_decide as Hin.
        + cbn. symmetry. apply bool_decide_eq_false_2. intros Hle.
          rewrite lookup_app_r in Hpi by lia.
          apply NoDup_app in Hnd as (_ & Hnd & _). apply (Hnd _ Hin).
          by eapply list_elem_of_lookup_2.
        + cbn. symmetry. apply bool_decide_eq_true_2.
          destruct (decide (length done <= i)) as [|Hlt]; [done|]. exfalso.
          rewrite lookup_app_l in Hpi by lia. apply Hin.
          by eapply list_elem_of_lookup_2. }
    cbn [fst snd]. destruct (accepted r) eqn:Ea.
    + match goal with |- context [sync_all_loop _ _ _ _ _ _ ?w1] =>
        destruct (IH (done ++ [path])%list (S sc) w1) as (tr & H1 & H2) end.
      * by rewrite <- (assoc_L (++)).
      * by rewrite <- (assoc_L (++)).
      * cbn. rewrite Hb, !map_map. apply map_ext_in. intros b0 Hin.
        rewrite !during_path.
        destruct (String.eqb_spec (dataset_path b0) path) as [Heq|Hne].
        -- cbn. rewrite during_path, Heq, String.eqb_refl.
           assert (during (done ++ [path]) b0 = set_waiting false b0) as ->.
           { unfold during. rewrite bool_decide_eq_true_2; [done|]. rewrite Heq. set_solver. }
           unfold set_waiting. cbn. by rewrite during_path.
        -- assert (String.eqb (dataset_path (during done b0)) path = false) as ->.
           { rewrite during_path. by apply String.eqb_neq. }
           unfold during. 
           destruct (decide (dataset_path b0 ∈ done)) as [Hin'|Hin'].
           ++ rewrite !bool_decide_eq_true_2; [done| set_solver | done].
           ++ rewrite !bool_decide_eq_false_2; [done| set_solver | done].
      * done.
      * done.
      * exists ((sync_url path, (pg, r)) :: tr). split.
        -- rewrite H1. cbn [requested on_page]. by rewrite <- (assoc_L (++)).
        -- intros [|k] x Hx; cbn in Hx.
           ++ injection Hx as <-. exact Hpg.
           ++ destruct (H2 k x Hx) as (? & ? & H3). split; [done|]. split; [done|].
              intros i b Hi. rewrite (H3 i b Hi). rewrite length_app. cbn [length].
              apply bool_decide_ext. lia.
    + exists [(sync_url path, (pg, r))]. split; [done|].
      intros [|k] x Hx; cbn in Hx; [|done]. injection Hx as <-. exact Hpg.
Qed.

(** X16. While [Sync All] waits for the reply to its [k]-th request the two
    master buttons are disabled, and a sync button is disabled exactly if
    its resource is the one requested or a later one: the buttons of the
    resources already synced are enabled again.  When [Sync All] returns
    every button is enabled. *)
Theorem sync_all_buttons w :
  NoDup (map dataset_path (allButtons (document w))) ->
  (forall k x, drop (length (requested w))
                 (requested (handleSyncAll serve time_at round_percent w)) !! k = Some x ->
     syncAllBtn (fst (snd x)) = true /\ clearDbBtn (fst (snd x)) = true
     /\ forall i b, allButtons (fst (snd x)) !! i = Some b ->
          disabled b = bool_decide (k <= i))
  /\ Forall (fun b => disabled b = false)
       (allButtons (document (handleSyncAll serve time_at round_percent w)))
  /\ syncAllBtn (document (handleSyncAll serve time_at round_percent w)) = false
  /\ clearDbBtn (document (handleSyncAll serve time_at round_percent w)) = false.
Proof.
  intros Hnd. unfold handleSyncAll.
  set (w0 := on_page (set_progress "0%") _).
  assert (map dataset_path (allButtons (document w0)) = map dataset_path (allButtons (document w)))
    as Hp.
  { subst w0. cbn. rewrite map_map. by apply map_ext. }
  destruct (sync_all_loop_buttons (length (allButtons (document w0))) (allButtons (document w)) []
              (map dataset_path (allButtons (document w0))) 0 w0) as (tr & H1 & H2).
  { by rewrite Hp. }
  { by rewrite Hp. }
  { subst w0. cbn. apply map_ext. intros b. unfold during.
    by rewrite bool_decide_eq_false_2 by set_solver. }
  { done. }
  { done. }
  destruct (sync_all_loop _ _ _ _ _ _ _) as [sc w1]. cbn [fst snd] in *.
  assert (requested (on_page (set_all false)
            (if (sc =? length (allButtons (document w0)))%nat
             then logStatus time_at "Sync All completed successfully!" TSuccess w1 else w1))
          = (requested w ++ tr)%list) as ->.
  { destruct (sc =? _)%nat; cbn; by rewrite H1. }
  split; [|split; [|split]].
  - intros k x Hx. rewrite drop_app_length in Hx. apply (H2 k x Hx).
  - cbn [document on_page set_all allButtons]. apply Forall_fmap, Forall_true. done.
  - done.
  - done.
Qed.

End PageFacts.

(** ** The control panel in front of the server *)

Lemma res_500_shape e : answer_shape (res_500 e).
Proof.
  right. split; [done|]. split; [done|]. unfold res_500. cbn [message].
  destruct (String.eqb_spec (error_message e) EmptyString) as [|Hne]; done.
Qed.

Lemma res_200_shape msg : answer_shape (res_200 msg).
Proof. by left. Qed.

Lemma enriched_answer_shape label resource item net d :
  answer_shape (fst (enriched_sync label resource item net d)).
Proof.
  unfold enriched_sync. destruct (listing net resource) as [[endpoints items]|];
    [|apply res_500_shape].
  destruct (enriched_loop item net items d) as [[[]|x] d']; [|apply res_500_shape].
  destruct (get endpoints "length"); [apply res_200_shape | apply res_500_shape].
Qed.

Lemma generic_answer_shape resourceName t b net d :
  answer_shape (fst (generic_run resourceName t b net d)).
Proof.
  unfold generic_run, syncResource. cbn [fst].
  destruct (generic_listing net resourceName) as [items|]; [|apply res_500_shape]. cbv zeta.
  destruct (generic_loop _ _ _ _ _) as [[[]|x] st]; [|apply res_500_shape].
  destruct (Promise_all _); [apply res_200_shape | apply res_500_shape].
Qed.

Lemma endpoint_answer_shape path D sync net d :
  (path, (D, sync)) ∈ endpoints -> answer_shape (fst (sync net d)).
Proof.
  intros Hin. revert net d.
  apply (endpoints_cases (fun _ sync => forall net d, answer_shape (fst (sync net d))))
    with (path := path) (D := D); [| |done].
  - intros. apply enriched_answer_shape.
  - intros. apply generic_answer_shape.
Qed.

(** What the page makes of the answer of a sync. *)
Lemma try_sync_answer r :
  answer_shape r ->
  try_sync (res_json r) = if success r then Returned (message r) else Thrown (message r).
Proof.
  intros [[Hs ->]|(Hs & -> & Hm)]; unfold res_json, try_sync; rewrite Hs; cbn.
  - done.
  - unfold js_or. cbn. destruct (String.eqb_spec (message r) EmptyString); done.
Qed.

(** Every path of the page is a registered route. *)
Lemma page_routes :
  Forall (fun path =>
            match List.find (fun e => String.eqb ("http://localhost:3000" ++ fst e)
                                        (sync_url path)) endpoints with
            | Some e => fst e = "/sync-" ++ path
            | None => False
            end) page_paths.
Proof. repeat (constructor; [lazy; reflexivity|]). constructor. Qed.

Lemma express_route other net path :
  path ∈ page_paths ->
  exists D sync, ("/sync-" ++ path, (D, sync)) ∈ endpoints
    /\ forall d, express other net (sync_url path) d
                 = (res_json (fst (sync net d)), snd (sync net d)).
Proof.
  intros Hin. pose proof page_routes as Hall. rewrite Forall_forall in Hall.
  specialize (Hall _ Hin). unfold express.
  destruct (List.find _ endpoints) as [[p [D sync]]|] eqn:Hf; [|done].
  cbn [fst] in Hall. subst p. apply List.find_some in Hf as [Hf _].
  exists D, sync. split; [by apply list_elem_of_In|].
  intros d. cbn [fst snd]. by destruct (sync net d).
Qed.

Section Again.

Variable other : reply.
Variable net : remote.

Lemma after_request_wf d path :
  path ∈ page_paths -> wf_db d -> wf_db (after_request other net d path).
Proof.
  intros Hin Hd. destruct (express_route other net path Hin) as (D & sync & He & Hx).
  unfold after_request. rewrite Hx. cbn [snd].
  destruct (endpoint_plan _ _ _ He) as (_ & _ & Hs). by destruct (Hs net d Hd).
Qed.

Lemma after_request_idem d path :
  path ∈ page_paths -> wf_db d ->
  after_request other net (after_request other net d path) path
  = after_request other net d path.
Proof.
  intros Hin Hd. destruct (express_route other net path Hin) as (D & sync & He & Hx).
  unfold after_request. rewrite !Hx. cbn [snd].
  destruct (endpoint_plan _ _ _ He) as (_ & _ & Hs). by destruct (Hs net d Hd).
Qed.

Lemma after_request_comm d p q :
  p ∈ page_paths -> q ∈ page_paths -> p <> q -> wf_db d ->
  after_request other net (after_request other net d p) q
  = after_request other net (after_request other net d q) p.
Proof.
  intros Hp Hq Hne Hd.
  destruct (express_route other net p Hp) as (D1 & s1 & H1 & X1).
  destruct (express_route other net q Hq) as (D2 & s2 & H2 & X2).
  unfold after_request. rewrite !X1, !X2. cbn [snd].
  eapply endpoint_stores_commute; [exact H2 | exact H1 | | done].
  intros Heq. apply Hne. by injection Heq.
Qed.

Local Abbreviation step := (after_request other net).

Lemma requests_wf d ps :
  Forall (fun p => p ∈ page_paths) ps -> wf_db d -> wf_db (foldl step d ps).
Proof.
  intros Hall. revert d. induction Hall as [|p ps Hp _ IH]; intros d Hd; [done|].
  cbn [foldl]. apply IH. by apply after_request_wf.
Qed.

Lemma request_after_requests d p ps :
  p ∈ page_paths -> Forall (fun q => q ∈ page_paths) ps -> p ∉ ps -> wf_db d ->
  step (foldl step d ps) p = foldl step (step d p) ps.
Proof.
  intros Hp Hall. revert d. induction Hall as [|q ps Hq _ IH]; intros d Hn Hd; [done|].
  apply not_elem_of_cons in Hn as [Hne Hn].
  cbn [foldl]. rewrite (IH _ Hn (after_request_wf _ _ Hq Hd)).
  f_equal. apply after_request_comm; [exact Hq | exact Hp | | exact Hd].
  intros ->. by apply Hne.
Qed.

Lemma requests_idem d ps :
  Forall (fun p => p ∈ page_paths) ps -> NoDup ps -> wf_db d ->
  foldl step (foldl step d ps) ps = foldl step d ps.
Proof.
  intros Hall. revert d. induction Hall as [|p ps Hp Hall IH]; intros d Hnd Hd; [done|].
  apply NoDup_cons in Hnd as [Hn Hnd]. cbn [foldl].
  rewrite request_after_requests; [|done..|by apply after_request_wf].
  rewrite after_request_idem by done. apply IH; [done|]. by apply after_request_wf.
Qed.

Lemma served_requests d ps :
  snd (served (express other net) (map sync_url ps) d) = foldl step d ps.
Proof.
  revert d. induction ps as [|p ps IH]; intros d; [done|].
  cbn [map served foldl]. unfold after_request at 2.
  destruct (express other net (sync_url p) d) as [r d1]. cbn [snd].
  rewrite <- IH. by destruct (served _ _ d1).
Qed.

Lemma accepted_answer r : answer_shape r -> accepted (res_json r) = success r.
Proof. intros H. unfold accepted. rewrite (try_sync_answer r H). by destruct (success r). Qed.

Lemma accepted_any_store d path :
  path ∈ page_paths -> wf_db d ->
  accepted (fst (express other net (sync_url path) d)) = accepts other net path.
Proof.
  intros Hin Hd. destruct (express_route other net path Hin) as (D & sync & He & Hx).
  unfold accepts. rewrite !Hx. cbn [fst].
  rewrite !accepted_answer by (by eapply endpoint_answer_shape).
  by destruct (endpoint_answer _ _ _ He net d ∅ Hd wf_db_empty) as (? & _).
Qed.

Lemma served_accepted d ps :
  Forall (fun p => p ∈ page_paths) ps -> wf_db d ->
  map accepted (fst (served (express other net) (map sync_url ps) d))
  = map (accepts other net) ps.
Proof.
  intros Hall. revert d. induction Hall as [|p ps Hp _ IH]; intros d Hd; [done|].
  cbn [map served]. pose proof (accepted_any_store d p Hp Hd) as Ha.
  pose proof (after_request_wf d p Hp Hd) as Hw. unfold after_request in Hw.
  destruct (express other net (sync_url p) d) as [r d1]. cbn [fst snd] in *.
  specialize (IH d1 Hw). destruct (served _ _ d1) as [rs d2]. cbn [fst map] in *.
  by rewrite Ha, IH.
Qed.

End Again.

(** ** Sync All, again *)

Lemma forallb_false_lookup {A} (f : A -> bool) l :
  forallb f l = false -> exists i x, l !! i = Some x /\ f x = false.
Proof.
  induction l as [|y l IH]; [done|]. cbn [forallb].
  destruct (f y) eqn:Hy.
  - intros H. destruct (IH H) as (i & x & Hi & Hx). by exists (S i), x.
  - intros _. by exists 0, y.
Qed.

Lemma stops_after_le accepts paths k1 k2 :
  stops_after accepts paths k1 -> stops_after accepts paths k2 -> k1 <= k2.
Proof.
  intros (L1 & A1 & E1) (L2 & A2 & E2).
  destruct (decide (k1 <= k2)) as [|Hgt]; [done|]. exfalso.
  assert (k2 < length paths) as Hlt by lia.
  destruct (forallb accepts (take k2 paths)) eqn:Hall; [specialize (E2 eq_refl); lia|].
  apply forallb_false_lookup in Hall as (i & p & Hi & Hp).
  apply lookup_take_Some in Hi as [Hi Hik].
  destruct (decide (S i < k2)) as [Hs|Hs].
  - rewrite (A2 i p Hi Hs) in Hp. done.
  - rewrite (A1 i p Hi) in Hp; [done | lia].
Qed.

Lemma stops_after_unique accepts paths k1 k2 :
  stops_after accepts paths k1 -> stops_after accepts paths k2 -> k1 = k2.
Proof.
  intros H1 H2. pose proof (stops_after_le _ _ _ _ H1 H2).
  pose proof (stops_after_le _ _ _ _ H2 H1). lia.
Qed.

Lemma page_paths_NoDup : NoDup page_paths.
Proof. apply (bool_decide_unpack (NoDup page_paths)). by vm_compute. Qed.

Lemma forallb_map {A C} (f : A -> C) (g : C -> bool) l :
  forallb g (map f l) = forallb (fun x => g (f x)) l.
Proof. induction l as [|x l IH]; [done|]. cbn. by rewrite IH. Qed.

Lemma forallb_id_map {A} (f : A -> bool) l : forallb f l = forallb id (map f l).
Proof. induction l as [|x l IH]; [done|]. cbn. by rewrite IH. Qed.

Lemma handleSyncAll_stops other net time_at round_percent w :
  map dataset_path (allButtons (document w)) = page_paths -> wf_db (backend w) ->
  exists k, stops_after (accepts other net) page_paths k
    /\ length (requested (handleSyncAll (express other net) time_at round_percent w))
       = length (requested w) + k
    /\ backend (handleSyncAll (express other net) time_at round_percent w)
       = foldl (after_request other net) (backend w) (take k page_paths).
Proof.
  intros Hp Hd.
  destruct (handleSyncAll_requests (express other net) time_at round_percent w)
    as (tr & H1 & H2 & H3 & H4 & H5 & _).
  rewrite Hp in H2. rewrite <- (length_map dataset_path), Hp in H5.
  exists (length tr).
  assert (Hsub : Forall (fun p => p ∈ page_paths) (take (length tr) page_paths)).
  { apply Forall_forall. intros p Hin. by apply (subseteq_take _ page_paths) in Hin. }
  rewrite H2 in H3.
  pose proof (served_accepted other net (backend w) _ Hsub Hd) as Hacc.
  rewrite <- H3 in Hacc. cbn [fst] in Hacc.
  assert (length tr <= length page_paths) as Hle.
  { apply (f_equal length) in H2. rewrite !length_map, length_take in H2. lia. }
  split; [split; [done|split]|split].
  - intros i p Hi Hs.
    assert (Hl : take (length tr) page_paths !! i = Some p).
    { apply lookup_take_Some. split; [done | lia]. }
    destruct (lookup_lt_is_Some_2 tr i) as [x Hx]; [lia|].
    specialize (H4 i x Hx Hs).
    apply (f_equal (fun l => l !! i)) in Hacc.
    rewrite map_map in Hacc.
    change (map ?f ?l !! i) with ((f <$> l) !! i) in Hacc.
    rewrite !list_lookup_fmap, Hx, Hl in Hacc. cbn in Hacc. injection Hacc as <-. done.
  - intros Hall. apply H5. unfold all_accepted.
    rewrite forallb_id_map, <- Hacc, map_map, <- forallb_id_map in Hall. done.
  - rewrite H1, length_app. done.
  - apply (f_equal snd) in H3. cbn [snd] in H3. rewrite H3, served_requests. done.
Qed.

(** ** The link loops need their arrays (X19) *)

Lemma failed_body_rolls_back (w : W unit) e d :
  outcome w = Err e -> exists e', transaction w d = (Err e', d).
Proof.
  intros He. unfold transaction, run. rewrite He.
  destruct (exec_all (issued w) d) as [[[]|x] d']; eauto.
Qed.

Lemma link_loop_needs_array doc field table pcol ccol v u :
  get doc field = Ok v -> v = JUndefined \/ v = JNull ->
  outcome (link_loop doc field table pcol ccol) = Ok u -> False.
Proof.
  intros Hf Hv Ho. unfold link_loop in Ho.
  apply W_bind_ok in Ho as (xs & Hxs & _). apply pure_ok in Hxs as [Hxs _].
  rewrite Hf in Hxs. by destruct Hv as [-> | ->].
Qed.

Ltac needs_array Hf Hv Ho :=
  repeat (let Hs := fresh "Hs" in apply W_bind_ok in Ho as (? & Hs & Ho & _));
  match goal with
  | Hs : outcome (link_loop _ _ _ _ _) = Ok _ |- _ =>
      exact (link_loop_needs_array _ _ _ _ _ _ _ Hf Hv Hs)
  | Hs : outcome (pure (get _ _ ≫= iterate _)) = Ok _ |- _ =>
      apply pure_ok in Hs as [Hs _]; rewrite Hf in Hs;
      destruct Hv as [-> | ->]; simpl in Hs; discriminate Hs
  end.

(** X19. The link loops do not tolerate a document without their array.  When
    the field a link loop iterates is absent or null, the transaction of the
    item fails and is rolled back, so the item leaves nothing in the store,
    and the loop of the sync stops at this entry with the error: the entries
    after it are not processed. *)
Theorem missing_array_aborts_item D body field table pcol ccol doc v d :
  (D, (body, (field, (table, (pcol, ccol))))) ∈ link_loops ->
  get doc field = Ok v -> v = JUndefined \/ v = JNull ->
  exists e,
    transaction (body doc) d = (Err e, d)
    /\ forall item net entry rest,
         entry_body item net entry = Ok (body doc) ->
         enriched_loop item net (entry :: rest) d = (Err e, d).
Proof.
  intros Hin Hf Hv.
  assert (He : exists e0, outcome (body doc) = Err e0).
  { destruct (outcome (body doc)) as [u|e0] eqn:Ho; [|eauto]. exfalso.
    unfold link_loops in Hin.
    repeat (apply elem_of_cons in Hin as [[= -> -> -> -> -> ->] | Hin]);
      try (by apply elem_of_nil in Hin);
      unfold proficiency_body, race_body, spell_body, trait_body in Ho;
      needs_array Hf Hv Ho. }
  destruct He as [e0 He]. destruct (failed_body_rolls_back _ _ d He) as [e Ht].
  exists e. split; [exact Ht|].
  intros item net entry rest Hb. cbn [enriched_loop]. by rewrite Hb, Ht.
Qed.

(** ** The spells of a class (X20) *)

(** What a committed item leaves in a child table under its key: the rows
    of the inserts it sent to that table. *)
Lemma committed_child_rows D doc body d d' c pcol idx :
  descriptor_ok D = true -> shaped D doc body -> (c, pcol) ∈ child_tables D ->
  wf_db d -> transaction body d = (Ok tt, d') -> get doc "index" = Ok idx ->
  filter (fun r => row_get r pcol = key_val idx) (rows_of d' c)
  = inserted (inserts_into c (issued body))
  /\ wf_db d' /\ key_val idx <> SNull /\ bind idx = Ok (key_val idx)
  /\ outcome body = Ok tt.
Proof.
  intros HD Hsh Hc Hd Ht Hidx.
  pose proof (transaction_snapshot D doc body d HD Hd Hsh) as H.
  destruct (transaction body ∅) as [[[]|x] e] eqn:Ee.
  2:{ destruct H as [x' H]. congruence. }
  destruct H as (H1 & Hf' & Hwf & idx' & Hidx' & Hb & Hn).
  assert (idx' = idx) as -> by congruence.
  assert (Hk : key_val idx = snapshot_key D e) by (unfold key_val; by rewrite Hb).
  rewrite H1 in Ht. injection Ht as <-.
  assert (Ho : outcome body = Ok tt /\ exec_all (issued body) ∅ = (Ok tt, e)).
  { unfold transaction, run in Ee.
    destruct (exec_all (issued body) ∅) as [[[]|] e0]; [|done].
    destruct (outcome body) as [[]|]; [|done]. by injection Ee as <-. }
  destruct Ho as [Ho He].
  destruct (Hsh Ho) as (idx' & Hidx2 & Hss). assert (idx' = idx) as -> by congruence.
  split; [|by rewrite Hk].
  rewrite <- (snapshot_child_rows D idx _ e c pcol HD Hss Hc He).
  destruct Hf' as (Hown & Hdom & _ & _). destruct (Hdom c pcol Hc) as [X HX].
  destruct (child_schema D HD c pcol Hc) as (_ & _ & _ & _ & Hnp & Ha).
  rewrite rows_of_overlay, HX. unfold combine.
  rewrite bool_decide_eq_false_2 by done. rewrite Ha.
  unfold rows_of at 2. rewrite HX. cbn [default]. rewrite Hk.
  apply filter_repl_same. by eapply Hown.
Qed.

Lemma for_of_other_table {A} t (xs : list A) (body : A -> W unit) :
  (forall x, Forall (fun s => inserts t s = false) (issued (body x))) ->
  inserts_into t (issued (for_of xs body)) = [].
Proof. intros H. apply inserts_into_other. by apply for_of_all. Qed.

Ltac other_table :=
  lazymatch goal with
  | |- Forall _ (issued (_ ≫= _)) => apply W_bind_all; [other_table | intros ? ?; other_table]
  | |- Forall _ (issued (pure _)) => exact (Forall_nil_2 _)
  | |- Forall _ (issued (mret _)) => exact (Forall_nil_2 _)
  | |- Forall _ (issued (queryAsync _)) =>
      refine (Forall_cons_2 _ _ _ _ (Forall_nil_2 _)); reflexivity
  | |- Forall _ (issued (if ?b then _ else _)) => destruct b; other_table
  | |- Forall _ (issued (proficiency_choice _ _)) => unfold proficiency_choice; other_table
  | |- Forall _ (issued (starting_equipment_item _ _)) =>
      unfold starting_equipment_item; other_table
  end.

Lemma class_spells_inserts d levelsData spells idx sls :
  outcome (class_body d levelsData (JArr spells)) = Ok tt ->
  get d "index" = Ok idx -> Forall2 listed_spell spells sls ->
  inserts_into "class_spells" (issued (class_body d levelsData (JArr spells)))
  = map (class_spell_insert idx) sls.
Proof.
  unfold class_body. intros H Hidx Hall. w_pure H record Hrec.
  w_step H u Hu. cbn [queryAsync issued].
  w_delete H idx Hidx. w_delete H idx Hidx. w_delete H idx Hidx.
  w_delete H idx Hidx. w_delete H idx Hidx.
  w_pure H levels Hlevels. w_step H l1 Hl1.
  w_step H l2 Hl2.
  w_pure H choices Hchoices. w_step H l3 Hl3.
  w_pure H equipment Hequipment. w_step H l4 Hl4.
  w_pure H options Hoptions.
  cbn [app]. rewrite !inserts_into_cons. cbn [inserts classQuery upsert_sql String.eqb].
  rewrite !inserts_into_app.
  rewrite (for_of_other_table _ levels) by (intros ?; other_table).
  rewrite (for_of_other_table _ (entries choices)) by (intros ?; other_table).
  rewrite (for_of_other_table _ equipment) by (intros ?; other_table).
  rewrite (for_of_other_table _ (entries options)) by (intros ?; other_table).
  cbn [app]. rewrite app_nil_r.
  rewrite (for_of_each spells _ (map (class_spell_insert idx) sls)).
  - cbn [issued]. apply filter_all. apply Forall_forall.
    intros s (x & -> & _)%list_elem_of_fmap. reflexivity.
  - clear -Hidx Hall. induction Hall as [|spell sl spells sls [Hs Hl] _ IH]; [constructor|].
    constructor; [|exact IH]. unfold pure. rewrite Hidx, Hs, Hl. reflexivity.
Qed.

Lemma class_spell_rows idx p sls :
  bind idx = Ok p ->
  inserted (map (class_spell_insert idx) sls) = map (class_spell_row p) sls.
Proof.
  intros Hb. induction sls as [|[s l] sls IH]; [done|].
  cbn [map]. rewrite inserted_cons, IH. unfold class_spell_insert, class_spell_row.
  cbn [stmt_row fst snd].
  change (schema_of "class_spells")
    with (Some (link false "class_index" "spell_index" ["level_acquired"])).
  cbn [rmap mbind result_bind bind]. rewrite Hb. reflexivity.
Qed.

Lemma class_spell_key p sl :
  p <> SNull ->
  key_of (link false "class_index" "spell_index" ["level_acquired"]) (class_spell_row p sl)
  = Some [p; SText (fst sl)].
Proof. intros Hp. unfold key_of, class_spell_row. cbn. by destruct p. Qed.

Lemma class_spell_rows_unique p sls :
  p <> SNull ->
  unique_rows (link false "class_index" "spell_index" ["level_acquired"])
    (map (class_spell_row p) sls) = true ->
  NoDup (map fst sls).
Proof.
  intros Hp. induction sls as [|sl sls IH]; [constructor|].
  cbn [map unique_rows]. intros [Hx Hu]%andb_true_iff. constructor; [|by apply IH].
  intros Hin. apply negb_true_iff in Hx. rewrite <- not_true_iff_false in Hx. apply Hx.
  apply list_elem_of_fmap in Hin as (sl' & Heq & Hin).
  apply existsb_exists. exists (class_spell_row p sl'). split.
  - apply in_map_iff. exists sl'. split; [done | by apply list_elem_of_In].
  - unfold conflicts. rewrite !class_spell_key by done. apply bool_decide_eq_true.
    by rewrite Heq.
Qed.

Lemma class_spells_committed doc levelsData spells d d' idx sls :
  wf_db d -> transaction (class_body doc levelsData (JArr spells)) d = (Ok tt, d') ->
  get doc "index" = Ok idx -> Forall2 listed_spell spells sls ->
  filter (fun r => row_get r "class_index" = key_val idx) (rows_of d' "class_spells")
  = map (class_spell_row (key_val idx)) sls
  /\ NoDup (map fst sls).
Proof.
  intros Hd Ht Hidx Hall.
  destruct (committed_child_rows classes_desc doc _ d d' "class_spells" "class_index" idx
              eq_refl (class_body_script doc levelsData (JArr spells))
              ltac:(in_list) Hd Ht Hidx) as (Hrows & Hwf & Hn & Hb & Ho).
  rewrite (class_spells_inserts _ _ _ _ _ Ho Hidx Hall), (class_spell_rows _ _ _ Hb) in Hrows.
  split; [exact Hrows|].
  pose proof (wf_db_rows d' "class_spells" _ Hwf eq_refl) as Hw.
  apply andb_true_iff in Hw as [_ Hu].
  apply (unique_rows_filter _ (fun r => row_get r "class_index" = key_val idx)) in Hu.
  rewrite Hrows in Hu. by eapply class_spell_rows_unique.
Qed.

(** X20. In the classes sync, when the transaction of a class commits: if the
    class document has no spells link, or the spell list has no results, the
    class has no row in the class-spell table afterwards; if it has a link
    and the list has results, the rows of the class are the entries of the
    list, each with its level, in list order, and the spells of the list
    were distinct. *)
Theorem class_spells_follow_list net doc body d d' idx link :
  class_item net doc = Ok body -> wf_db d -> transaction body d = (Ok tt, d') ->
  get doc "index" = Ok idx -> get doc "spells" = Ok link ->
  (truthy link = false ->
   filter (fun r => row_get r "class_index" = key_val idx) (rows_of d' "class_spells") = [])
  /\ (truthy link = true ->
      forall spellsJson results,
        fetch net (api ++ js_String link) = Ok spellsJson ->
        get spellsJson "results" = Ok results ->
        (truthy results = false ->
         filter (fun r => row_get r "class_index" = key_val idx) (rows_of d' "class_spells")
         = [])
        /\ (forall spells sls,
              results = JArr spells -> Forall2 listed_spell spells sls ->
              filter (fun r => row_get r "class_index" = key_val idx)
                (rows_of d' "class_spells")
              = map (class_spell_row (key_val idx)) sls
              /\ NoDup (map fst sls))).
Proof.
  intros Hitem Hd Ht Hidx Hlink. unfold class_item in Hitem.
  apply bind_result_inv in Hitem as (cl & _ & Hitem).
  apply bind_result_inv in Hitem as (levelsData & _ & Hitem).
  rewrite Hlink in Hitem. cbn [mbind result_bind] in Hitem.
  split.
  - intros Hf. rewrite Hf in Hitem. cbn [mbind result_bind] in Hitem. injection Hitem as <-.
    by destruct (class_spells_committed doc levelsData [] d d' idx [] Hd Ht Hidx
                   (Forall2_nil_2 _ _ _)) as [-> _].
  - intros Htr spellsJson results Hfetch Hres. rewrite Htr, Hfetch in Hitem.
    cbn [mbind result_bind] in Hitem. rewrite Hres in Hitem. cbn [mbind result_bind] in Hitem.
    split.
    + intros Hf. rewrite Hf in Hitem. cbn [mbind result_bind] in Hitem.
      injection Hitem as <-.
      by destruct (class_spells_committed doc levelsData [] d d' idx [] Hd Ht Hidx
                     (Forall2_nil_2 _ _ _)) as [-> _].
    + intros spells sls -> Hall. cbn [truthy mbind result_bind] in Hitem.
      injection Hitem as <-.
      by apply (class_spells_committed doc levelsData spells d).
Qed.

(** ** The further properties at concrete inputs *)

Lemma missing_array_aborts_item_witness :
  get mute_dwarf "languages" = Ok JUndefined
  /\ syncRaces (one_race mute_dwarf) races_then
     = (res_500 (NotIterable "detailData.languages"), races_then)
  /\ exists e, transaction (race_body mute_dwarf) races_then = (Err e, races_then).
Proof.
  split; [reflexivity|]. split; [vm_compute; reflexivity|].
  destruct (missing_array_aborts_item races_desc race_body "languages" "race_languages"
              "race_index" "language_index" mute_dwarf JUndefined races_then)
    as (e & H & _); [unfold link_loops; in_list | reflexivity | by left |].
  by exists e.
Defined.

Lemma races_then_wf : wf_db races_then.
Proof.
  apply (enriched_stable races_desc "Races" "races" race_item eq_refl
           (body_item_shaped _ _ race_body_script) (one_race dwarf_then) ∅ wf_db_empty).
Qed.

Lemma skills_then_wf : wf_db skills_then.
Proof.
  apply (generic_stable "skills" "skills" skills_builder eq_refl); [|exact wf_db_empty].
  pose proof builders_upsert as Hb. unfold generic_endpoints in Hb.
  do 3 apply Forall_cons in Hb as [_ Hb]. by apply Forall_cons in Hb as [? _].
Qed.

(** Syncing skills on the store of the races leaves the traits of the dwarf
    as they were. *)
Lemma sync_keeps_other_tables_witness :
  wf_db races_then
  /\ ("race_traits" ∉ tables (generic_desc "skills"))
  /\ snd (generic_run "skills" "skills" skills_builder one_skill races_then) !! "race_traits"
     = races_then !! "race_traits".
Proof.
  assert (Ht : "race_traits" ∉ tables (generic_desc "skills")).
  { apply (bool_decide_unpack _). by vm_compute. }
  split; [exact races_then_wf|]. split; [exact Ht|].
  apply (sync_keeps_other_tables "/sync-skills" (generic_desc "skills")
           (generic_run "skills" "skills" skills_builder) one_skill races_then "race_traits");
    [unfold endpoints; in_list | exact races_then_wf | exact Ht].
Defined.

(** Acrobatics is stored; syncing the list with Acrobatics and Stealth keeps
    its key first. *)
Lemma sync_keeps_parent_keys_witness :
  wf_db skills_then
  /\ map (fun r => row_get r "index") (rows_of skills_then "skills") = [SText "acrobatics"]
  /\ exists added,
       map (fun r => row_get r "index")
         (rows_of (snd (generic_run "skills" "skills" skills_builder two_skills skills_then))
            (parent_table (generic_desc "skills")))
       = (map (fun r => row_get r "index")
            (rows_of skills_then (parent_table (generic_desc "skills"))) ++ added)%list.
Proof.
  split; [exact skills_then_wf|]. split; [by vm_compute|].
  apply (sync_keeps_parent_keys "/sync-skills" (generic_desc "skills")
           (generic_run "skills" "skills" skills_builder) two_skills skills_then);
    [unfold endpoints; in_list | exact skills_then_wf].
Defined.

(** Skills and races, in either order. *)
Lemma syncs_commute_witness :
  snd (generic_run "skills" "skills" skills_builder one_skill
         (snd (syncRaces (one_race dwarf_now) ∅)))
  = snd (syncRaces (one_race dwarf_now)
           (snd (generic_run "skills" "skills" skills_builder one_skill ∅))).
Proof.
  apply (syncs_commute "/sync-skills" (generic_desc "skills")
           (generic_run "skills" "skills" skills_builder)
           "/sync-races" races_desc syncRaces one_skill (one_race dwarf_now) ∅);
    [unfold endpoints; in_list | unfold endpoints; in_list | done | exact wf_db_empty].
Defined.

(** No skill on the list. *)
Lemma empty_list_syncs_nothing_witness :
  fetch no_skills (api ++ "/api/" ++ "skills")
  = Ok (JObj [("count", JNum 0); ("results", JArr [])])
  /\ enriched_sync "Skills" "skills" trait_item no_skills skills_then
     = (res_200 "Skills synced successfully! 0 records processed.", skills_then)
  /\ fst (syncResource "skills" "skills" skills_builder no_skills skills_then)
     = res_200 "skills synced successfully! 0 records processed."
  /\ conn (snd (syncResource "skills" "skills" skills_builder no_skills skills_then))
     = skills_then.
Proof.
  split; [reflexivity|].
  destruct (empty_list_syncs_nothing "Skills" "skills" "skills" trait_item skills_builder
              no_skills skills_then (JObj [("count", JNum 0); ("results", JArr [])])
              eq_refl eq_refl) as (H1 & H2 & H3 & _).
  split; [exact H1|]. split; [exact H2 | exact H3].
Defined.

(** Nothing is served. *)
Lemma list_failure_changes_nothing_witness :
  serving [] (api ++ "/api/" ++ "skills") = None
  /\ status (fst (syncResource "skills" "skills" skills_builder (serving []) skills_then))
     = 500%Z
  /\ conn (snd (syncResource "skills" "skills" skills_builder (serving []) skills_then))
     = skills_then
  /\ snd (enriched_sync "Traits" "skills" trait_item (serving []) skills_then) = skills_then.
Proof.
  split; [reflexivity|].
  destruct (list_failure_changes_nothing "Traits" "skills" "skills" trait_item skills_builder
              (serving []) skills_then (or_introl eq_refl))
    as (_ & _ & H3 & H4 & _ & H6 & _).
  split; [exact H4|]. split; [exact H6 | exact H3].
Defined.

(** Sleep twice: the first entry is inserted, the second skipped. *)
Lemma subclass_spells_first_seen_witness :
  outcome (subclass_body lore (JArr [])) = Ok tt
  /\ inserts_into "subclass_spells" (issued (subclass_body lore (JArr [])))
     = [ subclass_spell_insert (JStr "lore") ("sleep", JArr [JStr "bard-1"]);
         subclass_spell_insert (JStr "lore") ("charm-person", JArr []) ].
Proof.
  assert (Ho : outcome (subclass_body lore (JArr [])) = Ok tt) by (vm_compute; reflexivity).
  split; [exact Ho|].
  destruct (subclass_spells_first_seen lore (JArr []) (JStr "lore")
              [lore_spell "sleep" ["bard-1"]; lore_spell "charm-person" [];
               lore_spell "sleep" ["bard-3"]]
              [("sleep", JArr [JStr "bard-1"]); ("charm-person", JArr []);
               ("sleep", JArr [JStr "bard-3"])] eq_refl eq_refl)
    as (H & _); [repeat constructor | exact Ho | exact H].
Defined.

(** The senses of a monster, and a monster without senses. *)
Lemma stringified_column_witness :
  (exists rec,
     monsterRecord (monster "aboleth" "Aboleth"
                      [("senses", JObj [("darkvision", JStr "120 ft.")])] [] []) = Ok rec
     /\ assoc "senses" rec
        = Some (JSON_stringify (JObj [("darkvision", JStr "120 ft.")]))
     /\ bind (JSON_stringify (JObj [("darkvision", JStr "120 ft.")]))
        = Ok (SText ("{" ++ dquote ++ "darkvision" ++ dquote ++ ":"
                     ++ dquote ++ "120 ft." ++ dquote ++ "}")))
  /\ (exists rec,
        monsterRecord aboleth = Ok rec
        /\ assoc "senses" rec = Some (JSON_stringify JUndefined)).
Proof.
  split.
  - eexists. split; [vm_compute; reflexivity|].
    match goal with |- assoc _ ?rec = _ /\ _ =>
      destruct (stringified_column monsterRecord "senses" "senses"
                  (monster "aboleth" "Aboleth"
                     [("senses", JObj [("darkvision", JStr "120 ft.")])] [] [])
                  rec (JObj [("darkvision", JStr "120 ft.")]))
        as (H1 & H2 & _);
        [unfold stringified; in_list | vm_compute; reflexivity | reflexivity |] end.
    split; [exact H1 | exact H2].
  - eexists. split; [vm_compute; reflexivity|].
    match goal with |- assoc _ ?rec = _ =>
      destruct (stringified_column monsterRecord "senses" "senses" aboleth rec JUndefined)
        as (H1 & H2 & _);
        [unfold stringified; in_list | vm_compute; reflexivity | reflexivity |] end.
    exact H1.
Defined.

(** The club: its weight of 0 is stored as NULL, its minimum strength of 0
    as 0, its cost as one text. *)
Lemma equipment_optional_fields_witness :
  exists rec,
    record_of equipment_builder (JObj club) = Ok rec
    /\ assoc "weight" rec = Some JNull
    /\ assoc "str_minimum" rec = Some (JNum 0)
    /\ assoc "cost" rec = Some (JStr (dec 1 ++ " " ++ "sp"))
    /\ assoc "properties" rec = Some (JStr "[]").
Proof.
  eexists. split; [vm_compute; reflexivity|].
  match goal with |- assoc _ ?rec = _ /\ _ =>
    destruct (equipment_optional_fields club rec) as (_ & _ & H3 & H4 & H5 & _ & H7);
      [vm_compute; reflexivity|] end.
  split; [exact (H3 eq_refl)|]. split; [exact (H4 eq_refl)|].
  split; [exact (H5 1%Z "sp" eq_refl) | exact (H7 eq_refl)].
Defined.

(** The dwarf, synced again with the traits B and D. *)
Lemma link_rows_follow_document_witness :
  wf_db races_then
  /\ transaction (race_body dwarf_now) races_then = (Ok tt, races_now)
  /\ filter (fun r => row_get r "race_index" = key_val (JStr "dwarf"))
       (rows_of races_now "race_traits")
     = map (fun s => [("race_index", key_val (JStr "dwarf")); ("trait_index", SText s)])
         ["trait-b"; "trait-d"].
Proof.
  assert (Ht : transaction (race_body dwarf_now) races_then = (Ok tt, races_now))
    by (vm_compute; reflexivity).
  split; [exact races_then_wf|]. split; [exact Ht|].
  destruct (link_rows_follow_document races_desc race_body "traits" "race_traits"
              "race_index" "trait_index" dwarf_now races_then races_now (JStr "dwarf")
              (map indexed ["trait-b"; "trait-d"]) ["trait-b"; "trait-d"])
    as [H _];
    [unfold link_loops; in_list | exact races_then_wf | exact Ht | reflexivity | reflexivity
    | repeat constructor | exact H].
Defined.

(** The skills sync answers the same on the empty store and on a store that
    holds Acrobatics. *)
Lemma answer_independent_of_store_witness :
  wf_db skills_then
  /\ fst (generic_run "skills" "skills" skills_builder one_skill ∅)
     = fst (generic_run "skills" "skills" skills_builder one_skill skills_then).
Proof.
  split; [exact skills_then_wf|].
  destruct (answer_independent_of_store "/sync-skills" (generic_desc "skills")
              (generic_run "skills" "skills" skills_builder) one_skill ∅ skills_then)
    as (_ & _ & H); [unfold endpoints; in_list | exact wf_db_empty | exact skills_then_wf |].
  apply H. by vm_compute.
Defined.

(** The dwarf is on the list and the sync succeeds: the dwarf is stored. *)
Lemma success_stores_every_item_witness :
  listing (one_race dwarf_now) "races"
  = Ok (JArr [entry "Dwarf" "/api/races/dwarf"], [entry "Dwarf" "/api/races/dwarf"])
  /\ success (fst (syncRaces (one_race dwarf_now) ∅)) = true
  /\ Forall (stored (one_race dwarf_now) "races" (snd (syncRaces (one_race dwarf_now) ∅)))
       [entry "Dwarf" "/api/races/dwarf"].
Proof.
  assert (Hl : listing (one_race dwarf_now) "races"
               = Ok (JArr [entry "Dwarf" "/api/races/dwarf"],
                     [entry "Dwarf" "/api/races/dwarf"])) by (vm_compute; reflexivity).
  assert (Hs : success (fst (syncRaces (one_race dwarf_now) ∅)) = true) by (by vm_compute).
  split; [exact Hl|]. split; [exact Hs|].
  apply (proj1 success_stores_every_item races_desc race_item "Races" "races"
           (one_race dwarf_now) ∅ _ (fst (syncRaces (one_race dwarf_now) ∅))
           (JArr [entry "Dwarf" "/api/races/dwarf"]));
    [unfold enriched_resources; in_list | exact wf_db_empty | exact Hl
    | unfold syncRaces; by destruct (enriched_sync _ _ _ _ _) | exact Hs].
Defined.

(** The server answers twice and is gone: three requests, in the order of
    the page, and the run is aborted. *)
Lemma sync_all_stops_at_first_failure_witness :
  map fst (requested (handleSyncAll two_then_gone noon percent (page_on 0)))
  = map sync_url ["ability-scores"; "alignments"; "conditions"]
  /\ last (statusPanel (document (handleSyncAll two_then_gone noon percent (page_on 0))))
     = Some (aborted_line "12:00:00")
  /\ exists tr,
       requested (handleSyncAll two_then_gone noon percent (page_on 0))
       = (requested (page_on 0) ++ tr)%list
       /\ (forall i x, tr !! i = Some x -> S i < length tr -> accepted (snd (snd x)) = true).
Proof.
  split; [by vm_compute|]. split; [by vm_compute|].
  destruct (sync_all_stops_at_first_failure two_then_gone noon percent (page_on 0))
    as (tr & H1 & _ & _ & H4 & _).
  exists tr. split; [exact H1 | exact H4].
Defined.

(** The same run: while the third request waits, the first two buttons are
    enabled again. *)
Lemma sync_all_buttons_witness :
  NoDup (map dataset_path (allButtons (document (page_on 0))))
  /\ (forall k x,
        drop (length (requested (page_on 0)))
          (requested (handleSyncAll two_then_gone noon percent (page_on 0))) !! k = Some x ->
        syncAllBtn (fst (snd x)) = true /\ clearDbBtn (fst (snd x)) = true
        /\ forall i b, allButtons (fst (snd x)) !! i = Some b ->
             disabled b = bool_decide (k <= i))
  /\ Forall (fun b => disabled b = false)
       (allButtons (document (handleSyncAll two_then_gone noon percent (page_on 0)))).
Proof.
  assert (Hnd : NoDup (map dataset_path (allButtons (document (page_on 0))))).
  { apply (bool_decide_unpack _). by vm_compute. }
  split; [exact Hnd|].
  destruct (sync_all_buttons two_then_gone noon percent (page_on 0) Hnd) as (H1 & H2 & _).
  split; [exact H1 | exact H2].
Defined.

(** The wizard with the spells light and sleep on its list. *)
Lemma class_spells_follow_list_witness :
  class_item wizard_pages wizard
  = Ok (class_body wizard (JArr []) (JArr [listed "light" 0; listed "sleep" 1]))
  /\ fst (transaction
            (class_body wizard (JArr []) (JArr [listed "light" 0; listed "sleep" 1])) ∅)
     = Ok tt
  /\ filter (fun r => row_get r "class_index" = key_val (JStr "wizard"))
       (rows_of
          (snd (transaction
                  (class_body wizard (JArr []) (JArr [listed "light" 0; listed "sleep" 1]))
                  ∅))
          "class_spells")
     = map (class_spell_row (key_val (JStr "wizard"))) [("light", 0%Z); ("sleep", 1%Z)].
Proof.
  assert (Hi : class_item wizard_pages wizard
               = Ok (class_body wizard (JArr [])
                       (JArr [listed "light" 0; listed "sleep" 1])))
    by (vm_compute; reflexivity).
  assert (Ht : fst (transaction
                      (class_body wizard (JArr [])
                         (JArr [listed "light" 0; listed "sleep" 1])) ∅) = Ok tt)
    by (vm_compute; reflexivity).
  split; [exact Hi|]. split; [exact Ht|].
  destruct (class_spells_follow_list wizard_pages wizard _ ∅
              (snd (transaction
                      (class_body wizard (JArr [])
                         (JArr [listed "light" 0; listed "sleep" 1])) ∅))
              (JStr "wizard") (JStr "/api/classes/wizard/spells") Hi wf_db_empty)
    as [_ H]; [| reflexivity | reflexivity |].
  - destruct (transaction _ ∅) as [r d']. cbn [fst snd] in *. by rewrite Ht.
  - destruct (H eq_refl
                (JObj [("count", JNum 2);
                       ("results", JArr [listed "light" 0; listed "sleep" 1])])
                (JArr [listed "light" 0; listed "sleep" 1]) eq_refl eq_refl) as [_ H2].
    destruct (H2 [listed "light" 0; listed "sleep" 1] [("light", 0%Z); ("sleep", 1%Z)]
                eq_refl) as [H3 _]; [repeat constructor | exact H3].
Defined.

(** * The process, the nested collections and the parent rows *)

(** ** The process around [syncResource] (C9, X6) *)

Lemma process_loop_app mode early name b net xs ys st :
  process_loop mode early name b net (xs ++ ys) st
  = match process_loop mode early name b net xs st with
    | (Completed, st') => process_loop mode early name b net ys st'
    | other => other
    end.
Proof.
  revert st. induction xs as [|x xs IH]; intros st; [done|].
  cbn [app process_loop]. destruct (get x "url") as [url|]; [|done]. cbv zeta.
  destruct (unhandled mode early st); [done|].
  destruct (fetch net _) as [doc|]; [|done]. cbn [mbind result_bind].
  destruct (b doc) as [built|]; [|done]. cbn [mbind result_bind]. apply IH.
Qed.

(** The runtime finds nothing when no promise the loop makes is both
    rejected and early: the process does what the function does. *)
Lemma process_loop_quiet mode early name b net items st :
  (forall i e, queryPromises (snd (generic_loop name b net items st)) !! i = Some (Err e) ->
               mode = throw -> early i = true -> False) ->
  process_loop mode early name b net items st
  = (match fst (generic_loop name b net items st) with
     | Ok _ => Completed
     | Err e => Threw e
     end, snd (generic_loop name b net items st)).
Proof.
  revert st. induction items as [|item rest IH]; intros st H; [done|].
  cbn [process_loop generic_loop] in *. destruct (get item "url") as [url|]; [|done].
  cbv zeta in *.
  assert (Hu : unhandled mode early st = None).
  { unfold unhandled. destruct mode; [|done].
    destruct (last (queryPromises st)) as [[|e]|] eqn:El; try done.
    destruct (early (pred (length (queryPromises st)))) eqn:Ee; [|done].
    exfalso. apply (H (pred (length (queryPromises st))) e); [|done|done].
    rewrite last_lookup in El.
    destruct (fetch net (api ++ js_String url)) as [doc|]; cbn [mbind result_bind];
      [|done].
    destruct (b doc) as [built|]; cbn [mbind result_bind]; [|done].
    match goal with |- context [generic_loop ?n ?b ?net ?r ?s] =>
      destruct (generic_loop_promises n b net r s) as [more Hm] end.
    rewrite Hm, issue_promises. cbn [queryPromises logged].
    rewrite <- (assoc_L (++)). by apply lookup_app_l_Some. }
  rewrite Hu. destruct (fetch net _) as [doc|]; [|done]. cbn [mbind result_bind] in *.
  destruct (b doc) as [built|]; [|done]. cbn [mbind result_bind] in *. by apply IH.
Qed.

Lemma syncResource_process_quiet mode early resourceName tableName b net d :
  (forall i e, queryPromises (snd (syncResource resourceName tableName b net d)) !! i
               = Some (Err e) ->
               mode = throw -> early i = true -> False) ->
  exists lives,
    syncResource_process mode early resourceName tableName b net d
    = (Answered (fst (syncResource resourceName tableName b net d)) lives,
       snd (syncResource resourceName tableName b net d))
    /\ (mode = warn
        \/ Forall (fun p => is_ok p = true)
             (queryPromises (snd (syncResource resourceName tableName b net d))) ->
        lives = true).
Proof.
  unfold syncResource_process, syncResource.
  destruct (generic_listing net resourceName) as [items|]; [|by exists true].
  cbv zeta. intros H. rewrite process_loop_quiet.
  - destruct (generic_loop _ _ _ _ _) as [[[]|x] st]; cbn [fst snd].
    + exists true. by destruct (Promise_all _).
    + eexists. split; [reflexivity|]. intros [->|Hall]; [done|]. destruct mode; [|done].
      apply forallb_forall. intros p Hp. rewrite Forall_forall in Hall.
      by apply Hall, list_elem_of_In.
  - intros i e Hi. apply (H i e).
    destruct (generic_loop _ _ _ _ _) as [[[]|x] st]; cbn [fst snd] in *;
      [by destruct (Promise_all _)|done].
Qed.

(** A runtime that only warns, a database that answers once the loop is
    over, upserts that are all accepted: in each case the process answers
    what the function answers. *)
Lemma syncResource_process_warn early resourceName tableName b net d :
  syncResource_process warn early resourceName tableName b net d
  = (Answered (fst (syncResource resourceName tableName b net d)) true,
     snd (syncResource resourceName tableName b net d)).
Proof.
  destruct (syncResource_process_quiet warn early resourceName tableName b net d)
    as (lives & -> & Hl); [done|]. rewrite Hl; [done | by left].
Qed.

Lemma syncResource_process_late mode early resourceName tableName b net d :
  (forall i, early i = false) ->
  exists lives,
    syncResource_process mode early resourceName tableName b net d
    = (Answered (fst (syncResource resourceName tableName b net d)) lives,
       snd (syncResource resourceName tableName b net d)).
Proof.
  intros H.
  destruct (syncResource_process_quiet mode early resourceName tableName b net d)
    as (lives & Hp & _); [|by exists lives].
  intros i e _ _. by rewrite H.
Qed.

Lemma syncResource_process_accepted mode early resourceName tableName b net d :
  Forall (fun p => is_ok p = true)
    (queryPromises (snd (syncResource resourceName tableName b net d))) ->
  syncResource_process mode early resourceName tableName b net d
  = (Answered (fst (syncResource resourceName tableName b net d)) true,
     snd (syncResource resourceName tableName b net d)).
Proof.
  intros H.
  destruct (syncResource_process_quiet mode early resourceName tableName b net d)
    as (lives & -> & Hl).
  - intros i e Hi _ _. rewrite Forall_lookup in H. by specialize (H i _ Hi).
  - rewrite Hl; [done | by right].
Qed.

(** The same when the loop completes: the rejection of the query handed
    over last is read by [Promise.all]. *)
Lemma process_loop_completes mode early name b net items st :
  fst (generic_loop name b net items st) = Ok tt ->
  (forall i e, queryPromises (snd (generic_loop name b net items st)) !! i = Some (Err e) ->
               S i < length (queryPromises (snd (generic_loop name b net items st))) ->
               mode = throw -> early i = true -> False) ->
  process_loop mode early name b net items st
  = (Completed, snd (generic_loop name b net items st)).
Proof.
  revert st. induction items as [|item rest IH]; intros st Hok H; [done|].
  cbn [process_loop generic_loop] in *. destruct (get item "url") as [url|]; [|done].
  cbv zeta in *.
  destruct (fetch net (api ++ js_String url)) as [doc|]; [|done].
  cbn [mbind result_bind] in *.
  destruct (b doc) as [built|]; [|done]. cbn [mbind result_bind] in *.
  assert (Hu : unhandled mode early st = None).
  { unfold unhandled. destruct mode; [|done].
    destruct (last (queryPromises st)) as [[|e]|] eqn:El; try done.
    destruct (early (pred (length (queryPromises st)))) eqn:Ee; [|done].
    exfalso. rewrite last_lookup in El.
    match type of H with context [generic_loop ?n ?b ?net ?r ?s] =>
      destruct (generic_loop_promises n b net r s) as [more Hm] end.
    rewrite Hm, issue_promises in H. cbn [queryPromises logged] in H.
    apply (H (pred (length (queryPromises st))) e); [| |done|done].
    - rewrite <- (assoc_L (++)). by apply lookup_app_l_Some.
    - apply lookup_lt_Some in El. rewrite !length_app. cbn [length]. lia. }
  rewrite Hu. by apply IH.
Qed.

Lemma promises_length resourceName d builts :
  length (promises resourceName d builts) = length builts.
Proof. revert d. induction builts as [|x l IH]; intros d; cbn; [done|]. by rewrite IH. Qed.

(** C9.  Under the runtime's default since Node 15, when the upsert of an
    item that is not the last of the list is rejected and its callback runs
    while the function awaits the detail document of the next item: the
    process ends with the rejection.  The request gets no answer, neither
    the 500 nor any other; the detail document of the next item was asked
    for and is never read, no query is handed over for it, the items after
    it are never fetched, and [Promise.all] is never reached.  The store
    keeps the upserts accepted before. *)
Theorem unhandled_rejection_ends_process
  resourceName tableName b net d before item next after builts built e url early :
  generic_listing net resourceName = Ok (before ++ item :: next :: after)%list ->
  Forall2 (fun item built => prepared b net item = Ok built) before builts ->
  Forall (fun p => is_ok p = true) (promises resourceName d builts) ->
  prepared b net item = Ok built ->
  settles resourceName (foldl attempt d builts) built = Err e ->
  get next "url" = Ok url ->
  early (length before) = true ->
  let r := syncResource_process throw early resourceName tableName b net d in
  fst r = NoAnswer e
  /\ conn (snd r) = foldl attempt d builts
  /\ queryPromises (snd r) = (promises resourceName d builts ++ [Err e])%list
  /\ log (snd r)
     = ([FetchStarted (api ++ "/api/" ++ resourceName);
         FetchSettled (api ++ "/api/" ++ resourceName)]
        ++ loop_events 0 (before ++ [item]) ++ [FetchStarted (api ++ js_String url)])%list.
Proof.
  intros Hl Hall Hok Hitem Hrej Hurl Hearly r.
  set (st0 := {| conn := d; queryPromises := [];
                 log := [FetchStarted (api ++ "/api/" ++ resourceName);
                         FetchSettled (api ++ "/api/" ++ resourceName)] |}).
  assert (Hall' : Forall2 (fun item built => prepared b net item = Ok built)
                    (before ++ [item]) (builts ++ [built])).
  { apply Forall2_app; [done|]. by constructor. }
  destruct (generic_loop_attempts resourceName b net _ _ st0 Hall')
    as (st1 & Hloop & Hc & Hq & Hlog).
  cbn [conn queryPromises log st0 app length] in Hc, Hq, Hlog.
  assert (Hps : promises resourceName d (builts ++ [built])
                = (promises resourceName d builts ++ [Err e])%list).
  { clear -Hrej. revert d Hrej. induction builts as [|x l IH]; intros d Hrej.
    - cbn in *. by rewrite Hrej.
    - cbn [app promises foldl] in *. by rewrite IH. }
  assert (Hfold : foldl attempt d (builts ++ [built]) = foldl attempt d builts).
  { rewrite foldl_app. cbn [foldl]. unfold attempt. unfold settles in Hrej.
    by destruct (exec _ _). }
  rewrite Hps in Hq. rewrite Hfold in Hc.
  assert (Hlen : length (promises resourceName d builts) = length before).
  { rewrite promises_length. symmetry. by eapply Forall2_length. }
  assert (Hp1 : process_loop throw early resourceName b net (before ++ [item]) st0
                = (Completed, st1)).
  { rewrite process_loop_completes; rewrite Hloop; [done|done|]. cbn [snd].
    (* the one rejection is that of the last promise: no turn follows it here *)
    intros i x Hi Hlt _ _. rewrite Hq in Hi. rewrite Hq, length_app in Hlt. cbn in Hlt.
    apply lookup_app_Some in Hi as [Hi|[Hge Hi]].
    - rewrite Forall_lookup in Hok. by specialize (Hok i _ Hi).
    - lia. }
  subst r. unfold syncResource_process. rewrite Hl. cbv zeta. fold st0.
  replace (before ++ item :: next :: after)%list
    with ((before ++ [item]) ++ next :: after)%list by (by rewrite <- (assoc_L (++))).
  rewrite process_loop_app, Hp1. cbn [process_loop]. rewrite Hurl. cbv zeta.
  assert (Hu : unhandled throw early st1 = Some e).
  { unfold unhandled. rewrite Hq, last_snoc, length_app, Hlen. cbn [length].
    replace (pred (length before + 1)) with (length before) by lia. by rewrite Hearly. }
  rewrite Hu. cbn [fst snd conn queryPromises log logged].
  by rewrite Hc, Hq, Hlog.
Qed.

(** X6.  The generic path has no transaction.  When the detail fetch or the
    record builder of an item fails after upserts that were all accepted,
    the answer is 500 with that error, whatever the runtime does with
    rejections and whenever the database answers; the upserts of the items
    before stay in the store; nothing is fetched or issued for the items
    after it; and the promises are never awaited. *)
Theorem builder_failure_keeps_earlier_upserts
  mode early resourceName tableName b net d pre item post builts e :
  generic_listing net resourceName = Ok (pre ++ item :: post)%list ->
  Forall2 (fun item built => prepared b net item = Ok built) pre builts ->
  Forall (fun p => is_ok p = true) (promises resourceName d builts) ->
  prepared b net item = Err e ->
  let r := syncResource_process mode early resourceName tableName b net d in
  fst r = Answered (res_500 e) true
  /\ message (res_500 e) = error_message e
  /\ conn (snd r) = foldl attempt d builts
  /\ queryPromises (snd r) = promises resourceName d builts
  /\ exists tl,
       log (snd r)
       = ([FetchStarted (api ++ "/api/" ++ resourceName);
           FetchSettled (api ++ "/api/" ++ resourceName)] ++ loop_events 0 pre ++ tl)%list
       /\ (tl = [] \/ exists u, tl = [FetchStarted u; FetchSettled u]).
Proof.
  intros Hl Hall Hok Hfail r.
  destruct (generic_loop_stops resourceName b net pre item post builts
              {| conn := d; queryPromises := [];
                 log := [FetchStarted (api ++ "/api/" ++ resourceName);
                         FetchSettled (api ++ "/api/" ++ resourceName)] |} e Hall Hfail)
    as (st' & tl & Hloop & Hc & Hq & Hlog & Htl).
  cbn [conn queryPromises log app length] in Hc, Hq, Hlog.
  assert (Hm : syncResource resourceName tableName b net d = (res_500 e, st')).
  { unfold syncResource. cbv zeta. by rewrite Hl, Hloop. }
  subst r. rewrite syncResource_process_accepted; rewrite Hm; cbn [fst snd].
  - cbn [message res_500]. rewrite error_message_nonempty.
    split; [done|]. split; [done|]. split; [done|]. split; [done|].
    exists tl. split; [|done]. by rewrite Hlog.
  - by rewrite Hq.
Qed.

(** ** The page in front of the server process (X17, X18) *)

Lemma find_ext {A} (f g : A -> bool) l :
  (forall x, f x = g x) -> List.find f l = List.find g l.
Proof. intros H. induction l as [|x l IH]; [done|]. cbn. by rewrite H, IH. Qed.

Lemma append_eqb p a b : String.eqb (p ++ a) (p ++ b) = String.eqb a b.
Proof.
  induction p as [|c p IH]; [done|].
  change (String.eqb (String c (p ++ a)) (String c (p ++ b)) = String.eqb a b).
  cbn [String.eqb]. by rewrite Ascii.eqb_refl.
Qed.

Lemma sync_url_eqb a b : String.eqb (sync_url a) (sync_url b) = String.eqb a b.
Proof. apply append_eqb. Qed.

(** The routes of the generic path call [syncResource] with the resource of
    their path. *)
Lemma generic_routes :
  Forall (fun g =>
            List.find (fun e => String.eqb ("http://localhost:3000" ++ fst e)
                                  (sync_url (fst g))) endpoints
            = Some ("/sync-" ++ fst g,
                    (generic_desc (fst (snd g)),
                     generic_run (fst g) (fst (snd g)) (snd (snd g)))))
    generic_endpoints.
Proof. repeat (constructor; [reflexivity|]). constructor. Qed.

Lemma express_generic g other net d :
  g ∈ generic_endpoints ->
  express other net (sync_url (fst g)) d
  = (res_json (fst (syncResource (fst g) (fst (snd g)) (snd (snd g)) net d)),
     conn (snd (syncResource (fst g) (fst (snd g)) (snd (snd g)) net d))).
Proof.
  intros Hin. pose proof generic_routes as H. rewrite Forall_forall in H.
  unfold express. by rewrite (H g Hin).
Qed.

(** As long as no upsert is rejected, the process serves the request as
    [express] does, and lives on. *)
Lemma express_process_quiet mode early other lost net path d :
  no_rejection net path d ->
  express_process mode early other lost net (sync_url path) (true, d)
  = (fst (express other net (sync_url path) d),
     (true, snd (express other net (sync_url path) d))).
Proof.
  unfold no_rejection, route_promises, express_process. cbn [fst snd].
  rewrite (find_ext (fun g => String.eqb (sync_url (fst g)) (sync_url path))
             (fun g => String.eqb (fst g) path))
    by (intros g; apply sync_url_eqb).
  destruct (List.find _ generic_endpoints) as [g|] eqn:Hf.
  - intros Hok. apply List.find_some in Hf as [Hin Hp].
    apply String.eqb_eq in Hp. subst path.
    rewrite (syncResource_process_accepted _ _ _ _ _ _ _ Hok).
    by rewrite (express_generic g other net d (proj2 (list_elem_of_In _ _) Hin)).
  - intros _. by destruct (express other net (sync_url path) d).
Qed.

Lemma express_process_serves mode early other lost net :
  quiet net ->
  forall url d,
    express_process mode early other lost net url (true, d)
    = (fst (express other net url d), (true, snd (express other net url d))).
Proof.
  intros Hq url d.
  destruct (List.find (fun g => String.eqb (sync_url (fst g)) url) generic_endpoints)
    as [g|] eqn:Hf.
  - apply List.find_some in Hf as [_ Hu]. apply String.eqb_eq in Hu. subst url.
    apply express_process_quiet, Hq.
  - unfold express_process. cbn [fst snd]. rewrite Hf.
    by destruct (express other net url d).
Qed.

Section Alive.

Variable serve : string -> gmap string (list row) -> reply * gmap string (list row).
Variable process : string -> bool * gmap string (list row)
                   -> reply * (bool * gmap string (list row)).
Variable time_at : nat -> string.
Variable round_percent : nat -> nat -> Z.

Hypothesis serves : forall url d,
  process url (true, d) = (fst (serve url d), (true, snd (serve url d))).

Lemma performSync_alive path w :
  performSync process time_at path (alive w)
  = (fst (performSync serve time_at path w), alive (snd (performSync serve time_at path w))).
Proof.
  rewrite !performSync_eq. cbv zeta. cbn [alive backend document clock requested fst snd].
  by rewrite serves.
Qed.

Lemma on_page_alive f w : on_page f (alive w) = alive (on_page f w).
Proof. done. Qed.

Lemma logStatus_alive m t w : logStatus time_at m t (alive w) = alive (logStatus time_at m t w).
Proof. done. Qed.

Lemma sync_all_loop_alive n rest sc w :
  sync_all_loop process time_at round_percent n rest sc (alive w)
  = (fst (sync_all_loop serve time_at round_percent n rest sc w),
     alive (snd (sync_all_loop serve time_at round_percent n rest sc w))).
Proof.
  revert sc w. induction rest as [|path rest IH]; intros sc w; [done|].
  cbn [sync_all_loop]. rewrite performSync_alive.
  destruct (performSync serve time_at path w) as [[] w1]; cbn [fst snd].
  - rewrite on_page_alive. apply IH.
  - by rewrite logStatus_alive.
Qed.

Lemma handleSyncAll_alive w :
  handleSyncAll process time_at round_percent (alive w)
  = alive (handleSyncAll serve time_at round_percent w).
Proof.
  unfold handleSyncAll. rewrite !on_page_alive.
  cbn [document alive]. rewrite sync_all_loop_alive.
  destruct (sync_all_loop serve _ _ _ _ _ _) as [sc w1]. cbn [fst snd].
  by destruct (sc =? _)%nat.
Qed.

Lemma handleSync_alive path w :
  handleSync process time_at path (alive w) = alive (handleSync serve time_at path w).
Proof.
  unfold handleSync. rewrite on_page_alive, performSync_alive.
  by destruct (performSync serve _ _ _).
Qed.

End Alive.
(** X17. A click on a sync button whose request has no upsert rejected: the
    sync of its resource runs on the server, once, whatever the runtime does
    with rejections and whenever the database answers, and the process lives
    on; the panel shows what the server answered: the message of the sync in
    green when it succeeded, and after [Error syncing <path>:] in red the
    message of the error when it failed.  The text the page would fall back
    on for a failure without a message is never shown.  The two master
    buttons are enabled when the handler returns. *)
Theorem click_shows_server_answer mode early other lost net time_at path w :
  path ∈ page_paths ->
  no_rejection net path (backend w) ->
  let w' := handleSync (express_process mode early other lost net) time_at path (alive w) in
  exists D sync r,
    ("/sync-" ++ path, (D, sync)) ∈ endpoints
    /\ r = fst (sync net (backend w))
    /\ backend w' = (true, snd (sync net (backend w)))
    /\ statusPanel (document w')
       = (statusPanel (document w)
          ++ [ line (time_at (clock w)) (TStart, ("Initiating sync for " ++ path ++ "...")%string);
               line (time_at (S (clock w)))
                 (if success r then (TSuccess, message r)
                  else (TError, ("Error syncing " ++ path ++ ": " ++ message r)%string)) ])%list
    /\ map fst (requested w') = (map fst (requested w) ++ [sync_url path])%list
    /\ syncAllBtn (document w') = false
    /\ clearDbBtn (document w') = false.
Proof.
  intros Hin Hq w'.
  destruct (express_route other net path Hin) as (D & sync & He & Hx).
  specialize (Hx (backend w)).
  exists D, sync, (fst (sync net (backend w))). split; [done|]. split; [done|].
  subst w'. unfold handleSync. rewrite performSync_eq. cbv zeta.
  cbn [backend on_page document clock requested fst snd alive].
  rewrite (express_process_quiet mode early other lost net path (backend w) Hq), Hx.
  cbn [fst snd].
  split; [done|]. split.
  - cbn [statusPanel on_button appendChild waiting_page set_masters].
    rewrite <- (assoc_L (++)). cbn [app]. do 3 f_equal.
    unfold result_line.
    rewrite (try_sync_answer _ (endpoint_answer_shape _ _ _ net (backend w) He)).
    by destruct (success _).
  - split; [|done]. by rewrite map_app.
Qed.

(** X18. [Sync All] a second time, against the same remote data none of whose
    records the database rejects: the process serves both runs, the store is
    left as the first run left it, and the second run sends as many requests
    as the first one did: it stops at the same resource.  This holds whether
    the first run completed or was aborted. *)
Theorem sync_all_again_changes_nothing mode early other lost net time_at round_percent w :
  map dataset_path (allButtons (document w)) = page_paths -> wf_db (backend w) ->
  quiet net ->
  let run := handleSyncAll (express_process mode early other lost net) time_at round_percent in
  backend (run (run (alive w))) = backend (run (alive w))
  /\ fst (backend (run (alive w))) = true
  /\ length (requested (run (run (alive w)))) - length (requested (run (alive w)))
     = length (requested (run (alive w))) - length (requested w).
Proof.
  intros Hp Hd Hq run.
  assert (Hrun : forall w0, run (alive w0)
                            = alive (handleSyncAll (express other net) time_at round_percent w0)).
  { intros w0. apply handleSyncAll_alive. by apply express_process_serves. }
  rewrite !Hrun. cbn [alive backend requested fst].
  destruct (handleSyncAll_stops other net time_at round_percent w Hp Hd) as (k1 & S1 & L1 & B1).
  assert (Hsub : forall k, Forall (fun p => p ∈ page_paths) (take k page_paths)).
  { intros k. apply Forall_forall. intros p Hin. by apply (subseteq_take _ page_paths) in Hin. }
  assert (Hd1 : wf_db (backend (handleSyncAll (express other net) time_at round_percent w))).
  { rewrite B1. by apply requests_wf. }
  destruct (handleSyncAll_stops other net time_at round_percent _
              (eq_trans (handleSyncAll_paths _ _ _ w) Hp) Hd1) as (k2 & S2 & L2 & B2).
  assert (k2 = k1) as -> by (by eapply stops_after_unique).
  split; [|split; [done|]].
  - f_equal. rewrite B2, B1. apply requests_idem; [done| |done].
    apply (sublist_NoDup _ page_paths); [apply page_paths_NoDup | apply sublist_take].
  - rewrite L2, L1. lia.
Qed.

(** ** The insert loops and the nested collections *)

Lemma carries_inserts c s rec : insert_carries c s rec -> inserts c s = true.
Proof. intros [->| ->]; cbn; apply String.eqb_refl. Qed.

Lemma carries_all c ss recs :
  Forall2 (insert_carries c) ss recs -> inserts_into c ss = ss.
Proof.
  intros H. apply filter_all. apply Forall_forall. intros s Hs.
  apply list_elem_of_lookup in Hs as [i Hi].
  destruct (Forall2_lookup_l _ _ _ _ _ H Hi) as (rec & _ & Hr). by eapply carries_inserts.
Qed.

Lemma for_of_carries {A} c (xs : list A) (body : A -> W unit)
  (recf : A -> result (list (string * jsval))) :
  (forall x u, outcome (body x) = Ok u ->
     exists rec s, recf x = Ok rec /\ issued (body x) = [s] /\ insert_carries c s rec) ->
  outcome (for_of xs body) = Ok tt ->
  exists records, rmap recf xs = Ok records
    /\ Forall2 (insert_carries c) (issued (for_of xs body)) records.
Proof.
  intros Hb. induction xs as [|x xs IH]; intros H.
  - exists []. split; [done | constructor].
  - cbn [for_of] in *. apply W_bind_ok in H as (u & H1 & H2 & ->).
    destruct (Hb x u H1) as (rec & s & Hr & Hs & Hc).
    destruct (IH H2) as (records & Hrs & Hall).
    exists (rec :: records). cbn [rmap]. rewrite Hr, Hrs. split; [done|].
    rewrite Hs. by constructor.
Qed.

Lemma for_of_with_carries c (key : jsval -> result jsval)
  (recf : jsval -> result (list (string * jsval)))
  (body : list jsval -> jsval -> W (list jsval)) xs seen seen' :
  (forall s x s', outcome (body s x) = Ok s' ->
     exists k, key x = Ok k
       /\ if set_has s k then issued (body s x) = [] /\ s' = s
          else exists rec st, recf x = Ok rec /\ issued (body s x) = [st]
                 /\ insert_carries c st rec /\ s' = set_add s k) ->
  outcome (for_of_with xs seen body) = Ok seen' ->
  exists kept records, first_by key seen xs = Ok kept /\ rmap recf kept = Ok records
    /\ Forall2 (insert_carries c) (issued (for_of_with xs seen body)) records.
Proof.
  intros Hb. revert seen. induction xs as [|x xs IH]; intros seen H.
  - exists [], []. split; [done|]. split; [done | constructor].
  - cbn [for_of_with first_by] in *. apply W_bind_ok in H as (s1 & H1 & H2 & ->).
    destruct (Hb seen x s1 H1) as (k & Hk & Hcase). rewrite Hk. cbn [mbind result_bind].
    destruct (set_has seen k).
    + destruct Hcase as [-> ->]. destruct (IH _ H2) as (kept & records & H3 & H4 & H5).
      by exists kept, records.
    + destruct Hcase as (rec & st & Hr & Hs & Hc & ->).
      destruct (IH _ H2) as (kept & records & H3 & H4 & H5).
      exists (x :: kept), (rec :: records). rewrite H3. cbn [mbind result_bind rmap].
      rewrite Hr, H4. split; [done|]. split; [done|]. rewrite Hs. by constructor.
Qed.

Lemma for_of_those c (test : jsval -> result bool)
  (recf : jsval -> result (list (string * jsval))) (body : jsval -> W unit) xs :
  (forall x u, outcome (body x) = Ok u ->
     exists keep, test x = Ok keep
       /\ if keep : bool
          then exists rec st, recf x = Ok rec /\ issued (body x) = [st]
                 /\ insert_carries c st rec
          else issued (body x) = []) ->
  outcome (for_of xs body) = Ok tt ->
  exists kept records, those test xs = Ok kept /\ rmap recf kept = Ok records
    /\ Forall2 (insert_carries c) (issued (for_of xs body)) records.
Proof.
  intros Hb. induction xs as [|x xs IH]; intros H.
  - exists [], []. split; [done|]. split; [done | constructor].
  - cbn [for_of those] in *. apply W_bind_ok in H as (u & H1 & H2 & ->).
    destruct (Hb x u H1) as (keep & Hk & Hcase). rewrite Hk. cbn [mbind result_bind].
    destruct (IH H2) as (kept & records & H3 & H4 & H5). rewrite H3. cbn [mbind result_bind].
    destruct keep.
    + destruct Hcase as (rec & st & Hr & Hs & Hc).
      exists (x :: kept), (rec :: records). cbn [rmap]. rewrite Hr, H4.
      split; [done|]. split; [done|]. rewrite Hs. by constructor.
    + rewrite Hcase. by exists kept, records.
Qed.
Lemma link_loop_nested net doc field t pcol ccol idx u :
  get doc "index" = Ok idx -> outcome (link_loop doc field t pcol ccol) = Ok u ->
  exists records, links pcol ccol field net doc = Ok records
    /\ Forall2 (insert_carries t) (issued (link_loop doc field t pcol ccol)) records.
Proof.
  intros Hidx H. unfold link_loop in *. w_pure H xs Hxs. destruct u.
  eapply (for_of_carries t xs _
            (fun x => object [(pcol, Ok idx); (ccol, get x "index")])) in H
    as (records & Hr & Hall).
  2:{ intros x u Hx. cbn beta in *. w_pure Hx i Hi. w_pure Hx c Hc.
      exists [(pcol, idx); (ccol, c)], (InsertValues t [pcol; ccol] [idx; c]).
      split; [cbn; by rewrite Hc|]. split; [cbn; congruence | by right]. }
  - exists records. split; [|done]. unfold links, array_of, child_records.
    rewrite Hidx. cbn [mbind result_bind]. rewrite Hxs. cbn [mbind result_bind map fst snd].
    exact Hr.
Qed.
Ltac eval_append :=
  repeat match goal with
    | |- context [String.append ?a ?b] =>
        let r := eval vm_compute in (String.append a b) in
        progress change (String.append a b) with r
    end.

Ltac child_cases Hc :=
  cbn [child_tables races_desc traits_desc spells_desc proficiencies_desc monsters_desc
         subclasses_desc classes_desc] in Hc;
  repeat (apply elem_of_cons in Hc as [[= -> ->] | Hc]); [..|by apply elem_of_nil in Hc].

(** The statements of a body, table by table: the upsert and the deletes
    are no inserts, a link loop of another table brings nothing. *)
Ltac sort_inserts :=
  cbn [app]; rewrite ?inserts_into_cons;
  cbn [inserts classQuery monsterQuery profQuery raceQuery spellQuery subQuery traitQuery
         upsert_sql];
  rewrite ?inserts_into_app;
  repeat match goal with
    | Ho : outcome (link_loop ?d ?f ?t0 ?p ?c) = Ok _
      |- context [inserts_into ?t (issued (link_loop ?d ?f ?t0 ?p ?c))] =>
        rewrite (link_loop_other d f t0 p c t _ ltac:(done) Ho)
    end;
  cbn [app]; rewrite ?app_nil_r.

Ltac the_link net Hidx Ho :=
  let records := fresh "records" in let Hn := fresh "Hn" in let Hall := fresh "Hall" in
  destruct (link_loop_nested net _ _ _ _ _ _ _ Hidx Ho) as (records & Hn & Hall);
  exists records; split; [exact Hn | by rewrite (carries_all _ _ _ Hall)].

Lemma race_body_nested net doc c pcol :
  outcome (race_body doc) = Ok tt -> (c, pcol) ∈ child_tables races_desc ->
  exists records, nested c net doc = Ok records
    /\ Forall2 (insert_carries c) (inserts_into c (issued (race_body doc))) records.
Proof.
  unfold race_body. intros H Hc. w_pure H record Hrec.
  apply object_cons in Hrec as (idx & vs & Hidx & _ & ->).
  w_step H u Hu. cbn [queryAsync issued].
  w_delete H idx Hidx. w_delete H idx Hidx. w_delete H idx Hidx.
  w_step H l1 Hl1. w_step H l2 Hl2.
  child_cases Hc; sort_inserts.
  - the_link net Hidx Hl1.
  - the_link net Hidx Hl2.
  - the_link net Hidx H.
Qed.
Lemma trait_body_nested net doc c pcol :
  outcome (trait_body doc) = Ok tt -> (c, pcol) ∈ child_tables traits_desc ->
  exists records, nested c net doc = Ok records
    /\ Forall2 (insert_carries c) (inserts_into c (issued (trait_body doc))) records.
Proof.
  unfold trait_body. intros H Hc. w_pure H record Hrec.
  apply object_cons in Hrec as (idx & vs & Hidx & _ & ->).
  w_step H u Hu. cbn [queryAsync issued].
  w_delete H idx Hidx. w_delete H idx Hidx. w_delete H idx Hidx.
  w_step H l1 Hl1. w_step H l2 Hl2.
  child_cases Hc; sort_inserts.
  - the_link net Hidx Hl1.
  - the_link net Hidx Hl2.
  - the_link net Hidx H.
Qed.

Lemma spell_body_nested net doc c pcol :
  outcome (spell_body doc) = Ok tt -> (c, pcol) ∈ child_tables spells_desc ->
  exists records, nested c net doc = Ok records
    /\ Forall2 (insert_carries c) (inserts_into c (issued (spell_body doc))) records.
Proof.
  unfold spell_body. intros H Hc. w_pure H record Hrec.
  apply object_cons in Hrec as (idx & vs & Hidx & _ & ->).
  w_step H u Hu. cbn [queryAsync issued].
  w_delete H idx Hidx. w_delete H idx Hidx.
  w_step H l1 Hl1.
  child_cases Hc; sort_inserts.
  - the_link net Hidx Hl1.
  - the_link net Hidx H.
Qed.

Lemma proficiency_body_nested net doc c pcol :
  outcome (proficiency_body doc) = Ok tt -> (c, pcol) ∈ child_tables proficiencies_desc ->
  exists records, nested c net doc = Ok records
    /\ Forall2 (insert_carries c) (inserts_into c (issued (proficiency_body doc))) records.
Proof.
  unfold proficiency_body. intros H Hc. w_pure H record Hrec.
  apply object_cons in Hrec as (idx & vs & Hidx & _ & ->).
  w_step H u Hu. cbn [queryAsync issued].
  w_delete H idx Hidx. w_delete H idx Hidx.
  w_step H l1 Hl1.
  child_cases Hc; sort_inserts.
  - the_link net Hidx Hl1.
  - the_link net Hidx H.
Qed.

(** A loop step that builds the record of a row, the parent key first, and
    inserts it with [INSERT ... SET ?]. *)
Lemma insert_set_carries {A} (doc : jsval) idx t pcol (cols : list (string * (A -> result jsval)))
  (x : A) u :
  get doc "index" = Ok idx ->
  outcome (rec ← pure (object ((pcol, get doc "index") :: map (fun c => (fst c, snd c x)) cols));
           queryAsync (InsertSet t rec)) = Ok u ->
  exists rec s,
    object ((pcol, Ok idx) :: map (fun c => (fst c, snd c x)) cols) = Ok rec
    /\ issued (rec ← pure (object ((pcol, get doc "index")
                                     :: map (fun c => (fst c, snd c x)) cols));
               queryAsync (InsertSet t rec)) = [s]
    /\ insert_carries t s rec.
Proof.
  intros Hidx H. w_pure H rec Hrec. rewrite Hidx in Hrec.
  exists rec, (InsertSet t rec). split; [done|]. split; [done | by left].
Qed.

Lemma condition_immunity_carries doc idx s x s' :
  get doc "index" = Ok idx ->
  outcome (condition_immunity doc s x) = Ok s' ->
  exists k, get x "index" = Ok k
    /\ if set_has s k then issued (condition_immunity doc s x) = [] /\ s' = s
       else exists rec st,
              object [("monster_index", Ok idx); ("condition_index", get x "index")] = Ok rec
              /\ issued (condition_immunity doc s x) = [st]
              /\ insert_carries "monster_condition_immunities" st rec /\ s' = set_add s k.
Proof.
  intros Hidx H. unfold condition_immunity in *. w_pure H c Hc. exists c. split; [done|].
  destruct (set_has s c) eqn:E.
  - by injection H as <-.
  - w_pure H i Hi. w_pure H c' Hc'. w_step H z Hz. w_pure H a Ha.
    injection H as <-.
    exists [("monster_index", idx); ("condition_index", c)],
      (InsertValues "monster_condition_immunities" ["monster_index"; "condition_index"]
         [idx; c]).
    split; [cbn; by rewrite Hc|]. split; [cbn; congruence|].
    split; [by right | congruence].
Qed.

Lemma monster_body_nested net doc c pcol :
  outcome (monster_body doc) = Ok tt -> (c, pcol) ∈ child_tables monsters_desc ->
  exists records, nested c net doc = Ok records
    /\ Forall2 (insert_carries c) (inserts_into c (issued (monster_body doc))) records.
Proof.
  unfold monster_body. intros H Hc. w_pure H record Hrec.
  apply object_cons in Hrec as (idx & vs & Hidx & _ & ->).
  w_step H u Hu. cbn [queryAsync issued].
  w_delete H idx Hidx. w_delete H idx Hidx.
  w_pure H profs Hprofs. w_step H l1 Hl1.
  w_pure H conds Hconds. w_step H l2 Hl2.
  child_cases Hc; sort_inserts.
  - rewrite (inserts_into_other _ (issued (for_of_with conds [] _)))
      by (apply for_of_with_all; intros; unfold condition_immunity; other_table).
    cbn [app]. rewrite ?app_nil_r. destruct l1.
    eapply (for_of_carries "monster_proficiencies" profs _
              (fun x => object (("monster_index", Ok idx)
                                  :: map (fun c => (fst c, snd c x))
                                       [ ("proficiency_index",
                                           fun x => get x "proficiency" ≫= fun p => get p "index");
                                         ("value", fun x => get x "value") ]))) in Hl1
      as (records & Hr & Hall).
    2:{ intros x u' Hx.
        exact (insert_set_carries doc idx "monster_proficiencies" "monster_index"
                 [ ("proficiency_index",
                     fun x => get x "proficiency" ≫= fun p => get p "index");
                   ("value", fun x => get x "value") ] x u' Hidx Hx). }
    exists records. split; [|by rewrite (carries_all _ _ _ Hall)].
    unfold nested. cbn [assoc nested_collections String.eqb Ascii.eqb Bool.eqb].
    rewrite Hidx. cbn [mbind result_bind]. unfold array_of. eval_append.
    rewrite Hprofs.
    cbn [mbind result_bind]. exact Hr.
  - rewrite (for_of_other_table _ profs)
      by (intros ?; unfold monster_proficiency; other_table).
    cbn [app].
    eapply (for_of_with_carries "monster_condition_immunities" (fun x => get x "index")
              (fun x => object [("monster_index", Ok idx); ("condition_index", get x "index")]))
      in Hl2 as (kept & records & Hk & Hr & Hall).
    2:{ intros s x s' Hx. by apply condition_immunity_carries. }
    exists records. split; [|by rewrite (carries_all _ _ _ Hall)].
    unfold nested. cbn [assoc nested_collections String.eqb Ascii.eqb Bool.eqb].
    rewrite Hidx. cbn [mbind result_bind]. unfold array_of. eval_append.
    rewrite Hconds.
    cbn [mbind result_bind]. rewrite Hk. cbn [mbind result_bind]. exact Hr.
Qed.
Lemma subclass_spell_carries doc idx s x s' :
  get doc "index" = Ok idx ->
  outcome (subclass_spell doc s x) = Ok s' ->
  exists k, (get x "spell" ≫= fun sp => get sp "index") = Ok k
    /\ if set_has s k then issued (subclass_spell doc s x) = [] /\ s' = s
       else exists rec st,
              object (("subclass_index", Ok idx)
                        :: map (fun c => (fst c, snd c x))
                             [ ("spell_index",
                                 fun x => get x "spell" ≫= fun sp => get sp "index");
                               ("prerequisites",
                                 fun x => stringify_of (get x "prerequisites" ≫= pluck "index")) ])
              = Ok rec
              /\ issued (subclass_spell doc s x) = [st]
              /\ insert_carries "subclass_spells" st rec /\ s' = set_add s k.
Proof.
  intros Hidx H. unfold subclass_spell in *. w_pure H c Hc. exists c. split; [done|].
  destruct (set_has s c) eqn:E.
  - by injection H as <-.
  - w_pure H rec Hrec. w_step H z Hz. w_pure H a Ha. injection H as <-.
    rewrite Hidx in Hrec.
    exists rec, (InsertSet "subclass_spells" rec).
    split; [exact Hrec|]. split; [done|]. split; [by left | congruence].
Qed.

Lemma subclass_item_nested net doc body c pcol :
  subclass_item net doc = Ok body -> outcome body = Ok tt ->
  (c, pcol) ∈ child_tables subclasses_desc ->
  exists records, nested c net doc = Ok records
    /\ Forall2 (insert_carries c) (inserts_into c (issued body)) records.
Proof.
  unfold subclass_item. intros Hitem H Hc.
  apply bind_result_inv in Hitem as (link & Hlink & Hitem).
  apply bind_result_inv in Hitem as (levelsData & Hfetch & [= <-]).
  unfold subclass_body in *. w_pure H record Hrec.
  apply object_cons in Hrec as (idx & vs & Hidx & _ & ->).
  w_step H u Hu. cbn [queryAsync issued].
  w_delete H idx Hidx. w_delete H idx Hidx.
  w_pure H levels Hlevels. w_step H l1 Hl1.
  w_pure H spells Hspells.
  child_cases Hc; sort_inserts.
  - assert (Hnone : inserts_into "subclass_levels"
                      (issued (if truthy spells
                               then spells0 ← pure (get doc "spells"
                                                    ≫= iterate "detailData.spells");
                                    for_of_with spells0 [] (subclass_spell doc);; mret ()
                               else mret ())) = []).
    { apply inserts_into_other. destruct (truthy spells); [|exact (Forall_nil_2 _)].
      apply W_bind_all; [exact (Forall_nil_2 _)|]. intros sps _.
      apply W_bind_all; [|intros; exact (Forall_nil_2 _)].
      apply for_of_with_all. intros. unfold subclass_spell. other_table. }
    rewrite Hnone, app_nil_r. destruct l1.
    eapply (for_of_carries "subclass_levels" levels _
              (fun x => object (("subclass_index", Ok idx)
                                  :: map (fun c => (fst c, snd c x))
                                       [ ("level", fun x => get x "level");
                                         ("features",
                                           fun x => stringify_of
                                                      (get x "features" ≫= pluck "index")) ])))
      in Hl1 as (records & Hr & Hall).
    2:{ intros x u' Hx.
        exact (insert_set_carries doc idx "subclass_levels" "subclass_index"
                 [ ("level", fun x => get x "level");
                   ("features",
                     fun x => stringify_of (get x "features" ≫= pluck "index")) ]
                 x u' Hidx Hx). }
    exists records. split; [|by rewrite (carries_all _ _ _ Hall)].
    unfold nested. cbn [assoc nested_collections String.eqb Ascii.eqb Bool.eqb].
    rewrite Hidx. cbn [mbind result_bind]. unfold levels_of. rewrite Hlink.
    cbn [mbind result_bind]. rewrite Hfetch. cbn [mbind result_bind]. rewrite Hlevels.
    cbn [mbind result_bind]. exact Hr.
  - rewrite (for_of_other_table _ levels) by (intros ?; other_table).
    cbn [app].
    unfold nested. cbn [assoc nested_collections String.eqb Ascii.eqb Bool.eqb].
    rewrite Hidx. cbn [mbind result_bind].
    destruct (truthy spells) eqn:Et.
    + w_pure H sps Hsps. w_step H l2 Hl2. rewrite app_nil_r.
      rewrite Hspells. cbn [mbind result_bind]. rewrite Et.
      eapply (for_of_with_carries "subclass_spells"
                (fun x => get x "spell" ≫= fun sp => get sp "index")
                (fun x => object (("subclass_index", Ok idx)
                        :: map (fun c => (fst c, snd c x))
                             [ ("spell_index",
                                 fun x => get x "spell" ≫= fun sp => get sp "index");
                               ("prerequisites",
                                 fun x => stringify_of
                                            (get x "prerequisites" ≫= pluck "index")) ])))
        in Hl2 as (kept & records & Hk & Hr & Hall).
      2:{ intros s x s' Hx. by apply subclass_spell_carries. }
      exists records. split; [|by rewrite (carries_all _ _ _ Hall)].
      unfold array_of. eval_append. rewrite Hsps. cbn [mbind result_bind].
      rewrite Hk. cbn [mbind result_bind]. exact Hr.
    + rewrite Hspells. cbn [mbind result_bind]. rewrite Et.
      exists []. split; [done | constructor].
Qed.
Lemma starting_equipment_carries doc idx x u :
  get doc "index" = Ok idx ->
  outcome (starting_equipment_item doc x) = Ok u ->
  exists keep,
    (equipment ← get x "equipment";
     if truthy equipment then truthy <$> get equipment "index" else Ok false) = Ok keep
    /\ if keep : bool
       then exists rec st,
              object (("class_index", Ok idx)
                        :: map (fun c => (fst c, snd c x))
                             [ ("equipment_index",
                                 fun x => get x "equipment" ≫= fun e => get e "index");
                               ("quantity", fun x => get x "quantity") ]) = Ok rec
              /\ issued (starting_equipment_item doc x) = [st]
              /\ insert_carries "class_starting_equipment" st rec
       else issued (starting_equipment_item doc x) = [].
Proof.
  intros Hidx H. unfold starting_equipment_item in *.
  w_pure H equipment Heq. w_pure H wanted Hw. exists wanted.
  destruct wanted.
  2:{ split; [|done]. rewrite Heq. exact Hw. }
  w_pure H i Hi. w_pure H ei Hei. w_pure H q Hq.
  split; [rewrite Heq; exact Hw|].
  exists [("class_index", idx); ("equipment_index", ei); ("quantity", q)],
    (InsertValues "class_starting_equipment" ["class_index"; "equipment_index"; "quantity"]
       [idx; ei; q]).
  split; [cbn [map fst snd object]; by rewrite Hq, Hei|].
  split; [cbn; congruence | by right].
Qed.

Lemma class_spell_carries doc idx x u :
  get doc "index" = Ok idx ->
  outcome (index ← pure (get doc "index");
           spell_index ← pure (get x "index");
           level ← pure (get x "level");
           queryAsync (InsertValues "class_spells"
                         ["class_index"; "spell_index"; "level_acquired"]
                         [index; spell_index; level])) = Ok u ->
  exists rec s,
    object (("class_index", Ok idx)
              :: map (fun c => (fst c, snd c x))
                   [ ("spell_index", fun x => get x "index");
                     ("level_acquired", fun x => get x "level") ]) = Ok rec
    /\ issued (index ← pure (get doc "index");
               spell_index ← pure (get x "index");
               level ← pure (get x "level");
               queryAsync (InsertValues "class_spells"
                             ["class_index"; "spell_index"; "level_acquired"]
                             [index; spell_index; level])) = [s]
    /\ insert_carries "class_spells" s rec.
Proof.
  intros Hidx H. w_pure H i Hi. w_pure H si Hsi. w_pure H lv Hlv.
  exists [("class_index", idx); ("spell_index", si); ("level_acquired", lv)],
    (InsertValues "class_spells" ["class_index"; "spell_index"; "level_acquired"]
       [idx; si; lv]).
  split; [cbn; by rewrite Hsi, Hlv|]. split; [cbn; congruence | by right].
Qed.

Lemma class_item_nested net doc body c pcol :
  class_item net doc = Ok body -> outcome body = Ok tt ->
  (c, pcol) ∈ child_tables classes_desc ->
  exists records, nested c net doc = Ok records
    /\ Forall2 (insert_carries c) (inserts_into c (issued body)) records.
Proof.
  unfold class_item. intros Hitem H Hc.
  apply bind_result_inv in Hitem as (link & Hlink & Hitem).
  apply bind_result_inv in Hitem as (levelsData & Hfetch & Hitem).
  apply bind_result_inv in Hitem as (sp & Hsp & Hitem).
  apply bind_result_inv in Hitem as (spellsData & Hspells & [= <-]).
  assert (Hlist : exists spells, spells_of net doc = Ok spells
                    /\ match spellsData with JArr xs => xs | _ => [] end = spells).
  { unfold spells_of. rewrite Hsp. cbn [mbind result_bind].
    destruct (truthy sp).
    - rewrite Hsp in Hspells. cbn [mbind result_bind] in Hspells.
      destruct (fetch net (api ++ js_String sp)) as [spellsJson|]; [|done].
      cbn [mbind result_bind] in *.
      destruct (get spellsJson "results") as [results|] eqn:Er;
        cbn [mbind result_bind] in *; [|done].
      eexists. split; [reflexivity|].
      destruct (truthy results) eqn:Et.
      + by injection Hspells as <-.
      + injection Hspells as <-. by destruct results.
    - injection Hspells as <-. by exists []. }
  destruct Hlist as (spells & Hso & Hsd).
  unfold class_body in *. w_pure H record Hrec.
  apply object_cons in Hrec as (idx & vs & Hidx & _ & ->).
  w_step H u Hu. cbn [queryAsync issued].
  w_delete H idx Hidx. w_delete H idx Hidx. w_delete H idx Hidx.
  w_delete H idx Hidx. w_delete H idx Hidx.
  w_pure H levels Hlevels. w_step H l1 Hl1.
  w_step H l2 Hl2.
  w_pure H choices Hchoices. w_step H l3 Hl3.
  w_pure H equipment Hequipment. w_step H l4 Hl4.
  w_pure H options Hoptions.
  assert (Hspl : forall t, t <> "class_spells" ->
            inserts_into t
              (issued (match spellsData with
                       | JArr spells0 =>
                           for_of spells0 (fun spell =>
                             index ← pure (get doc "index");
                             spell_index ← pure (get spell "index");
                             level ← pure (get spell "level");
                             queryAsync (InsertValues "class_spells"
                                           ["class_index"; "spell_index"; "level_acquired"]
                                           [index; spell_index; level]))
                       | _ => mret ()
                       end)) = []).
  { intros t Ht. apply inserts_into_other.
    destruct spellsData; try exact (Forall_nil_2 _).
    apply for_of_all. intros x.
    repeat (apply W_bind_all; [exact (Forall_nil_2 _)|intros ? _]).
    refine (Forall_cons_2 _ _ _ _ (Forall_nil_2 _)). unfold queryAsync, inserts.
    apply String.eqb_neq. congruence. }
  child_cases Hc; sort_inserts.
  - (* levels *)
    rewrite (Hspl "class_levels") by done.
    rewrite (for_of_other_table _ (entries choices)) by (intros ?; other_table).
    rewrite (for_of_other_table _ equipment) by (intros ?; other_table).
    rewrite (for_of_other_table _ (entries options)) by (intros ?; other_table).
    cbn [app]. rewrite ?app_nil_r. destruct l1.
    eapply (for_of_carries "class_levels" levels _
              (fun x => object (("class_index", Ok idx)
                 :: map (fun c => (fst c, snd c x))
                      [ ("level", fun x => get x "level");
                        ("ability_score_bonuses", fun x => get x "ability_score_bonuses");
                        ("prof_bonus", fun x => get x "prof_bonus");
                        ("features", fun x => stringify_of (get x "features" ≫= pluck "name"));
                        ("class_specific", fun x => stringify_of (get x "class_specific")) ])))
      in Hl1 as (records & Hr & Hall).
    2:{ intros x u' Hx.
        exact (insert_set_carries doc idx "class_levels" "class_index"
                 [ ("level", fun x => get x "level");
                   ("ability_score_bonuses", fun x => get x "ability_score_bonuses");
                   ("prof_bonus", fun x => get x "prof_bonus");
                   ("features", fun x => stringify_of (get x "features" ≫= pluck "name"));
                   ("class_specific", fun x => stringify_of (get x "class_specific")) ]
                 x u' Hidx Hx). }
    exists records. split; [|by rewrite (carries_all _ _ _ Hall)].
    unfold nested. cbn [assoc nested_collections String.eqb Ascii.eqb Bool.eqb].
    rewrite Hidx. cbn [mbind result_bind]. unfold levels_of. rewrite Hlink.
    cbn [mbind result_bind]. rewrite Hfetch. cbn [mbind result_bind]. rewrite Hlevels.
    cbn [mbind result_bind]. exact Hr.
  - (* spells *)
    rewrite (for_of_other_table _ levels) by (intros ?; other_table).
    rewrite (for_of_other_table _ (entries choices)) by (intros ?; other_table).
    rewrite (for_of_other_table _ equipment) by (intros ?; other_table).
    rewrite (for_of_other_table _ (entries options)) by (intros ?; other_table).
    cbn [app]. rewrite ?app_nil_r.
    assert (Hloop : exists records,
              child_records "class_index" idx
                [ ("spell_index", fun x => get x "index");
                  ("level_acquired", fun x => get x "level") ] spells = Ok records
              /\ Forall2 (insert_carries "class_spells")
                   (issued (match spellsData with
                            | JArr spells0 =>
                                for_of spells0 (fun spell =>
                                  index ← pure (get doc "index");
                                  spell_index ← pure (get spell "index");
                                  level ← pure (get spell "level");
                                  queryAsync (InsertValues "class_spells"
                                                ["class_index"; "spell_index"; "level_acquired"]
                                                [index; spell_index; level]))
                            | _ => mret ()
                            end)) records).
    { destruct spellsData; subst spells;
        try (exists []; split; [done | constructor]). destruct l2.
      eapply (for_of_carries "class_spells" xs _
                (fun x => object (("class_index", Ok idx)
                   :: map (fun c => (fst c, snd c x))
                        [ ("spell_index", fun x => get x "index");
                          ("level_acquired", fun x => get x "level") ]))) in Hl2
        as (records & Hr & Hall).
      2:{ intros x u' Hx. exact (class_spell_carries doc idx x u' Hidx Hx). }
      by exists records. }
    destruct Hloop as (records & Hr & Hall).
    exists records. split; [|by rewrite (carries_all _ _ _ Hall)].
    unfold nested. cbn [assoc nested_collections String.eqb Ascii.eqb Bool.eqb].
    rewrite Hidx. cbn [mbind result_bind]. rewrite Hso. cbn [mbind result_bind]. exact Hr.
  - (* proficiency choices *)
    rewrite (Hspl "class_proficiency_choices") by done.
    rewrite (for_of_other_table _ levels) by (intros ?; other_table).
    rewrite (for_of_other_table _ equipment) by (intros ?; other_table).
    rewrite (for_of_other_table _ (entries options)) by (intros ?; other_table).
    cbn [app]. rewrite ?app_nil_r. destruct l3.
    eapply (for_of_carries "class_proficiency_choices" (entries choices) _
              (fun x => object (("class_index", Ok idx)
                 :: map (fun c => (fst c, snd c x))
                      [ ("choice_index", fun ix : Z * jsval => Ok (JNum (fst ix)));
                        ("description", fun ix => get (snd ix) "desc");
                        ("choose", fun ix => get (snd ix) "choose");
                        ("type", fun ix => get (snd ix) "type");
                        ("options", fun ix => stringify_of (proficiency_options (snd ix))) ])))
      in Hl3 as (records & Hr & Hall).
    2:{ intros x u' Hx. unfold proficiency_choice in Hx |- *.
        exact (insert_set_carries doc idx "class_proficiency_choices" "class_index"
                 [ ("choice_index", fun ix : Z * jsval => Ok (JNum (fst ix)));
                   ("description", fun ix => get (snd ix) "desc");
                   ("choose", fun ix => get (snd ix) "choose");
                   ("type", fun ix => get (snd ix) "type");
                   ("options", fun ix => stringify_of (proficiency_options (snd ix))) ]
                 x u' Hidx Hx). }
    exists records. split; [|by rewrite (carries_all _ _ _ Hall)].
    unfold nested. cbn [assoc nested_collections String.eqb Ascii.eqb Bool.eqb].
    rewrite Hidx. cbn [mbind result_bind]. rewrite Hchoices.
    cbn [mbind result_bind]. exact Hr.
  - (* starting equipment *)
    rewrite (Hspl "class_starting_equipment") by done.
    rewrite (for_of_other_table _ levels) by (intros ?; other_table).
    rewrite (for_of_other_table _ (entries choices)) by (intros ?; other_table).
    rewrite (for_of_other_table _ (entries options)) by (intros ?; other_table).
    cbn [app]. rewrite ?app_nil_r. destruct l4.
    eapply (for_of_those "class_starting_equipment"
              (fun x => equipment ← get x "equipment";
                        if truthy equipment then truthy <$> get equipment "index"
                        else Ok false)
              (fun x => object (("class_index", Ok idx)
                 :: map (fun c => (fst c, snd c x))
                      [ ("equipment_index",
                          fun x => get x "equipment" ≫= fun e => get e "index");
                        ("quantity", fun x => get x "quantity") ])))
      in Hl4 as (kept & records & Hk & Hr & Hall).
    2:{ intros x u' Hx. exact (starting_equipment_carries doc idx x u' Hidx Hx). }
    exists records. split; [|by rewrite (carries_all _ _ _ Hall)].
    unfold nested. cbn [assoc nested_collections String.eqb Ascii.eqb Bool.eqb].
    rewrite Hidx. cbn [mbind result_bind]. unfold array_of. eval_append.
    rewrite Hequipment. cbn [mbind result_bind]. rewrite Hk. cbn [mbind result_bind].
    exact Hr.
  - (* starting equipment options *)
    rewrite (Hspl "class_starting_equipment_options") by done.
    rewrite (for_of_other_table _ levels) by (intros ?; other_table).
    rewrite (for_of_other_table _ (entries choices)) by (intros ?; other_table).
    rewrite (for_of_other_table _ equipment) by (intros ?; other_table).
    cbn [app].
    eapply (for_of_carries "class_starting_equipment_options" (entries options) _
              (fun x => object (("class_index", Ok idx)
                 :: map (fun c => (fst c, snd c x))
                      [ ("choice_index", fun ix : Z * jsval => Ok (JNum (fst ix)));
                        ("description", fun ix => get (snd ix) "desc");
                        ("choose", fun ix => get (snd ix) "choose");
                        ("options",
                          fun ix => stringify_of
                                      (get (snd ix) "from" ≫= fun f => get f "options")) ])))
      in H as (records & Hr & Hall).
    2:{ intros x u' Hx.
        exact (insert_set_carries doc idx "class_starting_equipment_options" "class_index"
                 [ ("choice_index", fun ix : Z * jsval => Ok (JNum (fst ix)));
                   ("description", fun ix => get (snd ix) "desc");
                   ("choose", fun ix => get (snd ix) "choose");
                   ("options",
                     fun ix => stringify_of
                                 (get (snd ix) "from" ≫= fun f => get f "options")) ]
                 x u' Hidx Hx). }
    exists records. split; [|by rewrite (carries_all _ _ _ Hall)].
    unfold nested. cbn [assoc nested_collections String.eqb Ascii.eqb Bool.eqb].
    rewrite Hidx. cbn [mbind result_bind]. rewrite Hoptions.
    cbn [mbind result_bind]. exact Hr.
Qed.

(** ** The rows of the nested collections *)

Lemma item_nested D item net doc body c pcol :
  (D, item) ∈ enriched_resources -> item net doc = Ok body -> outcome body = Ok tt ->
  (c, pcol) ∈ child_tables D ->
  exists records, nested c net doc = Ok records
    /\ Forall2 (insert_carries c) (inserts_into c (issued body)) records.
Proof.
  intros Hin Hitem Ho Hc. unfold enriched_resources in Hin.
  repeat (apply elem_of_cons in Hin as [[= -> ->] | Hin]);
    try (by apply elem_of_nil in Hin).
  - exact (class_item_nested net doc body c pcol Hitem Ho Hc).
  - injection Hitem as <-. exact (monster_body_nested net doc c pcol Ho Hc).
  - injection Hitem as <-. exact (proficiency_body_nested net doc c pcol Ho Hc).
  - injection Hitem as <-. exact (race_body_nested net doc c pcol Ho Hc).
  - injection Hitem as <-. exact (spell_body_nested net doc c pcol Ho Hc).
  - exact (subclass_item_nested net doc body c pcol Hitem Ho Hc).
  - injection Hitem as <-. exact (trait_body_nested net doc c pcol Ho Hc).
Qed.

Lemma bind_stored v s : bind v = Ok s -> stored_value v = s.
Proof. unfold stored_value, bind_set. destruct v; try done; by intros ->. Qed.

Lemma bind_set_stored v s : bind_set v = Ok s -> stored_value v = s.
Proof. unfold stored_value. by intros ->. Qed.

Lemma given_stored (f : jsval -> result sqlval) rec vals c :
  (forall v s, f v = Ok s -> stored_value v = s) ->
  rmap f (map snd rec) = Ok vals ->
  default SNull (assoc c (zip (map fst rec) vals))
  = stored_value (default JUndefined (assoc c rec)).
Proof.
  intros Hf. revert vals. induction rec as [|[k v] rec IH]; intros vals H.
  - by injection H as <-.
  - cbn [map fst snd rmap] in H.
    apply bind_result_inv in H as (s & Hs & H).
    apply bind_result_inv in H as (ss & Hss & [= <-]).
    cbn [map fst zip zip_with assoc]. destruct (String.eqb c k); [|by apply IH].
    cbn [default]. symmetry. by apply Hf.
Qed.

(** The row an insert that carries a record makes is the row of the
    record. *)
Lemma carried_row c s rec sch r :
  insert_carries c s rec -> stmt_row s = Ok (sch, r) ->
  schema_of c = Some sch /\ r = row_of sch rec.
Proof.
  intros [->| ->] H; cbn [stmt_row] in H;
    (destruct (schema_of c) as [sch'|]; [|done]);
    apply bind_result_inv in H as (vals & Hv & H);
    apply bind_result_inv in H as (r' & Hr & [= <- <-]);
    (split; [done|]);
    apply make_row_inv in Hr as (-> & _); unfold row_of; apply map_ext; intros col;
    f_equal.
  - by apply (given_stored bind_set); [apply bind_set_stored|].
  - by apply (given_stored bind); [apply bind_stored|].
Qed.

(** The statements a store has run were all accepted. *)
Lemma exec_all_rows_ok ss d d' :
  exec_all ss d = (Ok tt, d') ->
  Forall (fun s => is_insert s = true -> is_ok (stmt_row s) = true) ss.
Proof.
  revert d. induction ss as [|s ss IH]; intros d H; [constructor|].
  cbn [exec_all] in H. destruct (exec s d) as [d1|] eqn:Es; [|done].
  constructor; [|by eapply IH]. intros Hi.
  rewrite exec_insert in Es by (by destruct s).
  by destruct (stmt_row s) as [[sch r]|].
Qed.

Lemma inserted_records c ss records sch :
  schema_of c = Some sch -> Forall2 (insert_carries c) ss records ->
  Forall (fun s => is_insert s = true -> is_ok (stmt_row s) = true) ss ->
  inserted ss = map (row_of sch) records.
Proof.
  intros Hs H. induction H as [|s rec ss records Hc _ IH]; intros Hall; [done|].
  apply Forall_cons in Hall as [H1 Hall]. rewrite inserted_cons. cbn [map].
  destruct (stmt_row s) as [[sch' r]|] eqn:Er.
  - destruct (carried_row _ _ _ _ _ Hc Er) as [Hs' ->].
    assert (sch' = sch) as -> by congruence. by rewrite IH.
  - exfalso. assert (is_insert s = true) as Hi by (by destruct Hc as [->| ->]).
    by specialize (H1 Hi).
Qed.

(** What a committed item leaves in a child table under its key: the rows
    of the records its inserts carry. *)
Lemma committed_records D doc body d d' c pcol idx records :
  descriptor_ok D = true -> shaped D doc body -> (c, pcol) ∈ child_tables D ->
  wf_db d -> transaction body d = (Ok tt, d') -> get doc "index" = Ok idx ->
  Forall2 (insert_carries c) (inserts_into c (issued body)) records ->
  exists sch, schema_of c = Some sch
    /\ filter (fun r => row_get r pcol = key_val idx) (rows_of d' c)
       = map (row_of sch) records.
Proof.
  intros HD Hsh Hc Hd Ht Hidx Hall.
  destruct (committed_child_rows D doc body d d' c pcol idx HD Hsh Hc Hd Ht Hidx)
    as (Hrows & _).
  destruct (child_schema D HD c pcol Hc) as (sch & Hs & _).
  exists sch. split; [done|]. rewrite Hrows. apply (inserted_records c); [done..|].
  unfold transaction, run in Ht.
  destruct (exec_all (issued body) d) as [[[]|] d1] eqn:He; [|done].
  apply exec_all_rows_ok in He. rewrite Forall_forall in He |- *.
  intros s Hin. apply He. by apply list_elem_of_filter in Hin as [_ ?].
Qed.

Lemma unique_rows_false sch tbl :
  unique_rows sch tbl = false ->
  exists i j r r', (i < j)%nat /\ tbl !! i = Some r /\ tbl !! j = Some r'
    /\ conflicts sch r r' = true.
Proof.
  induction tbl as [|r tbl IH]; [done|]. cbn [unique_rows].
  destruct (existsb (conflicts sch r) tbl) eqn:E; cbn [negb andb].
  - intros _. apply existsb_exists in E as (r' & Hin & Hc).
    apply list_elem_of_In, list_elem_of_lookup in Hin as [j Hj].
    exists 0%nat, (S j), r, r'. split; [lia|]. done.
  - intros H. destruct (IH H) as (i & j & x & y & Hij & Hi & Hj & Hc).
    exists (S i), (S j), x, y. split; [lia|]. done.
Qed.

Lemma first_by_strings key xs names seen :
  Forall2 (fun x s => key x = Ok (JStr s)) xs names ->
  exists kept, first_by key (map JStr seen) xs = Ok kept
    /\ Forall2 (fun x s => key x = Ok (JStr s)) kept (first_seen seen names).
Proof.
  intros H. revert seen. induction H as [|x s xs names Hx _ IH]; intros seen.
  - exists []. split; [done | constructor].
  - cbn [first_by first_seen]. rewrite Hx. cbn [mbind result_bind].
    rewrite set_has_strings. case_bool_decide as Hs; [apply IH|].
    assert (set_add (map JStr seen) (JStr s) = map JStr (seen ++ [s])) as ->.
    { unfold set_add. rewrite set_has_strings, bool_decide_eq_false_2 by done.
      by rewrite map_app. }
    destruct (IH (seen ++ [s])%list) as (kept & -> & Hk). cbn [mbind result_bind].
    exists (x :: kept). split; [done|]. by constructor.
Qed.

Lemma child_records_keys pcol kcol idx cols (key : jsval -> result jsval) kept names records :
  kcol <> pcol -> assoc kcol cols = Some key ->
  Forall2 (fun x s => key x = Ok (JStr s)) kept names ->
  child_records pcol idx cols kept = Ok records ->
  map (assoc kcol) records = map (fun s => Some (JStr s)) names.
Proof.
  intros Hne Hk H. revert records. unfold child_records.
  induction H as [|x s kept names Hx _ IH]; intros records Hr.
  - by injection Hr as <-.
  - cbn [rmap] in Hr. apply bind_result_inv in Hr as (rec & Hrec & Hr).
    apply bind_result_inv in Hr as (recs & Hrecs & [= <-]).
    cbn [map]. rewrite (IH _ Hrecs). f_equal.
    apply (object_assoc _ _ kcol (key x)) in Hrec as (v & Hv & ->); [congruence|].
    cbn [assoc]. apply String.eqb_neq in Hne. rewrite Hne.
    clear -Hk. induction cols as [|[k f] cols IH]; [done|].
    cbn [map assoc fst snd] in *. destruct (String.eqb kcol k); [congruence | auto].
Qed.

(** The keys the records of a [Set] loop carry: those of the entries, each
    the first time it is met. *)
Lemma set_loop_keys c kcol field key net doc xs names records :
  (c, (kcol, (field, key))) ∈ set_loops ->
  get doc field = Ok (JArr xs) ->
  Forall2 (fun x s => key x = Ok (JStr s)) xs names ->
  nested c net doc = Ok records ->
  map (assoc kcol) records = map (fun s => Some (JStr s)) (first_seen [] names).
Proof.
  intros Hin Hf Hall Hn. unfold set_loops in Hin.
  destruct (first_by_strings key xs names [] Hall) as (kept & Hk & Hkept).
  repeat (apply elem_of_cons in Hin as [[= -> -> -> ->] | Hin]);
    try (by apply elem_of_nil in Hin);
    unfold nested in Hn;
    cbn [assoc nested_collections String.eqb Ascii.eqb Bool.eqb] in Hn;
    apply bind_result_inv in Hn as (idx & Hidx & Hn).
  - unfold array_of in Hn. rewrite Hf in Hn. cbn [mbind result_bind iterate] in Hn.
    cbn [map] in Hk. rewrite Hk in Hn. cbn [mbind result_bind] in Hn.
    eapply child_records_keys; [| |exact Hkept|exact Hn]; done.
  - rewrite Hf in Hn. cbn [mbind result_bind truthy] in Hn.
    unfold array_of in Hn. rewrite Hf in Hn. cbn [mbind result_bind iterate] in Hn.
    cbn [map] in Hk. rewrite Hk in Hn. cbn [mbind result_bind] in Hn.
    eapply child_records_keys; [| |exact Hkept|exact Hn]; done.
Qed.

Lemma keyless_tables D item c pcol sch :
  (D, item) ∈ enriched_resources -> (c, pcol) ∈ child_tables D ->
  schema_of c = Some sch ->
  unique_key sch = [] <-> c ∈ keyless.
Proof.
  intros Hin Hc Hs. unfold enriched_resources in Hin.
  repeat (apply elem_of_cons in Hin as [[= -> ->] | Hin]);
    try (by apply elem_of_nil in Hin);
    cbn [child_tables classes_desc monsters_desc proficiencies_desc races_desc spells_desc
           subclasses_desc traits_desc] in Hc;
    repeat (apply elem_of_cons in Hc as [[= -> ->] | Hc]);
    try (by apply elem_of_nil in Hc);
    vm_compute in Hs; injection Hs as <-; cbn [unique_key]; unfold keyless;
    split; intros H; first [ discriminate H | set_solver | by in_list | idtac ].
Qed.

(** C1 (amended). For every enriched resource and every item whose
    transaction commits: the item sent the upsert of its parent row, then
    one delete per child table under its natural key, then the inserts; and
    in each child table the rows under that key are, after the transaction,
    exactly the rows of the nested collection of the current detail
    document as the sync extracts it ([nested]), in document order, and the
    rows of every other parent are untouched. *)
Theorem child_tables_replaced D item net detailData body d d' :
  (D, item) ∈ enriched_resources -> wf_db d ->
  item net detailData = Ok body ->
  transaction body d = (Ok tt, d') ->
  exists idx p,
    get detailData "index" = Ok idx /\ bind idx = Ok p /\ p <> SNull
    /\ snapshot_script D idx (issued body)
    /\ forall c pcol, (c, pcol) ∈ child_tables D ->
         exists sch records,
           schema_of c = Some sch /\ nested c net detailData = Ok records
           /\ filter (fun r => row_get r pcol = p) (rows_of d' c) = map (row_of sch) records
           /\ filter (fun r => row_get r pcol <> p) (rows_of d' c)
              = filter (fun r => row_get r pcol <> p) (rows_of d c).
Proof.
  intros Hin Hd Hitem Ht.
  pose proof enriched_shaped as Hall. rewrite Forall_forall in Hall.
  destruct (Hall _ Hin) as [HD Hs]. cbn [fst snd] in HD, Hs.
  pose proof (Hs _ _ _ Hitem) as Hsh.
  pose proof (transaction_snapshot D detailData body d HD Hd Hsh) as H.
  destruct (transaction body ∅) as [[[]|x] e] eqn:Ee.
  2:{ destruct H as [x' H]. congruence. }
  destruct H as (H1 & Hf & _ & idx & Hidx & Hb & Hn).
  assert (Hk : key_val idx = snapshot_key D e) by (unfold key_val; by rewrite Hb).
  assert (Ho : outcome body = Ok tt).
  { unfold transaction, run in Ee.
    destruct (exec_all (issued body) ∅) as [[[]|] e0]; [|done].
    by destruct (outcome body) as [[]|]. }
  destruct (Hsh Ho) as (idx' & Hidx' & Hss). assert (idx' = idx) as -> by congruence.
  exists idx, (snapshot_key D e). do 4 (split; [done|]).
  intros c pcol Hc.
  destruct (item_nested D item net detailData body c pcol Hin Hitem Ho Hc)
    as (records & Hn' & Hcar).
  destruct (committed_records D detailData body d d' c pcol idx records HD Hsh Hc Hd Ht Hidx Hcar)
    as (sch & Hsch & Hrows).
  exists sch, records. split; [done|]. split; [done|]. rewrite <- Hk. split; [done|].
  rewrite H1 in Ht. injection Ht as <-.
  destruct Hf as (Hown & Hdom & _ & _). destruct (Hdom c pcol Hc) as [X HX].
  destruct (child_schema D HD c pcol Hc) as (_ & _ & _ & _ & Hne & Ha).
  rewrite rows_of_overlay, HX. unfold combine.
  rewrite bool_decide_eq_false_2 by done. rewrite Ha, Hk.
  apply filter_repl_other. by eapply Hown.
Qed.

(** C4 (amended). For every child table of an enriched resource and every
    item whose body maps its document: the inserts sent to the table carry
    the records of the nested collection, one insert per record, in order.
    The two loops that keep a [Set] ([set_loops]: the condition immunities
    of a monster, the spells of a subclass) send one insert per key, for
    the entry that has it first.  When the item's transaction commits, the
    table holds under the item's key the row of every record.  When two of
    the records collide on the unique key of the table, the transaction does
    not commit: the store is left as it was, with an error.  The three class
    tables of [keyless] have no unique key, and no other child table. *)
Theorem repeats_skipped_by_set_loops D item net detailData body c pcol :
  (D, item) ∈ enriched_resources -> (c, pcol) ∈ child_tables D ->
  item net detailData = Ok body -> outcome body = Ok tt ->
  exists sch records,
    schema_of c = Some sch /\ nested c net detailData = Ok records
    /\ Forall2 (insert_carries c) (inserts_into c (issued body)) records
    /\ (forall kcol field key xs names,
          (c, (kcol, (field, key))) ∈ set_loops ->
          get detailData field = Ok (JArr xs) ->
          Forall2 (fun x s => key x = Ok (JStr s)) xs names ->
          map (assoc kcol) records = map (fun s => Some (JStr s)) (first_seen [] names)
          /\ NoDup (first_seen [] names)
          /\ (forall s, s ∈ first_seen [] names <-> s ∈ names))
    /\ (forall d d', wf_db d -> transaction body d = (Ok tt, d') ->
          exists idx, get detailData "index" = Ok idx
            /\ filter (fun r => row_get r pcol = key_val idx) (rows_of d' c)
               = map (row_of sch) records)
    /\ (forall d, wf_db d -> unique_rows sch (map (row_of sch) records) = false ->
          exists e, transaction body d = (Err e, d))
    /\ (unique_key sch = [] <-> c ∈ keyless).
Proof.
  intros Hin Hc Hitem Ho.
  pose proof enriched_shaped as Hall. rewrite Forall_forall in Hall.
  destruct (Hall _ Hin) as [HD Hs]. cbn [fst snd] in HD, Hs.
  pose proof (Hs _ _ _ Hitem) as Hsh.
  destruct (item_nested D item net detailData body c pcol Hin Hitem Ho Hc)
    as (records & Hn & Hcar).
  destruct (child_schema D HD c pcol Hc) as (sch & Hsch & _).
  destruct (Hsh Ho) as (idx & Hidx & _).
  assert (Hcommit : forall d d', wf_db d -> transaction body d = (Ok tt, d') ->
            filter (fun r => row_get r pcol = key_val idx) (rows_of d' c)
            = map (row_of sch) records).
  { intros d d' Hd Ht.
    destruct (committed_records D detailData body d d' c pcol idx records
                HD Hsh Hc Hd Ht Hidx Hcar) as (sch' & Hsch' & Hrows).
    by assert (sch' = sch) as -> by congruence. }
  exists sch, records. do 3 (split; [done|]). split; [|split; [|split]].
  - intros kcol field key xs names Hl Hf Hx.
    destruct (first_seen_spec [] names) as [Hnd Hel].
    split; [by eapply set_loop_keys|]. split; [done|].
    intros s. rewrite Hel. set_solver.
  - intros d d' Hd Ht. exists idx. split; [done | exact (Hcommit d d' Hd Ht)].
  - intros d Hd Hu. destruct (transaction body d) as [[[]|e] d'] eqn:Ht.
    + exfalso. pose proof (Hcommit d d' Hd Ht) as Hrows.
      destruct (committed_child_rows D detailData body d d' c pcol idx HD Hsh Hc Hd Ht Hidx)
        as (_ & Hwf & _).
      pose proof (wf_db_rows d' c sch Hwf Hsch) as Hw.
      apply andb_true_iff in Hw as [_ Hw].
      apply (unique_rows_filter sch (fun r => row_get r pcol = key_val idx)) in Hw.
      rewrite Hrows in Hw. congruence.
    + exists e. unfold transaction in Ht |- *.
      destruct (run body d) as [[[]|] ?]; [done|]. by injection Ht as <- <-.
  - by eapply keyless_tables.
Qed.

(** ** The parent rows of a sync (C2) *)


























(** *** The store the process leaves *)







(** ** The description of every mapper (C5) *)

Lemma object_assoc_None fields rec k :
  object fields = Ok rec -> assoc k fields = None -> assoc k rec = None.
Proof.
  revert rec. induction fields as [|[k' r'] fields IH]; intros rec.
  - by intros [= <-].
  - intros H. apply object_cons in H as (v & vs & -> & Hvs & ->). cbn [assoc].
    destruct (String.eqb k k'); [done | by apply IH].
Qed.

Ltac decide_name :=
  repeat match goal with
         | |- context [bool_decide ?P] =>
             let b := eval vm_compute in (bool_decide P) in
             change (bool_decide P) with b
         end;
  cbv iota.

(** C5 (amended). For every resource, when the detail document carries
    [desc] as the array of paragraphs [ps] and the mapper makes a record: the
    record has no description for the resources of [without_description];
    its description is the array itself, not joined, for those of
    [copied_descriptions]; and for every other resource it is the one text
    made of the paragraphs with two line feeds between them. *)
Theorem description_joined name (m : mapper) d ps rec :
  (name, m) ∈ mappers ->
  get d "desc" = Ok (JArr (map JStr ps)) ->
  m d = Ok rec ->
  assoc "description" rec =
    if bool_decide (name ∈ without_description) then None
    else if bool_decide (name ∈ copied_descriptions) then Some (JArr (map JStr ps))
    else Some (JStr (String.concat blank_line ps)).
Proof.
  intros Hin Hd H. unfold mappers, resources, generic_endpoints in Hin.
  cbn [map app fst snd] in Hin.
  repeat (apply elem_of_cons in Hin as [[= -> ->] | Hin]); try (by apply elem_of_nil in Hin);
    decide_name;
    try apply record_of_build in H;
    unfold classRecord, monsterRecord, profRecord, raceRecord, spellRecord, subRecord,
      traitRecord in H;
    first [ by (eapply object_assoc_None; [exact H | reflexivity])
          | description_of H; unfold desc_joined, or_null in H; rewrite ?Hd in H;
            cbn [mbind result_bind truthy js_or] in H;
            rewrite ?Hd in H; cbn [mbind result_bind] in H;
            try change (js_join (JArr (map JStr ps)) blank_line = Ok x) in H;
            rewrite ?join_paragraphs in H; congruence ].
Qed.

(** ** Documents with and without an optional field (C8) *)

















(** ** The claims as they were stated, where they fail *)

(** C1 (as stated, refuted). The class document of the bard lists three
    starting-equipment entries; the sync answers 200, and the child table
    holds one row under the bard's key: the entries without an equipment
    index are not stored. *)
Lemma bard_equipment_left_out :
  array_of bard "starting_equipment"
  = Ok [ JObj [("equipment", indexed "leather-armor"); ("quantity", JNum 1)];
         JObj [("quantity", JNum 1)];
         JObj [("equipment", JObj [("name", JStr "Dagger")]); ("quantity", JNum 1)] ]
  /\ fst (syncClasses (one_class bard) ∅)
     = res_200 "Classes synced successfully! 1 records processed."
  /\ filter (fun r => row_get r "class_index" = SText "bard")
       (rows_of (snd (syncClasses (one_class bard) ∅)) "class_starting_equipment")
     = [[("class_index", SText "bard"); ("equipment_index", SText "leather-armor");
         ("quantity", SNum 1)]].
Proof. split; [reflexivity|]. split; by vm_compute. Qed.

(** C5 (as stated, refuted). The detail document of a magic school that
    carries its description as two paragraphs: the mapper copies the array,
    it does not join it; the database refuses the statement, nothing is
    stored and the sync answers 500. *)
Lemma magic_school_paragraphs_not_joined :
  get evocation "desc" = Ok (JArr [JStr "para1"; JStr "para2"])
  /\ (exists rec, record_of magic_schools_builder evocation = Ok rec
        /\ assoc "description" rec = Some (JArr [JStr "para1"; JStr "para2"]))
  /\ status (fst (generic_run "magic-schools" "magic_schools" magic_schools_builder
                    one_school ∅)) = 500%Z
  /\ rows_of (snd (generic_run "magic-schools" "magic_schools" magic_schools_builder
                     one_school ∅)) "magic_schools" = [].
Proof.
  split; [reflexivity|]. split; [eexists; split; reflexivity|]. split; by vm_compute.
Qed.


(** ** Remote sources none of whose records the database rejects *)

Lemma syncResource_promises_same t name b net d1 d2 :
  upsert_builder t b ->
  queryPromises (snd (syncResource name t b net d1))
  = queryPromises (snd (syncResource name t b net d2)).
Proof.
  intros Hb. unfold syncResource.
  destruct (generic_listing net name) as [items|]; [|done]. cbv zeta.
  match goal with |- context [generic_loop ?n ?b ?net ?items ?st] =>
    match goal with |- context [generic_loop n b net items ?st'] =>
      lazymatch st' with st => fail | _ =>
        destruct (generic_loop_same t n b net items st st' Hb eq_refl) as [E1 E2] end end end.
  destruct (generic_loop _ _ _ _ _) as [[[]|x1] st1], (generic_loop _ _ _ _ _) as [[[]|x2] st2];
    cbn [fst snd] in *; try done.
  rewrite E2. by destruct (Promise_all _).
Qed.

(** When no upsert is rejected on the empty store, none is on any store. *)
Lemma quiet_on_empty net :
  forallb (fun g => forallb is_ok
                      (queryPromises (snd (syncResource (fst g) (fst (snd g)) (snd (snd g))
                                             net ∅))))
    generic_endpoints = true ->
  quiet net.
Proof.
  intros H path d. unfold no_rejection, route_promises.
  destruct (List.find _ generic_endpoints) as [g|] eqn:Hf; [|constructor].
  apply List.find_some in Hf as [Hin _].
  rewrite forallb_forall in H. specialize (H g Hin).
  pose proof builders_upsert as Hb. rewrite Forall_forall in Hb.
  specialize (Hb g (proj2 (list_elem_of_In _ _) Hin)).
  rewrite (syncResource_promises_same _ _ _ net d ∅ Hb).
  apply Forall_forall. intros p Hp. rewrite forallb_forall in H.
  apply H. by apply list_elem_of_In.
Qed.

(** ** These theorems at concrete inputs *)

(** The dwarf with the traits A, B, C, synced again with B, D: its rows in
    the trait table are those of the two entries of the document, B and D. *)
Lemma child_tables_replaced_witness :
  wf_db races_then
  /\ transaction (race_body dwarf_now) races_then = (Ok tt, races_now)
  /\ rows_of races_then "race_traits"
     = [race_trait "dwarf" "trait-a"; race_trait "dwarf" "trait-b"; race_trait "dwarf" "trait-c"]
  /\ nested "race_traits" (one_race dwarf_now) dwarf_now
     = Ok [ [("race_index", JStr "dwarf"); ("trait_index", JStr "trait-b")];
            [("race_index", JStr "dwarf"); ("trait_index", JStr "trait-d")] ]
  /\ filter (fun r => row_get r "race_index" = SText "dwarf") (rows_of races_now "race_traits")
     = [race_trait "dwarf" "trait-b"; race_trait "dwarf" "trait-d"].
Proof.
  assert (Hwf : wf_db races_then).
  { apply (enriched_stable races_desc "Races" "races" race_item eq_refl
             (body_item_shaped _ _ race_body_script) (one_race dwarf_then) ∅ wf_db_empty). }
  assert (Ht : transaction (race_body dwarf_now) races_then = (Ok tt, races_now))
    by (vm_compute; reflexivity).
  split; [exact Hwf|]. split; [exact Ht|].
  split; [by vm_compute|]. split; [reflexivity|].
  destruct (child_tables_replaced races_desc race_item (one_race dwarf_now) dwarf_now
              (race_body dwarf_now) races_then races_now)
    as (idx & p & Hidx & Hp & _ & _ & Hrows);
    [unfold enriched_resources; in_list | exact Hwf | reflexivity | exact Ht |].
  injection Hidx as <-. injection Hp as <-.
  destruct (Hrows "race_traits" "race_index") as (sch & records & Hs & Hn & H1 & _); [in_list|].
  rewrite H1. injection Hs as <-. injection Hn as <-. reflexivity.
Defined.


(** Charmed twice: one insert, one record; and a class that lists the same
    armor twice has it stored twice. *)
Lemma repeats_skipped_by_set_loops_witness :
  outcome (monster_body charmed_twice) = Ok tt
  /\ nested "monster_condition_immunities" (one_monster charmed_twice) charmed_twice
     = Ok [[("monster_index", JStr "aboleth"); ("condition_index", JStr "charmed")]]
  /\ map (assoc "condition_index")
       [[("monster_index", JStr "aboleth"); ("condition_index", JStr "charmed")]]
     = map (fun s => Some (JStr s)) (first_seen [] ["charmed"; "charmed"])
  /\ inserts_into "monster_condition_immunities" (issued (monster_body charmed_twice))
     = [InsertValues "monster_condition_immunities" ["monster_index"; "condition_index"]
          [JStr "aboleth"; JStr "charmed"]]
  /\ fst (syncClasses (one_class two_armors) ∅)
     = res_200 "Classes synced successfully! 1 records processed."
  /\ rows_of (snd (syncClasses (one_class two_armors) ∅)) "class_starting_equipment"
     = [ [("class_index", SText "bard"); ("equipment_index", SText "leather-armor");
          ("quantity", SNum 1)];
         [("class_index", SText "bard"); ("equipment_index", SText "leather-armor");
          ("quantity", SNum 1)] ].
Proof.
  assert (Ho : outcome (monster_body charmed_twice) = Ok tt) by (vm_compute; reflexivity).
  split; [exact Ho|]. split; [reflexivity|].
  destruct (repeats_skipped_by_set_loops monsters_desc monster_item (one_monster charmed_twice)
              charmed_twice (monster_body charmed_twice)
              "monster_condition_immunities" "monster_index")
    as (sch & records & _ & Hn & _ & Hset & _);
    [unfold enriched_resources; in_list | in_list | reflexivity | exact Ho |].
  injection Hn as <-.
  split; [|split; [|split]; by vm_compute].
  refine (proj1 (Hset "condition_index" "condition_immunities" (fun x => get x "index")
                   [indexed "charmed"; indexed "charmed"] ["charmed"; "charmed"] _ eq_refl _)).
  - unfold set_loops. in_list.
  - repeat constructor.
Defined.

(** The two paragraphs of Acrobatics are joined; a magic school keeps its
    array. *)
Lemma description_joined_witness :
  get acrobatics "desc" = Ok (JArr (map JStr ["para1"; "para2"]))
  /\ assoc "description"
       [ ("index", JStr "acrobatics"); ("name", JStr "Acrobatics");
         ("description", JStr ("para1" ++ blank_line ++ "para2"));
         ("ability_score", JStr "DEX") ]
     = Some (JStr (String.concat blank_line ["para1"; "para2"])).
Proof.
  split; [reflexivity|].
  exact (description_joined "skills" (record_of skills_builder) acrobatics ["para1"; "para2"]
           [ ("index", JStr "acrobatics"); ("name", JStr "Acrobatics");
             ("description", JStr ("para1" ++ blank_line ++ "para2"));
             ("ability_score", JStr "DEX") ]
           ltac:(unfold mappers, resources; in_list) eq_refl eq_refl).
Defined.


(** Two skills, the first without a name: the column refuses it, the
    callback runs while the second skill is fetched, and the request gets no
    answer. *)
Lemma unhandled_rejection_ends_process_witness :
  generic_listing nameless_first "skills"
  = Ok [entry "Acrobatics" "/api/skills/acrobatics"; entry "Stealth" "/api/skills/stealth"]
  /\ fst (syncResource_process throw at_once "skills" "skills" skills_builder nameless_first ∅)
     = NoAnswer (FailedOn "skills" "undefined"
                   (SqlError "ER_BAD_NULL_ERROR"
                      ("Column " ++ squote ++ "name" ++ squote ++ " cannot be null")))
  /\ conn (snd (syncResource_process throw at_once "skills" "skills" skills_builder
                  nameless_first ∅)) = ∅
  /\ log (snd (syncResource_process throw at_once "skills" "skills" skills_builder
                 nameless_first ∅))
     = [ FetchStarted (api ++ "/api/skills"); FetchSettled (api ++ "/api/skills");
         FetchStarted (api ++ "/api/skills/acrobatics");
         FetchSettled (api ++ "/api/skills/acrobatics");
         QueryIssued 0;
         FetchStarted (api ++ "/api/skills/stealth") ].
Proof.
  assert (Hl : generic_listing nameless_first "skills"
               = Ok ([] ++ entry "Acrobatics" "/api/skills/acrobatics"
                     :: entry "Stealth" "/api/skills/stealth" :: [])%list)
    by (vm_compute; reflexivity).
  split; [exact Hl|].
  destruct (unhandled_rejection_ends_process "skills" "skills" skills_builder nameless_first ∅
              [] (entry "Acrobatics" "/api/skills/acrobatics")
              (entry "Stealth" "/api/skills/stealth") [] []
              ([ ("index", JStr "acrobatics"); ("name", JUndefined);
                 ("description", JStr "para1"); ("ability_score", JStr "DEX") ],
               upsert_sql "skills" ["index"; "name"; "description"; "ability_score"])
              (FailedOn "skills" "undefined"
                 (SqlError "ER_BAD_NULL_ERROR"
                    ("Column " ++ squote ++ "name" ++ squote ++ " cannot be null")))
              (JStr "/api/skills/stealth") at_once Hl)
    as (H1 & H2 & _ & H4);
    [constructor | constructor | reflexivity | by vm_compute | reflexivity | reflexivity |].
  split; [exact H1|]. split; [exact H2|]. rewrite H4. reflexivity.
Defined.

(** The page of the second skill is not served: the first skill is stored,
    the answer is the error of the fetch, and the process lives on. *)
Lemma builder_failure_keeps_earlier_upserts_witness :
  generic_listing stealth_unreachable "skills"
  = Ok ([entry "Acrobatics" "/api/skills/acrobatics"]
        ++ entry "Stealth" "/api/skills/stealth" :: [])%list
  /\ prepared skills_builder stealth_unreachable (entry "Stealth" "/api/skills/stealth")
     = Err (FetchFailed (api ++ "/api/skills/stealth"))
  /\ fst (syncResource_process throw at_once "skills" "skills" skills_builder
            stealth_unreachable ∅)
     = Answered (res_500 (FetchFailed (api ++ "/api/skills/stealth"))) true
  /\ rows_of (conn (snd (syncResource_process throw at_once "skills" "skills" skills_builder
                           stealth_unreachable ∅)))
       "skills"
     = [acrobatics_row].
Proof.
  assert (Hl : generic_listing stealth_unreachable "skills"
               = Ok ([entry "Acrobatics" "/api/skills/acrobatics"]
                     ++ entry "Stealth" "/api/skills/stealth" :: [])%list)
    by (vm_compute; reflexivity).
  assert (He : prepared skills_builder stealth_unreachable
                 (entry "Stealth" "/api/skills/stealth")
               = Err (FetchFailed (api ++ "/api/skills/stealth")))
    by (vm_compute; reflexivity).
  split; [exact Hl|]. split; [exact He|].
  destruct (builder_failure_keeps_earlier_upserts throw at_once "skills" "skills" skills_builder
              stealth_unreachable ∅ [entry "Acrobatics" "/api/skills/acrobatics"]
              (entry "Stealth" "/api/skills/stealth") []
              [ ([ ("index", JStr "acrobatics"); ("name", JStr "Acrobatics");
                   ("description", JStr ("para1" ++ blank_line ++ "para2"));
                   ("ability_score", JStr "DEX") ],
                 upsert_sql "skills" ["index"; "name"; "description"; "ability_score"]) ]
              (FetchFailed (api ++ "/api/skills/stealth")) Hl)
    as (H1 & _ & H3 & _); [repeat constructor | repeat constructor | exact He |].
  split; [exact H1|]. rewrite H3. by vm_compute.
Defined.

(** A click on Skills, with Acrobatics on the list. *)
Lemma click_shows_server_answer_witness :
  "skills" ∈ page_paths
  /\ no_rejection one_skill "skills" ∅
  /\ map textContent
       (statusPanel
          (document (handleSync (express_process throw at_once (Rejected "gone")
                                   (Rejected "Failed to fetch") one_skill)
                       noon "skills" (alive (page_on ∅)))))
     = [ "Awaiting your command...";
         "[12:00:00] Initiating sync for skills...";
         "[12:00:00] skills synced successfully! 1 records processed." ]
  /\ exists D sync,
       ("/sync-" ++ "skills", (D, sync)) ∈ endpoints
       /\ backend (handleSync (express_process throw at_once (Rejected "gone")
                                 (Rejected "Failed to fetch") one_skill)
                     noon "skills" (alive (page_on ∅)))
          = (true, snd (sync one_skill ∅)).
Proof.
  assert (Hin : "skills" ∈ page_paths) by (unfold page_paths, syncEndpoints; in_list).
  assert (Hq : no_rejection one_skill "skills" ∅) by (vm_compute; repeat constructor).
  split; [exact Hin|]. split; [exact Hq|]. split; [by vm_compute|].
  destruct (click_shows_server_answer throw at_once (Rejected "gone")
              (Rejected "Failed to fetch") one_skill noon "skills" (page_on ∅) Hin Hq)
    as (D & sync & r & H1 & _ & H3 & _).
  exists D, sync. split; [exact H1 | exact H3].
Defined.

(** One ability score, one alignment, and no list of conditions: Sync All
    stores the two rows and stops at the third request, both times. *)
Lemma sync_all_again_changes_nothing_witness :
  map dataset_path (allButtons (document (page_on (∅ : gmap string (list row))))) = page_paths
  /\ quiet conditions_missing
  /\ length (requested (handleSyncAll (express_process throw at_once (Rejected "gone")
                                         (Rejected "Failed to fetch") conditions_missing)
                          noon percent (alive (page_on ∅)))) = 3
  /\ map (fun t => length (rows_of (snd (backend
             (handleSyncAll (express_process throw at_once (Rejected "gone")
                               (Rejected "Failed to fetch") conditions_missing)
                noon percent (alive (page_on ∅))))) t))
       ["ability_scores"; "alignments"; "conditions"]
     = [1; 1; 0]
  /\ backend (handleSyncAll (express_process throw at_once (Rejected "gone")
                               (Rejected "Failed to fetch") conditions_missing)
                noon percent
                (handleSyncAll (express_process throw at_once (Rejected "gone")
                                  (Rejected "Failed to fetch") conditions_missing)
                   noon percent (alive (page_on ∅))))
     = backend (handleSyncAll (express_process throw at_once (Rejected "gone")
                                 (Rejected "Failed to fetch") conditions_missing)
                  noon percent (alive (page_on ∅))).
Proof.
  assert (Hp : map dataset_path (allButtons (document (page_on (∅ : gmap string (list row)))))
               = page_paths) by reflexivity.
  assert (Hq : quiet conditions_missing) by (apply quiet_on_empty; vm_compute; reflexivity).
  split; [exact Hp|]. split; [exact Hq|]. split; [by vm_compute|]. split; [by vm_compute|].
  exact (proj1 (sync_all_again_changes_nothing throw at_once (Rejected "gone")
                  (Rejected "Failed to fetch") conditions_missing noon percent
                  (page_on ∅) Hp wf_db_empty Hq)).
Defined.
